(** * claude-stack: dependency graph, topological order and execution engine

    A shallow embedding of the core of the [claude-stack] CLI.  Modules
    are named as the program imports them; where the source tree at hand
    keeps the code under another file name, that name follows in
    parentheses:
    - [core/dependency-graph] (second half of [src/core/stack-manager.ts]):
      [buildDependencyGraph], [detectCycle], [topologicalSort],
      [findRootPlans], [plansToStackPlans], [getExecutionOrder];
    - [storage/status-store] ([src/storage/status-store.ts]) and
      [types/status] ([unnamed/part_000]): the durable per-stack status
      record;
    - [storage/stack-store] ([unnamed/part_001]) and [core/stack-manager]
      ([src/core/stack-manager.ts]): the durable stack record,
      [createStack], [createStackFromPlan], [addPlansToStack],
      [removePlansFromStack] and [updateStackPlanStatus];
    - [core/plan-parser] ([src/core/plan-parser.ts]): the plans directory
      as [loadPlanById] reads it, and the wiki links of the references;
    - [core/executor] ([src/core/executor.ts]): [executePlan],
      [executeStack], [getStackExecutionStatus];
    - the [run] command ([runCommand] in [src/cli/commands/init.ts]), the
      tree and the list of the [ls] command ([src/cli/commands/ls.ts])
      and the counts of the [status] command
      ([src/cli/commands/create.ts]).

    JavaScript [Map]s are association lists in insertion order (a [Map]
    that is only read by key, [planTitles], is a [gmap]), [Set]s and
    plain objects used as dictionaries are [gset]/[gmap], numbers are [Z].
    The file system is a pair of finite maps from stack names to records,
    and the plans directory: a finite map from file names to plan files,
    together with what is read through an id that is a path.  The two
    external collaborators (the system clock and the worker process) are
    oracles; the worker oracle also says when [spawn] throws, and that
    exception leaves [executePlan], [executeStack] and the [run] command,
    none of which catches it.  A lookup [obj[id]] in a plain object finds
    the properties every object inherits from [Object.prototype]; this
    is modelled where the program tests the result, in the backfill of
    [loadStackStatus].  Loops of the program whose termination is not
    structural ([dfs], the queue loop of the sorter, [buildNode], and the
    loop of [resolveAllDependencies] when no reference names a plan
    through a path) carry a bound that is proved never to be reached.

    Not modelled: failures of the file system other than a missing file;
    status files whose content is not a status record; the callbacks of a
    run; path separators other than the POSIX one; the assignment
    [planStatuses["__proto__"] = ...] of [updatePlanStatus], which sets
    the prototype of the object instead of an entry; and the status label
    the tree of [ls] shows for a task whose id is an inherited name. *)

From Stdlib Require Import ZArith DecimalString.
From stdpp Require Import gmap strings list.

Open Scope string_scope.
Open Scope list_scope.
Open Scope nat_scope.

(** ** JavaScript helpers *)

(** [Array.prototype.indexOf]: the first index of [x], or [-1]. *)
Fixpoint indexOf (x : string) (l : list string) : Z :=
  match l with
  | [] => (-1)%Z
  | y :: l' =>
      if decide (y = x) then 0%Z
      else let i := indexOf x l' in
           if decide (i = (-1)%Z) then (-1)%Z else (i + 1)%Z
  end.

(** [Array.prototype.slice(start)]: a negative [start] counts from the end
    and is clamped at the beginning of the array. *)
Definition slice_from {A : Type} (start : Z) (l : list A) : list A :=
  if decide (start < 0)%Z
  then drop (Z.to_nat (Z.max (Z.of_nat (length l) + start) 0)) l
  else drop (Z.to_nat start) l.

(** [Array.prototype.includes]. *)
Definition includes (x : string) (l : list string) : bool :=
  bool_decide (x ∈ l).

(** [Array.prototype.join]. *)
Definition join (sep : string) (l : list string) : string :=
  String.concat sep l.

(** A JavaScript [Map<string, V>]: entries in insertion order, one entry per
    key.  [set] on a key already present overwrites the value in place and
    keeps the position of the entry; on a fresh key it appends. *)
Module JsMap.
Section js_map.
Context {V : Type}.

Fixpoint get (k : string) (m : list (string * V)) : option V :=
  match m with
  | [] => None
  | (k', v) :: m' => if decide (k' = k) then Some v else get k m'
  end.

Definition has (k : string) (m : list (string * V)) : bool :=
  match get k m with Some _ => true | None => false end.

Fixpoint set (k : string) (v : V) (m : list (string * V)) : list (string * V) :=
  match m with
  | [] => [(k, v)]
  | (k', v') :: m' =>
      if decide (k' = k) then (k', v) :: m' else (k', v') :: set k v m'
  end.

Definition keys (m : list (string * V)) : list string := m.*1.
End js_map.
End JsMap.

(** ** Types ([types/plan], [types/stack]) *)

Inductive ExecutionStatus :=
  | pending | running | completed | failed | skipped.

#[global] Instance ExecutionStatus_eq_dec : EqDecision ExecutionStatus.
Proof. solve_decision. Defined.

(** Of a [Plan] the core reads the id, the declared references and (in the
    worker) the content. *)
Record Plan := {
  plan_planId : string;
  plan_references : list string;
  plan_content : string;
}.

Record StackPlan := {
  sp_planId : string;
  sp_dependsOnPlanIds : list string;
  sp_executionStatus : ExecutionStatus;
  sp_lastExecutedAt : option string;
  sp_executionDurationMs : option Z;
}.

Record Stack := {
  stk_stackName : string;
  stk_stackDescription : option string;
  stk_plans : list StackPlan;
  stk_rootPlanIds : list string;
  stk_createdAt : string;
  stk_updatedAt : string;
}.

(** ** The dependency graph ([core/dependency-graph]) *)

Record DependencyNode := {
  dn_planId : string;
  dn_dependsOnPlanIds : list string;
  dn_dependentPlanIds : list string;
}.

Record TopologicalSortResult := {
  sortedPlanIds : list string;
  hasCycle : bool;
  cycleNodes : option (list string);
}.

Abbreviation Graph := (list (string * DependencyNode)).

Definition with_dependsOn (deps : list string) (n : DependencyNode) : DependencyNode :=
  {| dn_planId := dn_planId n;
     dn_dependsOnPlanIds := deps;
     dn_dependentPlanIds := dn_dependentPlanIds n |}.

(** [depNode.dependentPlanIds.push(planId)] on the node stored under
    [depId], when there is one. *)
Definition push_dependent (planId : string) (graph : Graph) (depId : string) : Graph :=
  match JsMap.get depId graph with
  | Some depNode =>
      JsMap.set depId
        {| dn_planId := dn_planId depNode;
           dn_dependsOnPlanIds := dn_dependsOnPlanIds depNode;
           dn_dependentPlanIds := dn_dependentPlanIds depNode ++ [planId] |}
        graph
  | None => graph
  end.

Definition buildDependencyGraph
    (plans : list Plan) (availablePlanIds : gset string) : Graph :=
  let graph0 :=
    foldl (fun graph plan =>
             JsMap.set (plan_planId plan)
               {| dn_planId := plan_planId plan;
                  dn_dependsOnPlanIds := [];
                  dn_dependentPlanIds := [] |} graph)
          [] plans in
  foldl (fun graph plan =>
           match JsMap.get (plan_planId plan) graph with
           | None => graph
           | Some node =>
               let validDependencies :=
                 filter (fun refId => refId ∈ availablePlanIds)
                        (plan_references plan) in
               let graph1 :=
                 JsMap.set (plan_planId plan)
                           (with_dependsOn validDependencies node) graph in
               foldl (push_dependent (plan_planId plan)) graph1 validDependencies
           end)
        graph0 plans.

(** *** Cycle detection *)

Record DfsState := {
  visited : gset string;
  recursionStack : gset string;
  cycleNodes_acc : list string;
}.

(** The first two statements of [dfs]. *)
Definition dfs_enter (nodeId : string) (path : list string) (st : DfsState) : DfsState :=
  {| visited := {[nodeId]} ∪ visited st;
     recursionStack := {[join " -> " path]} ∪ recursionStack st;
     cycleNodes_acc := cycleNodes_acc st |}.

(** [cycleNodes.push(...path.slice(cycleStart), depId)]. *)
Definition push_cycle (path : list string) (depId : string) (st : DfsState) : DfsState :=
  let cycleStart := indexOf depId path in
  {| visited := visited st;
     recursionStack := recursionStack st;
     cycleNodes_acc := cycleNodes_acc st ++ slice_from cycleStart path ++ [depId] |}.

(** The [for] loop of [dfs] over the dependencies of the current node, with
    the recursive call abstracted as [rec].  [None] is reserved for a
    recursion that ran out of its depth bound. *)
Fixpoint dfs_deps
    (rec : string -> list string -> DfsState -> option (bool * DfsState))
    (path : list string) (deps : list string) (st : DfsState)
    : option (bool * DfsState) :=
  match deps with
  | [] => Some (false, st)
  | depId :: rest =>
      if decide (depId ∈ visited st) then
        if includes depId path then Some (true, push_cycle path depId st)
        else dfs_deps rec path rest st
      else
        match rec depId (path ++ [depId]) st with
        | None => None
        | Some (true, st') => Some (true, st')
        | Some (false, st') => dfs_deps rec path rest st'
        end
  end.

(** The recursive closure [dfs] of [detectCycle]; [depth] bounds the nesting
    of the recursion (see [dfs_depth] and [detectCycle_total]). *)
Fixpoint dfs (graph : Graph) (depth : nat) (nodeId : string) (path : list string)
    (st : DfsState) : option (bool * DfsState) :=
  match depth with
  | O => None
  | S depth' =>
      let st1 := dfs_enter nodeId path st in
      match JsMap.get nodeId graph with
      | None => Some (false, st1)
      | Some node =>
          dfs_deps (dfs graph depth') path (dn_dependsOnPlanIds node) st1
      end
  end.

(** The outer [for (const nodeId of graph.keys())] loop. *)
Fixpoint detect_roots (graph : Graph) (depth : nat) (roots : list string)
    (st : DfsState) : option (bool * DfsState) :=
  match roots with
  | [] => Some (false, st)
  | nodeId :: rest =>
      if decide (nodeId ∈ visited st) then detect_roots graph depth rest st
      else
        match dfs graph depth nodeId [nodeId] st with
        | None => None
        | Some (true, st') => Some (true, st')
        | Some (false, st') => detect_roots graph depth rest st'
        end
  end.

(** Every id the traversal can reach: the keys and every declared
    dependency. *)
Definition graph_ids (graph : Graph) : list string :=
  JsMap.keys graph ++ concat (map (fun e => dn_dependsOnPlanIds e.2) graph).

(** A nesting depth no traversal of [graph] exceeds: each nested call marks
    one more id of [graph_ids] as visited. *)
Definition dfs_depth (graph : Graph) : nat := S (length (graph_ids graph)).

Definition dfs_init : DfsState :=
  {| visited := ∅; recursionStack := ∅; cycleNodes_acc := [] |}.

Definition detectCycle_run (graph : Graph) : option (bool * DfsState) :=
  detect_roots graph (dfs_depth graph) (JsMap.keys graph) dfs_init.

(** [detectCycle]: [(hasCycle, cycleNodes)]. *)
Definition detectCycle (graph : Graph) : bool * list string :=
  match detectCycle_run graph with
  | Some (true, st) => (true, cycleNodes_acc st)
  | _ => (false, [])
  end.

(** *** Kahn's algorithm *)

Abbreviation Degrees := (list (string * Z)).

(** The two [graph.forEach] passes that fill [inDegree]. *)
Definition init_inDegree (graph : Graph) : Degrees :=
  let inDegree0 :=
    foldl (fun inDegree e =>
             if JsMap.has e.1 inDegree then inDegree
             else JsMap.set e.1 0%Z inDegree)
          [] graph in
  foldl (fun inDegree e =>
           let dependencyCount := Z.of_nat (length (dn_dependsOnPlanIds e.2)) in
           if decide (dependencyCount > 0)%Z
           then JsMap.set (dn_planId e.2) dependencyCount inDegree
           else inDegree)
        inDegree0 graph.

(** The seeding [inDegree.forEach]. *)
Definition seed_queue (inDegree : Degrees) : list string :=
  (filter (fun e => e.2 = 0%Z) inDegree).*1.

(** One step of [node.dependentPlanIds.forEach]. *)
Definition relax (st : Degrees * list string) (depId : string)
    : Degrees * list string :=
  let currentDegree := default 0%Z (JsMap.get depId st.1) in
  let newDegree := (currentDegree - 1)%Z in
  (JsMap.set depId newDegree st.1,
   if decide (newDegree = 0%Z) then st.2 ++ [depId] else st.2).

(** The [while (queue.length > 0)] loop; [fuel] bounds the number of
    iterations (see [kahn_fuel] and [kahn_loop_total]). *)
Fixpoint kahn_loop (graph : Graph) (fuel : nat)
    (inDegree : Degrees) (queue : list string) (sorted : list string)
    : option (list string) :=
  match queue with
  | [] => Some sorted
  | nodeId :: queue' =>
      match fuel with
      | O => None
      | S fuel' =>
          if decide (nodeId = "") then
            kahn_loop graph fuel' inDegree queue' sorted
          else
            let sorted' := sorted ++ [nodeId] in
            match JsMap.get nodeId graph with
            | None => kahn_loop graph fuel' inDegree queue' sorted'
            | Some node =>
                let st := foldl relax (inDegree, queue') (dn_dependentPlanIds node) in
                kahn_loop graph fuel' st.1 st.2 sorted'
            end
      end
  end.

(** Every iteration removes one entry from the queue, and an id enters the
    queue only when its degree drops from [1] to [0]: the loop runs at most
    once per entry of the initial [inDegree]. *)
Definition kahn_fuel (inDegree : Degrees) : nat := length inDegree.

Definition kahn_run (graph : Graph) : option (list string) :=
  let inDegree := init_inDegree graph in
  kahn_loop graph (kahn_fuel inDegree) inDegree (seed_queue inDegree) [].

Definition topologicalSort (graph : Graph) : TopologicalSortResult :=
  let cycleResult := detectCycle graph in
  if cycleResult.1 then
    {| sortedPlanIds := []; hasCycle := true; cycleNodes := Some cycleResult.2 |}
  else
    {| sortedPlanIds := default [] (kahn_run graph);
       hasCycle := false;
       cycleNodes := None |}.

Definition findRootPlans (graph : Graph) : list string :=
  (filter (fun e => length (dn_dependsOnPlanIds e.2) = 0) graph).*1.

Definition plansToStackPlans (plans : list Plan) : list StackPlan :=
  let availablePlanIds : gset string := list_to_set (map plan_planId plans) in
  let graph := buildDependencyGraph plans availablePlanIds in
  map (fun plan =>
         {| sp_planId := plan_planId plan;
            sp_dependsOnPlanIds :=
              match JsMap.get (plan_planId plan) graph with
              | Some node => dn_dependsOnPlanIds node
              | None => []
              end;
            sp_executionStatus := pending;
            sp_lastExecutedAt := None;
            sp_executionDurationMs := None |})
      plans.

(** The graph [getExecutionOrder] rebuilds from the persisted stack plans. *)
Definition stack_graph (stackPlans : list StackPlan) : Graph :=
  let graph0 :=
    foldl (fun graph stackPlan =>
             JsMap.set (sp_planId stackPlan)
               {| dn_planId := sp_planId stackPlan;
                  dn_dependsOnPlanIds := sp_dependsOnPlanIds stackPlan;
                  dn_dependentPlanIds := [] |} graph)
          [] stackPlans in
  foldl (fun graph stackPlan =>
           foldl (push_dependent (sp_planId stackPlan)) graph
                 (sp_dependsOnPlanIds stackPlan))
        graph0 stackPlans.

Definition getExecutionOrder (stackPlans : list StackPlan) : TopologicalSortResult :=
  topologicalSort (stack_graph stackPlans).

(** ** The durable status record ([storage/status-store]) *)

Record PlanExecutionStatus := {
  pes_planId : string;
  pes_executionStatus : ExecutionStatus;
  pes_lastExecutedAt : option string;
  pes_executionDurationMs : option Z;
  pes_errorMessage : option string;
  pes_exitCode : option Z;
}.

Record StackExecutionStatus := {
  ses_stackName : string;
  planStatuses : gmap string PlanExecutionStatus;
  lastRunAt : option string;
  isRunning : bool;
}.

Record ExecutePlanResult := {
  res_planId : string;
  res_executionStatus : ExecutionStatus;
  res_exitCode : option Z;
  res_errorMessage : option string;
  res_executionDurationMs : Z;
  res_output : string;
}.

(** What a call of [executePlan] meets: the plan file cannot be loaded
    (no process is spawned); [spawn] throws at once, inside the executor
    of the promise, which rejects (an empty command, an argument list too
    long); the process cannot be spawned ([error] event); or it closes
    with an exit code ([null] when it was killed by a signal).  The
    durations are those [executePlan] measures with [Date.now()]. *)
Inductive WorkerOutcome :=
  | PlanNotFound
  | SpawnThrew (message : string)
  | SpawnFailed (message : string) (durationMs : Z) (output : string)
  | Closed (code : option Z) (durationMs : Z) (output : string).

(** The two external collaborators: [now n] is the ISO timestamp of the
    [n]-th reading of the system clock with [new Date().toISOString()],
    [worker cmd planId n] what the [n]-th call of [executePlan] meets. *)
Record Env := {
  now : nat -> string;
  worker : string -> string -> nat -> WorkerOutcome;
}.

(** Observable effects, in the order in which they happen: the two kinds
    of file writes, and the calls of [executePlan] (a task is attempted). *)
Inductive Event :=
  | WriteStatus (status : StackExecutionStatus)
  | WriteStack (stack : Stack)
  | Invoke (planId : string).

(** The state of the world: the two directories of JSON files (keyed by
    the name of the stack), the number of clock readings and of calls of
    [executePlan] so far, and the trace of effects. *)
Record World := {
  stackFiles : gmap string Stack;
  statusFiles : gmap string StackExecutionStatus;
  clockReads : nat;
  launches : nat;
  trace : list Event;
}.

(** [new Date().toISOString()]: read with [isoNow], then [tick]. *)
Definition isoNow (env : Env) (w : World) : string := now env (clockReads w).

Definition tick (w : World) : World :=
  {| stackFiles := stackFiles w; statusFiles := statusFiles w;
     clockReads := S (clockReads w); launches := launches w;
     trace := trace w |}.

Definition pendingStatus (planId : string) : PlanExecutionStatus :=
  {| pes_planId := planId; pes_executionStatus := pending;
     pes_lastExecutedAt := None; pes_executionDurationMs := None;
     pes_errorMessage := None; pes_exitCode := None |}.

Definition createDefaultStatus (stackName : string) (planIds : list string)
    : StackExecutionStatus :=
  {| ses_stackName := stackName;
     planStatuses :=
       foldl (fun m planId => <[planId := pendingStatus planId]> m) ∅ planIds;
     lastRunAt := None;
     isRunning := false |}.

(** The names every plain object inherits from [Object.prototype].  A
    lookup [obj[name]] of one of them in an object without an entry of
    that name finds the inherited property, which is not falsy. *)
Definition inherited_names : list string :=
  ["constructor"; "__proto__"; "hasOwnProperty"; "isPrototypeOf";
   "propertyIsEnumerable"; "toLocaleString"; "toString"; "valueOf";
   "__defineGetter__"; "__defineSetter__"; "__lookupGetter__";
   "__lookupSetter__"].

Definition inherited (name : string) : Prop := name ∈ inherited_names.

(** The backfill of [loadStackStatus]: an id for which
    [!status.planStatuses[planId]] holds gets a pending entry; that is an
    id without an entry whose name is not inherited. *)
Definition backfill (planIds : list string)
    (m : gmap string PlanExecutionStatus) : gmap string PlanExecutionStatus :=
  foldl (fun m planId =>
           match m !! planId with
           | Some _ => m
           | None => if decide (inherited planId) then m
                     else <[planId := pendingStatus planId]> m
           end) m planIds.

Definition loadStackStatus (stackName : string) (planIds : list string)
    (w : World) : StackExecutionStatus :=
  match statusFiles w !! stackName with
  | Some status =>
      {| ses_stackName := ses_stackName status;
         planStatuses := backfill planIds (planStatuses status);
         lastRunAt := lastRunAt status;
         isRunning := isRunning status |}
  | None => createDefaultStatus stackName planIds
  end.

Definition saveStackStatus (status : StackExecutionStatus) (w : World) : World :=
  {| stackFiles := stackFiles w;
     statusFiles := <[ses_stackName status := status]> (statusFiles w);
     clockReads := clockReads w; launches := launches w;
     trace := trace w ++ [WriteStatus status] |}.

Definition updatePlanStatus (env : Env) (stackName : string)
    (planIds : list string) (planId : string)
    (executionStatus : ExecutionStatus) (errorMessage : option string)
    (exitCode : option Z) (executionDurationMs : option Z) (w : World) : World :=
  let status := loadStackStatus stackName planIds w in
  let planStatus :=
    {| pes_planId := planId;
       pes_executionStatus := executionStatus;
       pes_lastExecutedAt := Some (isoNow env w);
       pes_executionDurationMs := executionDurationMs;
       pes_errorMessage := errorMessage;
       pes_exitCode := exitCode |} in
  let w1 := tick w in
  let status' :=
    {| ses_stackName := ses_stackName status;
       planStatuses := <[planId := planStatus]> (planStatuses status);
       lastRunAt := Some (isoNow env w1);
       isRunning := isRunning status |} in
  saveStackStatus status' (tick w1).

Definition setStackRunning (env : Env) (stackName : string)
    (planIds : list string) (running : bool) (w : World) : World :=
  let status := loadStackStatus stackName planIds w in
  if running then
    saveStackStatus
      {| ses_stackName := ses_stackName status;
         planStatuses := planStatuses status;
         lastRunAt := Some (isoNow env w);
         isRunning := true |} (tick w)
  else
    saveStackStatus
      {| ses_stackName := ses_stackName status;
         planStatuses := planStatuses status;
         lastRunAt := lastRunAt status;
         isRunning := false |} w.

Definition resetStackStatus (stackName : string) (planIds : list string)
    (w : World) : World :=
  saveStackStatus (createDefaultStatus stackName planIds) w.

(** ** The durable stack record ([storage/stack-store],
    [core/stack-manager]) *)

Definition loadStack (stackName : string) (w : World) : option Stack :=
  stackFiles w !! stackName.

Definition saveStack (stack : Stack) (w : World) : World :=
  {| stackFiles := <[stk_stackName stack := stack]> (stackFiles w);
     statusFiles := statusFiles w;
     clockReads := clockReads w; launches := launches w;
     trace := trace w ++ [WriteStack stack] |}.

(** [Partial<StackPlan>]: for each field of a task, the new value if the
    update carries one. *)
Record StackPlanUpdates := {
  upd_planId : option string;
  upd_dependsOnPlanIds : option (list string);
  upd_executionStatus : option ExecutionStatus;
  upd_lastExecutedAt : option (option string);
  upd_executionDurationMs : option (option Z);
}.

(** [{ ...sp, ...updates }]. *)
Definition apply_updates (updates : StackPlanUpdates) (sp : StackPlan) : StackPlan :=
  {| sp_planId := default (sp_planId sp) (upd_planId updates);
     sp_dependsOnPlanIds :=
       default (sp_dependsOnPlanIds sp) (upd_dependsOnPlanIds updates);
     sp_executionStatus := default (sp_executionStatus sp) (upd_executionStatus updates);
     sp_lastExecutedAt := default (sp_lastExecutedAt sp) (upd_lastExecutedAt updates);
     sp_executionDurationMs :=
       default (sp_executionDurationMs sp) (upd_executionDurationMs updates) |}.

Definition not_found (stackName : string) : string :=
  "Stack '" +:+ stackName +:+ "' not found.".

(** Returns the error message of the exception, or the world after the
    write. *)
Definition updateStackPlanStatus (env : Env) (stackName planId : string)
    (updates : StackPlanUpdates) (w : World) : string + World :=
  match loadStack stackName w with
  | None => inl (not_found stackName)
  | Some stack =>
      let updatedPlans :=
        map (fun sp => if decide (sp_planId sp = planId)
                       then apply_updates updates sp else sp) (stk_plans stack) in
      let updatedStack :=
        {| stk_stackName := stk_stackName stack;
           stk_stackDescription := stk_stackDescription stack;
           stk_plans := updatedPlans;
           stk_rootPlanIds := stk_rootPlanIds stack;
           stk_createdAt := stk_createdAt stack;
           stk_updatedAt := isoNow env w |} in
      inr (saveStack updatedStack (tick w))
  end.

(** The tail of [createStack], once the plans are loaded and the
    references resolved: build the record and save it. *)
Definition createStack_save (env : Env) (stackName : string)
    (stackDescription : option string) (originalPlanIds : list string)
    (finalPlans : list Plan) (w : World) : World * Stack :=
  let availablePlanIds : gset string := list_to_set (map plan_planId finalPlans) in
  let graph := buildDependencyGraph finalPlans availablePlanIds in
  let computedRoots := findRootPlans graph in
  let roots := if decide (0 < length computedRoots)
               then computedRoots else originalPlanIds in
  let stack :=
    {| stk_stackName := stackName;
       stk_stackDescription := stackDescription;
       stk_plans := plansToStackPlans finalPlans;
       stk_rootPlanIds := roots;
       stk_createdAt := isoNow env w;
       stk_updatedAt := isoNow env (tick w) |} in
  (saveStack stack (tick (tick w)), stack).

(** ** The execution engine ([core/executor]) *)

Definition show_code (code : option Z) : string :=
  match code with
  | Some z => NilZero.string_of_int (Z.to_int z)
  | None => "null"
  end.

(** [executePlan]: the world after the call, and either the error the
    promise rejects with or the result it resolves with. *)
Definition executePlan (env : Env) (planId claudeCommand : string) (w : World)
    : World * (string + ExecutePlanResult) :=
  let w' :=
    {| stackFiles := stackFiles w; statusFiles := statusFiles w;
       clockReads := clockReads w; launches := S (launches w);
       trace := trace w ++ [Invoke planId] |} in
  (w',
   match worker env claudeCommand planId (launches w) with
   | PlanNotFound =>
       inr {| res_planId := planId; res_executionStatus := failed;
              res_exitCode := Some 1%Z;
              res_errorMessage := Some ("Plan '" +:+ planId +:+ "' not found.");
              res_executionDurationMs := 0%Z; res_output := "" |}
   | SpawnThrew message => inl message
   | SpawnFailed message durationMs output =>
       inr {| res_planId := planId; res_executionStatus := failed;
              res_exitCode := Some 1%Z;
              res_errorMessage := Some message;
              res_executionDurationMs := durationMs; res_output := output |}
   | Closed code durationMs output =>
       inr {| res_planId := planId;
              res_executionStatus :=
                if decide (code = Some 0%Z) then completed else failed;
              res_exitCode := code;
              res_errorMessage :=
                if decide (code = Some 0%Z) then None
                else Some ("Process exited with code " +:+ show_code code);
              res_executionDurationMs := durationMs; res_output := output |}
   end).

Record ExecuteStackResult := {
  results : list ExecutePlanResult;
  executionOrder : list string;
}.

(** The local state of the [for] loop of [executeStack]. *)
Record LoopState := {
  ls_world : World;
  ls_results : list ExecutePlanResult;
  ls_completedPlanIds : gset string;
}.

Definition skip_message : string := "Skipped due to failed dependencies.".

(** [stack.plans.find(p => p.planId === planId)]. *)
Fixpoint find_plan (planId : string) (stackPlans : list StackPlan) : option StackPlan :=
  match stackPlans with
  | [] => None
  | sp :: rest => if decide (sp_planId sp = planId) then Some sp
                  else find_plan planId rest
  end.

(** [stackPlan?.dependsOnPlanIds.some(depId => !completedPlanIds.has(depId))]. *)
Definition hasUnmetDependencies (stack : Stack) (planId : string)
    (completedPlanIds : gset string) : bool :=
  match find_plan planId (stk_plans stack) with
  | Some stackPlan =>
      bool_decide (Exists (fun depId => depId ∉ completedPlanIds)
                          (sp_dependsOnPlanIds stackPlan))
  | None => false
  end.

(** The update [{ executionStatus: s }]. *)
Definition status_only (s : ExecutionStatus) : StackPlanUpdates :=
  {| upd_planId := None; upd_dependsOnPlanIds := None;
     upd_executionStatus := Some s; upd_lastExecutedAt := None;
     upd_executionDurationMs := None |}.

(** One iteration of the loop; [inl] carries the world and the message of
    an exception that leaves the loop. *)
Definition exec_step (env : Env) (stackName claudeCommand : string) (stack : Stack)
    (planIds : list string) (st : LoopState) (planId : string)
    : (World * string) + LoopState :=
  if decide (planId ∈ ls_completedPlanIds st) then inr st
  else if hasUnmetDependencies stack planId (ls_completedPlanIds st) then
    let w1 := updatePlanStatus env stackName planIds planId skipped
                (Some skip_message) None None (ls_world st) in
    match updateStackPlanStatus env stackName planId (status_only skipped) w1 with
    | inl msg => inl (w1, msg)
    | inr w2 =>
        inr {| ls_world := w2;
               ls_results := ls_results st ++
                 [ {| res_planId := planId; res_executionStatus := skipped;
                      res_exitCode := None;
                      res_errorMessage := Some skip_message;
                      res_executionDurationMs := 0%Z; res_output := "" |} ];
               ls_completedPlanIds := ls_completedPlanIds st |}
    end
  else
    let w1 := updatePlanStatus env stackName planIds planId running
                None None None (ls_world st) in
    match updateStackPlanStatus env stackName planId (status_only running) w1 with
    | inl msg => inl (w1, msg)
    | inr w2 =>
        match executePlan env planId claudeCommand w2 with
        | (w3, inl msg) => inl (w3, msg)
        | (w3, inr result) =>
            let w4 := updatePlanStatus env stackName planIds planId
                        (res_executionStatus result) (res_errorMessage result)
                        (res_exitCode result)
                        (Some (res_executionDurationMs result)) w3 in
            let lastExecutedAt := isoNow env w4 in
            match updateStackPlanStatus env stackName planId
                    {| upd_planId := None; upd_dependsOnPlanIds := None;
                       upd_executionStatus := Some (res_executionStatus result);
                       upd_lastExecutedAt := Some (Some lastExecutedAt);
                       upd_executionDurationMs :=
                         Some (Some (res_executionDurationMs result)) |}
                    (tick w4) with
            | inl msg => inl (tick w4, msg)
            | inr w5 =>
                inr {| ls_world := w5;
                       ls_results := ls_results st ++ [result];
                       ls_completedPlanIds :=
                         if decide (res_executionStatus result = completed)
                         then {[planId]} ∪ ls_completedPlanIds st
                         else ls_completedPlanIds st |}
            end
        end
    end.

Fixpoint exec_loop (env : Env) (stackName claudeCommand : string) (stack : Stack)
    (planIds : list string) (order : list string) (st : LoopState)
    : (World * string) + LoopState :=
  match order with
  | [] => inr st
  | planId :: rest =>
      match exec_step env stackName claudeCommand stack planIds st planId with
      | inl e => inl e
      | inr st' => exec_loop env stackName claudeCommand stack planIds rest st'
      end
  end.

(** The seeding of [completedPlanIds] from the loaded status. *)
Definition seed_completed (stack : Stack) (currentStatus : StackExecutionStatus)
    : gset string :=
  foldl (fun acc sp =>
           match planStatuses currentStatus !! sp_planId sp with
           | Some planStatus =>
               if decide (pes_executionStatus planStatus = completed)
               then {[sp_planId sp]} ∪ acc else acc
           | None => acc
           end) ∅ (stk_plans stack).

(** [fromPlanId ? sorted.slice(sorted.indexOf(fromPlanId)) : sorted]; the
    empty string is falsy. *)
Definition truncate_order (fromPlanId : option string) (sorted : list string)
    : list string :=
  match fromPlanId with
  | Some f => if decide (f = "") then sorted
              else slice_from (indexOf f sorted) sorted
  | None => sorted
  end.

Definition cycle_message (cycle : option (list string)) : string :=
  "Dependency cycle detected: " +:+
  match cycle with Some c => join " -> " c | None => "unknown" end.

(** Everything [executeStack] does after the dry-run exit and before the
    closing [setStackRunning]. *)
Definition run_plans (env : Env) (stackName claudeCommand : string) (stack : Stack)
    (order : list string) (w : World) : (World * string) + LoopState :=
  let planIds := map sp_planId (stk_plans stack) in
  let w1 := setStackRunning env stackName planIds true w in
  let currentStatus := loadStackStatus stackName planIds w1 in
  exec_loop env stackName claudeCommand stack planIds order
    {| ls_world := w1; ls_results := [];
       ls_completedPlanIds := seed_completed stack currentStatus |}.

(** [executeStack]: the final world, and either the message of the
    exception thrown or the value returned. *)
Definition executeStack (env : Env) (stackName : string) (dryRun : bool)
    (fromPlanId : option string) (claudeCommand : string) (w : World)
    : World * (string + ExecuteStackResult) :=
  match loadStack stackName w with
  | None => (w, inl (not_found stackName))
  | Some stack =>
      let order := getExecutionOrder (stk_plans stack) in
      if hasCycle order then (w, inl (cycle_message (cycleNodes order)))
      else
        let executionOrder := truncate_order fromPlanId (sortedPlanIds order) in
        if dryRun then
          (w, inr {| results := []; executionOrder := executionOrder |})
        else
          match run_plans env stackName claudeCommand stack executionOrder w with
          | inl (w', msg) => (w', inl msg)
          | inr st =>
              let planIds := map sp_planId (stk_plans stack) in
              (setStackRunning env stackName planIds false (ls_world st),
               inr {| results := ls_results st;
                      executionOrder := executionOrder |})
          end
  end.

Definition getStackExecutionStatus (stackName : string) (w : World)
    : option StackExecutionStatus :=
  match loadStack stackName w with
  | None => None
  | Some stack => Some (loadStackStatus stackName (map sp_planId (stk_plans stack)) w)
  end.

(** ** The [run] command ([runCommand]) *)

Record RunOptions := {
  opt_dryRun : bool;
  opt_from : option string;
  opt_reset : bool;
  opt_claude : option string;
}.

(** What the command reports on the console. *)
Inductive RunOutcome :=
  | StackNotFound
  | AlreadyRunning
  | CycleDetected (cycle : option (list string))
  | FromNotFound
  | DryRun (executionOrder : list string)
  | Executed (r : ExecuteStackResult)
  | Crashed (message : string).

Definition runCommand (env : Env) (stackName : string) (options : RunOptions)
    (w : World) : World * RunOutcome :=
  match loadStack stackName w with
  | None => (w, StackNotFound)
  | Some stack =>
      if match getStackExecutionStatus stackName w with
         | Some currentStatus => isRunning currentStatus
         | None => false
         end
      then (w, AlreadyRunning)
      else
        let w1 := if opt_reset options
                  then resetStackStatus stackName (map sp_planId (stk_plans stack)) w
                  else w in
        let order := getExecutionOrder (stk_plans stack) in
        if hasCycle order then (w1, CycleDetected (cycleNodes order))
        else
          let executionOrder := truncate_order (opt_from options) (sortedPlanIds order) in
          if match opt_from options with
             | Some f => bool_decide (f ≠ "") && negb (includes f (sortedPlanIds order))
             | None => false
             end
          then (w1, FromNotFound)
          else if opt_dryRun options then (w1, DryRun executionOrder)
          else
            match executeStack env stackName false (opt_from options)
                    (default "claude" (opt_claude options)) w1 with
            | (w2, inl msg) => (w2, Crashed msg)
            | (w2, inr r) => (w2, Executed r)
            end
  end.

(** * Specification vocabulary and invariants *)

(** ** The edge relation of a graph *)

(** The dependencies of [x] as the traversal reads them: the [dependsOn]
    list of the node stored under [x], nothing for an id that is not a
    key. *)
Definition deps (graph : Graph) (x : string) : list string :=
  match JsMap.get x graph with
  | Some node => dn_dependsOnPlanIds node
  | None => []
  end.

(** The dependents of [x] as the loop reads them. *)
Definition rdeps (graph : Graph) (x : string) : list string :=
  match JsMap.get x graph with
  | Some node => dn_dependentPlanIds node
  | None => []
  end.

(** [edge graph u v]: [u] declares the dependency [v]. *)
Definition edge (graph : Graph) (u v : string) : Prop := v ∈ deps graph u.

(** A sequence of ids read as consecutive edges. *)
Fixpoint chain (graph : Graph) (l : list string) : Prop :=
  match l with
  | x :: (y :: _) as l' => edge graph x y ∧ chain graph l'
  | _ => True
  end.

(** A sequence that is contained in the edge set and returns to its
    start. *)
Definition closed_walk (graph : Graph) (l : list string) : Prop :=
  chain graph l ∧ ∃ c mid, l = c :: mid ++ [c].

(** Some id reaches itself along one or more edges. *)
Definition has_cycle (graph : Graph) : Prop := ∃ u, tc (edge graph) u u.

(** No id reaches itself. *)
Definition acyclic (graph : Graph) : Prop := ∀ u, ¬ tc (edge graph) u u.

(** [before l d t]: [d] occurs in [l] strictly before [t]. *)
Definition before (l : list string) (d t : string) : Prop :=
  ∃ l1 l2 l3, l = l1 ++ d :: l2 ++ t :: l3.

(** Number of occurrences of [x] in [l]. *)
Definition occ (x : string) (l : list string) : nat :=
  length (filter (fun y => y = x) l).

(** [last_dep graph order x u]: of the dependencies of [x], [u] is the one
    that comes last in [order]; [x] is ready once [u] is emitted. *)
Definition last_dep (graph : Graph) (order : list string) (x u : string) : Prop :=
  u ∈ deps graph x ∧ ∀ d, d ∈ deps graph x → d = u ∨ before order d u.

(** [last_before l x y]: the last occurrence of [x] in [l] comes before
    the last occurrence of [y]. *)
Definition last_before (l : list string) (x y : string) : Prop :=
  ∃ l1 l2 l3, l = l1 ++ x :: l2 ++ y :: l3 ∧ (x ∉ l2 ++ y :: l3) ∧ y ∉ l3.

(** ** Well-formed graphs and stacks *)

(** The representation invariant of a graph [Map]: one entry per key, and
    every node stored under its own id. *)
Definition keyed (graph : Graph) : Prop :=
  NoDup (JsMap.keys graph) ∧ ∀ k n, (k, n) ∈ graph → dn_planId n = k.

(** The invariants of a dependency graph (§3 of the specification): one
    node per id, stored under its own id; forward edges stay inside the
    graph; the reverse edges mirror the forward edges, occurrence for
    occurrence. *)
Record wf_graph (graph : Graph) : Prop := {
  wf_keys : NoDup (JsMap.keys graph);
  wf_planId : ∀ k n, (k, n) ∈ graph → dn_planId n = k;
  wf_deps : ∀ u v, v ∈ deps graph u → v ∈ JsMap.keys graph;
  wf_rdeps : ∀ u v, v ∈ rdeps graph u → v ∈ JsMap.keys graph;
  wf_mirror : ∀ u v, occ v (rdeps graph u) = occ u (deps graph v);
}.

(** The ids of the tasks of a stack, in stored order. *)
Definition plan_ids (stackPlans : list StackPlan) : list string :=
  map sp_planId stackPlans.

(** The structural invariants of a persisted stack (§3 of the
    specification): ids are unique within the stack and resolved
    dependencies never leave it. *)
Record wf_stackPlans (stackPlans : list StackPlan) : Prop := {
  wf_sp_ids : NoDup (plan_ids stackPlans);
  wf_sp_deps : ∀ sp d, sp ∈ stackPlans → d ∈ sp_dependsOnPlanIds sp →
                       d ∈ plan_ids stackPlans;
}.

(** [wf_stackPlans] as a check that evaluates. *)
Definition wf_stackPlans_check (stackPlans : list StackPlan) : bool :=
  bool_decide (NoDup (plan_ids stackPlans)) &&
  forallb (fun sp => forallb (fun d => bool_decide (d ∈ plan_ids stackPlans))
                             (sp_dependsOnPlanIds sp)) stackPlans.

(** ** Invariants of the cycle detector *)

(** What a call of [dfs] that started with an empty [cycleNodes] leaves
    there. *)
Definition cycle_post (graph : Graph) (r : bool * DfsState) : Prop :=
  if r.1 then closed_walk graph (cycleNodes_acc r.2)
  else cycleNodes_acc r.2 = [].

(** [finished_order graph F]: every id of [F] has all its dependencies
    further down the list (the order in which the traversal finished its
    nodes, latest first). *)
Fixpoint finished_order (graph : Graph) (F : list string) : Prop :=
  match F with
  | [] => True
  | x :: F' => (∀ d, d ∈ deps graph x → d ∈ F') ∧ finished_order graph F'
  end.

(** Visited ids are on the current path or finished. *)
Definition visited_inv (st : DfsState) (path F : list string) : Prop :=
  ∀ x, x ∈ visited st → x ∈ path ∨ x ∈ F.

(** The postcondition of a call [dfs node (pre ++ [node])] that reports
    no cycle. *)
Definition finish_post (graph : Graph) (node : string) (pre F : list string)
    (st' : DfsState) : Prop :=
  ∃ F', finished_order graph F' ∧ F ⊆ F' ∧ node ∈ F' ∧ visited_inv st' pre F'.

(** The ids a traversal can mark. *)
Definition universe (graph : Graph) : gset string := list_to_set (graph_ids graph).

(** ** Invariants of the sorter *)

(** The degree the loop reads for [v]: [inDegree.get(v) ?? 0]. *)
Definition dget (inDegree : Degrees) (v : string) : Z :=
  default 0%Z (JsMap.get v inDegree).

(** Entries of [inDegree] with a positive degree. *)
Definition positive_entries (deg : Degrees) : nat :=
  length (filter (fun e => (1 ≤ e.2)%Z) deg).

(** No id is emitted twice. *)
Definition emitted_inv (deg : Degrees) (q sorted : list string) : Prop :=
  NoDup (sorted ++ q) ∧ ∀ v, v ∈ sorted ++ q → (dget deg v ≤ 0)%Z.

(** The entry [init_inDegree] computes for a node. *)
Definition degree_entry (e : string * DependencyNode) : string * Z :=
  (e.1, Z.of_nat (length (dn_dependsOnPlanIds e.2))).

(** Dependencies of [v] (with multiplicity) not yet emitted. *)
Definition remaining (graph : Graph) (sorted : list string) (v : string) : nat :=
  length (filter (fun d => d ∉ sorted) (deps graph v)).

(** What is emitted so far is emitted in dependency order: the degrees
    count the dependencies not yet emitted, and only ids of degree zero are
    emitted or queued. *)
Definition kahn_safe (graph : Graph) (deg : Degrees) (q sorted : list string) : Prop :=
  NoDup (sorted ++ q) ∧
  (∀ v, v ∈ JsMap.keys graph → dget deg v = Z.of_nat (remaining graph sorted v)) ∧
  (∀ v, v ∈ sorted ++ q → v ∈ JsMap.keys graph ∧ dget deg v = 0%Z) ∧
  finished_order graph (reverse sorted).

(** Moreover, every id of degree zero is emitted or queued. *)
Definition kahn_inv (graph : Graph) (deg : Degrees) (q sorted : list string) : Prop :=
  NoDup (sorted ++ q) ∧
  (∀ v, v ∈ JsMap.keys graph → dget deg v = Z.of_nat (remaining graph sorted v)) ∧
  (∀ v, v ∈ sorted ++ q ↔ v ∈ JsMap.keys graph ∧ dget deg v = 0%Z) ∧
  finished_order graph (reverse sorted).

(** The elements of [l], each at the place of its last occurrence. *)
Fixpoint last_occurrences (l : list string) : list string :=
  match l with
  | [] => []
  | x :: l' =>
      if decide (x ∈ l') then last_occurrences l' else x :: last_occurrences l'
  end.

(** The queue discipline, for the ids emitted or queued so far: the ids
    without dependencies come first, in the insertion order of the graph;
    an id that became ready when [ux] was emitted comes before one that
    became ready when a later [uy] was emitted; and two ids that became
    ready with the same [u] come in the order of the dependents of [u]. *)
Definition fifo_inv (graph : Graph) (q sorted : list string) : Prop :=
  (∃ rest, sorted ++ q = findRootPlans graph ++ rest ∧
           ∀ x, x ∈ rest → deps graph x ≠ []) ∧
  (∀ x y ux uy, x ∈ sorted ++ q → y ∈ sorted ++ q →
     last_dep graph sorted x ux → last_dep graph sorted y uy →
     before sorted ux uy → before (sorted ++ q) x y) ∧
  (∀ x y u, x ∈ sorted ++ q → y ∈ sorted ++ q →
     last_dep graph sorted x u → last_dep graph sorted y u →
     last_before (rdeps graph u) x y → before (sorted ++ q) x y).

(** ** The graph of a stack and of a set of plans *)

(** A node with [l] appended to its dependents. *)
Definition add_dependents (l : list string) (n : DependencyNode) : DependencyNode :=
  {| dn_planId := dn_planId n;
     dn_dependsOnPlanIds := dn_dependsOnPlanIds n;
     dn_dependentPlanIds := dn_dependentPlanIds n ++ l |}.

(** What the second pass of [getExecutionOrder] appends to the dependents
    of [k]. *)
Definition pushes (stackPlans : list StackPlan) (k : string) : list string :=
  concat (map (fun sp => replicate (occ k (sp_dependsOnPlanIds sp)) (sp_planId sp))
              stackPlans).

(** The entry the first pass of [getExecutionOrder] stores for a task. *)
Definition stack_node (sp : StackPlan) : string * DependencyNode :=
  (sp_planId sp,
   {| dn_planId := sp_planId sp;
      dn_dependsOnPlanIds := sp_dependsOnPlanIds sp;
      dn_dependentPlanIds := [] |}).

(** [plan] with the references outside [availablePlanIds] erased. *)
Definition drop_dangling (availablePlanIds : gset string) (plan : Plan) : Plan :=
  {| plan_planId := plan_planId plan;
     plan_references :=
       filter (fun refId => refId ∈ availablePlanIds) (plan_references plan);
     plan_content := plan_content plan |}.

(** ** Observing the status store and the trace *)

(** Each status file holds the record of the stack it is named after
    (every record the store writes satisfies this). *)
Definition status_named (stackName : string) (w : World) : Prop :=
  ∀ st, statusFiles w !! stackName = Some st → ses_stackName st = stackName.

(** [status_named] as a check that evaluates. *)
Definition status_named_check (stackName : string) (w : World) : bool :=
  match statusFiles w !! stackName with
  | Some st => bool_decide (ses_stackName st = stackName)
  | None => true
  end.

(** The status of [planId] as the engine reads it. *)
Definition read_status (stackName : string) (planIds : list string)
    (w : World) (planId : string) : option PlanExecutionStatus :=
  planStatuses (loadStackStatus stackName planIds w) !! planId.

(** The [executionStatus] field of a record that was read. *)
Definition status_of (ps : option PlanExecutionStatus) : option ExecutionStatus :=
  pes_executionStatus <$> ps.

(** The record [updatePlanStatus] writes for the plan. *)
Definition written_status (env : Env) (planId : string)
    (executionStatus : ExecutionStatus) (errorMessage : option string)
    (exitCode executionDurationMs : option Z) (w : World) : PlanExecutionStatus :=
  {| pes_planId := planId;
     pes_executionStatus := executionStatus;
     pes_lastExecutedAt := Some (isoNow env w);
     pes_executionDurationMs := executionDurationMs;
     pes_errorMessage := errorMessage;
     pes_exitCode := exitCode |}.

(** The last write of [lastRunAt] was a clock reading taken since reading
    number [lo]. *)
Definition stamped (env : Env) (stackName : string) (planIds : list string)
    (lo : nat) (w : World) : Prop :=
  ∃ t, lastRunAt (loadStackStatus stackName planIds w) = Some (now env t) ∧
       lo ≤ t < clockReads w.

(** The status file of the stack is named after it and the stack is stored. *)
Definition world_ok (stackName : string) (w : World) : Prop :=
  status_named stackName w ∧ is_Some (stackFiles w !! stackName).

(** No call of the worker makes [spawn] throw. *)
Definition never_throws (env : Env) : Prop :=
  ∀ claudeCommand planId n message,
    worker env claudeCommand planId n ≠ SpawnThrew message.

(** The effects that happened between two worlds. *)
Definition new_events (w w' : World) : list Event :=
  drop (length (trace w)) (trace w').

(** The engine attempted [planId] between [w] and [w']: it called
    [executePlan] for it. *)
Definition invoked (w w' : World) (planId : string) : Prop :=
  Invoke planId ∈ new_events w w'.

(** The plans handed to the worker between two worlds, in order. *)
Definition invoked_ids (w w' : World) : list string :=
  omap (fun e => match e with Invoke p => Some p | _ => None end) (new_events w w').

(** The world the loop leaves, whether it returns or ends by an
    exception. *)
Definition loop_world (r : (World * string) + LoopState) : World :=
  match r with
  | inl e => e.1
  | inr st => ls_world st
  end.

(** The value returned by a run that did not throw. *)
Definition returned (x : World * (string + ExecuteStackResult)) : ExecuteStackResult :=
  match x.2 with
  | inr r => r
  | inl _ => {| results := []; executionOrder := [] |}
  end.

(** The record the skip branch persists. *)
Definition is_skip_record (ps : PlanExecutionStatus) : Prop :=
  pes_executionStatus ps = skipped ∧ pes_errorMessage ps = Some skip_message ∧
  pes_exitCode ps = None ∧ pes_executionDurationMs ps = None.

(** ** Invariants of the execution loop *)

Section loop_invariants.
Context (env : Env) (stackName : string) (stack : Stack).

#[local] Abbreviation planIds := (map sp_planId (stk_plans stack)).
#[local] Abbreviation load := (loadStackStatus stackName planIds).
#[local] Abbreviation read := (read_status stackName planIds).

(** What one iteration of the loop on [planId] does to the loop state. *)
Record step_post (st : LoopState) (planId : string) (st' : LoopState) : Prop := {
  sp_ok : world_ok stackName (ls_world st');
  sp_frame : ∀ x, x ≠ planId → read (ls_world st') x = read (ls_world st) x;
  sp_trace : ∃ evs, trace (ls_world st') = trace (ls_world st) ++ evs ∧
      (∀ q, Invoke q ∈ evs ↔
            q = planId ∧ (planId ∉ ls_completedPlanIds st) ∧
            hasUnmetDependencies stack planId (ls_completedPlanIds st) = false);
  sp_mono : ls_completedPlanIds st ⊆ ls_completedPlanIds st';
  sp_new : ∀ x, x ∈ ls_completedPlanIds st' → x ∉ ls_completedPlanIds st →
      x = planId ∧
      (pes_executionStatus <$> read (ls_world st') planId) = Some completed;
  sp_done : planId ∈ ls_completedPlanIds st → st' = st;
  sp_skip : planId ∉ ls_completedPlanIds st →
      hasUnmetDependencies stack planId (ls_completedPlanIds st) = true →
      (planId ∉ ls_completedPlanIds st') ∧
      ∃ ps, read (ls_world st') planId = Some ps ∧ is_skip_record ps;
  sp_run : planId ∉ ls_completedPlanIds st →
      hasUnmetDependencies stack planId (ls_completedPlanIds st) = false →
      ∃ ps, read (ls_world st') planId = Some ps ∧
        (pes_executionStatus ps = completed ∨ pes_executionStatus ps = failed) ∧
        (pes_executionStatus ps = completed ↔ planId ∈ ls_completedPlanIds st');
  sp_running : isRunning (load (ls_world st')) = isRunning (load (ls_world st));
  sp_clock : clockReads (ls_world st) ≤ clockReads (ls_world st');
  sp_stamped : ∀ lo, stamped env stackName planIds lo (ls_world st) →
                     stamped env stackName planIds lo (ls_world st');
}.

(** What the loop over [order] does to the loop state. *)
Record loop_post (order : list string) (st st' : LoopState) : Prop := {
  lp_ok : world_ok stackName (ls_world st');
  lp_frame : ∀ x, x ∉ order → read (ls_world st') x = read (ls_world st) x;
  lp_trace : ∃ evs, trace (ls_world st') = trace (ls_world st) ++ evs ∧
      (∀ q, Invoke q ∈ evs → q ∈ order ∧ q ∉ ls_completedPlanIds st);
  lp_mono : ls_completedPlanIds st ⊆ ls_completedPlanIds st';
  lp_new : ∀ x, x ∈ ls_completedPlanIds st' → x ∉ ls_completedPlanIds st →
                x ∈ order;
  lp_done : ∀ x, x ∈ ls_completedPlanIds st →
                 read (ls_world st') x = read (ls_world st) x;
  lp_sound :
    (∀ x, x ∈ ls_completedPlanIds st →
          status_of (read (ls_world st) x) = Some completed) →
    ∀ x, x ∈ ls_completedPlanIds st' →
         status_of (read (ls_world st') x) = Some completed;
  lp_complete : ∀ x,
    (status_of (read (ls_world st) x) = Some completed →
     x ∈ ls_completedPlanIds st) →
    status_of (read (ls_world st') x) = Some completed →
    x ∈ ls_completedPlanIds st';
  lp_running : isRunning (load (ls_world st')) = isRunning (load (ls_world st));
  lp_clock : clockReads (ls_world st) ≤ clockReads (ls_world st');
  lp_stamped : ∀ lo, stamped env stackName planIds lo (ls_world st) →
                     stamped env stackName planIds lo (ls_world st');
}.

(** What an iteration on [planId] leaves when it ends by an exception:
    [spawn] threw for the task, after the task was marked as running in
    both stores. *)
Record step_abort (claudeCommand : string) (st : LoopState) (planId : string)
    (w' : World) (message : string) : Prop := {
  sa_ok : world_ok stackName w';
  sa_threw : ∃ n, worker env claudeCommand planId n = SpawnThrew message;
  sa_attempted : (planId ∉ ls_completedPlanIds st) ∧
      hasUnmetDependencies stack planId (ls_completedPlanIds st) = false;
  sa_task : status_of (read w' planId) = Some running;
  sa_frame : ∀ x, x ≠ planId → read w' x = read (ls_world st) x;
  sa_trace : ∃ status record,
      trace w' = trace (ls_world st)
                 ++ [WriteStatus status; WriteStack record; Invoke planId];
  sa_running : isRunning (load w') = isRunning (load (ls_world st));
  sa_clock : clockReads (ls_world st) ≤ clockReads w';
  sa_stamped : ∀ lo, stamped env stackName planIds lo (ls_world st) →
                     stamped env stackName planIds lo w';
}.

(** What the loop over [order] leaves when it ends by an exception. *)
Record loop_abort (claudeCommand : string) (order : list string) (st : LoopState)
    (w' : World) (message : string) : Prop := {
  la_ok : world_ok stackName w';
  la_task : ∃ p, p ∈ order ∧ status_of (read w' p) = Some running ∧
                 ∃ n, worker env claudeCommand p n = SpawnThrew message;
  la_frame : ∀ x, x ∉ order → read w' x = read (ls_world st) x;
  la_trace : ∃ evs, trace w' = trace (ls_world st) ++ evs ∧
      (∀ q, Invoke q ∈ evs → q ∈ order ∧ q ∉ ls_completedPlanIds st);
  la_running : isRunning (load w') = isRunning (load (ls_world st));
  la_clock : clockReads (ls_world st) ≤ clockReads w';
  la_stamped : ∀ lo, stamped env stackName planIds lo (ls_world st) →
                     stamped env stackName planIds lo w';
}.

(** The loop state [run_plans] starts from. *)
Definition run_start (w : World) : LoopState :=
  let w1 := setStackRunning env stackName planIds true w in
  {| ls_world := w1; ls_results := [];
     ls_completedPlanIds := seed_completed stack (load w1) |}.
End loop_invariants.

(** ** The vocabulary of the claims *)

(** The tie-break as the specification words it, at seeding: of two ready
    ids the lexicographically smaller one is emitted first. *)
Definition lexicographic_tie_break (stackPlans : list StackPlan) : Prop :=
  ∀ x y, x ∈ findRootPlans (stack_graph stackPlans) →
         y ∈ findRootPlans (stack_graph stackPlans) →
         String.ltb x y = true →
         before (sortedPlanIds (getExecutionOrder stackPlans)) x y.

(** The check [options.from && !sortedPlanIds.includes(options.from)] of
    the command does not fire. *)
Definition from_accepted (fromPlanId : option string) (sorted : list string) : Prop :=
  match fromPlanId with
  | Some f => f = "" ∨ f ∈ sorted
  | None => True
  end.

(** [t] is a task of the run, not completed before it, that declares the
    dependency [d]. *)
Definition waits_on (stackName : string) (stack : Stack) (order : list string)
    (w : World) (t d : string) : Prop :=
  t ∈ order ∧
  status_of (read_status stackName (map sp_planId (stk_plans stack)) w t)
    ≠ Some completed ∧
  ∃ sp, find_plan t (stk_plans stack) = Some sp ∧ d ∈ sp_dependsOnPlanIds sp.

(** The persisted record of [t] is the skip record, and [t] was not
    attempted. *)
Definition skipped_in_run (stackName : string) (stack : Stack) (w w' : World)
    (t : string) : Prop :=
  (∃ ps, read_status stackName (map sp_planId (stk_plans stack)) w' t = Some ps ∧
         pes_executionStatus ps = skipped ∧
         pes_errorMessage ps = Some skip_message ∧
         pes_exitCode ps = None ∧ pes_executionDurationMs ps = None) ∧
  ¬ invoked w w' t.

(** ** Concrete stacks and worlds *)

(** A task as [plansToStackPlans] creates it. *)
Definition mkSP (id : string) (deps : list string) : StackPlan :=
  {| sp_planId := id; sp_dependsOnPlanIds := deps; sp_executionStatus := pending;
     sp_lastExecutedAt := None; sp_executionDurationMs := None |}.

(** A stack that holds the given tasks. *)
Definition mkStack (name : string) (stackPlans : list StackPlan) : Stack :=
  {| stk_stackName := name; stk_stackDescription := None;
     stk_plans := stackPlans; stk_rootPlanIds := [];
     stk_createdAt := "2026-01-01T00:00:00.000Z";
     stk_updatedAt := "2026-01-01T00:00:00.000Z" |}.

(** A status record left by an earlier run. *)
Definition mkStatus (id : string) (s : ExecutionStatus) : PlanExecutionStatus :=
  {| pes_planId := id; pes_executionStatus := s;
     pes_lastExecutedAt := Some "2026-01-01T00:00:00.000Z";
     pes_executionDurationMs := None; pes_errorMessage := None;
     pes_exitCode := None |}.

(** A file system that holds one stack and, optionally, its status file. *)
Definition mkWorld (stack : Stack) (status : option StackExecutionStatus) : World :=
  {| stackFiles := {[ stk_stackName stack := stack ]};
     statusFiles := match status with
                    | Some st => {[ ses_stackName st := st ]}
                    | None => ∅
                    end;
     clockReads := 0; launches := 0; trace := [] |}.

(** A clock that prints its reading number, and a worker that fails plan
    ["A"] with exit code 1 and completes every other plan. *)
Definition env_A_fails : Env :=
  {| now := fun n => "T" +:+ NilEmpty.string_of_uint (Nat.to_uint n);
     worker := fun _ planId _ =>
                 if decide (planId = "A") then Closed (Some 1%Z) 5%Z ""
                 else Closed (Some 0%Z) 7%Z "" |}.

(** The same clock, and a worker that completes every plan. *)
Definition env_all_pass : Env :=
  {| now := fun n => "T" +:+ NilEmpty.string_of_uint (Nat.to_uint n);
     worker := fun _ _ _ => Closed (Some 0%Z) 7%Z "" |}.

(** The same clock, and a worker as [spawn] behaves on an empty command:
    it throws at once; any other command completes the plan. *)
Definition env_spawn_throws : Env :=
  {| now := fun n => "T" +:+ NilEmpty.string_of_uint (Nat.to_uint n);
     worker := fun claudeCommand _ _ =>
                 if decide (claudeCommand = "")
                 then SpawnThrew "The argument 'file' cannot be empty. Received ''"
                 else Closed (Some 0%Z) 7%Z "" |}.

(** ["D"] depends on ["B"] and ["C"], which both depend on ["A"]. *)
Definition diamond : list StackPlan :=
  [mkSP "A" []; mkSP "B" ["A"]; mkSP "C" ["A"]; mkSP "D" ["B"; "C"]].

(** A stack whose run was interrupted: the flag is still set. *)
Definition stuck_world : World :=
  mkWorld (mkStack "s" [mkSP "A" []])
    (Some {| ses_stackName := "s"; planStatuses := ∅;
             lastRunAt := Some "2026-01-01T00:00:00.000Z"; isRunning := true |}).

(** A stack of one task that depends on itself; no status file yet. *)
Definition cyclic_world : World := mkWorld (mkStack "s" [mkSP "A" ["A"]]) None.

(** A stack that was never run. *)
Definition fresh_world : World :=
  mkWorld (mkStack "s" [mkSP "A" []; mkSP "B" ["A"]; mkSP "C" []]) None.

(** ["B"] was completed before ["A"] joined the stack. *)
Definition resumed_world : World :=
  mkWorld (mkStack "s" [mkSP "A" []; mkSP "B" ["A"]])
    (Some {| ses_stackName := "s";
             planStatuses := {[ "B" := mkStatus "B" completed ]};
             lastRunAt := Some "2026-01-01T00:00:00.000Z"; isRunning := false |}).

(** A chain ["A"], ["B"], ["C"] and an independent task ["D"], never run. *)
Definition chain_world : World :=
  mkWorld (mkStack "s" [mkSP "A" []; mkSP "B" ["A"]; mkSP "C" ["B"]; mkSP "D" []]) None.

(** ["A"] failed in an earlier run; ["B"] is independent of it. *)
Definition retry_world : World :=
  mkWorld (mkStack "s" [mkSP "A" []; mkSP "B" []])
    (Some {| ses_stackName := "s";
             planStatuses := {[ "A" := mkStatus "A" failed ]};
             lastRunAt := Some "2026-01-01T00:00:00.000Z"; isRunning := false |}).

(** The statuses a partial run left behind. *)
Definition partial_world : World :=
  mkWorld (mkStack "s" [mkSP "A" []; mkSP "B" ["A"]; mkSP "C" ["B"]])
    (Some {| ses_stackName := "s";
             planStatuses := {[ "A" := mkStatus "A" completed;
                                "B" := mkStatus "B" failed;
                                "C" := mkStatus "C" skipped ]};
             lastRunAt := Some "2026-01-01T00:00:00.000Z"; isRunning := false |}).

(** A plan that references an id no plan has. *)
Definition ghost_plans : list Plan :=
  [ {| plan_planId := "P"; plan_references := ["ghost"]; plan_content := "# Plan: P" |} ].

(** Decidable side conditions on concrete data are settled by
    evaluation. *)
Ltac by_evaluation := apply (bool_decide_unpack _); vm_compute; exact I.

(** * Further operations and vocabulary *)

(** ** Dependencies as a stack declares them *)

(** Task [a] of the stack lists [b] in its [dependsOnPlanIds]. *)
Definition depends_on (stackPlans : list StackPlan) (a b : string) : Prop :=
  ∃ sp, sp ∈ stackPlans ∧ sp_planId sp = a ∧ b ∈ sp_dependsOnPlanIds sp.

(** ** The summary of a run ([executeStackWithProgress]) *)

(** [results.filter((r) => r.executionStatus === s).length]. *)
Definition count_status (s : ExecutionStatus) (rs : list ExecutePlanResult) : nat :=
  length (filter (fun r => res_executionStatus r = s) rs).

(** ** Plans with their references resolved *)

(** The task a plan becomes when [availablePlanIds] are the ids that its
    references may point to. *)
Definition resolved_plan (availablePlanIds : gset string) (plan : Plan) : StackPlan :=
  mkSP (plan_planId plan)
       (filter (fun refId => refId ∈ availablePlanIds) (plan_references plan)).

(** ** Wiki links ([core/plan-parser]) *)

Import Stdlib.Strings.Ascii.

(** Strings are read byte by byte; the two brackets are single bytes and
    never part of another character. *)
Definition close_bracket : Ascii.ascii := "]"%char.
Definition open_bracket : Ascii.ascii := "["%char.

(** [c] occurs in [s]. *)
Fixpoint occurs (c : Ascii.ascii) (s : string) : Prop :=
  match s with
  | EmptyString => False
  | String c' s' => c' = c ∨ occurs c s'
  end.

(** What [[^\]]+] can consume at the start of [s], at most: the longest
    prefix without a closing bracket, and the rest. *)
Fixpoint span_link (s : string) : string * string :=
  match s with
  | EmptyString => (EmptyString, EmptyString)
  | String c s' =>
      if decide (c = close_bracket) then (EmptyString, s)
      else (String c (span_link s').1, (span_link s').2)
  end.

(** A match of [/\[\[([^\]]+)\]\]/] that starts at the first character of
    [s]: the captured group.  The group is the longest run without a
    closing bracket, since a shorter one is not followed by a closing
    bracket. *)
Definition link_here (s : string) : option string :=
  match s with
  | String c1 (String c2 rest) =>
      if decide (c1 = open_bracket ∧ c2 = open_bracket) then
        match (span_link rest).1, (span_link rest).2 with
        | String _ _, String d1 (String d2 _) =>
            if decide (d1 = close_bracket ∧ d2 = close_bracket)
            then Some (span_link rest).1 else None
        | _, _ => None
        end
      else None
  | _ => None
  end.

(** [wikiLink.match(/\[\[([^\]]+)\]\]/)]: the group of the leftmost
    match. *)
Fixpoint match_link (s : string) : option string :=
  match link_here s with
  | Some name => Some name
  | None =>
      match s with
      | EmptyString => None
      | String _ s' => match_link s'
      end
  end.

Definition extractWikiLink (wikiLink : string) : string :=
  default wikiLink (match_link wikiLink).

Definition parseWikiLinks (links : option (list string)) : list string :=
  match links with
  | None => []
  | Some links => map extractWikiLink links
  end.

(** ** The plans directory ([core/plan-parser]) *)

(** What [parsePlanFile] reads in a plan file besides its name: the
    references of the front matter, with their wiki links extracted, and
    the content. *)
Record PlanFile := {
  file_references : list string;
  file_content : string;
}.

(** The plans directory as the core reads it.  [loadPlanById] parses the
    file [join(plansDirectory, planId + ".md")] and [parsePlanFile] takes
    the id of the plan from the base name of that path.  For a plain id
    (not empty, no separator; paths are POSIX paths) this is the file of
    that name in the directory, and the plan carries the requested id.
    Any other id names a file through a path: what is parsed from it, if
    anything, is [dir_by_path], and the plan carries the base name of
    the path, not the requested id. *)
Record PlanDir := {
  dir_files : gmap string PlanFile;
  dir_by_path : string → option Plan;
}.

Definition separator : Ascii.ascii := "/"%char.

#[global] Instance occurs_dec c s : Decision (occurs c s).
Proof. induction s as [|c' s IH]; simpl; apply _. Defined.

(** An id that names a file of the plans directory itself. *)
Definition plain (planId : string) : Prop :=
  planId ≠ "" ∧ ¬ occurs separator planId.

Definition parsed (planId : string) (file : PlanFile) : Plan :=
  {| plan_planId := planId;
     plan_references := file_references file;
     plan_content := file_content file |}.

Definition loadPlanById (dir : PlanDir) (planId : string) : option Plan :=
  if decide (plain planId) then parsed planId <$> dir_files dir !! planId
  else dir_by_path dir planId.

(** No plan file of the directory references a plan through a path: every
    reference is empty or plain. *)
Definition plain_references (dir : PlanDir) : Prop :=
  ∀ name file r, dir_files dir !! name = Some file → r ∈ file_references file →
                 r = "" ∨ plain r.

Definition plain_references_check (dir : PlanDir) : bool :=
  bool_decide (Forall (fun e => Forall (fun r => r = "" ∨ plain r)
                                       (file_references e.2))
                      (map_to_list (dir_files dir))).

(** ** Creating and changing stacks ([core/stack-manager]) *)

(** The [while] loop of [resolveAllDependencies].  [toResolve] is the
    array read from its end: the head of the list is the element [pop]
    returns, and [push(...refs)] puts the last reference on top.  [fuel]
    bounds the number of iterations (see [resolve_fuel]). *)
Fixpoint resolve_loop (dir : PlanDir) (fuel : nat) (allPlanIds : gset string)
    (allPlans : list Plan) (toResolve : list string) : option (list Plan) :=
  match toResolve with
  | [] => Some allPlans
  | refId :: rest =>
      match fuel with
      | O => None
      | S fuel' =>
          if decide (refId = "" ∨ refId ∈ allPlanIds) then
            resolve_loop dir fuel' allPlanIds allPlans rest
          else
            match loadPlanById dir refId with
            | Some refPlan =>
                resolve_loop dir fuel' ({[plan_planId refPlan]} ∪ allPlanIds)
                  (allPlans ++ [refPlan])
                  (reverse (plan_references refPlan) ++ rest)
            | None => resolve_loop dir fuel' allPlanIds allPlans rest
            end
      end
  end.

(** The references still to be read: those of the given plans and those of
    every plan file of the directory.  Each iteration of the loop consumes
    one of them, as long as no reference names a plan through a path. *)
Definition resolve_fuel (dir : PlanDir) (plans : list Plan) : nat :=
  length (concat (map plan_references plans))
  + sum_list_with (fun e => length (file_references e.2))
      (map_to_list (dir_files dir)).

(** [None] when the bound is exhausted. *)
Definition resolveAllDependencies (dir : PlanDir) (plans : list Plan)
    : option (list Plan) :=
  resolve_loop dir (resolve_fuel dir plans)
    (list_to_set (map plan_planId plans)) plans
    (reverse (concat (map plan_references plans))).

(** [createStack]: the message of the exception thrown, or the world after
    the write and the stack returned. *)
Definition createStack (env : Env) (dir : PlanDir) (stackName : string)
    (stackDescription : option string) (planIds : list string)
    (autoResolveDependencies : bool) (w : World)
    : option (string + World * Stack) :=
  let validPlans := omap (loadPlanById dir) planIds in
  if decide (length validPlans = 0) then
    Some (inl "No valid plans found for the specified plan IDs.")
  else
    let originalPlanIds := map plan_planId validPlans in
    match (if autoResolveDependencies then resolveAllDependencies dir validPlans
           else Some validPlans) with
    | None => None
    | Some finalPlans =>
        Some (inr (createStack_save env stackName stackDescription
                     originalPlanIds finalPlans w))
    end.

Definition createStackFromPlan (env : Env) (dir : PlanDir) (planId : string)
    (stackName stackDescription : option string) (w : World)
    : option (string + World * Stack) :=
  match loadPlanById dir planId with
  | None => Some (inl ("Plan '" +:+ planId +:+ "' not found."))
  | Some _ =>
      createStack env dir (default planId stackName)
        (Some (default ("Stack created from " +:+ planId) stackDescription))
        [planId] true w
  end.

(** The task of the rebuilt stack with the execution fields of the task it
    replaces. *)
Definition keep_execution (existingPlans : list StackPlan) (sp : StackPlan) : StackPlan :=
  match find_plan (sp_planId sp) existingPlans with
  | Some existingPlan =>
      {| sp_planId := sp_planId sp;
         sp_dependsOnPlanIds := sp_dependsOnPlanIds sp;
         sp_executionStatus := sp_executionStatus existingPlan;
         sp_lastExecutedAt := sp_lastExecutedAt existingPlan;
         sp_executionDurationMs := sp_executionDurationMs existingPlan |}
  | None => sp
  end.

Definition addPlansToStack (env : Env) (dir : PlanDir) (stackName : string)
    (planIds : list string) (autoResolveDependencies : bool) (w : World)
    : option (string + World * Stack) :=
  match loadStack stackName w with
  | None => Some (inl (not_found stackName))
  | Some existingStack =>
      let existingPlanIds : gset string :=
        list_to_set (map sp_planId (stk_plans existingStack)) in
      let newPlanIds := filter (fun id => id ∉ existingPlanIds) planIds in
      if decide (length newPlanIds = 0) then Some (inr (w, existingStack))
      else
        let validNewPlans := omap (loadPlanById dir) newPlanIds in
        if decide (length validNewPlans = 0) then Some (inr (w, existingStack))
        else
          let existingPlans :=
            omap (fun sp => loadPlanById dir (sp_planId sp))
                 (stk_plans existingStack) in
          let allValidPlans := existingPlans ++ validNewPlans in
          match (if autoResolveDependencies
                 then resolveAllDependencies dir allValidPlans
                 else Some allValidPlans) with
          | None => None
          | Some finalPlans =>
              let availablePlanIds : gset string :=
                list_to_set (map plan_planId finalPlans) in
              let graph := buildDependencyGraph finalPlans availablePlanIds in
              let rootPlanIds := findRootPlans graph in
              let stackPlans := plansToStackPlans finalPlans in
              let updatedStackPlans :=
                map (keep_execution (stk_plans existingStack)) stackPlans in
              let updatedStack :=
                {| stk_stackName := stk_stackName existingStack;
                   stk_stackDescription := stk_stackDescription existingStack;
                   stk_plans := updatedStackPlans;
                   stk_rootPlanIds := rootPlanIds;
                   stk_createdAt := stk_createdAt existingStack;
                   stk_updatedAt := isoNow env w |} in
              Some (inr (saveStack updatedStack (tick w), updatedStack))
          end
  end.

(** A remaining task without its dependencies on removed tasks. *)
Definition drop_removed (planIdsToRemove : gset string) (sp : StackPlan) : StackPlan :=
  {| sp_planId := sp_planId sp;
     sp_dependsOnPlanIds :=
       filter (fun depId => depId ∉ planIdsToRemove) (sp_dependsOnPlanIds sp);
     sp_executionStatus := sp_executionStatus sp;
     sp_lastExecutedAt := sp_lastExecutedAt sp;
     sp_executionDurationMs := sp_executionDurationMs sp |}.

Definition removePlansFromStack (env : Env) (dir : PlanDir) (stackName : string)
    (planIds : list string) (w : World) : string + World * Stack :=
  match loadStack stackName w with
  | None => inl (not_found stackName)
  | Some existingStack =>
      let planIdsToRemove : gset string := list_to_set planIds in
      let remainingPlans :=
        filter (fun p => sp_planId p ∉ planIdsToRemove) (stk_plans existingStack) in
      if decide (length remainingPlans = 0) then
        inl "Cannot remove all plans from a stack."
      else
        let validPlans :=
          omap (fun sp => loadPlanById dir (sp_planId sp)) remainingPlans in
        let availablePlanIds : gset string :=
          list_to_set (map plan_planId validPlans) in
        let graph := buildDependencyGraph validPlans availablePlanIds in
        let rootPlanIds := findRootPlans graph in
        let updatedStackPlans := map (drop_removed planIdsToRemove) remainingPlans in
        let updatedStack :=
          {| stk_stackName := stk_stackName existingStack;
             stk_stackDescription := stk_stackDescription existingStack;
             stk_plans := updatedStackPlans;
             stk_rootPlanIds := rootPlanIds;
             stk_createdAt := stk_createdAt existingStack;
             stk_updatedAt := isoNow env w |} in
        inr (saveStack updatedStack (tick w), updatedStack)
  end.

(** References declared by the plan files of [dir] whose name is not in
    [allPlanIds]. *)
Definition unread_refs (dir : PlanDir) (allPlanIds : gset string) : nat :=
  sum_list_with (fun e => length (file_references e.2))
    (map_to_list (filter (fun e => e.1 ∉ allPlanIds) (dir_files dir))).

(** ** Concrete plans directories *)

Definition mkPlan (id : string) (references : list string) : Plan :=
  {| plan_planId := id; plan_references := references; plan_content := "# " +:+ id |}.

Definition mkFile (name : string) (references : list string) : PlanFile :=
  {| file_references := references; file_content := "# " +:+ name |}.

(** ["P"] references ["Q"] and a plan that does not exist; ["Q"]
    references ["P"] and ["R"]; ["S"] stands alone.  No file is reached
    through a path. *)
Definition sample_dir : PlanDir :=
  {| dir_files := {[ "P" := mkFile "P" ["Q"; "ghost"];
                     "Q" := mkFile "Q" ["P"; "R"];
                     "R" := mkFile "R" [];
                     "S" := mkFile "S" [] ]};
     dir_by_path := fun _ => None |}.

(** ** The stack record during a run *)

(** The result a run has for [planId]: the last one with that id. *)
Definition result_for (rs : list ExecutePlanResult) (planId : string)
    : option ExecutePlanResult :=
  last (filter (fun r => res_planId r = planId) rs).

(** Task [sp'] of the stored record is task [sp] of the stack, brought up
    to date with the results [rs]. *)
Definition tracks (rs : list ExecutePlanResult) (sp sp' : StackPlan) : Prop :=
  sp_planId sp' = sp_planId sp ∧
  sp_dependsOnPlanIds sp' = sp_dependsOnPlanIds sp ∧
  match result_for rs (sp_planId sp) with
  | None => sp' = sp
  | Some r =>
      sp_executionStatus sp' = res_executionStatus r ∧
      (res_executionStatus r ≠ skipped →
       sp_executionDurationMs sp' = Some (res_executionDurationMs r) ∧
       is_Some (sp_lastExecutedAt sp'))
  end.

(** The stack file of [stackName] holds a record of that name whose tasks
    are those of [stack], up to date with [rs]. *)
Definition record_inv (stackName : string) (stack : Stack)
    (rs : list ExecutePlanResult) (w : World) : Prop :=
  ∃ stored, stackFiles w !! stackName = Some stored ∧
    stk_stackName stored = stackName ∧
    stk_rootPlanIds stored = stk_rootPlanIds stack ∧
    stk_createdAt stored = stk_createdAt stack ∧
    Forall2 (tracks rs) (stk_plans stack) (stk_plans stored).

(** ** The tree of the [ls] command ([cli/commands/ls]) *)

Scheme All for list.

Inductive TreeNode := mkTreeNode {
  tn_planId : string;
  tn_title : string;
  tn_executionStatus : ExecutionStatus;
  tn_children : list TreeNode;
  tn_depth : nat;
}.

Definition MAX_TREE_DEPTH : nat := 10.

(** [new Map(stackPlans.map((p) => [p.planId, p]))]. *)
Definition planMap (stackPlans : list StackPlan) : list (string * StackPlan) :=
  foldl (fun m p => JsMap.set (sp_planId p) p m) [] stackPlans.

(** The reverse mapping: for each id, the tasks that list it as a
    dependency, one entry per listing. *)
Definition dependentMap (stackPlans : list StackPlan) : list (string * list string) :=
  foldl (fun m plan =>
           foldl (fun m depId =>
                    JsMap.set depId
                      (default [] (JsMap.get depId m) ++ [sp_planId plan]) m)
                 m (sp_dependsOnPlanIds plan))
        [] stackPlans.

(** [ids.map(rec).filter((node) => node !== null)], threading the set
    [shownInTree] that the calls share. *)
Fixpoint map_nodes
    (rec : string → gset string → option (option TreeNode * gset string))
    (ids : list string) (shownInTree : gset string)
    : option (list TreeNode * gset string) :=
  match ids with
  | [] => Some ([], shownInTree)
  | id :: rest =>
      match rec id shownInTree with
      | None => None
      | Some (node, shown1) =>
          match map_nodes rec rest shown1 with
          | None => None
          | Some (nodes, shown2) =>
              Some (match node with Some n => n :: nodes | None => nodes end, shown2)
          end
      end
  end.

(** [buildNode]: the node (or [null]) and the set [shownInTree]
    afterwards.  Every child gets its own copy of [visited], so the set
    is passed by value.  [None] when [fuel] runs out. *)
Fixpoint buildNode (stackPlans : list StackPlan) (planTitles : gmap string string)
    (statuses : gmap string ExecutionStatus) (fuel : nat) (planId : string)
    (visited : gset string) (depth : nat) (shownInTree : gset string)
    : option (option TreeNode * gset string) :=
  match fuel with
  | O => None
  | S fuel' =>
      if decide (planId ∈ visited) then Some (None, shownInTree)
      else if decide (MAX_TREE_DEPTH < depth) then Some (None, shownInTree)
      else
        let visited' := {[planId]} ∪ visited in
        match JsMap.get planId (planMap stackPlans) with
        | None => Some (None, shownInTree)
        | Some _ =>
            let dependents :=
              default [] (JsMap.get planId (dependentMap stackPlans)) in
            match map_nodes
                    (fun depId shown =>
                       buildNode stackPlans planTitles statuses fuel' depId
                         visited' (S depth) shown)
                    (filter (fun depId => depId ∉ visited') dependents)
                    ({[planId]} ∪ shownInTree) with
            | None => None
            | Some (children, shown') =>
                Some (Some {| tn_planId := planId;
                              tn_title := default planId (planTitles !! planId);
                              tn_executionStatus :=
                                default pending (statuses !! planId);
                              tn_children := children;
                              tn_depth := depth |},
                      shown')
            end
        end
  end.

(** The loop over [rootPlanIds]. *)
Fixpoint build_roots (stackPlans : list StackPlan) (planTitles : gmap string string)
    (statuses : gmap string ExecutionStatus) (fuel : nat) (rootPlanIds : list string)
    (shownInTree : gset string) (trees : list TreeNode) : option (list TreeNode) :=
  match rootPlanIds with
  | [] => Some trees
  | rootId :: rest =>
      if decide (rootId ∈ shownInTree)
      then build_roots stackPlans planTitles statuses fuel rest shownInTree trees
      else
        match buildNode stackPlans planTitles statuses fuel rootId ∅ 0 shownInTree with
        | None => None
        | Some (node, shown') =>
            build_roots stackPlans planTitles statuses fuel rest shown'
              (match node with Some n => trees ++ [n] | None => trees end)
        end
  end.

(** A call at depth [d] needs [MAX_TREE_DEPTH + 2 - d] levels of calls. *)
Definition tree_fuel : nat := MAX_TREE_DEPTH + 2.

Definition buildTree (stackPlans : list StackPlan) (rootPlanIds : list string)
    (planTitles : gmap string string) (statuses : gmap string ExecutionStatus)
    : option (list TreeNode) :=
  build_roots stackPlans planTitles statuses tree_fuel rootPlanIds ∅ [].

(** [P] holds of every node of the list. *)
Fixpoint all_nodes (P : TreeNode → Prop) (l : list TreeNode) : Prop :=
  match l with
  | [] => True
  | n :: l' => P n ∧ all_nodes P l'
  end.

(** The node sits at depth [d] under the tasks [ancestors]: it is a task
    of the stack that is none of its ancestors, it carries the title and
    the status given for it, and its children are tasks that depend on it,
    one level below. *)
Fixpoint node_ok (stackPlans : list StackPlan) (planTitles : gmap string string)
    (statuses : gmap string ExecutionStatus) (ancestors : list string) (d : nat)
    (n : TreeNode) : Prop :=
  match n with
  | mkTreeNode planId title executionStatus children depth =>
      depth = d ∧ d ≤ MAX_TREE_DEPTH ∧
      planId ∈ plan_ids stackPlans ∧ (planId ∉ ancestors) ∧
      title = default planId (planTitles !! planId) ∧
      executionStatus = default pending (statuses !! planId) ∧
      all_nodes (fun c =>
                   depends_on stackPlans (tn_planId c) planId ∧
                   node_ok stackPlans planTitles statuses (planId :: ancestors)
                     (S d) c) children
  end.

(** The ids shown in the tree under (and at) a node. *)
Fixpoint tree_ids (n : TreeNode) : list string :=
  match n with
  | mkTreeNode planId _ _ children _ => planId :: concat (map tree_ids children)
  end.

(** ** The summaries of the [status] and [ls] commands *)

(** [Object.values(status.planStatuses)], counted by status. *)
Definition count_entries (s : ExecutionStatus) (status : StackExecutionStatus) : nat :=
  length (filter (fun ps => pes_executionStatus ps = s)
            (map snd (map_to_list (planStatuses status)))).

(** The status text of a stack in the list of [ls]. *)
Inductive StatusText :=
  | TextRunning
  | TextCompleted
  | TextProgress (completedCount total : nat).

Definition list_status_text (stack : Stack) (w : World) : StatusText :=
  let planIds := map sp_planId (stk_plans stack) in
  let status := loadStackStatus (stk_stackName stack) planIds w in
  let completedCount := count_entries completed status in
  let total := length (stk_plans stack) in
  if isRunning status then TextRunning
  else if decide (completedCount = total) then TextCompleted
  else TextProgress completedCount total.

(** The status file of the stack has entries for tasks of the stack
    only. *)
Definition no_stale_status (stack : Stack) (w : World) : Prop :=
  ∀ st p, statusFiles w !! stk_stackName stack = Some st →
          is_Some (planStatuses st !! p) → p ∈ plan_ids (stk_plans stack).

Definition no_stale_status_check (stack : Stack) (w : World) : bool :=
  match statusFiles w !! stk_stackName stack with
  | Some st =>
      bool_decide (dom (planStatuses st) ⊆ list_to_set (plan_ids (stk_plans stack)))
  | None => true
  end.

(** Two tasks remain after ["Z"] was removed; the status of ["Z"] is
    still on file. *)
Definition stale_world : World :=
  mkWorld (mkStack "s" [mkSP "A" []; mkSP "B" []])
    (Some {| ses_stackName := "s";
             planStatuses := {[ "A" := mkStatus "A" completed;
                                "Z" := mkStatus "Z" completed ]};
             lastRunAt := Some "2026-01-01T00:00:00.000Z"; isRunning := false |}).

(** * Proofs *)

(** ** Association-list maps: basic facts *)

Section js_map_facts.
Context {V : Type}.
Implicit Types (m : list (string * V)) (k : string) (v : V).

Lemma get_set_eq k v m : JsMap.get k (JsMap.set k v m) = Some v.
Proof.
  induction m as [|[k' v'] m IH]; simpl.
  - by rewrite decide_True.
  - destruct (decide (k' = k)) as [->|Hne]; simpl.
    + by rewrite decide_True.
    + by rewrite decide_False.
Qed.

Lemma get_set_ne k k' v m :
  k ≠ k' → JsMap.get k' (JsMap.set k v m) = JsMap.get k' m.
Proof.
  intros Hne. induction m as [|[k0 v0] m IH]; simpl.
  - by rewrite decide_False.
  - destruct (decide (k0 = k)) as [->|Hne0]; simpl.
    + by rewrite !decide_False.
    + by rewrite IH.
Qed.

Lemma get_None_keys k m : JsMap.get k m = None ↔ k ∉ JsMap.keys m.
Proof.
  unfold JsMap.keys. induction m as [|[k' v'] m IH]; simpl.
  - split; [intros _; apply not_elem_of_nil | done].
  - rewrite not_elem_of_cons. destruct (decide (k' = k)) as [->|Hne].
    + split; [done | intros [? _]; done].
    + rewrite IH. naive_solver.
Qed.

Lemma get_Some_keys k m : is_Some (JsMap.get k m) ↔ k ∈ JsMap.keys m.
Proof.
  rewrite <- not_eq_None_Some, get_None_keys.
  destruct (decide (k ∈ JsMap.keys m)); naive_solver.
Qed.

Lemma get_Some_elem k v m : JsMap.get k m = Some v → (k, v) ∈ m.
Proof.
  induction m as [|[k' v'] m IH]; simpl; [done|].
  destruct (decide (k' = k)) as [->|Hne].
  - intros [= ->]. left.
  - intros H. right. by apply IH.
Qed.

Lemma elem_get_Some k v m :
  NoDup (JsMap.keys m) → (k, v) ∈ m → JsMap.get k m = Some v.
Proof.
  unfold JsMap.keys. induction m as [|[k' v'] m IH]; simpl.
  - intros _ H. by apply elem_of_nil in H.
  - rewrite NoDup_cons. intros [Hk Hnd] [[= -> ->]|Hin]%elem_of_cons.
    + by rewrite decide_True.
    + rewrite decide_False; [by apply IH|].
      intros ->. apply Hk. apply list_elem_of_fmap. by exists (k, v).
Qed.

Lemma keys_set_in k v m :
  k ∈ JsMap.keys m → JsMap.keys (JsMap.set k v m) = JsMap.keys m.
Proof.
  unfold JsMap.keys. induction m as [|[k' v'] m IH]; simpl.
  - intros H. by apply elem_of_nil in H.
  - destruct (decide (k' = k)) as [->|Hne]; simpl; [done|].
    intros [?|Hin]%elem_of_cons; [done|]. f_equal. by apply IH.
Qed.

Lemma set_notin k v m :
  k ∉ JsMap.keys m → JsMap.set k v m = m ++ [(k, v)].
Proof.
  unfold JsMap.keys. induction m as [|[k' v'] m IH]; simpl; [done|].
  rewrite not_elem_of_cons. intros [Hne Hnin].
  rewrite decide_False by done. f_equal. by apply IH.
Qed.

Lemma keys_set k v m :
  JsMap.keys (JsMap.set k v m)
  = if decide (k ∈ JsMap.keys m) then JsMap.keys m else JsMap.keys m ++ [k].
Proof.
  case_decide as Hin.
  - by apply keys_set_in.
  - rewrite set_notin by done. unfold JsMap.keys. by rewrite fmap_app.
Qed.

Lemma elem_of_keys_set k k' v m :
  k' ∈ JsMap.keys (JsMap.set k v m) ↔ k' = k ∨ k' ∈ JsMap.keys m.
Proof.
  rewrite keys_set. case_decide as Hin.
  - naive_solver.
  - rewrite elem_of_app, list_elem_of_singleton. naive_solver.
Qed.

Lemma NoDup_keys_set k v m :
  NoDup (JsMap.keys m) → NoDup (JsMap.keys (JsMap.set k v m)).
Proof.
  intros Hnd. rewrite keys_set. case_decide as Hin; [done|].
  apply NoDup_app. split_and!; [done| |apply NoDup_singleton].
  intros x Hx ->%list_elem_of_singleton. done.
Qed.

Lemma has_true k m : JsMap.has k m = true ↔ k ∈ JsMap.keys m.
Proof.
  unfold JsMap.has. rewrite <- get_Some_keys.
  destruct (JsMap.get k m) eqn:E; [split; eauto | split; [done | intros [? ?]; done]].
Qed.
End js_map_facts.

(** ** The edge relation of a graph *)

Section chain_facts.
Context (graph : Graph).

Lemma chain_cons_inv x l : chain graph (x :: l) → chain graph l.
Proof. destruct l; simpl; [done | by intros [_ ?]]. Qed.

Lemma chain_app_r l1 l2 : chain graph (l1 ++ l2) → chain graph l2.
Proof.
  induction l1 as [|x l1 IH]; [done|].
  intros H. apply IH. by eapply chain_cons_inv.
Qed.

Lemma chain_snoc l u v :
  chain graph l → last l = Some u → edge graph u v → chain graph (l ++ [v]).
Proof.
  induction l as [|x l IH]; [done|].
  intros Hc Hl He. destruct l as [|y l].
  - injection Hl as ->. simpl. done.
  - destruct Hc as [Hxy Hc]. split; [done|].
    apply IH; [done | exact Hl | done].
Qed.

Lemma chain_tc l x y :
  chain graph (x :: l ++ [y]) → tc (edge graph) x y.
Proof.
  revert x. induction l as [|z l IH]; intros x; simpl.
  - intros [He _]. by apply tc_once.
  - intros [He Hc]. eapply tc_l; [done|]. by apply IH.
Qed.

Lemma closed_walk_has_cycle l : closed_walk graph l → has_cycle graph.
Proof.
  intros [Hc (c & mid & ->)]. exists c. by eapply chain_tc.
Qed.
End chain_facts.

Lemma indexOf_split x l :
  x ∈ l →
  ∃ pre suf, l = pre ++ x :: suf ∧ indexOf x l = Z.of_nat (length pre).
Proof.
  induction l as [|y l IH]; [by intros ?%elem_of_nil|].
  intros Hin. simpl. destruct (decide (y = x)) as [->|Hne].
  - by exists [], l.
  - apply elem_of_cons in Hin as [?|Hin]; [done|].
    destruct (IH Hin) as (pre & suf & Hl & Hi).
    exists (y :: pre), suf. split; [by rewrite Hl|].
    rewrite Hi. case_decide; simpl length; lia.
Qed.

Lemma indexOf_notin x l : x ∉ l → indexOf x l = (-1)%Z.
Proof.
  induction l as [|y l IH]; [done|].
  rewrite not_elem_of_cons. intros [Hne Hnin]. simpl.
  rewrite decide_False by done. rewrite IH by done. by rewrite decide_True.
Qed.

Lemma slice_from_indexOf x l :
  x ∈ l → ∃ pre suf, l = pre ++ x :: suf ∧ slice_from (indexOf x l) l = x :: suf.
Proof.
  intros (pre & suf & Hl & Hi)%indexOf_split.
  exists pre, suf. split; [done|].
  rewrite Hi. unfold slice_from. rewrite decide_False by lia.
  rewrite Nat2Z.id, Hl. by rewrite drop_app_length.
Qed.

(** ** Cycle detection: the reported path is a cycle of the graph *)

Section dfs_sound.
Context (graph : Graph).

#[local] Abbreviation cycle_post := (cycle_post graph).

Lemma push_cycle_closed path node depId st :
  chain graph path → last path = Some node → edge graph node depId →
  depId ∈ path → cycleNodes_acc st = [] →
  closed_walk graph (cycleNodes_acc (push_cycle path depId st)).
Proof.
  intros Hc Hl He Hin Hnil. unfold push_cycle; simpl. rewrite Hnil; simpl.
  destruct (slice_from_indexOf _ _ Hin) as (pre & suf & Hp & ->).
  split; [|by exists depId, suf].
  change (chain graph ((depId :: suf) ++ [depId])).
  apply chain_snoc with node; [|by rewrite Hp, last_app_cons in Hl|done].
  rewrite Hp in Hc. by apply chain_app_r in Hc.
Qed.

Lemma dfs_deps_sound rec path node ds st r :
  (∀ d st0 r0, edge graph node d → cycleNodes_acc st0 = [] →
     rec d (path ++ [d]) st0 = Some r0 → cycle_post r0) →
  chain graph path → last path = Some node →
  (∀ d, d ∈ ds → edge graph node d) →
  cycleNodes_acc st = [] →
  dfs_deps rec path ds st = Some r → cycle_post r.
Proof.
  intros Hrec Hc Hl. revert st.
  induction ds as [|d ds IH]; intros st Hds Hnil; simpl.
  - intros [= <-]. done.
  - assert (edge graph node d) as Hd by (apply Hds; left).
    assert (∀ d', d' ∈ ds → edge graph node d') as Hds'
      by (intros; apply Hds; by right).
    case_decide as Hv.
    + unfold includes. case_bool_decide as Hin.
      * intros [= <-]. unfold cycle_post; simpl.
        by eapply push_cycle_closed.
      * by apply IH.
    + destruct (rec d (path ++ [d]) st) as [[[] st']|] eqn:Hr; [| |done].
      * intros [= <-]. by eapply Hrec.
      * apply IH; [done|]. by apply (Hrec _ _ _ Hd Hnil Hr).
Qed.

Lemma dfs_sound depth node path st r :
  chain graph path → last path = Some node → cycleNodes_acc st = [] →
  dfs graph depth node path st = Some r → cycle_post r.
Proof.
  revert node path st r.
  induction depth as [|depth IH]; intros node path st r Hc Hl Hnil; [done|].
  simpl. destruct (JsMap.get node graph) as [n|] eqn:Hg.
  - apply dfs_deps_sound with node; try done.
    + intros d st0 r0 Hd Hnil0. apply IH; [|by rewrite last_snoc|done].
      by eapply chain_snoc.
    + intros d Hd. unfold edge, deps. by rewrite Hg.
  - intros [= <-]. done.
Qed.

Lemma detect_roots_sound depth roots st r :
  cycleNodes_acc st = [] →
  detect_roots graph depth roots st = Some r → cycle_post r.
Proof.
  revert st. induction roots as [|k roots IH]; intros st Hnil; simpl.
  - intros [= <-]. done.
  - case_decide; [by apply IH|].
    destruct (dfs graph depth k [k] st) as [[[] st']|] eqn:Hr; [| |done].
    + intros [= <-]. by eapply (dfs_sound _ _ [k]).
    + apply IH. by apply (dfs_sound _ _ [k] _ _ I eq_refl Hnil Hr).
Qed.

Lemma detectCycle_sound cyc :
  detectCycle graph = (true, cyc) → closed_walk graph cyc.
Proof.
  unfold detectCycle.
  destruct (detectCycle_run graph) as [[[] st]|] eqn:Hr; [|done..].
  intros [= <-]. by apply (detect_roots_sound _ _ dfs_init _ eq_refl Hr).
Qed.
End dfs_sound.

(** ** Cycle detection: a traversal that reports nothing leaves a
    topological witness *)

Section dfs_complete.
Context (graph : Graph).

#[local] Abbreviation finish_post := (finish_post graph).

Lemma finished_order_app_r F1 F2 :
  finished_order graph (F1 ++ F2) → finished_order graph F2.
Proof. induction F1 as [|x F1 IH]; [done|]. intros [_ H]. by apply IH. Qed.

Lemma finished_order_tc F u v :
  finished_order graph F → tc (edge graph) u v →
  ∀ F1 F2, F = F1 ++ u :: F2 → v ∈ F2.
Proof.
  intros HF Htc. induction Htc as [u v He|u w v He Htc IH]; intros F1 F2 ->.
  - apply finished_order_app_r in HF as [HF _]. by apply HF.
  - pose proof HF as [Hw _]%finished_order_app_r.
    apply Hw in He. apply list_elem_of_split in He as (G1 & G2 & ->).
    assert (v ∈ G2) as Hv.
    { apply (IH (F1 ++ u :: G1) G2). by rewrite <- app_assoc. }
    apply elem_of_app. right. by right.
Qed.

Lemma finished_order_no_loop F u :
  finished_order graph F → u ∈ F → ¬ tc (edge graph) u u.
Proof.
  intros HF Hin Htc.
  assert (∀ n F1 F2, length F2 = n → F = F1 ++ u :: F2 → False) as Hno.
  { intros n. induction n as [n IH] using lt_wf_ind. intros F1 F2 Hn HF12.
    pose proof (finished_order_tc _ _ _ HF Htc _ _ HF12) as Hu.
    apply list_elem_of_split in Hu as (G1 & G2 & ->).
    apply (IH (length G2)) with (F1 := F1 ++ u :: G1) (F2 := G2); [|done|].
    - subst n. rewrite length_app. simpl. lia.
    - by rewrite <- app_assoc. }
  apply list_elem_of_split in Hin as (F1 & F2 & ->).
  by eapply Hno.
Qed.

Lemma dfs_deps_finish rec path ds st st' F :
  (∀ d st0 st1 F0, rec d (path ++ [d]) st0 = Some (false, st1) →
     finished_order graph F0 → visited_inv st0 (path ++ [d]) F0 →
     finish_post d path F0 st1) →
  dfs_deps rec path ds st = Some (false, st') →
  finished_order graph F → visited_inv st path F →
  ∃ F', finished_order graph F' ∧ F ⊆ F' ∧ (∀ d, d ∈ ds → d ∈ F')
        ∧ visited_inv st' path F'.
Proof.
  intros Hrec. revert st F.
  induction ds as [|d ds IH]; intros st F; simpl.
  - intros [= <-] HF Hinv. exists F. split_and!; try done.
    intros d Hd. by apply elem_of_nil in Hd.
  - case_decide as Hv.
    + unfold includes. case_bool_decide as Hin; [done|].
      intros Hrun HF Hinv.
      destruct (IH _ _ Hrun HF Hinv) as (F' & HF' & Hsub & Hds & Hinv').
      exists F'. split_and!; try done.
      intros d' [->|Hd']%elem_of_cons; [|by apply Hds].
      apply Hsub. by destruct (Hinv _ Hv).
    + destruct (rec d (path ++ [d]) st) as [[[] st1]|] eqn:Hr; [done| |done].
      intros Hrun HF Hinv.
      destruct (Hrec _ _ _ F Hr HF) as (F1 & HF1 & Hsub1 & Hd1 & Hinv1).
      { intros x Hx. destruct (Hinv x Hx); [left|by right].
        apply elem_of_app. by left. }
      destruct (IH _ _ Hrun HF1 Hinv1) as (F' & HF' & Hsub & Hds & Hinv').
      exists F'. split_and!; try done.
      * by etrans.
      * intros d' [->|Hd']%elem_of_cons; [by apply Hsub|by apply Hds].
Qed.

Lemma dfs_finish depth node pre st st' F :
  dfs graph depth node (pre ++ [node]) st = Some (false, st') →
  finished_order graph F → visited_inv st (pre ++ [node]) F →
  finish_post node pre F st'.
Proof.
  revert node pre st st' F.
  induction depth as [|depth IH]; intros node pre st st' F; [done|].
  simpl. intros Hrun HF Hinv.
  assert (visited_inv (dfs_enter node (pre ++ [node]) st) (pre ++ [node]) F)
    as Hinv1.
  { intros x [->%elem_of_singleton|Hx]%elem_of_union; [|by apply Hinv].
    left. apply elem_of_app. right. left. }
  destruct (JsMap.get node graph) as [n|] eqn:Hg.
  - destruct (dfs_deps_finish _ _ _ _ _ F (fun d => IH d (pre ++ [node])) Hrun HF Hinv1)
      as (F' & HF' & Hsub & Hds & Hinv').
    exists (node :: F'). split_and!.
    + split; [|done]. unfold deps. rewrite Hg. exact Hds.
    + intros x Hx. right. by apply Hsub.
    + left.
    + intros x Hx. destruct (Hinv' x Hx) as [Hp|HF'x]; [|right; by right].
      apply elem_of_app in Hp as [Hp|Hp%list_elem_of_singleton]; [by left|subst x].
      right. left.
  - injection Hrun as <-. exists (node :: F). split_and!.
    + split; [|done]. unfold deps. rewrite Hg. intros d Hd.
      by apply elem_of_nil in Hd.
    + intros x Hx. by right.
    + left.
    + intros x Hx. destruct (Hinv1 x Hx) as [Hp|HFx]; [|right; by right].
      apply elem_of_app in Hp as [Hp|Hp%list_elem_of_singleton]; [by left|subst x].
      right. left.
Qed.

Lemma detect_roots_finish depth roots st st' F :
  detect_roots graph depth roots st = Some (false, st') →
  finished_order graph F → visited_inv st [] F →
  ∃ F', finished_order graph F' ∧ F ⊆ F' ∧ (∀ k, k ∈ roots → k ∈ F').
Proof.
  revert st F. induction roots as [|k roots IH]; intros st F; simpl.
  - intros _ HF _. exists F. split_and!; try done.
    intros k Hk. by apply elem_of_nil in Hk.
  - case_decide as Hv.
    + intros Hrun HF Hinv.
      destruct (IH _ _ Hrun HF Hinv) as (F' & HF' & Hsub & Hks).
      exists F'. split_and!; try done.
      intros k' [->|Hk']%elem_of_cons; [|by apply Hks].
      apply Hsub. destruct (Hinv _ Hv) as [H|H]; [by apply elem_of_nil in H|done].
    + destruct (dfs graph depth k [k] st) as [[[] st1]|] eqn:Hr; [done| |done].
      intros Hrun HF Hinv.
      destruct (dfs_finish depth k [] st st1 F Hr HF) as (F1 & HF1 & Hsub1 & Hk1 & Hinv1).
      { intros x Hx. destruct (Hinv x Hx) as [H|H]; [by apply elem_of_nil in H|by right]. }
      destruct (IH _ _ Hrun HF1 Hinv1) as (F' & HF' & Hsub & Hks).
      exists F'. split_and!; try done.
      * by etrans.
      * intros k' [->|Hk']%elem_of_cons; [by apply Hsub|by apply Hks].
Qed.

(** A run that reports no cycle has finished every key. *)
Lemma detectCycle_run_finish st :
  detectCycle_run graph = Some (false, st) →
  ∃ F, finished_order graph F ∧ ∀ k, k ∈ JsMap.keys graph → k ∈ F.
Proof.
  intros Hrun.
  destruct (detect_roots_finish _ _ _ _ [] Hrun) as (F & HF & _ & Hks).
  - done.
  - intros x Hx. by apply not_elem_of_empty in Hx.
  - by exists F.
Qed.
End dfs_complete.

(** ** Cycle detection: the traversal terminates within [dfs_depth] *)

Section dfs_total.
Context (graph : Graph).

#[local] Abbreviation universe := (universe graph).

Lemma key_in_universe k : k ∈ JsMap.keys graph → k ∈ universe.
Proof.
  intros Hk. unfold universe, graph_ids.
  apply elem_of_list_to_set, elem_of_app. by left.
Qed.

Lemma dep_in_universe k n d :
  JsMap.get k graph = Some n → d ∈ dn_dependsOnPlanIds n → d ∈ universe.
Proof.
  intros Hg Hd. unfold universe, graph_ids.
  apply elem_of_list_to_set, elem_of_app. right.
  apply list_elem_of_In, in_concat. exists (dn_dependsOnPlanIds n).
  split; [|by apply list_elem_of_In].
  apply in_map_iff. exists (k, n). split; [done|].
  by apply list_elem_of_In, get_Some_elem.
Qed.

Lemma universe_size : size universe ≤ length (graph_ids graph).
Proof.
  unfold universe. induction (graph_ids graph) as [|x l IH].
  - by rewrite list_to_set_nil, size_empty.
  - rewrite list_to_set_cons, size_union_alt, size_singleton.
    assert (size ((list_to_set l : gset string) ∖ {[x]}) ≤ size (list_to_set l : gset string))
      by (apply subseteq_size; set_solver).
    simpl. lia.
Qed.

Lemma dfs_deps_mono rec path ds st r :
  (∀ d p st0 r0, rec d p st0 = Some r0 → visited st0 ⊆ visited r0.2) →
  dfs_deps rec path ds st = Some r → visited st ⊆ visited r.2.
Proof.
  intros Hrec. revert st. induction ds as [|d ds IH]; intros st; simpl.
  - by intros [= <-].
  - case_decide.
    + destruct (includes d path); [by intros [= <-]|apply IH].
    + destruct (rec d (path ++ [d]) st) as [[[] st']|] eqn:Hr; [| |done].
      * intros [= <-]. by apply Hrec in Hr.
      * intros Hrun. apply Hrec in Hr. apply IH in Hrun. simpl in Hr.
        by etrans.
Qed.

Lemma dfs_mono depth node path st r :
  dfs graph depth node path st = Some r → visited st ⊆ visited r.2.
Proof.
  revert node path st r.
  induction depth as [|depth IH]; intros node path st r; [done|]. simpl.
  destruct (JsMap.get node graph) as [n|].
  - intros Hrun. apply dfs_deps_mono in Hrun; [|by apply IH].
    simpl in Hrun. set_solver.
  - intros [= <-]. simpl. set_solver.
Qed.

Lemma dfs_deps_total rec path ds st bound :
  (∀ d p st0, d ∈ universe → d ∉ visited st0 →
     size (universe ∖ visited st0) ≤ bound → is_Some (rec d p st0)) →
  (∀ d p st0 r0, rec d p st0 = Some r0 → visited st0 ⊆ visited r0.2) →
  (∀ d, d ∈ ds → d ∈ universe) →
  size (universe ∖ visited st) ≤ bound →
  is_Some (dfs_deps rec path ds st).
Proof.
  intros Hrec Hmono. revert st.
  induction ds as [|d ds IH]; intros st Hds Hsz; simpl; [by eexists|].
  assert (∀ d', d' ∈ ds → d' ∈ universe) as Hds'
    by (intros; apply Hds; by right).
  case_decide as Hv.
  - destruct (includes d path); [by eexists|by apply IH].
  - assert (is_Some (rec d (path ++ [d]) st)) as [[[] st'] Hr]
      by (apply Hrec; [apply Hds; left|done|done]).
    + rewrite Hr. by eexists.
    + rewrite Hr. apply IH; [done|]. apply Hmono in Hr. simpl in Hr.
      etrans; [|exact Hsz]. apply subseteq_size. set_solver.
Qed.

Lemma dfs_total depth node path st :
  node ∈ universe → node ∉ visited st →
  size (universe ∖ visited st) ≤ depth →
  is_Some (dfs graph depth node path st).
Proof.
  revert node path st.
  induction depth as [|depth IH]; intros node path st Hu Hv Hsz.
  - assert (size (universe ∖ visited st) ≠ 0); [|lia].
    apply size_non_empty_iff. intros Hempty.
    apply (not_elem_of_empty (C := gset string) node), Hempty.
    by apply elem_of_difference.
  - simpl. destruct (JsMap.get node graph) as [n|] eqn:Hg; [|by eexists].
    apply dfs_deps_total with depth.
    + apply IH.
    + intros d p st0 r0. apply dfs_mono.
    + intros d Hd. by eapply dep_in_universe.
    + simpl.
      assert (universe ∖ ({[node]} ∪ visited st) ⊂ universe ∖ visited st)
        as Hlt%subset_size; [|lia].
      clear IH Hsz Hg. generalize dependent universe. intros U HU.
      split; [set_solver|].
      intros Hsub. specialize (Hsub node). set_solver.
Qed.

Lemma detect_roots_total depth roots st :
  (∀ k, k ∈ roots → k ∈ universe) →
  size universe ≤ depth →
  is_Some (detect_roots graph depth roots st).
Proof.
  intros Hroots Hsz. revert st Hroots.
  induction roots as [|k roots IH]; intros st Hroots; simpl; [by eexists|].
  assert (∀ k', k' ∈ roots → k' ∈ universe) as Hroots'
    by (intros; apply Hroots; by right).
  case_decide as Hv; [by apply IH|].
  assert (is_Some (dfs graph depth k [k] st)) as [[[] st'] Hr].
  { apply dfs_total; [apply Hroots; left|done|].
    etrans; [|exact Hsz]. apply subseteq_size. set_solver. }
  - rewrite Hr. by eexists.
  - rewrite Hr. by apply IH.
Qed.

(** The depth bound is never reached: [detectCycle] returns on every
    graph. *)
Lemma detectCycle_total : is_Some (detectCycle_run graph).
Proof.
  apply detect_roots_total.
  - apply key_in_universe.
  - unfold dfs_depth. pose proof universe_size. lia.
Qed.
End dfs_total.

(** ** Cycle detection decides acyclicity *)

Lemma edge_key graph u v : edge graph u v → u ∈ JsMap.keys graph.
Proof.
  unfold edge, deps. destruct (JsMap.get u graph) eqn:Hg.
  - intros _. apply get_Some_keys. by eexists.
  - by intros ?%elem_of_nil.
Qed.

Lemma tc_edge_key graph u v : tc (edge graph) u v → u ∈ JsMap.keys graph.
Proof. intros [? ? He|? ? ? He _]; by eapply edge_key. Qed.

Lemma detectCycle_false_acyclic graph :
  (detectCycle graph).1 = false → acyclic graph.
Proof.
  unfold detectCycle. destruct (detectCycle_total graph) as [[[] st] Hr];
    rewrite Hr; [done|]. intros _ u Htc.
  destruct (detectCycle_run_finish _ _ Hr) as (F & HF & Hks).
  eapply finished_order_no_loop; [done| |done].
  apply Hks. by eapply tc_edge_key.
Qed.

Lemma detectCycle_true_closed_walk graph :
  (detectCycle graph).1 = true → closed_walk graph (detectCycle graph).2.
Proof.
  intros H. apply detectCycle_sound. by destruct (detectCycle graph) as [[] ?].
Qed.

Lemma detectCycle_spec graph :
  (detectCycle graph).1 = true ↔ has_cycle graph.
Proof.
  split.
  - intros H. eapply closed_walk_has_cycle. by apply detectCycle_true_closed_walk.
  - intros [u Hu]. destruct (detectCycle graph).1 eqn:Hd; [done|].
    apply detectCycle_false_acyclic in Hd. by destruct (Hd u).
Qed.

(** ** Kahn's loop: facts that hold on every graph *)

Lemma occ_nil x : occ x [] = 0.
Proof. reflexivity. Qed.

Lemma occ_cons x y l :
  occ x (y :: l) = (if decide (y = x) then 1 else 0) + occ x l.
Proof. unfold occ. rewrite filter_cons. by case_decide. Qed.

Lemma occ_pos x l : 0 < occ x l ↔ x ∈ l.
Proof.
  induction l as [|y l IH].
  - rewrite occ_nil. split; [lia | by intros ?%elem_of_nil].
  - rewrite occ_cons, elem_of_cons. case_decide; [subst|]; naive_solver lia.
Qed.

Lemma occ_zero x l : x ∉ l → occ x l = 0.
Proof. intros H. destruct (occ x l) eqn:E; [done|]. destruct H. apply occ_pos. lia. Qed.

Lemma dget_set k v deg k' :
  dget (JsMap.set k v deg) k' = if decide (k = k') then v else dget deg k'.
Proof.
  unfold dget. case_decide as Hk.
  - subst. by rewrite get_set_eq.
  - by rewrite get_set_ne.
Qed.

Section relax_facts.
Implicit Types (deg : Degrees) (q L : list string).

Lemma relax_dget L deg q v :
  dget (foldl relax (deg, q) L).1 v = (dget deg v - Z.of_nat (occ v L))%Z.
Proof.
  revert deg q. induction L as [|d L IH]; intros deg q; simpl.
  - rewrite occ_nil. lia.
  - unfold relax at 2; simpl. rewrite IH, dget_set, occ_cons.
    fold (dget deg d). case_decide; [subst|]; lia.
Qed.

Lemma relax_queue L deg q :
  ∃ pushed,
    (foldl relax (deg, q) L).2 = q ++ pushed ∧ NoDup pushed ∧
    ∀ v, v ∈ pushed ↔ (1 ≤ dget deg v ≤ Z.of_nat (occ v L))%Z.
Proof.
  revert deg q. induction L as [|d L IH]; intros deg q; simpl.
  - exists []. rewrite app_nil_r. split_and!; [done|constructor|].
    intros v. rewrite occ_nil. split; [by intros ?%elem_of_nil|lia].
  - unfold relax at 2; simpl. fold (dget deg d).
    set (deg1 := JsMap.set d (dget deg d - 1)%Z deg).
    destruct (IH deg1 (if decide ((dget deg d - 1)%Z = 0%Z) then q ++ [d] else q))
      as (pushed & Hq & Hnd & Hin).
    assert (∀ v, dget deg1 v = if decide (d = v) then (dget deg d - 1)%Z else dget deg v)
      as Hdeg1 by (intros; apply dget_set).
    case_decide as Hc.
    + exists (d :: pushed). split_and!.
      * by rewrite Hq, <- app_assoc.
      * constructor; [|done]. rewrite Hin, Hdeg1, decide_True by done. lia.
      * intros v. rewrite elem_of_cons, Hin, Hdeg1, occ_cons.
        case_decide; [subst|]; naive_solver lia.
    + exists pushed. split_and!; [done..|].
      intros v. rewrite Hin, Hdeg1, occ_cons.
      case_decide; [subst|]; naive_solver lia.
Qed.

Lemma positive_entries_set k v deg :
  positive_entries (JsMap.set k v deg)
    + (if decide (1 ≤ dget deg k)%Z then 1 else 0)
  = positive_entries deg + (if decide (1 ≤ v)%Z then 1 else 0).
Proof.
  unfold positive_entries, dget.
  induction deg as [|[k' c] deg IH]; simpl.
  - rewrite filter_cons, !filter_nil. simpl.
    repeat case_decide; simpl; lia.
  - destruct (decide (k' = k)) as [->|Hne]; simpl.
    + rewrite !filter_cons. simpl. repeat case_decide; simpl in *; lia.
    + rewrite !filter_cons. simpl. repeat case_decide; simpl in *; lia.
Qed.

Lemma relax_measure L deg q :
  length (foldl relax (deg, q) L).2 + positive_entries (foldl relax (deg, q) L).1
  = length q + positive_entries deg.
Proof.
  revert deg q. induction L as [|d L IH]; intros deg q; simpl; [done|].
  unfold relax at 2 4; simpl. rewrite IH. fold (dget deg d).
  pose proof (positive_entries_set d (dget deg d - 1)%Z deg) as Hset.
  repeat case_decide; rewrite ?length_app; simpl; lia.
Qed.
End relax_facts.

Section kahn_general.
Context (graph : Graph).

Lemma kahn_loop_total fuel deg q sorted :
  length q + positive_entries deg ≤ fuel →
  is_Some (kahn_loop graph fuel deg q sorted).
Proof.
  revert deg q sorted.
  induction fuel as [|fuel IH]; intros deg q sorted Hm;
    destruct q as [|u q]; simpl in *; try by eexists.
  - lia.
  - case_decide; [apply IH; lia|].
    destruct (JsMap.get u graph) as [n|]; [|apply IH; lia].
    apply IH. rewrite relax_measure. lia.
Qed.

Lemma seed_measure deg :
  length (seed_queue deg) + positive_entries deg ≤ length deg.
Proof.
  unfold seed_queue, positive_entries. rewrite length_fmap.
  induction deg as [|[k c] deg IH]; simpl; [done|].
  rewrite !filter_cons. simpl. repeat case_decide; simpl; lia.
Qed.

(** The iteration bound is never reached: the sort returns on every
    graph. *)
Lemma kahn_run_total : is_Some (kahn_run graph).
Proof. apply kahn_loop_total, seed_measure. Qed.

Lemma kahn_loop_NoDup fuel deg q sorted res :
  emitted_inv deg q sorted →
  kahn_loop graph fuel deg q sorted = Some res → NoDup res.
Proof.
  revert deg q sorted.
  induction fuel as [|fuel IH]; intros deg q sorted [Hnd Hle];
    destruct q as [|u q]; simpl; try done.
  - intros [= <-]. by rewrite app_nil_r in Hnd.
  - intros [= <-]. by rewrite app_nil_r in Hnd.
  - assert (NoDup ((sorted ++ [u]) ++ q)) as Hnd'
      by (by rewrite <- app_assoc).
    assert (∀ v, v ∈ (sorted ++ [u]) ++ q → (dget deg v ≤ 0)%Z) as Hle'
      by (intros v; rewrite <- app_assoc; apply Hle).
    case_decide.
    { apply IH. split.
      - apply NoDup_app in Hnd as (? & ? & [_ ?]%NoDup_cons).
        apply NoDup_app. split_and!; [done| |done].
        intros x Hx Hq. eapply H1; [done|by right].
      - intros v Hv. apply Hle. set_solver. }
    destruct (JsMap.get u graph) as [n|]; [|by apply IH].
    apply IH.
    destruct (relax_queue (dn_dependentPlanIds n) deg q) as (pushed & -> & Hp & Hin).
    split.
    + rewrite app_assoc. apply NoDup_app. split_and!; [done| |done].
      intros v Hv Hv'. apply Hin in Hv'. apply Hle' in Hv. lia.
    + intros v Hv. rewrite relax_dget.
      rewrite app_assoc in Hv. apply elem_of_app in Hv as [Hv|Hv].
      * apply Hle' in Hv. lia.
      * apply Hin in Hv. lia.
Qed.
End kahn_general.

Lemma init_inDegree_NoDup graph : NoDup (JsMap.keys (init_inDegree graph)).
Proof.
  unfold init_inDegree.
  assert (∀ (l : Graph) (f : Degrees → string * DependencyNode → Degrees) acc,
            (∀ d e, NoDup (JsMap.keys d) → NoDup (JsMap.keys (f d e))) →
            NoDup (JsMap.keys acc) → NoDup (JsMap.keys (foldl f acc l))) as Hfold.
  { intros l f. induction l as [|e l IH]; intros acc Hf Hacc; simpl; [done|].
    apply IH; [done|]. by apply Hf. }
  apply Hfold.
  - intros d e Hd. case_decide; [by apply NoDup_keys_set|done].
  - apply Hfold; [|constructor].
    intros d e Hd. destruct (JsMap.has e.1 d); [done|by apply NoDup_keys_set].
Qed.

Lemma seed_queue_elem deg v :
  NoDup (JsMap.keys deg) →
  v ∈ seed_queue deg ↔ JsMap.get v deg = Some 0%Z.
Proof.
  intros Hnd. unfold seed_queue. rewrite list_elem_of_fmap. split.
  - intros ([k c] & -> & [Hc Hin]%list_elem_of_filter). simpl in *. subst c.
    by apply elem_get_Some.
  - intros Hg%get_Some_elem. exists (v, 0%Z). split; [done|].
    by apply list_elem_of_filter.
Qed.

Lemma seed_queue_NoDup deg : NoDup (JsMap.keys deg) → NoDup (seed_queue deg).
Proof.
  unfold seed_queue, JsMap.keys. induction deg as [|[k c] deg IH]; simpl.
  - intros _. constructor.
  - intros [Hk Hnd]%NoDup_cons. rewrite filter_cons. case_decide; simpl.
    + constructor; [|by apply IH].
      intros ([k' c'] & Heq & [_ Hin]%list_elem_of_filter)%list_elem_of_fmap.
      simpl in Heq. subst k'. apply Hk. apply list_elem_of_fmap. by exists (k, c').
    + by apply IH.
Qed.

(** The sorter never emits an id twice, whatever the graph. *)
Lemma topologicalSort_NoDup graph : NoDup (sortedPlanIds (topologicalSort graph)).
Proof.
  unfold topologicalSort. destruct (detectCycle graph).1; simpl; [constructor|].
  destruct (kahn_run graph) as [res|] eqn:Hrun; simpl; [|constructor].
  eapply kahn_loop_NoDup; [|exact Hrun].
  pose proof (init_inDegree_NoDup graph) as Hnd. split.
  - simpl. by apply seed_queue_NoDup.
  - simpl. intros v Hv%seed_queue_elem; [|done]. unfold dget. by rewrite Hv.
Qed.

(** ** Well-formed dependency graphs *)

Lemma wf_graph_keyed graph : wf_graph graph → keyed graph.
Proof. intros Hwf. split; apply Hwf. Qed.

Section init_inDegree_wf.
Lemma set_middle {V} (pre suf : list (string * V)) k v0 v :
  k ∉ JsMap.keys pre →
  JsMap.set k v (pre ++ (k, v0) :: suf) = pre ++ (k, v) :: suf.
Proof.
  unfold JsMap.keys. induction pre as [|[k' v'] pre IH]; simpl.
  - intros _. by rewrite decide_True.
  - rewrite not_elem_of_cons. intros [Hne Hnin].
    rewrite decide_False by done. f_equal. by apply IH.
Qed.

Lemma init_pass1 (graph : Graph) acc :
  NoDup (JsMap.keys acc ++ JsMap.keys graph) →
  foldl (fun inDegree (e : string * DependencyNode) =>
           if JsMap.has e.1 inDegree then inDegree
           else JsMap.set e.1 0%Z inDegree) acc graph
  = acc ++ map (fun e => (e.1, 0%Z)) graph.
Proof.
  revert acc. induction graph as [|[k n] g IH]; intros acc Hnd; simpl.
  - by rewrite app_nil_r.
  - assert (k ∉ JsMap.keys acc) as Hk.
    { apply NoDup_app in Hnd as (_ & Hd & _). intros Hin.
      apply (Hd _ Hin). left. }
    destruct (JsMap.has k acc) eqn:Hh; [by apply has_true in Hh|].
    rewrite IH.
    + rewrite set_notin by done. by rewrite <- app_assoc.
    + rewrite set_notin by done. unfold JsMap.keys in *.
      rewrite fmap_app. simpl. rewrite <- app_assoc. done.
Qed.

Lemma init_pass2 (g1 g2 : Graph) :
  NoDup (JsMap.keys (g1 ++ g2)) →
  (∀ k n, (k, n) ∈ g2 → dn_planId n = k) →
  foldl (fun inDegree (e : string * DependencyNode) =>
           let dependencyCount := Z.of_nat (length (dn_dependsOnPlanIds e.2)) in
           if decide (dependencyCount > 0)%Z
           then JsMap.set (dn_planId e.2) dependencyCount inDegree
           else inDegree)
        (map degree_entry g1 ++ map (fun e => (e.1, 0%Z)) g2) g2
  = map degree_entry (g1 ++ g2).
Proof.
  revert g1. induction g2 as [|[k n] g2 IH]; intros g1 Hnd Hid; simpl.
  - by rewrite !app_nil_r.
  - assert (dn_planId n = k) as Hk by (apply Hid; left).
    assert (map degree_entry g1 ++ (k, Z.of_nat (length (dn_dependsOnPlanIds n)))
              :: map (fun e => (e.1, 0%Z)) g2
            = map degree_entry (g1 ++ [(k, n)]) ++ map (fun e => (e.1, 0%Z)) g2)
      as Hnext by (by rewrite map_app, <- app_assoc).
    assert (NoDup (JsMap.keys ((g1 ++ [(k, n)]) ++ g2))) as Hnd'
      by (by rewrite <- app_assoc).
    assert (∀ k' n', (k', n') ∈ g2 → dn_planId n' = k') as Hid'
      by (intros; apply Hid; by right).
    replace (g1 ++ (k, n) :: g2) with ((g1 ++ [(k, n)]) ++ g2)
      by (by rewrite <- app_assoc).
    case_decide as Hc.
    + rewrite Hk, set_middle, Hnext; [by apply IH|].
      unfold JsMap.keys in *. rewrite fmap_app in Hnd.
      apply NoDup_app in Hnd as (_ & Hd & _). intros Hin.
      rewrite <- list_fmap_compose in Hin.
      apply (Hd k); [|left]. clear -Hin.
      apply list_elem_of_fmap in Hin as (e & -> & He).
      apply list_elem_of_fmap. by exists e.
    + replace 0%Z with (Z.of_nat (length (dn_dependsOnPlanIds n))) at 1 by lia.
      rewrite Hnext. by apply IH.
Qed.

Lemma init_inDegree_keyed graph :
  keyed graph → init_inDegree graph = map degree_entry graph.
Proof.
  intros [Hnd Hid]. unfold init_inDegree.
  rewrite init_pass1 by done. simpl.
  by apply (init_pass2 [] graph).
Qed.

Lemma init_inDegree_wf graph :
  wf_graph graph → init_inDegree graph = map degree_entry graph.
Proof. intros Hwf. by apply init_inDegree_keyed, wf_graph_keyed. Qed.
End init_inDegree_wf.

(** The seed queue of a well-formed graph: the ids without dependencies,
    in the insertion order of the graph. *)
Lemma seed_queue_keyed graph :
  keyed graph → seed_queue (init_inDegree graph) = findRootPlans graph.
Proof.
  intros Hwf. rewrite init_inDegree_keyed by done.
  unfold seed_queue, findRootPlans. clear Hwf.
  induction graph as [|[k n] g IH]; [done|].
  cbn [map]. rewrite !filter_cons. unfold degree_entry at 1. cbn [fst snd].
  destruct (decide (Z.of_nat (length (dn_dependsOnPlanIds n)) = 0%Z));
    destruct (decide (length (dn_dependsOnPlanIds n) = 0)); try lia;
    rewrite ?fmap_cons; cbn [fst]; by rewrite IH.
Qed.

Lemma dget_init graph v :
  wf_graph graph → v ∈ JsMap.keys graph →
  dget (init_inDegree graph) v = Z.of_nat (length (deps graph v)).
Proof.
  intros Hwf Hv. rewrite init_inDegree_wf by done.
  apply get_Some_keys in Hv as [n Hn]. unfold dget, deps. rewrite Hn.
  clear Hwf. induction graph as [|[k' n'] g IH]; simpl in *; [done|].
  case_decide; [by injection Hn as ->|by apply IH].
Qed.

(** ** Kahn's loop on a well-formed graph *)

Section remaining_facts.
Context (graph : Graph).

#[local] Abbreviation remaining := (remaining graph).

Lemma remaining_snoc sorted u v :
  u ∉ sorted →
  remaining sorted v = remaining (sorted ++ [u]) v + occ u (deps graph v).
Proof.
  intros Hu. unfold remaining.
  induction (deps graph v) as [|d l IH]; [done|].
  rewrite !filter_cons, occ_cons.
  destruct (decide (d = u)) as [->|Hne].
  - rewrite decide_True by done. rewrite decide_False by set_solver.
    simpl. lia.
  - destruct (decide (d ∉ sorted)).
    + rewrite decide_True by set_solver. simpl. lia.
    + rewrite decide_False by set_solver. simpl. lia.
Qed.

Lemma remaining_nil v : remaining [] v = length (deps graph v).
Proof.
  unfold remaining. induction (deps graph v) as [|d l IH]; [done|].
  rewrite filter_cons, decide_True by apply not_elem_of_nil.
  cbn [length]. by rewrite IH.
Qed.

Lemma remaining_zero sorted v :
  remaining sorted v = 0 ↔ ∀ d, d ∈ deps graph v → d ∈ sorted.
Proof.
  unfold remaining. rewrite length_zero_iff_nil. split.
  - intros Hnil d Hd. destruct (decide (d ∈ sorted)) as [|Hn]; [done|].
    assert (d ∈ filter (fun d => d ∉ sorted) (deps graph v)) as Hin
      by (by apply list_elem_of_filter).
    rewrite Hnil in Hin. by apply elem_of_nil in Hin.
  - intros Hall. apply elem_of_nil_inv. intros d [Hn Hd]%list_elem_of_filter.
    by apply Hn, Hall.
Qed.
End remaining_facts.

Section kahn_wf.
Context (graph : Graph) (Hwf : wf_graph graph)
        (Hnonempty : "" ∉ JsMap.keys graph).

#[local] Abbreviation remaining := (remaining graph).
#[local] Abbreviation kahn_inv := (kahn_inv graph).

Lemma kahn_inv_init :
  kahn_inv (init_inDegree graph) (seed_queue (init_inDegree graph)) [].
Proof.
  pose proof (init_inDegree_NoDup graph) as Hnd.
  assert (JsMap.keys (init_inDegree graph) = JsMap.keys graph) as Hkeys.
  { rewrite init_inDegree_wf by done. unfold JsMap.keys.
    rewrite <- list_fmap_compose. done. }
  split_and!; simpl.
  - by apply seed_queue_NoDup.
  - intros v Hv. rewrite dget_init by done. by rewrite remaining_nil.
  - intros v. rewrite seed_queue_elem by done. split.
    + intros Hg. split; [|unfold dget; by rewrite Hg].
      rewrite <- Hkeys. apply get_Some_keys. by eexists.
    + intros [Hk Hd]. rewrite <- Hkeys in Hk.
      apply get_Some_keys in Hk as [c Hc]. unfold dget in Hd.
      rewrite Hc in Hd. simpl in Hd. by subst c.
  - done.
Qed.

Lemma kahn_inv_step deg u q sorted :
  kahn_inv deg (u :: q) sorted →
  u ≠ "" ∧ ∃ n, JsMap.get u graph = Some n ∧
    let st := foldl relax (deg, q) (dn_dependentPlanIds n) in
    kahn_inv st.1 st.2 (sorted ++ [u]).
Proof.
  intros (Hnd & Hdeg & Hmem & Hfin).
  assert (u ∈ JsMap.keys graph ∧ dget deg u = 0%Z) as [Hu Hu0]
    by (apply Hmem; set_solver).
  split; [by intros ->|].
  pose proof Hu as [n Hn]%get_Some_keys. exists n. split; [done|]. simpl.
  assert (u ∉ sorted) as Hus.
  { apply NoDup_app in Hnd as (_ & Hd & _). intros Hin.
    apply (Hd _ Hin). left. }
  assert (dn_dependentPlanIds n = rdeps graph u) as HL
    by (unfold rdeps; by rewrite Hn).
  rewrite HL.
  destruct (relax_queue (rdeps graph u) deg q) as (pushed & -> & Hp & Hin).
  assert (∀ v, v ∈ JsMap.keys graph →
            dget (foldl relax (deg, q) (rdeps graph u)).1 v
            = Z.of_nat (remaining (sorted ++ [u]) v)) as Hdeg'.
  { intros v Hv. rewrite relax_dget, (Hdeg v Hv), (wf_mirror _ Hwf).
    rewrite (remaining_snoc graph sorted u v Hus). lia. }
  assert (∀ v, v ∈ sorted ++ u :: q → occ v (rdeps graph u) = 0) as Hold.
  { intros v Hv. apply Hmem in Hv as [Hv Hv0].
    rewrite (wf_mirror _ Hwf). apply occ_zero. intros Hd.
    rewrite (Hdeg v Hv) in Hv0.
    assert (∀ d, d ∈ deps graph v → d ∈ sorted) as Hr
      by (apply remaining_zero; lia).
    by apply Hus, Hr. }
  split_and!.
  - rewrite <- app_assoc. simpl. rewrite app_comm_cons, app_assoc.
    apply NoDup_app. split_and!; [done| |done].
    intros v Hv Hv'. apply Hin in Hv'.
    apply Hmem in Hv as [_ Hv0]. lia.
  - exact Hdeg'.
  - intros v. rewrite <- !app_assoc. simpl. rewrite app_comm_cons, app_assoc.
    rewrite elem_of_app, Hin. split.
    + intros [Hv|Hv].
      * pose proof (Hold v Hv) as Hocc. apply Hmem in Hv as [Hv Hv0].
        split; [done|]. rewrite relax_dget. lia.
      * assert (v ∈ JsMap.keys graph) as Hvk.
        { apply (wf_rdeps _ Hwf u). apply occ_pos. lia. }
        split; [done|]. pose proof (Hdeg' v Hvk) as Hd.
        rewrite relax_dget in *. lia.
    + intros [Hvk Hv0]. rewrite relax_dget in Hv0.
      destruct (decide (dget deg v = 0%Z)) as [Hz|Hz].
      * left. apply Hmem. done.
      * right. pose proof (Hdeg v Hvk). lia.
  - rewrite reverse_snoc. split; [|done].
    intros d Hd. rewrite elem_of_reverse.
    rewrite (Hdeg u Hu) in Hu0.
    assert (∀ d, d ∈ deps graph u → d ∈ sorted) as Hr
      by (apply remaining_zero; lia).
    by apply Hr.
Qed.

Lemma kahn_loop_inv fuel deg q sorted res :
  kahn_inv deg q sorted →
  kahn_loop graph fuel deg q sorted = Some res →
  ∃ deg', kahn_inv deg' [] res.
Proof.
  revert deg q sorted.
  induction fuel as [|fuel IH]; intros deg q sorted Hinv;
    destruct q as [|u q]; simpl; try done.
  - intros [= <-]. by exists deg.
  - intros [= <-]. by exists deg.
  - destruct (kahn_inv_step _ _ _ _ Hinv) as (Hne & n & Hn & Hinv').
    rewrite decide_False by done. rewrite Hn. by apply IH.
Qed.

(** Once the queue is empty, every id the cycle detector finished has
    been emitted. *)
Lemma kahn_complete deg res F :
  kahn_inv deg [] res → finished_order graph F →
  ∀ v, v ∈ F → v ∈ JsMap.keys graph → v ∈ res.
Proof.
  intros (_ & Hdeg & Hmem & _). rewrite app_nil_r in Hmem.
  induction F as [|x F IH]; intros HF v Hv Hk; [by apply elem_of_nil in Hv|].
  destruct HF as [Hx HF].
  assert (∀ d, d ∈ F → d ∈ JsMap.keys graph → d ∈ res) as IH' by (by apply IH).
  apply elem_of_cons in Hv as [->|Hv]; [|by apply IH'].
  apply Hmem. split; [done|]. rewrite (Hdeg x Hk).
  assert (remaining res x = 0) as ->; [|done].
  apply remaining_zero. intros d Hd. apply IH'; [by apply Hx|].
  by apply (wf_deps _ Hwf x).
Qed.
End kahn_wf.

Lemma finished_order_before graph sorted t d :
  finished_order graph (reverse sorted) → t ∈ sorted → edge graph t d →
  before sorted d t.
Proof.
  intros HF Ht He.
  assert (t ∈ reverse sorted) as (F1 & F2 & HF12)%list_elem_of_split
    by (by rewrite elem_of_reverse).
  rewrite HF12 in HF. apply finished_order_app_r in HF as [HF _].
  apply HF, list_elem_of_split in He as (G1 & G2 & ->).
  exists (reverse G2), (reverse G1), (reverse F1).
  rewrite <- (reverse_involutive sorted), HF12.
  rewrite reverse_app, !reverse_cons, reverse_app, reverse_cons.
  by rewrite <- !app_assoc.
Qed.

(** The sorter on a well-formed acyclic graph with non-empty ids: no cycle
    is reported, the order lists every node exactly once, and every
    dependency precedes its dependent. *)
Lemma topologicalSort_wf graph :
  wf_graph graph → "" ∉ JsMap.keys graph → acyclic graph →
  hasCycle (topologicalSort graph) = false ∧
  cycleNodes (topologicalSort graph) = None ∧
  NoDup (sortedPlanIds (topologicalSort graph)) ∧
  (∀ k, k ∈ sortedPlanIds (topologicalSort graph) ↔ k ∈ JsMap.keys graph) ∧
  (∀ t d, edge graph t d → before (sortedPlanIds (topologicalSort graph)) d t).
Proof.
  intros Hwf Hne Hac.
  assert ((detectCycle graph).1 = false) as Hdc.
  { destruct (detectCycle graph).1 eqn:Hd; [|done].
    apply detectCycle_spec in Hd as [u Hu]. by destruct (Hac u). }
  unfold topologicalSort. rewrite Hdc. simpl.
  destruct (kahn_run_total graph) as [res Hres]. rewrite Hres. simpl.
  destruct (kahn_loop_inv graph Hwf Hne _ _ _ _ _ (kahn_inv_init graph Hwf) Hres)
    as (deg' & Hinv).
  assert (∃ F, finished_order graph F ∧ ∀ k, k ∈ JsMap.keys graph → k ∈ F)
    as (F & HF & HFk).
  { unfold detectCycle in Hdc.
    destruct (detectCycle_total graph) as [[[] st] Hr]; rewrite Hr in Hdc; [done|].
    by eapply detectCycle_run_finish. }
  pose proof Hinv as (Hnd & _ & Hmem & Hfin). rewrite app_nil_r in Hnd, Hmem.
  assert (∀ k, k ∈ res ↔ k ∈ JsMap.keys graph) as Hiff.
  { intros k. split; [by intros [? _]%Hmem|].
    intros Hk. exact (kahn_complete graph Hwf deg' res F Hinv HF k (HFk k Hk) Hk). }
  split_and!; try done.
  intros t d He. apply (finished_order_before graph); [done| |done].
  apply Hiff. by eapply edge_key.
Qed.

(** ** The graph of a stack *)

Lemma add_dependents_nil n : add_dependents [] n = n.
Proof. destruct n. unfold add_dependents; simpl. by rewrite app_nil_r. Qed.

Lemma add_dependents_app l1 l2 n :
  add_dependents l2 (add_dependents l1 n) = add_dependents (l1 ++ l2) n.
Proof. unfold add_dependents; simpl. by rewrite app_assoc. Qed.

Section push_phase.
Implicit Types (graph : Graph) (p d k : string).

Lemma push_dependent_keys p graph d :
  JsMap.keys (push_dependent p graph d) = JsMap.keys graph.
Proof.
  unfold push_dependent. destruct (JsMap.get d graph) eqn:Hg; [|done].
  apply keys_set_in, get_Some_keys. by eexists.
Qed.

Lemma push_dependent_get p graph d k :
  JsMap.get k (push_dependent p graph d)
  = add_dependents (if decide (d = k) then [p] else []) <$> JsMap.get k graph.
Proof.
  unfold push_dependent. destruct (JsMap.get d graph) as [n|] eqn:Hg.
  - case_decide as Hk.
    + subst k. by rewrite get_set_eq, Hg.
    + rewrite get_set_ne by done.
      destruct (JsMap.get k graph); simpl; [|done].
      by rewrite add_dependents_nil.
  - case_decide as Hk.
    + subst k. by rewrite Hg.
    + destruct (JsMap.get k graph); simpl; [|done].
      by rewrite add_dependents_nil.
Qed.

Lemma push_all_keys p ds graph :
  JsMap.keys (foldl (push_dependent p) graph ds) = JsMap.keys graph.
Proof.
  revert graph. induction ds as [|d ds IH]; intros graph; simpl; [done|].
  by rewrite IH, push_dependent_keys.
Qed.

Lemma push_all_get p ds graph k :
  JsMap.get k (foldl (push_dependent p) graph ds)
  = add_dependents (replicate (occ k ds) p) <$> JsMap.get k graph.
Proof.
  revert graph. induction ds as [|d ds IH]; intros graph; cbn [foldl].
  - rewrite occ_nil. destruct (JsMap.get k graph); simpl; [|done].
    by rewrite add_dependents_nil.
  - rewrite IH, push_dependent_get, occ_cons.
    destruct (JsMap.get k graph); simpl; [|done].
    rewrite add_dependents_app. by case_decide.
Qed.

Lemma push_phase_keys stackPlans graph :
  JsMap.keys (foldl (fun graph stackPlan =>
                       foldl (push_dependent (sp_planId stackPlan)) graph
                             (sp_dependsOnPlanIds stackPlan))
                    graph stackPlans)
  = JsMap.keys graph.
Proof.
  revert graph. induction stackPlans as [|sp sps IH]; intros graph; simpl; [done|].
  by rewrite IH, push_all_keys.
Qed.

Lemma push_phase_get stackPlans graph k :
  JsMap.get k (foldl (fun graph stackPlan =>
                        foldl (push_dependent (sp_planId stackPlan)) graph
                              (sp_dependsOnPlanIds stackPlan))
                     graph stackPlans)
  = add_dependents (pushes stackPlans k) <$> JsMap.get k graph.
Proof.
  revert graph. induction stackPlans as [|sp sps IH]; intros graph; simpl.
  - destruct (JsMap.get k graph); simpl; [|done].
    by rewrite add_dependents_nil.
  - rewrite IH, push_all_get.
    destruct (JsMap.get k graph); simpl; [|done].
    by rewrite add_dependents_app.
Qed.
End push_phase.

Lemma stack_graph0 stackPlans acc :
  NoDup (JsMap.keys acc ++ plan_ids stackPlans) →
  foldl (fun graph stackPlan =>
           JsMap.set (sp_planId stackPlan)
             {| dn_planId := sp_planId stackPlan;
                dn_dependsOnPlanIds := sp_dependsOnPlanIds stackPlan;
                dn_dependentPlanIds := [] |} graph)
        acc stackPlans
  = acc ++ map stack_node stackPlans.
Proof.
  revert acc. induction stackPlans as [|sp sps IH]; intros acc Hnd; simpl.
  - by rewrite app_nil_r.
  - assert (sp_planId sp ∉ JsMap.keys acc) as Hk.
    { apply NoDup_app in Hnd as (_ & Hd & _). intros Hin.
      apply (Hd _ Hin). left. }
    rewrite set_notin by done. rewrite IH.
    + by rewrite <- app_assoc.
    + unfold JsMap.keys in *. rewrite fmap_app. simpl.
      by rewrite <- app_assoc.
Qed.

Section stack_graph_wf.
Context (stackPlans : list StackPlan) (Hwf : wf_stackPlans stackPlans).

Lemma stack_graph_keys : JsMap.keys (stack_graph stackPlans) = plan_ids stackPlans.
Proof.
  unfold stack_graph. rewrite push_phase_keys, stack_graph0.
  - unfold JsMap.keys, plan_ids. simpl.
    rewrite <- list_fmap_compose. done.
  - simpl. apply Hwf.
Qed.

Lemma stack_graph_get k :
  JsMap.get k (stack_graph stackPlans)
  = add_dependents (pushes stackPlans k) <$> JsMap.get k (map stack_node stackPlans).
Proof.
  unfold stack_graph. rewrite push_phase_get, stack_graph0; [done|].
  simpl. apply Hwf.
Qed.

Lemma stack_node_get sp :
  sp ∈ stackPlans →
  JsMap.get (sp_planId sp) (map stack_node stackPlans) = Some (stack_node sp).2.
Proof.
  intros Hin. apply elem_get_Some.
  - unfold JsMap.keys. rewrite <- list_fmap_compose. apply Hwf.
  - apply list_elem_of_fmap. by exists sp.
Qed.

Lemma stack_node_get_inv k n :
  JsMap.get k (map stack_node stackPlans) = Some n →
  ∃ sp, sp ∈ stackPlans ∧ sp_planId sp = k ∧ n = (stack_node sp).2.
Proof.
  intros Hg%get_Some_elem. apply list_elem_of_fmap in Hg as (sp & Heq & Hin).
  exists sp. injection Heq as -> ->. done.
Qed.

Lemma stack_graph_deps sp :
  sp ∈ stackPlans →
  deps (stack_graph stackPlans) (sp_planId sp) = sp_dependsOnPlanIds sp.
Proof.
  intros Hin. unfold deps. by rewrite stack_graph_get, stack_node_get.
Qed.

Lemma stack_graph_deps_elem k d :
  d ∈ deps (stack_graph stackPlans) k ↔
  ∃ sp, sp ∈ stackPlans ∧ sp_planId sp = k ∧ d ∈ sp_dependsOnPlanIds sp.
Proof.
  split.
  - unfold deps. rewrite stack_graph_get.
    destruct (JsMap.get k (map stack_node stackPlans)) as [n|] eqn:Hg; simpl;
      [|by intros ?%elem_of_nil].
    apply stack_node_get_inv in Hg as (sp & Hin & <- & ->). simpl.
    intros Hd. by exists sp.
  - intros (sp & Hin & <- & Hd). by rewrite stack_graph_deps.
Qed.

Lemma occ_replicate v n p :
  occ v (replicate n p) = if decide (p = v) then n else 0.
Proof.
  induction n as [|n IH]; simpl.
  - rewrite occ_nil. by case_decide.
  - rewrite occ_cons, IH. by case_decide.
Qed.

Lemma occ_app v l1 l2 : occ v (l1 ++ l2) = occ v l1 + occ v l2.
Proof. unfold occ. by rewrite filter_app, length_app. Qed.

Lemma occ_pushes u v :
  occ v (pushes stackPlans u) = occ u (deps (stack_graph stackPlans) v).
Proof.
  assert (∀ sps, NoDup (plan_ids sps) →
            occ v (pushes sps u)
            = match JsMap.get v (map stack_node sps) with
              | Some n => occ u (dn_dependsOnPlanIds n)
              | None => 0
              end) as Hgen.
  { induction sps as [|sp sps IH]; [done|].
    intros [Hsp Hnd]%NoDup_cons. unfold pushes in *. simpl.
    rewrite occ_app, occ_replicate, IH by done.
    case_decide as Hv; [|done].
    subst v. replace (JsMap.get (sp_planId sp) (map stack_node sps))
      with (@None DependencyNode); [simpl; lia|].
    symmetry. apply get_None_keys. unfold JsMap.keys.
    by rewrite <- list_fmap_compose. }
  rewrite Hgen by apply Hwf. unfold deps. rewrite stack_graph_get.
  by destruct (JsMap.get v (map stack_node stackPlans)).
Qed.

Lemma stack_graph_wf : wf_graph (stack_graph stackPlans).
Proof.
  split.
  - rewrite stack_graph_keys. apply Hwf.
  - intros k n Hin. apply elem_get_Some in Hin.
    + rewrite stack_graph_get in Hin.
      destruct (JsMap.get k (map stack_node stackPlans)) as [n0|] eqn:Hg;
        simpl in Hin; [|done].
      injection Hin as <-. simpl.
      by apply stack_node_get_inv in Hg as (sp & _ & <- & ->).
    + rewrite stack_graph_keys. apply Hwf.
  - intros u v (sp & Hin & <- & Hd)%stack_graph_deps_elem.
    rewrite stack_graph_keys. by eapply (wf_sp_deps _ Hwf).
  - intros u v Hv. rewrite stack_graph_keys.
    assert (0 < occ v (rdeps (stack_graph stackPlans) u)) as Hocc
      by (by apply occ_pos).
    unfold rdeps in Hocc. rewrite stack_graph_get in Hocc.
    destruct (JsMap.get u (map stack_node stackPlans)) as [n0|] eqn:Hg;
      simpl in Hocc; [|rewrite occ_nil in Hocc; lia].
    apply stack_node_get_inv in Hg as (sp & _ & _ & ->). simpl in Hocc.
    rewrite occ_pushes in Hocc. apply occ_pos in Hocc.
    apply stack_graph_deps_elem in Hocc as (sp' & Hin' & <- & _).
    apply list_elem_of_fmap. by exists sp'.
  - intros u v. unfold rdeps. rewrite stack_graph_get.
    destruct (JsMap.get u (map stack_node stackPlans)) as [n0|] eqn:Hg; simpl.
    + apply stack_node_get_inv in Hg as (sp & _ & _ & ->). simpl.
      apply occ_pushes.
    + rewrite occ_nil. symmetry. apply occ_zero.
      intros (sp & Hin & <- & Hd)%stack_graph_deps_elem.
      apply get_None_keys in Hg. apply Hg.
      unfold JsMap.keys. rewrite <- list_fmap_compose.
      by apply (wf_sp_deps _ Hwf sp).
Qed.
End stack_graph_wf.

(** [getExecutionOrder] on a well-formed stack with non-empty ids whose
    dependencies are acyclic. *)
Lemma getExecutionOrder_wf stackPlans :
  wf_stackPlans stackPlans → "" ∉ plan_ids stackPlans →
  acyclic (stack_graph stackPlans) →
  let r := getExecutionOrder stackPlans in
  hasCycle r = false ∧ cycleNodes r = None ∧ NoDup (sortedPlanIds r) ∧
  (∀ k, k ∈ sortedPlanIds r ↔ k ∈ plan_ids stackPlans) ∧
  (∀ sp d, sp ∈ stackPlans → d ∈ sp_dependsOnPlanIds sp →
           before (sortedPlanIds r) d (sp_planId sp)).
Proof.
  intros Hwf Hne Hac. simpl. unfold getExecutionOrder.
  destruct (topologicalSort_wf (stack_graph stackPlans))
    as (Hc & Hn & Hnd & Hmem & Hbefore);
    [by apply stack_graph_wf|by rewrite stack_graph_keys|done|].
  split_and!; try done.
  - intros k. by rewrite Hmem, stack_graph_keys.
  - intros sp d Hin Hd. apply Hbefore. unfold edge.
    by rewrite stack_graph_deps.
Qed.

(** ** Kahn's loop on a well-formed graph: what is emitted is emitted in
    dependency order, whatever the ids *)

Section kahn_safe.
Context (graph : Graph) (Hwf : wf_graph graph).

#[local] Abbreviation remaining := (remaining graph).
#[local] Abbreviation kahn_safe := (kahn_safe graph).

Lemma kahn_safe_init :
  kahn_safe (init_inDegree graph) (seed_queue (init_inDegree graph)) [].
Proof.
  destruct (kahn_inv_init graph Hwf) as (H1 & H2 & H3 & H4).
  split_and!; try done. intros v Hv. by apply H3.
Qed.

Lemma kahn_safe_drop deg u q sorted :
  kahn_safe deg (u :: q) sorted → kahn_safe deg q sorted.
Proof.
  intros (Hnd & Hdeg & Hmem & Hfin). split_and!; try done.
  - apply NoDup_app in Hnd as (? & Hd & [_ ?]%NoDup_cons).
    apply NoDup_app. split_and!; [done| |done].
    intros x Hx Hq. apply (Hd x Hx). by right.
  - intros v Hv. apply Hmem. set_solver.
Qed.

Lemma kahn_safe_step deg u q sorted :
  kahn_safe deg (u :: q) sorted →
  ∃ n, JsMap.get u graph = Some n ∧
    let st := foldl relax (deg, q) (dn_dependentPlanIds n) in
    kahn_safe st.1 st.2 (sorted ++ [u]).
Proof.
  intros (Hnd & Hdeg & Hmem & Hfin).
  assert (u ∈ JsMap.keys graph ∧ dget deg u = 0%Z) as [Hu Hu0]
    by (apply Hmem; set_solver).
  pose proof Hu as [n Hn]%get_Some_keys. exists n. split; [done|]. simpl.
  assert (u ∉ sorted) as Hus.
  { apply NoDup_app in Hnd as (_ & Hd & _). intros Hin.
    apply (Hd _ Hin). left. }
  assert (dn_dependentPlanIds n = rdeps graph u) as HL
    by (unfold rdeps; by rewrite Hn).
  rewrite HL.
  destruct (relax_queue (rdeps graph u) deg q) as (pushed & -> & Hp & Hin).
  assert (∀ v, v ∈ JsMap.keys graph →
            dget (foldl relax (deg, q) (rdeps graph u)).1 v
            = Z.of_nat (remaining (sorted ++ [u]) v)) as Hdeg'.
  { intros v Hv. rewrite relax_dget, (Hdeg v Hv), (wf_mirror _ Hwf).
    rewrite (remaining_snoc graph sorted u v Hus). lia. }
  assert (∀ v, v ∈ sorted ++ u :: q → occ v (rdeps graph u) = 0) as Hold.
  { intros v Hv. apply Hmem in Hv as [Hv Hv0].
    rewrite (wf_mirror _ Hwf). apply occ_zero. intros Hd.
    rewrite (Hdeg v Hv) in Hv0.
    assert (∀ d, d ∈ deps graph v → d ∈ sorted) as Hr
      by (apply remaining_zero; lia).
    by apply Hus, Hr. }
  split_and!.
  - rewrite <- app_assoc. simpl. rewrite app_comm_cons, app_assoc.
    apply NoDup_app. split_and!; [done| |done].
    intros v Hv Hv'. apply Hin in Hv'.
    apply Hmem in Hv as [_ Hv0]. lia.
  - exact Hdeg'.
  - intros v. rewrite <- !app_assoc. simpl. rewrite app_comm_cons, app_assoc.
    rewrite elem_of_app, Hin. intros [Hv|Hv].
    + pose proof (Hold v Hv) as Hocc. apply Hmem in Hv as [Hv Hv0].
      split; [done|]. rewrite relax_dget. lia.
    + assert (v ∈ JsMap.keys graph) as Hvk.
      { apply (wf_rdeps _ Hwf u). apply occ_pos. lia. }
      split; [done|]. pose proof (Hdeg' v Hvk) as Hd.
      rewrite relax_dget in *. lia.
  - rewrite reverse_snoc. split; [|done].
    intros d Hd. rewrite elem_of_reverse.
    rewrite (Hdeg u Hu) in Hu0.
    assert (∀ d, d ∈ deps graph u → d ∈ sorted) as Hr
      by (apply remaining_zero; lia).
    by apply Hr.
Qed.

Lemma kahn_loop_safe fuel deg q sorted res :
  kahn_safe deg q sorted →
  kahn_loop graph fuel deg q sorted = Some res →
  ∃ deg', kahn_safe deg' [] res.
Proof.
  revert deg q sorted.
  induction fuel as [|fuel IH]; intros deg q sorted Hinv;
    destruct q as [|u q]; simpl; try done.
  - intros [= <-]. by exists deg.
  - intros [= <-]. by exists deg.
  - case_decide.
    + apply IH. by eapply kahn_safe_drop.
    + destruct (kahn_safe_step _ _ _ _ Hinv) as (n & Hn & Hinv').
      rewrite Hn. by apply IH.
Qed.
End kahn_safe.

(** On a well-formed graph the order lists nodes of the graph, each at
    most once, and every dependency of a listed node is listed before
    it. *)
Lemma topologicalSort_safe graph :
  wf_graph graph →
  NoDup (sortedPlanIds (topologicalSort graph)) ∧
  (∀ k, k ∈ sortedPlanIds (topologicalSort graph) → k ∈ JsMap.keys graph) ∧
  (∀ t d, t ∈ sortedPlanIds (topologicalSort graph) → edge graph t d →
          before (sortedPlanIds (topologicalSort graph)) d t).
Proof.
  intros Hwf. split; [apply topologicalSort_NoDup|].
  unfold topologicalSort. destruct (detectCycle graph).1; simpl.
  { split; [by intros k ?%elem_of_nil|by intros t d ?%elem_of_nil]. }
  destruct (kahn_run_total graph) as [res Hres]. rewrite Hres. simpl.
  destruct (kahn_loop_safe graph Hwf _ _ _ _ _ (kahn_safe_init graph Hwf) Hres)
    as (deg' & Hnd & _ & Hmem & Hfin).
  split.
  - intros k Hk. apply Hmem. by rewrite app_nil_r.
  - intros t d Ht He. by apply (finished_order_before graph).
Qed.

Lemma getExecutionOrder_safe stackPlans :
  wf_stackPlans stackPlans →
  let r := getExecutionOrder stackPlans in
  (∀ k, k ∈ sortedPlanIds r → k ∈ plan_ids stackPlans) ∧
  (∀ sp d, sp ∈ stackPlans → d ∈ sp_dependsOnPlanIds sp →
           sp_planId sp ∈ sortedPlanIds r →
           before (sortedPlanIds r) d (sp_planId sp)).
Proof.
  intros Hwf. simpl. unfold getExecutionOrder.
  destruct (topologicalSort_safe (stack_graph stackPlans))
    as (_ & Hmem & Hbefore); [by apply stack_graph_wf|].
  split.
  - intros k Hk. rewrite <- (stack_graph_keys stackPlans Hwf). by apply Hmem.
  - intros sp d Hin Hd Hsp. apply Hbefore; [done|]. unfold edge.
    by rewrite stack_graph_deps.
Qed.

(** ** The status store: reads and writes *)

Lemma backfill_lookup planIds m x :
  backfill planIds m !! x
  = match m !! x with
    | Some v => Some v
    | None => if decide (x ∈ planIds ∧ ¬ inherited x)
              then Some (pendingStatus x) else None
    end.
Proof.
  unfold backfill.
  revert m. induction planIds as [|p ps IH]; intros m; cbn [foldl].
  - destruct (m !! x); [done|].
    rewrite decide_False; [done|]. intros [?%elem_of_nil _]. done.
  - rewrite IH. destruct (m !! p) eqn:Hp.
    + destruct (m !! x) eqn:Hx; [done|].
      assert (x ≠ p) by (intros ->; congruence).
      destruct (decide (x ∈ ps ∧ ¬ inherited x)) as [Hin|Hin].
      * rewrite decide_True; [done|]. split; [right|]; tauto.
      * rewrite decide_False; [done|]. rewrite elem_of_cons. naive_solver.
    + destruct (decide (inherited p)) as [Hinh|Hinh].
      * destruct (m !! x) eqn:Hx; [done|].
        destruct (decide (x ∈ ps ∧ ¬ inherited x)) as [Hin|Hin].
        -- rewrite decide_True; [done|]. split; [right|]; tauto.
        -- rewrite decide_False; [done|]. rewrite elem_of_cons.
           intros [[->|?] ?]; tauto.
      * destruct (decide (p = x)) as [->|Hne].
        -- rewrite lookup_insert_eq, Hp. rewrite decide_True; [done|].
           split; [left|done].
        -- rewrite lookup_insert_ne by done.
           destruct (m !! x) eqn:Hx; [done|].
           destruct (decide (x ∈ ps ∧ ¬ inherited x)) as [Hin|Hin].
           ++ rewrite decide_True; [done|]. split; [right|]; tauto.
           ++ rewrite decide_False; [done|]. rewrite elem_of_cons. naive_solver.
Qed.

Lemma createDefaultStatus_lookup stackName planIds x :
  planStatuses (createDefaultStatus stackName planIds) !! x
  = if decide (x ∈ planIds) then Some (pendingStatus x) else None.
Proof.
  unfold createDefaultStatus; simpl.
  assert (∀ m : gmap string PlanExecutionStatus,
            foldl (fun m planId => <[planId := pendingStatus planId]> m) m planIds !! x
            = if decide (x ∈ planIds) then Some (pendingStatus x) else m !! x) as Hgen.
  { induction planIds as [|p ps IH]; intros m; cbn [foldl].
    - by rewrite decide_False by apply not_elem_of_nil.
    - rewrite IH. destruct (decide (x ∈ ps)) as [Hin|Hin].
      + rewrite decide_True; [done|by right].
      + destruct (decide (p = x)) as [->|Hne].
        * rewrite lookup_insert_eq. rewrite decide_True; [done|left].
        * rewrite lookup_insert_ne by done.
          rewrite decide_False; [done|]. rewrite elem_of_cons. naive_solver. }
  by rewrite Hgen, lookup_empty.
Qed.

Section status_store.
Context (env : Env) (stackName : string) (planIds : list string).

#[local] Abbreviation load := (loadStackStatus stackName planIds).
#[local] Abbreviation read := (read_status stackName planIds).
#[local] Abbreviation written_status := (written_status env).

Lemma load_name w : status_named stackName w → ses_stackName (load w) = stackName.
Proof.
  intros Hn. unfold loadStackStatus.
  destruct (statusFiles w !! stackName) as [st|] eqn:Hst; simpl; [|done].
  by apply Hn.
Qed.

(** Saving a record named [stackName] and reading it back. *)
(** Saving a record that the backfill would not extend, and reading it
    back. *)
Lemma read_save st w x :
  ses_stackName st = stackName →
  (∀ y, y ∈ planIds → is_Some (planStatuses st !! y) ∨ inherited y) →
  read (saveStackStatus st w) x = planStatuses st !! x.
Proof.
  intros Hname Hfull. unfold read_status, loadStackStatus, saveStackStatus; simpl.
  rewrite Hname, lookup_insert_eq. simpl. rewrite backfill_lookup.
  destruct (planStatuses st !! x) eqn:Hx; [done|].
  case_decide as Hin; [|done]. destruct Hin as [Hin Hinh].
  apply Hfull in Hin as [[? ?]|?]; [congruence|done].
Qed.

(** After a load every requested id has an entry, unless its name is
    inherited. *)
Lemma load_full w y :
  y ∈ planIds → is_Some (planStatuses (load w) !! y) ∨ inherited y.
Proof.
  intros Hy. unfold loadStackStatus.
  destruct (statusFiles w !! stackName) as [st|]; [simpl|].
  - rewrite backfill_lookup. destruct (planStatuses st !! y); [left; by eexists|].
    destruct (decide (inherited y)) as [|Hn]; [by right|].
    rewrite decide_True by done. left. by eexists.
  - rewrite createDefaultStatus_lookup, decide_True by done. left. by eexists.
Qed.

Lemma load_save st w :
  ses_stackName st = stackName →
  (∀ y, y ∈ planIds → is_Some (planStatuses st !! y) ∨ inherited y) →
  load (saveStackStatus st w) = st.
Proof.
  intros Hname Hfull. unfold loadStackStatus, saveStackStatus; simpl.
  rewrite Hname, lookup_insert_eq. destruct st as [n m l r]; simpl in *.
  f_equal. apply map_eq. intros x. rewrite backfill_lookup.
  destruct (m !! x) eqn:Hx; [done|].
  case_decide as Hin; [|done]. destruct Hin as [Hin Hinh].
  apply Hfull in Hin as [[? ?]|?]; [congruence|done].
Qed.

Lemma status_named_save st w :
  ses_stackName st = stackName → status_named stackName (saveStackStatus st w).
Proof.
  intros Hname st'. unfold saveStackStatus; simpl.
  rewrite Hname, lookup_insert_eq. by intros [= <-].
Qed.

Lemma file_save st w :
  ses_stackName st = stackName →
  statusFiles (saveStackStatus st w) !! stackName = Some st.
Proof. intros Hname. unfold saveStackStatus; simpl. by rewrite Hname, lookup_insert_eq. Qed.

Lemma load_tick w : load (tick w) = load w.
Proof. done. Qed.

Lemma updatePlanStatus_load planId s e c d w :
  status_named stackName w →
  load (updatePlanStatus env stackName planIds planId s e c d w)
  = {| ses_stackName := stackName;
       planStatuses := <[planId := written_status planId s e c d w]>
                         (planStatuses (load w));
       lastRunAt := Some (now env (S (clockReads w)));
       isRunning := isRunning (load w) |}.
Proof.
  intros Hn. unfold updatePlanStatus. rewrite load_save.
  - by rewrite (load_name w Hn).
  - simpl. by apply load_name.
  - simpl. intros y Hy. destruct (decide (planId = y)) as [->|Hne].
    + rewrite lookup_insert_eq. left. by eexists.
    + rewrite lookup_insert_ne by done. by apply load_full.
Qed.

Lemma updatePlanStatus_read planId s e c d w x :
  status_named stackName w →
  read (updatePlanStatus env stackName planIds planId s e c d w) x
  = if decide (planId = x) then Some (written_status planId s e c d w)
    else read w x.
Proof.
  intros Hn. unfold read_status. rewrite updatePlanStatus_load by done. simpl.
  case_decide as Hx.
  - subst. by rewrite lookup_insert_eq.
  - by rewrite lookup_insert_ne.
Qed.

Lemma updatePlanStatus_named planId s e c d w :
  status_named stackName w →
  status_named stackName (updatePlanStatus env stackName planIds planId s e c d w).
Proof.
  intros Hn. unfold updatePlanStatus. apply status_named_save. simpl.
  by apply load_name.
Qed.

Lemma updatePlanStatus_frame planId s e c d w :
  let w' := updatePlanStatus env stackName planIds planId s e c d w in
  stackFiles w' = stackFiles w ∧ clockReads w' = S (S (clockReads w)) ∧
  launches w' = launches w ∧
  ∃ st, trace w' = trace w ++ [WriteStatus st].
Proof. simpl. split_and!; try done. by eexists. Qed.

Lemma setStackRunning_load b w :
  status_named stackName w →
  load (setStackRunning env stackName planIds b w)
  = {| ses_stackName := stackName;
       planStatuses := planStatuses (load w);
       lastRunAt := if b then Some (now env (clockReads w)) else lastRunAt (load w);
       isRunning := b |}.
Proof.
  intros Hn. unfold setStackRunning. destruct b.
  - rewrite load_save; simpl.
    + by rewrite (load_name w Hn).
    + by apply load_name.
    + apply load_full.
  - rewrite load_save; simpl.
    + by rewrite (load_name w Hn).
    + by apply load_name.
    + apply load_full.
Qed.

Lemma setStackRunning_named b w :
  status_named stackName w →
  status_named stackName (setStackRunning env stackName planIds b w).
Proof.
  intros Hn. unfold setStackRunning.
  destruct b; apply status_named_save; simpl; by apply load_name.
Qed.

Lemma setStackRunning_file b w :
  status_named stackName w →
  statusFiles (setStackRunning env stackName planIds b w) !! stackName
  = Some (load (setStackRunning env stackName planIds b w)).
Proof.
  intros Hn. unfold setStackRunning.
  destruct b; (rewrite file_save, load_save;
    [done|by apply load_name|apply load_full|by apply load_name]).
Qed.
End status_store.

(** ** One iteration of the execution loop *)

Lemma load_ext stackName planIds w w' :
  statusFiles w' = statusFiles w →
  loadStackStatus stackName planIds w' = loadStackStatus stackName planIds w.
Proof. intros H. unfold loadStackStatus. by rewrite H. Qed.

Lemma updateStackPlanStatus_ok env stackName planId updates w :
  is_Some (stackFiles w !! stackName) →
  ∃ w' stk, updateStackPlanStatus env stackName planId updates w = inr w' ∧
    statusFiles w' = statusFiles w ∧ is_Some (stackFiles w' !! stackName) ∧
    clockReads w' = S (clockReads w) ∧ launches w' = launches w ∧
    trace w' = trace w ++ [WriteStack stk].
Proof.
  intros [stk Hstk]. unfold updateStackPlanStatus, loadStack. rewrite Hstk.
  eexists _, _. split; [done|]. simpl. split_and!; try done.
  destruct (decide (stk_stackName stk = stackName)) as [->|Hne].
  - rewrite lookup_insert_eq. by eexists.
  - rewrite lookup_insert_ne by done. by eexists.
Qed.

Lemma executePlan_spec env planId claudeCommand w :
  let r := executePlan env planId claudeCommand w in
  statusFiles r.1 = statusFiles w ∧ stackFiles r.1 = stackFiles w ∧
  clockReads r.1 = clockReads w ∧ trace r.1 = trace w ++ [Invoke planId] ∧
  match r.2 with
  | inr result =>
      res_planId result = planId ∧
      (res_executionStatus result = completed ∨ res_executionStatus result = failed)
  | inl message =>
      worker env claudeCommand planId (launches w) = SpawnThrew message
  end.
Proof.
  simpl. split_and!; try done.
  destruct (worker env claudeCommand planId (launches w)); simpl; auto.
  split; [done|]. case_decide; auto.
Qed.

Lemma executePlan_resolves env planId claudeCommand w :
  never_throws env →
  ∃ result, (executePlan env planId claudeCommand w).2 = inr result.
Proof.
  intros Hnever. simpl.
  destruct (worker env claudeCommand planId (launches w)) eqn:Hw; try by eexists.
  by apply Hnever in Hw.
Qed.

Section exec_step.
Context (env : Env) (stackName claudeCommand : string) (stack : Stack).

#[local] Abbreviation planIds := (map sp_planId (stk_plans stack)).
#[local] Abbreviation load := (loadStackStatus stackName planIds).
#[local] Abbreviation read := (read_status stackName planIds).
#[local] Abbreviation step := (exec_step env stackName claudeCommand stack planIds).
#[local] Abbreviation step_post := (step_post env stackName stack).
#[local] Abbreviation step_abort := (step_abort env stackName stack claudeCommand).

(** One iteration either returns, or ends by the exception [spawn]
    threw. *)
Lemma exec_step_cases st planId :
  world_ok stackName (ls_world st) →
  match step st planId with
  | inr st' => step_post st planId st'
  | inl (w', message) => step_abort st planId w' message
  end.
Proof.
  intros [Hn Hs]. unfold exec_step.
  destruct (decide (planId ∈ ls_completedPlanIds st)) as [Hin|Hnin].
  { split; try done.
    - exists []. rewrite app_nil_r. split; [done|].
      intros q. split; [by intros ?%elem_of_nil|naive_solver]. }
  destruct (hasUnmetDependencies stack planId (ls_completedPlanIds st)) eqn:Hunmet.
  - (* skipped *)
    set (w1 := updatePlanStatus env stackName planIds planId skipped
                 (Some skip_message) None None (ls_world st)).
    pose proof (updatePlanStatus_named env stackName planIds planId skipped
                  (Some skip_message) None None _ Hn) as Hn1. fold w1 in Hn1.
    destruct (updatePlanStatus_frame env stackName planIds planId skipped
                (Some skip_message) None None (ls_world st))
      as (Hsf1 & Hck1 & _ & (s1 & Htr1)). fold w1 in Hsf1, Hck1, Htr1.
    destruct (updateStackPlanStatus_ok env stackName planId (status_only skipped) w1)
      as (w2 & stk & -> & Hst2 & Hs2 & Hck2 & _ & Htr2); [by rewrite Hsf1|].
    assert (load w2 = load w1) as Hl2 by (by apply load_ext).
    assert (∀ x, read w2 x = read w1 x) as Hr2
      by (intros; unfold read_status; by rewrite Hl2).
    split; cbn [ls_world ls_completedPlanIds ls_results]; try done;
      try (intros _ ?; congruence).
    + split; [|done]. intros s. rewrite Hst2. apply Hn1.
    + intros x Hx. rewrite Hr2. unfold w1.
      rewrite updatePlanStatus_read by done. by rewrite decide_False.
    + exists [WriteStatus s1; WriteStack stk]. split.
      * rewrite Htr2, Htr1, <- app_assoc. done.
      * intros q. split; [|intros (_ & _ & ?); congruence].
        intros [?|[?|?%elem_of_nil]%elem_of_cons]%elem_of_cons; done.
    + intros _ _. split; [done|]. eexists. split.
      * rewrite Hr2. unfold w1. rewrite updatePlanStatus_read by done.
        by rewrite decide_True.
      * done.
    + rewrite Hl2. unfold w1. by rewrite updatePlanStatus_load.
    + lia.
    + intros lo (t & _ & Ht). exists (S (clockReads (ls_world st))).
      rewrite Hl2. unfold w1 at 1. rewrite updatePlanStatus_load by done. simpl.
      split; [done|]. lia.
  - (* executed *)
    set (w1 := updatePlanStatus env stackName planIds planId running
                 None None None (ls_world st)).
    pose proof (updatePlanStatus_named env stackName planIds planId running
                  None None None _ Hn) as Hn1. fold w1 in Hn1.
    destruct (updatePlanStatus_frame env stackName planIds planId running
                None None None (ls_world st))
      as (Hsf1 & Hck1 & _ & (s1 & Htr1)). fold w1 in Hsf1, Hck1, Htr1.
    destruct (updateStackPlanStatus_ok env stackName planId (status_only running) w1)
      as (w2 & stk2 & -> & Hst2 & Hs2 & Hck2 & _ & Htr2); [by rewrite Hsf1|].
    assert (load w2 = load w1) as Hl2 by (by apply load_ext).
    pose proof (executePlan_spec env planId claudeCommand w2) as Hspec.
    destruct (executePlan env planId claudeCommand w2) as [w3 [message|result]]
      eqn:Hexec; cbn [fst snd] in Hspec;
      destruct Hspec as (Hst3 & Hsf3 & Hck3 & Htr3 & Hres).
    { (* [spawn] threw *)
      assert (load w3 = load w1) as Hl3
        by (etrans; [by apply load_ext|by apply load_ext]).
      assert (∀ x, read w3 x = read w1 x) as Hr3
        by (intros; unfold read_status; by rewrite Hl3).
      split.
      - split.
        + intros s. rewrite Hst3, Hst2. apply Hn1.
        + by rewrite Hsf3.
      - by eexists.
      - done.
      - rewrite Hr3. unfold w1. rewrite updatePlanStatus_read by done.
        by rewrite decide_True.
      - intros x Hx. rewrite Hr3. unfold w1.
        rewrite updatePlanStatus_read by done. by rewrite decide_False.
      - exists s1, stk2. rewrite Htr3, Htr2, Htr1. by rewrite <- !app_assoc.
      - rewrite Hl3. unfold w1. by rewrite updatePlanStatus_load.
      - lia.
      - intros lo (t & _ & Ht). exists (S (clockReads (ls_world st))).
        rewrite Hl3. unfold w1 at 1. rewrite updatePlanStatus_load by done. simpl.
        split; [done|]. lia. }
    destruct Hres as [_ Hres].
    assert (status_named stackName w3) as Hn3.
    { intros s. rewrite Hst3, Hst2. apply Hn1. }
    set (w4 := updatePlanStatus env stackName planIds planId
                 (res_executionStatus result) (res_errorMessage result)
                 (res_exitCode result)
                 (Some (res_executionDurationMs result)) w3).
    pose proof (updatePlanStatus_named env stackName planIds planId
                  (res_executionStatus result) (res_errorMessage result)
                  (res_exitCode result)
                  (Some (res_executionDurationMs result)) _ Hn3) as Hn4.
    fold w4 in Hn4.
    destruct (updatePlanStatus_frame env stackName planIds planId
                (res_executionStatus result) (res_errorMessage result)
                (res_exitCode result)
                (Some (res_executionDurationMs result)) w3)
      as (Hsf4 & Hck4 & _ & (s4 & Htr4)). fold w4 in Hsf4, Hck4, Htr4.
    destruct (updateStackPlanStatus_ok env stackName planId
                {| upd_planId := None; upd_dependsOnPlanIds := None;
                   upd_executionStatus := Some (res_executionStatus result);
                   upd_lastExecutedAt := Some (Some (isoNow env w4));
                   upd_executionDurationMs :=
                     Some (Some (res_executionDurationMs result)) |} (tick w4))
      as (w5 & stk5 & -> & Hst5 & Hs5 & Hck5 & _ & Htr5);
      [change (is_Some (stackFiles w4 !! stackName)); by rewrite Hsf4, Hsf3|].
    assert (load w5 = load w4) as Hl5 by (by apply load_ext).
    assert (∀ x, read w5 x = read w4 x) as Hr5
      by (intros; unfold read_status; by rewrite Hl5).
    assert (load w3 = load w1) as Hl3
      by (etrans; [by apply load_ext|by apply load_ext]).
    assert (read w5 planId
            = Some (written_status env planId (res_executionStatus result)
                      (res_errorMessage result) (res_exitCode result)
                      (Some (res_executionDurationMs result)) w3)) as Hrp.
    { rewrite Hr5. unfold w4. rewrite updatePlanStatus_read by done.
      by rewrite decide_True. }
    split; cbn [ls_world ls_completedPlanIds ls_results]; try done;
      try (intros _ ?; congruence).
    + split; [|done]. intros s. rewrite Hst5. apply Hn4.
    + intros x Hx. rewrite Hr5. unfold w4.
      rewrite updatePlanStatus_read, decide_False by done.
      unfold read_status. rewrite Hl3. unfold w1.
      rewrite updatePlanStatus_load by done. simpl.
      by rewrite lookup_insert_ne.
    + exists [WriteStatus s1; WriteStack stk2; Invoke planId;
              WriteStatus s4; WriteStack stk5]. split.
      * rewrite Htr5. change (trace (tick w4)) with (trace w4).
        rewrite Htr4, Htr3, Htr2, Htr1.
        by rewrite <- !app_assoc.
      * intros q. split; [|intros (-> & _ & _); set_solver].
        rewrite !elem_of_cons. intros [?|[?|[[= ->]|[?|[?|?%elem_of_nil]]]]]; done.
    + case_decide; set_solver.
    + intros x Hx Hnx. case_decide as Hc; [|done].
      apply elem_of_union in Hx as [->%elem_of_singleton|?]; [|done].
      split; [done|]. rewrite Hrp. simpl. by rewrite Hc.
    + intros _ _. eexists. split; [exact Hrp|]. simpl. split; [done|].
      case_decide as Hc; [set_solver|]. split; [done|]. intros ?. done.
    + rewrite Hl5. unfold w4. rewrite updatePlanStatus_load by done. simpl.
      rewrite Hl3. unfold w1. by rewrite updatePlanStatus_load.
    + simpl in Hck5. lia.
    + intros lo (t & _ & Ht). exists (S (clockReads w3)).
      rewrite Hl5. unfold w4 at 1. rewrite updatePlanStatus_load by done. simpl.
      split; [done|]. simpl in Hck5. lia.
Qed.

Lemma exec_step_post st planId st' :
  world_ok stackName (ls_world st) → step st planId = inr st' →
  step_post st planId st'.
Proof.
  intros Hok Hstep. pose proof (exec_step_cases st planId Hok) as H.
  by rewrite Hstep in H.
Qed.

Lemma exec_step_abort st planId w' message :
  world_ok stackName (ls_world st) → step st planId = inl (w', message) →
  step_abort st planId w' message.
Proof.
  intros Hok Hstep. pose proof (exec_step_cases st planId Hok) as H.
  by rewrite Hstep in H.
Qed.

(** When [spawn] never throws, the iteration returns. *)
Lemma exec_step_spec st planId :
  never_throws env → world_ok stackName (ls_world st) →
  ∃ st', step st planId = inr st' ∧ step_post st planId st'.
Proof.
  intros Hnever Hok. pose proof (exec_step_cases st planId Hok) as H.
  destruct (step st planId) as [[w' message]|st'] eqn:Hstep; [|by exists st'].
  destruct H as [_ [n Hn] _ _ _ _ _ _ _]. by apply Hnever in Hn.
Qed.
End exec_step.

(** ** The execution loop *)

Lemma invoked_ids_spec w w' planId :
  invoked w w' planId ↔ planId ∈ invoked_ids w w'.
Proof.
  unfold invoked, invoked_ids. rewrite list_elem_of_omap. split.
  - intros H. by exists (Invoke planId).
  - intros ([] & Hin & Heq); simplify_eq. done.
Qed.

Lemma invoked_check w w' planId :
  bool_decide (planId ∈ invoked_ids w w') = true → invoked w w' planId.
Proof. intros H%bool_decide_eq_true. by apply invoked_ids_spec. Qed.

Lemma not_invoked_check w w' planId :
  bool_decide (planId ∈ invoked_ids w w') = false → ¬ invoked w w' planId.
Proof. intros H%bool_decide_eq_false. by rewrite invoked_ids_spec. Qed.

Lemma new_events_app w w' evs : trace w' = trace w ++ evs → new_events w w' = evs.
Proof. intros H. unfold new_events. by rewrite H, drop_app_length. Qed.

Lemma NoDup_split_unique (a b a' b' : list string) x :
  NoDup (a ++ x :: b) → a ++ x :: b = a' ++ x :: b' → a = a' ∧ b = b'.
Proof.
  revert a'. induction a as [|y a IH]; intros a' Hnd Heq.
  - destruct a' as [|y' a']; simpl in *.
    + by injection Heq as ->.
    + injection Heq as <- ->. apply NoDup_cons in Hnd as [Hx _].
      destruct Hx. apply elem_of_app. right. left.
  - destruct a' as [|y' a']; simpl in *.
    + injection Heq as -> <-. apply NoDup_cons in Hnd as [Hx _].
      destruct Hx. apply elem_of_app. right. left.
    + injection Heq as <- Heq. apply NoDup_cons in Hnd as [_ Hnd].
      destruct (IH a' Hnd Heq) as [-> ->]. done.
Qed.

Section exec_loop.
Context (env : Env) (stackName claudeCommand : string) (stack : Stack).

#[local] Abbreviation planIds := (map sp_planId (stk_plans stack)).
#[local] Abbreviation load := (loadStackStatus stackName planIds).
#[local] Abbreviation read := (read_status stackName planIds).
#[local] Abbreviation step := (exec_step env stackName claudeCommand stack planIds).
#[local] Abbreviation loop := (exec_loop env stackName claudeCommand stack planIds).
#[local] Abbreviation post := (step_post env stackName stack).
#[local] Abbreviation loop_post := (loop_post env stackName stack).
#[local] Abbreviation abort := (step_abort env stackName stack claudeCommand).
#[local] Abbreviation loop_abort := (loop_abort env stackName stack claudeCommand).

Lemma exec_loop_app l1 l2 st :
  loop (l1 ++ l2) st
  = match loop l1 st with inl e => inl e | inr st1 => loop l2 st1 end.
Proof.
  revert st. induction l1 as [|p l1 IH]; intros st; simpl; [done|].
  destruct (step st p); [done|]. apply IH.
Qed.

Lemma loop_post_nil st : world_ok stackName (ls_world st) → loop_post [] st st.
Proof.
  intros Hok. split; try done.
  exists []. rewrite app_nil_r. split; [done|]. by intros q ?%elem_of_nil.
Qed.

Lemma loop_post_cons p order st st1 st' :
  post st p st1 → loop_post order st1 st' → loop_post (p :: order) st st'.
Proof.
  intros Hs Hl. split.
  - apply Hl.
  - intros x [Hxp Hx]%not_elem_of_cons.
    rewrite (lp_frame _ _ _ _ _ _ Hl) by done. by apply (sp_frame _ _ _ _ _ _ Hs).
  - destruct (sp_trace _ _ _ _ _ _ Hs) as (evs1 & Ht1 & He1).
    destruct (lp_trace _ _ _ _ _ _ Hl) as (evs2 & Ht2 & He2).
    exists (evs1 ++ evs2). split; [by rewrite Ht2, Ht1, app_assoc|].
    intros q [Hq|Hq]%elem_of_app.
    + apply He1 in Hq as (-> & ? & _). split; [left|done].
    + apply He2 in Hq as [? Hn]. split; [by right|].
      intros Hc. apply Hn. by apply (sp_mono _ _ _ _ _ _ Hs).
  - etrans; [apply Hs|apply Hl].
  - intros x Hx Hn.
    destruct (decide (x ∈ ls_completedPlanIds st1)) as [H1|H1].
    + destruct (sp_new _ _ _ _ _ _ Hs x H1 Hn) as [-> _]. left.
    + right. by apply (lp_new _ _ _ _ _ _ Hl).
  - intros x Hx.
    rewrite (lp_done _ _ _ _ _ _ Hl) by (by apply (sp_mono _ _ _ _ _ _ Hs)).
    destruct (decide (x = p)) as [->|Hne].
    + by rewrite (sp_done _ _ _ _ _ _ Hs Hx).
    + by apply (sp_frame _ _ _ _ _ _ Hs).
  - intros Hsound. apply (lp_sound _ _ _ _ _ _ Hl). intros x Hx.
    destruct (decide (x ∈ ls_completedPlanIds st)) as [H0|H0].
    + destruct (decide (x = p)) as [->|Hne].
      * rewrite (sp_done _ _ _ _ _ _ Hs H0). by apply Hsound.
      * rewrite (sp_frame _ _ _ _ _ _ Hs) by done. by apply Hsound.
    + by destruct (sp_new _ _ _ _ _ _ Hs x Hx H0) as [-> ?].
  - intros x Hc. apply (lp_complete _ _ _ _ _ _ Hl).
    destruct (decide (x = p)) as [->|Hne].
    + intros Hst.
      destruct (decide (p ∈ ls_completedPlanIds st)) as [H0|H0];
        [by apply (sp_mono _ _ _ _ _ _ Hs)|].
      destruct (hasUnmetDependencies stack p (ls_completedPlanIds st)) eqn:Hu.
      * destruct (sp_skip _ _ _ _ _ _ Hs H0 Hu) as (_ & ps & Hps & Hrec & _).
        unfold status_of in Hst. rewrite Hps in Hst. simpl in Hst. congruence.
      * destruct (sp_run _ _ _ _ _ _ Hs H0 Hu) as (ps & Hps & _ & Hiff).
        unfold status_of in Hst. rewrite Hps in Hst. simpl in Hst.
        apply Hiff. congruence.
    + rewrite (sp_frame _ _ _ _ _ _ Hs) by done.
      intros Hst. by apply (sp_mono _ _ _ _ _ _ Hs), Hc.
  - rewrite (lp_running _ _ _ _ _ _ Hl). apply Hs.
  - etrans; [apply Hs|apply Hl].
  - intros lo H. by apply (lp_stamped _ _ _ _ _ _ Hl), (sp_stamped _ _ _ _ _ _ Hs).
Qed.

Lemma loop_abort_here p order st w' message :
  abort st p w' message → loop_abort (p :: order) st w' message.
Proof.
  intros [Hok Hthrew [Hnc Hunmet] Htask Hframe (status & record & Htr) Hrun Hck Hst].
  split; try done.
  - exists p. split; [left|]. by split.
  - intros x [Hxp _]%not_elem_of_cons. by apply Hframe.
  - eexists. split; [exact Htr|]. intros q.
    rewrite !elem_of_cons. intros [?|[?|[[= ->]|?%elem_of_nil]]]; try done.
    split; [by left|done].
Qed.

Lemma loop_abort_cons p order st st1 w' message :
  post st p st1 → loop_abort order st1 w' message →
  loop_abort (p :: order) st w' message.
Proof.
  intros Hs [Hok (p' & Hp' & Htask) Hframe (evs2 & Ht2 & He2) Hrun Hck Hst].
  split.
  - done.
  - exists p'. split; [by right|done].
  - intros x [Hxp Hx]%not_elem_of_cons.
    rewrite Hframe by done. by apply (sp_frame _ _ _ _ _ _ Hs).
  - destruct (sp_trace _ _ _ _ _ _ Hs) as (evs1 & Ht1 & He1).
    exists (evs1 ++ evs2). split; [by rewrite Ht2, Ht1, app_assoc|].
    intros q [Hq|Hq]%elem_of_app.
    + apply He1 in Hq as (-> & ? & _). split; [left|done].
    + apply He2 in Hq as [? Hn]. split; [by right|].
      intros Hc. apply Hn. by apply (sp_mono _ _ _ _ _ _ Hs).
  - rewrite Hrun. apply Hs.
  - etrans; [apply Hs|done].
  - intros lo H. by apply Hst, (sp_stamped _ _ _ _ _ _ Hs).
Qed.

(** On a world that holds the stack, the loop either runs to the end of
    the order or ends by the exception [spawn] threw for one of its
    tasks. *)
Lemma exec_loop_cases order st :
  world_ok stackName (ls_world st) →
  match loop order st with
  | inr st' => loop_post order st st'
  | inl (w', message) => loop_abort order st w' message
  end.
Proof.
  revert st. induction order as [|p order IH]; intros st Hok; cbn [exec_loop].
  - by apply loop_post_nil.
  - pose proof (exec_step_cases env stackName claudeCommand stack st p Hok) as Hs.
    destruct (step st p) as [[w' message]|st1]; [by apply loop_abort_here|].
    pose proof (IH st1 (sp_ok _ _ _ _ _ _ Hs)) as Hl.
    destruct (loop order st1) as [[w' message]|st'].
    + by eapply loop_abort_cons.
    + by eapply loop_post_cons.
Qed.

Lemma exec_loop_post order st st' :
  world_ok stackName (ls_world st) → loop order st = inr st' →
  loop_post order st st'.
Proof.
  intros Hok Hloop. pose proof (exec_loop_cases order st Hok) as H.
  by rewrite Hloop in H.
Qed.

Lemma exec_loop_abort order st w' message :
  world_ok stackName (ls_world st) → loop order st = inl (w', message) →
  loop_abort order st w' message.
Proof.
  intros Hok Hloop. pose proof (exec_loop_cases order st Hok) as H.
  by rewrite Hloop in H.
Qed.

(** When [spawn] never throws, the loop runs to the end of the order. *)
Lemma exec_loop_spec order st :
  never_throws env → world_ok stackName (ls_world st) →
  ∃ st', loop order st = inr st' ∧ loop_post order st st'.
Proof.
  intros Hnever Hok. pose proof (exec_loop_cases order st Hok) as H.
  destruct (loop order st) as [[w' message]|st'] eqn:Hloop; [|by exists st'].
  destruct H as [_ (p & _ & _ & n & Hn) _ _ _ _ _]. by apply Hnever in Hn.
Qed.

Lemma hasUnmet_true planId sp d C :
  find_plan planId (stk_plans stack) = Some sp →
  d ∈ sp_dependsOnPlanIds sp → d ∉ C →
  hasUnmetDependencies stack planId C = true.
Proof.
  intros Hf Hd Hn. unfold hasUnmetDependencies. rewrite Hf.
  apply bool_decide_eq_true, Exists_exists. by exists d.
Qed.

Lemma hasUnmet_false planId sp C :
  find_plan planId (stk_plans stack) = Some sp →
  (∀ d, d ∈ sp_dependsOnPlanIds sp → d ∈ C) →
  hasUnmetDependencies stack planId C = false.
Proof.
  intros Hf Hall. unfold hasUnmetDependencies. rewrite Hf.
  apply bool_decide_eq_false. intros (d & Hd & Hn)%Exists_exists.
  by apply Hn, Hall.
Qed.

(** The three-way split of a run of the loop around one task of a
    duplicate-free order. *)
Lemma exec_loop_split order p st st' :
  world_ok stackName (ls_world st) → NoDup order → p ∈ order →
  loop order st = inr st' →
  ∃ pre suf st1 st2,
    order = pre ++ p :: suf ∧ (p ∉ pre) ∧ (p ∉ suf) ∧
    loop_post pre st st1 ∧ post st1 p st2 ∧ loop_post suf st2 st'.
Proof.
  intros Hok Hnd (pre & suf & ->)%list_elem_of_split Hrun.
  apply NoDup_app in Hnd as (_ & Hpre & [Hsuf _]%NoDup_cons).
  rewrite exec_loop_app in Hrun.
  destruct (loop pre st) as [|st1] eqn:Hr1; [done|].
  pose proof (exec_loop_post pre st st1 Hok Hr1) as Hl1.
  cbn [exec_loop] in Hrun.
  destruct (step st1 p) as [|st2] eqn:Hr2; [done|].
  pose proof (exec_step_post env stackName claudeCommand stack st1 p st2
                (lp_ok _ _ _ _ _ _ Hl1) Hr2) as Hs2.
  pose proof (exec_loop_post suf st2 st' (sp_ok _ _ _ _ _ _ Hs2) Hrun) as Hl3.
  exists pre, suf, st1, st2. split_and!; try done.
  intros Hin. apply (Hpre _ Hin). left.
Qed.

(** A task that is reached with a dependency outside the satisfied set
    ends [skipped] and is not invoked. *)
Lemma exec_loop_skips order p sp d st st' :
  world_ok stackName (ls_world st) → NoDup order → p ∈ order →
  p ∉ ls_completedPlanIds st →
  find_plan p (stk_plans stack) = Some sp → d ∈ sp_dependsOnPlanIds sp →
  loop order st = inr st' → d ∉ ls_completedPlanIds st' →
  (∃ ps, read (ls_world st') p = Some ps ∧ is_skip_record ps) ∧
  ¬ invoked (ls_world st) (ls_world st') p.
Proof.
  intros Hok Hnd Hin Hp Hf Hd Hrun Hdn.
  destruct (exec_loop_split order p st st' Hok Hnd Hin Hrun)
    as (pre & suf & st1 & st2 & -> & Hpre & Hsuf & Hl1 & Hs & Hl2).
  assert (p ∉ ls_completedPlanIds st1) as Hp1.
  { intros Hc. apply Hpre. by apply (lp_new _ _ _ _ _ _ Hl1). }
  assert (hasUnmetDependencies stack p (ls_completedPlanIds st1) = true) as Hu.
  { eapply hasUnmet_true; [done..|]. intros Hc. apply Hdn.
    by apply (lp_mono _ _ _ _ _ _ Hl2), (sp_mono _ _ _ _ _ _ Hs). }
  destruct (sp_skip _ _ _ _ _ _ Hs Hp1 Hu) as (Hp2 & ps & Hps & Hrec).
  split.
  - exists ps. split; [|done]. by rewrite (lp_frame _ _ _ _ _ _ Hl2).
  - destruct (lp_trace _ _ _ _ _ _ Hl1) as (e1 & Ht1 & He1).
    destruct (sp_trace _ _ _ _ _ _ Hs) as (e2 & Ht2 & He2).
    destruct (lp_trace _ _ _ _ _ _ Hl2) as (e3 & Ht3 & He3).
    unfold invoked. rewrite (new_events_app _ _ (e1 ++ e2 ++ e3))
      by (by rewrite Ht3, Ht2, Ht1, <- !app_assoc).
    rewrite !elem_of_app. intros [H|[H|H]].
    + by apply He1 in H as [? _].
    + apply He2 in H as (_ & _ & ?). congruence.
    + by apply He3 in H as [? _].
Qed.

(** A task that is reached outside the satisfied set with all its
    dependencies inside is handed to the worker. *)
Lemma exec_loop_runs order p sp st st' :
  world_ok stackName (ls_world st) → NoDup order → p ∈ order →
  p ∉ ls_completedPlanIds st →
  find_plan p (stk_plans stack) = Some sp →
  loop order st = inr st' →
  (∀ d, d ∈ sp_dependsOnPlanIds sp →
        d ∈ ls_completedPlanIds st' ∧ (d ∈ order → before order d p)) →
  invoked (ls_world st) (ls_world st') p.
Proof.
  intros Hok Hnd Hin Hp Hf Hrun Hdeps.
  destruct (exec_loop_split order p st st' Hok Hnd Hin Hrun)
    as (pre & suf & st1 & st2 & -> & Hpre & Hsuf & Hl1 & Hs & Hl2).
  assert (p ∉ ls_completedPlanIds st1) as Hp1.
  { intros Hc. apply Hpre. by apply (lp_new _ _ _ _ _ _ Hl1). }
  assert (hasUnmetDependencies stack p (ls_completedPlanIds st1) = false) as Hu.
  { eapply hasUnmet_false; [done|]. intros d Hd.
    destruct (Hdeps d Hd) as [Hc Hb].
    destruct (decide (d ∈ ls_completedPlanIds st1)) as [|Hn1]; [done|].
    exfalso.
    assert (d ∈ p :: suf) as Hps.
    { destruct (decide (d ∈ ls_completedPlanIds st2)) as [H2|H2].
      - destruct (sp_new _ _ _ _ _ _ Hs d H2 Hn1) as [-> _]. left.
      - right. by apply (lp_new _ _ _ _ _ _ Hl2). }
    destruct Hb as (l1 & l2 & l3 & Heq).
    { apply elem_of_app. by right. }
    replace (l1 ++ d :: l2 ++ p :: l3) with ((l1 ++ d :: l2) ++ p :: l3) in Heq
      by (by rewrite <- app_assoc).
    pose proof Hnd as Hnd'.
    apply (NoDup_split_unique _ _ _ _ _ Hnd) in Heq as [-> ->].
    apply NoDup_app in Hnd' as (_ & Hdisj & _).
    apply (Hdisj d); [|done]. apply elem_of_app. right. left. }
  destruct (lp_trace _ _ _ _ _ _ Hl1) as (e1 & Ht1 & He1).
  destruct (sp_trace _ _ _ _ _ _ Hs) as (e2 & Ht2 & He2).
  destruct (lp_trace _ _ _ _ _ _ Hl2) as (e3 & Ht3 & He3).
  unfold invoked. rewrite (new_events_app _ _ (e1 ++ e2 ++ e3))
    by (by rewrite Ht3, Ht2, Ht1, <- !app_assoc).
  rewrite !elem_of_app. right. left. by apply He2.
Qed.
End exec_loop.

(** ** A whole run *)

Lemma seed_completed_elem stack cs x :
  x ∈ seed_completed stack cs ↔
  x ∈ map sp_planId (stk_plans stack) ∧
  status_of (planStatuses cs !! x) = Some completed.
Proof.
  unfold seed_completed.
  assert (∀ sps (acc : gset string),
            x ∈ foldl (fun acc sp =>
                         match planStatuses cs !! sp_planId sp with
                         | Some planStatus =>
                             if decide (pes_executionStatus planStatus = completed)
                             then {[sp_planId sp]} ∪ acc else acc
                         | None => acc
                         end) acc sps
            ↔ x ∈ acc ∨ (x ∈ map sp_planId sps ∧
                         status_of (planStatuses cs !! x) = Some completed)) as Hgen.
  { induction sps as [|sp sps IH]; intros acc; cbn [foldl map].
    - split; [by left|]. intros [?|[?%elem_of_nil _]]; done.
    - rewrite IH, elem_of_cons. unfold status_of.
      destruct (planStatuses cs !! sp_planId sp) as [ps|] eqn:Hps.
      + case_decide as Hc.
        * rewrite elem_of_union, elem_of_singleton. split; [|naive_solver].
          intros [[->|?]|?]; [|naive_solver..].
          right. split; [by left|]. rewrite Hps. simpl. by rewrite Hc.
        * split; [naive_solver|]. intros [?|[[->|?] Hst]]; [naive_solver| |naive_solver].
          rewrite Hps in Hst. simpl in Hst. congruence.
      + split; [naive_solver|]. intros [?|[[->|?] Hst]]; [naive_solver| |naive_solver].
        rewrite Hps in Hst. done. }
  rewrite Hgen. set_solver.
Qed.

Lemma truncate_order_drop fromPlanId sorted :
  ∃ n, truncate_order fromPlanId sorted = drop n sorted.
Proof.
  unfold truncate_order, slice_from.
  destruct fromPlanId as [f|]; [|by exists 0].
  case_decide; [by exists 0|]. case_decide; by eexists.
Qed.

Lemma before_drop n l d t :
  NoDup l → before l d t → d ∈ drop n l → before (drop n l) d t.
Proof.
  intros Hnd (l1 & l2 & l3 & Hl) Hd.
  apply list_elem_of_split in Hd as (a & b & Hab).
  pose proof (take_drop n l) as Htd. rewrite Hab in Htd.
  assert (take n l ++ a = l1 ∧ b = l2 ++ t :: l3) as [_ Hb].
  { apply (NoDup_split_unique _ _ _ _ d).
    - rewrite <- app_assoc. by rewrite Htd.
    - rewrite <- app_assoc. by rewrite Htd, Hl. }
  exists a, l2, l3. by rewrite Hab, Hb.
Qed.

Section run.
Context (env : Env) (stackName claudeCommand : string) (stack : Stack).

#[local] Abbreviation planIds := (map sp_planId (stk_plans stack)).
#[local] Abbreviation load := (loadStackStatus stackName planIds).
#[local] Abbreviation read := (read_status stackName planIds).
#[local] Abbreviation run_start := (run_start env stackName stack).

Lemma run_start_read w x :
  status_named stackName w → read (ls_world (run_start w)) x = read w x.
Proof.
  intros Hn. unfold read_status, run_start. cbn [ls_world].
  by rewrite setStackRunning_load.
Qed.

Lemma run_start_ok w :
  status_named stackName w → stackFiles w !! stackName = Some stack →
  world_ok stackName (ls_world (run_start w)).
Proof.
  intros Hn Hs. split.
  - by apply setStackRunning_named.
  - unfold run_start, setStackRunning, saveStackStatus; simpl. by eexists.
Qed.

Lemma run_start_seed w x :
  status_named stackName w →
  x ∈ ls_completedPlanIds (run_start w) ↔
  x ∈ planIds ∧ status_of (read w x) = Some completed.
Proof.
  intros Hn. unfold run_start. cbn [ls_completedPlanIds].
  rewrite seed_completed_elem.
  unfold read_status. by rewrite setStackRunning_load.
Qed.

Lemma run_start_trace w :
  ∃ st, trace (ls_world (run_start w)) = trace w ++ [WriteStatus st] ∧
        isRunning st = true.
Proof. unfold run_start, setStackRunning, saveStackStatus; simpl. by eexists. Qed.

Lemma run_plans_start order w :
  run_plans env stackName claudeCommand stack order w
  = exec_loop env stackName claudeCommand stack planIds order (run_start w).
Proof. reflexivity. Qed.

(** A non-dry run of a stored, acyclic stack: when the loop returns, the
    final world is the world the loop leaves, followed by the closing
    [setStackRunning]; when the loop ends by an exception, the run ends by
    that exception in the world the loop leaves. *)
Lemma executeStack_cases fromPlanId w :
  stackFiles w !! stackName = Some stack → status_named stackName w →
  hasCycle (getExecutionOrder (stk_plans stack)) = false →
  let order := truncate_order fromPlanId
                 (sortedPlanIds (getExecutionOrder (stk_plans stack))) in
  match run_plans env stackName claudeCommand stack order w with
  | inr st =>
      loop_post env stackName stack order (run_start w) st ∧
      executeStack env stackName false fromPlanId claudeCommand w
      = (setStackRunning env stackName planIds false (ls_world st),
         inr {| results := ls_results st; executionOrder := order |})
  | inl (w', message) =>
      loop_abort env stackName stack claudeCommand order (run_start w) w' message ∧
      executeStack env stackName false fromPlanId claudeCommand w
      = (w', inl message)
  end.
Proof.
  intros Hs Hn Hc order.
  pose proof (exec_loop_cases env stackName claudeCommand stack order (run_start w)
                (run_start_ok w Hn Hs)) as Hcases.
  unfold executeStack, loadStack. rewrite Hs, Hc. fold order.
  rewrite run_plans_start.
  destruct (exec_loop env stackName claudeCommand stack planIds order (run_start w))
    as [[w' message]|st]; by split.
Qed.

(** When [spawn] never throws, the run returns. *)
Lemma executeStack_run fromPlanId w :
  never_throws env →
  stackFiles w !! stackName = Some stack → status_named stackName w →
  hasCycle (getExecutionOrder (stk_plans stack)) = false →
  let order := truncate_order fromPlanId
                 (sortedPlanIds (getExecutionOrder (stk_plans stack))) in
  ∃ st, run_plans env stackName claudeCommand stack order w = inr st ∧
    loop_post env stackName stack order (run_start w) st ∧
    executeStack env stackName false fromPlanId claudeCommand w
    = (setStackRunning env stackName planIds false (ls_world st),
       inr {| results := ls_results st; executionOrder := order |}).
Proof.
  intros Hnever Hs Hn Hc order.
  pose proof (executeStack_cases fromPlanId w Hs Hn Hc) as Hcases.
  cbv zeta in Hcases. fold order in Hcases.
  destruct (run_plans env stackName claudeCommand stack order w)
    as [[w' message]|st] eqn:Hrun.
  - destruct Hcases as [[_ (p & _ & _ & n & Hthrew) _ _ _ _ _] _].
    by apply Hnever in Hthrew.
  - exists st. by destruct Hcases.
Qed.

Lemma executeStack_inv fromPlanId w w' res :
  stackFiles w !! stackName = Some stack → status_named stackName w →
  executeStack env stackName false fromPlanId claudeCommand w = (w', inr res) →
  let order := truncate_order fromPlanId
                 (sortedPlanIds (getExecutionOrder (stk_plans stack))) in
  hasCycle (getExecutionOrder (stk_plans stack)) = false ∧
  executionOrder res = order ∧
  ∃ st, exec_loop env stackName claudeCommand stack planIds order (run_start w)
        = inr st ∧
    loop_post env stackName stack order (run_start w) st ∧
    w' = setStackRunning env stackName planIds false (ls_world st) ∧
    results res = ls_results st.
Proof.
  intros Hs Hn Hex order.
  destruct (hasCycle (getExecutionOrder (stk_plans stack))) eqn:Hc.
  { unfold executeStack, loadStack in Hex. rewrite Hs, Hc in Hex. done. }
  pose proof (executeStack_cases fromPlanId w Hs Hn Hc) as Hcases.
  cbv zeta in Hcases. fold order in Hcases.
  destruct (run_plans env stackName claudeCommand stack order w)
    as [[w1 message]|st] eqn:Hrun; destruct Hcases as [Hpost Heq];
    rewrite Heq in Hex; [done|].
  injection Hex as <- <-. rewrite run_plans_start in Hrun.
  split_and!; try done. exists st. split_and!; try done.
Qed.

Lemma final_read st x :
  world_ok stackName (ls_world st) →
  read (setStackRunning env stackName planIds false (ls_world st)) x
  = read (ls_world st) x.
Proof.
  intros [Hn _]. unfold read_status. by rewrite setStackRunning_load.
Qed.
End run.

(** ** The queue discipline of the sorter *)

Lemma filter_ext_in {A} (P Q : A → Prop) `{!∀ x, Decision (P x)}
    `{!∀ x, Decision (Q x)} (l : list A) :
  (∀ x, x ∈ l → P x ↔ Q x) → filter P l = filter Q l.
Proof.
  induction l as [|x l IH]; intros Hext; [done|]. rewrite !filter_cons.
  rewrite IH by (intros y Hy; apply Hext; by right).
  destruct (decide (P x)) as [HP|HP], (decide (Q x)) as [HQ|HQ]; try done.
  - destruct HQ. apply Hext; [left|done].
  - destruct HP. apply Hext; [left|done].
Qed.

Ltac reassociate :=
  repeat first [rewrite <- app_assoc | progress cbn [app]]; try done.

Lemma snoc_split {A} (s l1 l2 : list A) (u a : A) :
  s ++ [u] = l1 ++ a :: l2 →
  (l2 = [] ∧ a = u ∧ s = l1) ∨ (∃ l2', l2 = l2' ++ [u] ∧ s = l1 ++ a :: l2').
Proof.
  destruct l2 as [|z l2' _] using rev_ind; intros Heq.
  - left. apply app_inj_tail in Heq as [-> ->]. done.
  - right. exists l2'.
    assert (l1 ++ a :: l2' ++ [z] = (l1 ++ a :: l2') ++ [z]) as Hre
      by reassociate.
    rewrite Hre in Heq. apply app_inj_tail in Heq as [-> ->]. done.
Qed.

Lemma before_app_l l l' x y : before l x y → before (l ++ l') x y.
Proof.
  intros (l1 & l2 & l3 & ->). exists l1, l2, (l3 ++ l'). reassociate.
Qed.

Lemma before_app_r l l' x y : before l' x y → before (l ++ l') x y.
Proof.
  intros (l1 & l2 & l3 & ->). exists (l ++ l1), l2, l3. by rewrite <- app_assoc.
Qed.

Lemma before_app_lr l l' x y : x ∈ l → y ∈ l' → before (l ++ l') x y.
Proof.
  intros (l1 & l2 & ->)%list_elem_of_split (r1 & r2 & ->)%list_elem_of_split.
  exists l1, (l2 ++ r1), r2. reassociate.
Qed.

Lemma before_filter (P : string → Prop) `{!∀ x, Decision (P x)} l x y :
  before l x y → P x → P y → before (filter P l) x y.
Proof.
  intros (l1 & l2 & l3 & ->) Hx Hy.
  exists (filter P l1), (filter P l2), (filter P l3).
  rewrite filter_app, filter_cons, decide_True by done.
  by rewrite filter_app, filter_cons, decide_True by done.
Qed.

(** In a list without repetition that ends with [u], what comes before an
    element other than [u] comes before it in the list without [u]. *)
Lemma before_snoc_inv s u a b :
  NoDup (s ++ [u]) → b ∈ s → before (s ++ [u]) a b → before s a b.
Proof.
  intros Hnd Hb (l1 & l2 & l3 & Heq).
  apply snoc_split in Heq as [(Hnil & _)|(m & Hm & Hs)].
  { by destruct l2. }
  symmetry in Hm. apply snoc_split in Hm as [(_ & -> & _)|(l3' & -> & ->)].
  - apply NoDup_app in Hnd as (_ & Hdisj & _).
    destruct (Hdisj u Hb). by apply list_elem_of_singleton.
  - rewrite Hs. by exists l1, l2, l3'.
Qed.

(** Nothing comes after the last element. *)
Lemma before_last_absurd s u v : NoDup (s ++ [u]) → ¬ before (s ++ [u]) u v.
Proof.
  intros Hnd (l1 & l2 & l3 & Heq).
  assert (u ∈ s) as Hu.
  { apply snoc_split in Heq as [(Hnil & _)|(m & Hm & ->)].
    { by destruct l2. }
    apply elem_of_app. right. left. }
  apply NoDup_app in Hnd as (_ & Hdisj & _).
  destruct (Hdisj u Hu). by apply list_elem_of_singleton.
Qed.

Lemma last_occurrences_elem x l : x ∈ last_occurrences l ↔ x ∈ l.
Proof.
  induction l as [|y l IH]; [done|]. cbn [last_occurrences].
  case_decide as Hin.
  - rewrite IH, elem_of_cons. split; [by right|]. by intros [->|?].
  - by rewrite !elem_of_cons, IH.
Qed.

Lemma last_occurrences_app l r :
  ∃ s, last_occurrences (l ++ r) = s ++ last_occurrences r.
Proof.
  induction l as [|x l [s IH]]; [by exists []|].
  cbn [app last_occurrences]. case_decide.
  - by exists s.
  - exists (x :: s). by rewrite IH.
Qed.

Lemma last_before_last_occurrences l x y :
  last_before l x y → before (last_occurrences l) x y.
Proof.
  intros (l1 & l2 & l3 & -> & Hx & Hy).
  destruct (last_occurrences_app l1 (x :: l2 ++ y :: l3)) as [s1 ->].
  cbn [last_occurrences]. rewrite decide_False by done.
  destruct (last_occurrences_app l2 (y :: l3)) as [s2 ->].
  cbn [last_occurrences]. rewrite decide_False by done.
  by exists s1, s2, (last_occurrences l3).
Qed.

(** What one pass over the dependents of a node appends to the queue, as
    long as no degree drops below zero: the ids whose degree is used up
    by their occurrences in the list, each at its last occurrence. *)
Lemma relax_fifo L deg q :
  (∀ x, x ∈ L → (Z.of_nat (occ x L) ≤ dget deg x)%Z) →
  (foldl relax (deg, q) L).2
  = q ++ filter (fun x => dget deg x = Z.of_nat (occ x L)) (last_occurrences L).
Proof.
  revert deg q. induction L as [|d L IH]; intros deg q Hle; cbn [foldl].
  - cbn [last_occurrences]. by rewrite filter_nil, app_nil_r.
  - unfold relax at 2. cbn [fst snd]. fold (dget deg d).
    set (deg1 := JsMap.set d (dget deg d - 1)%Z deg).
    assert (∀ v, dget deg1 v = if decide (d = v) then (dget deg d - 1)%Z else dget deg v)
      as Hdeg1 by (intros; apply dget_set).
    rewrite IH.
    2:{ intros x Hx. rewrite Hdeg1.
        assert (x ∈ d :: L) as Hx' by (by right).
        specialize (Hle x Hx'). rewrite occ_cons in Hle.
        case_decide; [subst|]; lia. }
    assert (d ∈ d :: L) as Hd by left.
    pose proof (Hle d Hd) as Hled. rewrite occ_cons, decide_True in Hled by done.
    cbn [last_occurrences]. destruct (decide (d ∈ L)) as [Hin|Hnin].
    + apply occ_pos in Hin. rewrite decide_False by lia. f_equal.
      apply filter_ext_in. intros x _. rewrite Hdeg1, occ_cons.
      case_decide; [subst|]; lia.
    + assert (occ d (d :: L) = 1) as Hocc1.
      { rewrite occ_cons, decide_True by done. by rewrite (occ_zero d L Hnin). }
      rewrite (filter_ext_in (fun x => dget deg1 x = Z.of_nat (occ x L))
                 (fun x => dget deg x = Z.of_nat (occ x (d :: L)))
                 (last_occurrences L)).
      2:{ intros x Hx. pose proof (proj1 (last_occurrences_elem x L) Hx) as Hx'.
          assert (d ≠ x) by (intros Heq; apply Hnin; by rewrite Heq).
          by rewrite Hdeg1, occ_cons, !decide_False by done. }
      rewrite filter_cons, Hocc1.
      destruct (decide ((dget deg d - 1)%Z = 0%Z)),
               (decide (dget deg d = Z.of_nat 1)); try lia.
      * by rewrite <- app_assoc.
      * done.
Qed.

Lemma last_dep_old graph sorted u x ux :
  NoDup (sorted ++ [u]) → (∀ d, d ∈ deps graph x → d ∈ sorted) →
  last_dep graph (sorted ++ [u]) x ux → last_dep graph sorted x ux.
Proof.
  intros Hnd Hdeps [Hux Hlast]. split; [done|].
  intros d Hd. destruct (Hlast d Hd) as [->|Hb]; [by left|right].
  apply (before_snoc_inv sorted u); [done| |done]. by apply Hdeps.
Qed.

Lemma last_dep_new graph sorted u x ux :
  NoDup (sorted ++ [u]) → u ∈ deps graph x →
  last_dep graph (sorted ++ [u]) x ux → ux = u.
Proof.
  intros Hnd Hu [Hux Hlast]. destruct (Hlast u Hu) as [->|Hb]; [done|].
  by destruct (before_last_absurd sorted u ux Hnd).
Qed.

Section kahn_fifo.
Context (graph : Graph) (Hwf : wf_graph graph)
        (Hnonempty : "" ∉ JsMap.keys graph).

#[local] Abbreviation fifo := (fifo_inv graph).

Lemma kahn_inv_deps deg q sorted v :
  kahn_inv graph deg q sorted → v ∈ sorted ++ q →
  ∀ d, d ∈ deps graph v → d ∈ sorted.
Proof.
  intros (_ & Hdeg & Hmem & _) Hv. apply Hmem in Hv as [Hk H0].
  rewrite (Hdeg v Hk) in H0. apply remaining_zero. lia.
Qed.

Lemma fifo_inv_init :
  fifo (seed_queue (init_inDegree graph)) [].
Proof.
  pose proof (kahn_inv_init graph Hwf) as Hinv.
  assert (∀ x ux, x ∈ [] ++ seed_queue (init_inDegree graph) →
                  ¬ last_dep graph [] x ux) as Hno.
  { intros x ux Hx [Hux _].
    by apply (kahn_inv_deps _ _ _ x Hinv Hx), elem_of_nil in Hux. }
  split_and!.
  - exists []. rewrite app_nil_r. cbn [app].
    split; [by apply seed_queue_keyed, wf_graph_keyed|]. by intros x ?%elem_of_nil.
  - intros x y ux uy Hx _ Hlx. by destruct (Hno x ux).
  - intros x y u Hx _ Hlx. by destruct (Hno x u).
Qed.

Lemma fifo_inv_step deg u q sorted n :
  kahn_inv graph deg (u :: q) sorted → fifo (u :: q) sorted →
  JsMap.get u graph = Some n →
  fifo (foldl relax (deg, q) (dn_dependentPlanIds n)).2 (sorted ++ [u]).
Proof.
  intros Hinv (H1 & H2 & H3) Hn.
  pose proof Hinv as (Hnd & Hdeg & Hmem & _).
  assert (dn_dependentPlanIds n = rdeps graph u) as ->
    by (unfold rdeps; by rewrite Hn).
  assert (u ∉ sorted) as Hus.
  { apply NoDup_app in Hnd as (_ & Hd & _). intros Hin. apply (Hd _ Hin). left. }
  assert (NoDup (sorted ++ [u])) as Hnd'.
  { replace (sorted ++ u :: q) with ((sorted ++ [u]) ++ q) in Hnd
      by reassociate.
    by apply NoDup_app in Hnd as (? & _). }
  pose proof (fun v => kahn_inv_deps deg (u :: q) sorted v Hinv) as Hold.
  assert (∀ x, x ∈ rdeps graph u →
               dget deg x = Z.of_nat (remaining graph (sorted ++ [u]) x
                                      + occ x (rdeps graph u))) as Hdget.
  { intros x Hx. rewrite (Hdeg x (wf_rdeps _ Hwf u x Hx)), (wf_mirror _ Hwf).
    by rewrite (remaining_snoc graph sorted u x Hus). }
  rewrite relax_fifo by (intros x Hx; rewrite (Hdget x Hx); lia).
  set (pushed := filter (fun x => dget deg x = Z.of_nat (occ x (rdeps graph u)))
                   (last_occurrences (rdeps graph u))).
  assert (∀ x, x ∈ pushed → u ∈ deps graph x) as Hpushed.
  { intros x [_ Hx]%list_elem_of_filter.
    pose proof (proj1 (last_occurrences_elem x _) Hx) as Hx'.
    apply occ_pos. rewrite <- (wf_mirror _ Hwf). by apply occ_pos. }
  assert ((sorted ++ [u]) ++ q ++ pushed = (sorted ++ u :: q) ++ pushed) as HL
    by reassociate.
  unfold fifo_inv. rewrite !HL.
  assert (∀ x, x ∈ sorted ++ u :: q → ∀ ux,
            last_dep graph (sorted ++ [u]) x ux → last_dep graph sorted x ux) as Hkeep.
  { intros x Hx ux. apply last_dep_old; [done|]. by apply Hold. }
  assert (∀ x, x ∈ pushed → ∀ ux, last_dep graph (sorted ++ [u]) x ux → ux = u) as Hnew.
  { intros x Hx ux. apply last_dep_new; [done|]. by apply Hpushed. }
  split_and!.
  - destruct H1 as (rest & Hrest & Hdeps). exists (rest ++ pushed).
    rewrite Hrest, <- app_assoc. split; [done|].
    intros x [Hx|Hx]%elem_of_app; [by apply Hdeps|].
    intros Hnil. pose proof (Hpushed x Hx) as Hu. rewrite Hnil in Hu.
    by apply elem_of_nil in Hu.
  - intros x y ux uy [Hx|Hx]%elem_of_app [Hy|Hy]%elem_of_app Hlx Hly Hb.
    + apply before_app_l. apply (H2 x y ux uy); [done|done|by apply Hkeep..|].
      apply (before_snoc_inv sorted u); [done| |done].
      apply (Hold y Hy). by destruct (Hkeep y Hy uy Hly).
    + by apply before_app_lr.
    + rewrite (Hnew x Hx ux Hlx) in Hb. by destruct (before_last_absurd sorted u uy).
    + rewrite (Hnew x Hx ux Hlx) in Hb. by destruct (before_last_absurd sorted u uy).
  - intros x y u0 [Hx|Hx]%elem_of_app [Hy|Hy]%elem_of_app Hlx Hly Hlb.
    + apply before_app_l. apply (H3 x y u0); [done|done|by apply Hkeep..|done].
    + by apply before_app_lr.
    + pose proof (Hnew x Hx u0 Hlx) as ->.
      destruct Hus. apply (Hold y Hy). by destruct Hly.
    + pose proof (Hnew x Hx u0 Hlx) as ->.
      apply before_app_r. apply before_filter.
      * by apply last_before_last_occurrences.
      * by apply list_elem_of_filter in Hx as [? _].
      * by apply list_elem_of_filter in Hy as [? _].
Qed.

Lemma kahn_loop_fifo_inv fuel deg q sorted res :
  kahn_inv graph deg q sorted → fifo q sorted →
  kahn_loop graph fuel deg q sorted = Some res →
  fifo [] res.
Proof.
  revert deg q sorted.
  induction fuel as [|fuel IH]; intros deg q sorted Hinv Hfifo;
    destruct q as [|u q]; cbn [kahn_loop]; try done.
  - by intros [= <-].
  - by intros [= <-].
  - destruct (kahn_inv_step graph Hwf Hnonempty _ _ _ _ Hinv) as (Hne & n & Hn & Hinv').
    rewrite decide_False by done. rewrite Hn. apply IH; [done|].
    by apply fifo_inv_step.
Qed.
End kahn_fifo.

(** ** The graph builder *)

Lemma filter_filter_same {A} (P : A → Prop) `{!∀ x, Decision (P x)} (l : list A) :
  filter P (filter P l) = filter P l.
Proof.
  induction l as [|x l IH]; [done|].
  rewrite filter_cons. case_decide; [|done].
  rewrite filter_cons, decide_True by done. by rewrite IH.
Qed.

Lemma foldl_map {A B C} (f : A → B → A) (g : C → B) (l : list C) (a : A) :
  foldl f a (map g l) = foldl (fun a x => f a (g x)) a l.
Proof. revert a. induction l as [|x l IH]; intros a; simpl; [done|]. apply IH. Qed.

Lemma foldl_ext2 {A B} (f g : A → B → A) (l : list B) (a b : A) :
  (∀ a x, f a x = g a x) → a = b → foldl f a l = foldl g b l.
Proof.
  intros Hfg ->. revert b. induction l as [|x l IH]; intros b; simpl; [done|].
  by rewrite Hfg, IH.
Qed.

Lemma buildDependencyGraph_drop_dangling plans availablePlanIds :
  buildDependencyGraph (map (drop_dangling availablePlanIds) plans) availablePlanIds
  = buildDependencyGraph plans availablePlanIds.
Proof.
  unfold buildDependencyGraph. rewrite !foldl_map.
  apply foldl_ext2; [|done].
  intros graph plan. cbn [plan_planId plan_references drop_dangling].
  by rewrite filter_filter_same.
Qed.

Lemma plan_ids_drop_dangling plans availablePlanIds :
  map plan_planId (map (drop_dangling availablePlanIds) plans) = map plan_planId plans.
Proof. rewrite map_map. done. Qed.

Lemma plansToStackPlans_drop_dangling plans :
  plansToStackPlans
    (map (drop_dangling (list_to_set (map plan_planId plans))) plans)
  = plansToStackPlans plans.
Proof.
  unfold plansToStackPlans.
  rewrite plan_ids_drop_dangling, buildDependencyGraph_drop_dangling.
  by rewrite map_map.
Qed.

(** Every node the builder returns lists only available ids. *)
Lemma buildDependencyGraph_available plans availablePlanIds k n d :
  JsMap.get k (buildDependencyGraph plans availablePlanIds) = Some n →
  d ∈ dn_dependsOnPlanIds n → d ∈ availablePlanIds.
Proof.
  unfold buildDependencyGraph.
  set (graph0 := foldl _ [] plans).
  assert (∀ k n, JsMap.get k graph0 = Some n → dn_dependsOnPlanIds n = []) as H0.
  { subst graph0.
    assert (∀ (l : list Plan) (acc : Graph),
              (∀ k n, JsMap.get k acc = Some n → dn_dependsOnPlanIds n = []) →
              ∀ k n,
                JsMap.get k
                  (foldl (fun graph plan =>
                            JsMap.set (plan_planId plan)
                              {| dn_planId := plan_planId plan;
                                 dn_dependsOnPlanIds := [];
                                 dn_dependentPlanIds := [] |} graph) acc l)
                = Some n → dn_dependsOnPlanIds n = []) as Hgen.
    { induction l as [|p l IH]; intros acc Hacc; simpl; [done|].
      apply IH. intros k' n'.
      destruct (decide (plan_planId p = k')) as [->|Hne].
      - rewrite get_set_eq. by intros [= <-].
      - rewrite get_set_ne by done. apply Hacc. }
    apply Hgen. done. }
  assert (∀ k n, JsMap.get k graph0 = Some n →
                 ∀ d, d ∈ dn_dependsOnPlanIds n → d ∈ availablePlanIds) as Hinv.
  { intros k' n' Hg d' Hd'. rewrite (H0 _ _ Hg) in Hd'. by apply elem_of_nil in Hd'. }
  clearbody graph0. clear H0. revert graph0 Hinv k n d.
  induction plans as [|p plans IH]; intros graph Hinv; simpl;
    [intros k n d Hg; by apply (Hinv k n)|].
  apply IH. destruct (JsMap.get (plan_planId p) graph) as [node|] eqn:Hp; [|done].
  intros k n. rewrite push_all_get.
  destruct (decide (plan_planId p = k)) as [->|Hne].
  - rewrite get_set_eq. simpl. intros [= <-] d. simpl.
    by intros [? _]%list_elem_of_filter.
  - rewrite get_set_ne by done.
    destruct (JsMap.get k graph) as [n0|] eqn:Hk; simpl; [|done].
    intros [= <-] d. simpl. by apply (Hinv k n0).
Qed.

(** ** Truncating the order *)

Lemma slice_from_last {A} (l : list A) :
  slice_from (-1) l = match last l with Some x => [x] | None => [] end.
Proof.
  unfold slice_from. rewrite decide_True by lia.
  destruct (last l) as [x|] eqn:Hl.
  - apply last_Some in Hl as [l' ->].
    match goal with
    | |- drop ?n _ = _ =>
        assert (n = length l') as -> by (rewrite length_app; simpl; lia)
    end.
    by rewrite drop_app_length.
  - apply last_None in Hl as ->. done.
Qed.

Lemma truncate_order_missing f sorted :
  f ≠ "" → f ∉ sorted →
  truncate_order (Some f) sorted
  = match last sorted with Some x => [x] | None => [] end.
Proof.
  intros Hne Hnin. unfold truncate_order. rewrite decide_False by done.
  by rewrite indexOf_notin, slice_from_last.
Qed.

(** ** Effects of a run on any world that holds the stack *)

Section run_trace.
Context (env : Env) (stackName claudeCommand : string) (stack : Stack).

#[local] Abbreviation planIds := (map sp_planId (stk_plans stack)).

Lemma exec_step_trace st p :
  is_Some (stackFiles (ls_world st) !! stackName) →
  ∃ evs,
    is_Some (stackFiles
               (loop_world (exec_step env stackName claudeCommand stack planIds st p))
             !! stackName) ∧
    trace (loop_world (exec_step env stackName claudeCommand stack planIds st p))
    = trace (ls_world st) ++ evs ∧
    (∀ q, Invoke q ∈ evs → q = p) ∧
    (∀ w' message,
       exec_step env stackName claudeCommand stack planIds st p = inl (w', message) →
       ∃ n, worker env claudeCommand p n = SpawnThrew message).
Proof.
  intros Hs. unfold exec_step.
  case_decide.
  { exists []. rewrite app_nil_r. split_and!; try done.
    by intros q ?%elem_of_nil. }
  destruct (hasUnmetDependencies stack p (ls_completedPlanIds st)).
  - destruct (updatePlanStatus_frame env stackName planIds p skipped
                (Some skip_message) None None (ls_world st))
      as (Hsf1 & _ & _ & (s1 & Htr1)).
    destruct (updateStackPlanStatus_ok env stackName p (status_only skipped)
                (updatePlanStatus env stackName planIds p skipped
                   (Some skip_message) None None (ls_world st)))
      as (w2 & stk & -> & _ & Hs2 & _ & _ & Htr2); [by rewrite Hsf1|].
    exists [WriteStatus s1; WriteStack stk]. cbn [loop_world ls_world].
    split_and!; [done| | |done].
    + by rewrite Htr2, Htr1, <- app_assoc.
    + intros q. rewrite !elem_of_cons.
      intros [?|[?|?%elem_of_nil]]; done.
  - destruct (updatePlanStatus_frame env stackName planIds p running
                None None None (ls_world st))
      as (Hsf1 & _ & _ & (s1 & Htr1)).
    destruct (updateStackPlanStatus_ok env stackName p (status_only running)
                (updatePlanStatus env stackName planIds p running
                   None None None (ls_world st)))
      as (w2 & stk2 & -> & _ & Hs2 & _ & _ & Htr2); [by rewrite Hsf1|].
    pose proof (executePlan_spec env p claudeCommand w2) as Hspec.
    destruct (executePlan env p claudeCommand w2) as [w3 [message|result]] eqn:Hexec;
      cbn [fst snd] in Hspec; destruct Hspec as (_ & Hsf3 & _ & Htr3 & Hres).
    { exists [WriteStatus s1; WriteStack stk2; Invoke p]. cbn [loop_world fst].
      split_and!.
      - by rewrite Hsf3.
      - rewrite Htr3, Htr2, Htr1. by rewrite <- !app_assoc.
      - intros q. rewrite !elem_of_cons.
        intros [?|[?|[[= ->]|?%elem_of_nil]]]; done.
      - intros w' message' [= _ <-]. by eexists. }
    destruct (updatePlanStatus_frame env stackName planIds p
                (res_executionStatus result) (res_errorMessage result)
                (res_exitCode result)
                (Some (res_executionDurationMs result)) w3)
      as (Hsf4 & _ & _ & (s4 & Htr4)).
    set (w4 := updatePlanStatus env stackName planIds p
                 (res_executionStatus result) (res_errorMessage result)
                 (res_exitCode result)
                 (Some (res_executionDurationMs result)) w3) in *.
    destruct (updateStackPlanStatus_ok env stackName p
                {| upd_planId := None; upd_dependsOnPlanIds := None;
                   upd_executionStatus := Some (res_executionStatus result);
                   upd_lastExecutedAt := Some (Some (isoNow env w4));
                   upd_executionDurationMs :=
                     Some (Some (res_executionDurationMs result)) |} (tick w4))
      as (w5 & stk5 & -> & _ & Hs5 & _ & _ & Htr5);
      [change (is_Some (stackFiles w4 !! stackName)); by rewrite Hsf4, Hsf3|].
    exists [WriteStatus s1; WriteStack stk2; Invoke p;
            WriteStatus s4; WriteStack stk5]. cbn [loop_world ls_world].
    split_and!; [done| | |done].
    + rewrite Htr5. change (trace (tick w4)) with (trace w4).
      rewrite Htr4, Htr3, Htr2, Htr1. by rewrite <- !app_assoc.
    + intros q. rewrite !elem_of_cons.
      intros [?|[?|[[= ->]|[?|[?|?%elem_of_nil]]]]]; done.
Qed.

Lemma exec_loop_trace order st :
  is_Some (stackFiles (ls_world st) !! stackName) →
  ∃ evs,
    trace (loop_world (exec_loop env stackName claudeCommand stack planIds order st))
    = trace (ls_world st) ++ evs ∧
    (∀ q, Invoke q ∈ evs → q ∈ order) ∧
    (∀ w' message,
       exec_loop env stackName claudeCommand stack planIds order st
       = inl (w', message) →
       ∃ p n, p ∈ order ∧ worker env claudeCommand p n = SpawnThrew message).
Proof.
  revert st. induction order as [|p order IH]; intros st Hs; cbn [exec_loop].
  - exists []. rewrite app_nil_r. split_and!; try done.
    by intros q ?%elem_of_nil.
  - destruct (exec_step_trace st p Hs) as (e1 & Hs1 & Ht1 & He1 & Hthrew1).
    destruct (exec_step env stackName claudeCommand stack planIds st p)
      as [[w1 message1]|st1].
    + exists e1. cbn [loop_world fst] in *. split_and!; [done| |].
      * intros q Hq. apply He1 in Hq as ->. left.
      * intros w' message [= <- <-].
        destruct (Hthrew1 w1 message1 eq_refl) as [n Hn]. exists p, n.
        split; [left|done].
    + cbn [loop_world] in *.
      destruct (IH st1 Hs1) as (e2 & Ht2 & He2 & Hthrew2).
      exists (e1 ++ e2). split_and!.
      * by rewrite Ht2, Ht1, app_assoc.
      * intros q [Hq|Hq]%elem_of_app.
        -- apply He1 in Hq as ->. left.
        -- right. by apply He2.
      * intros w' message Hloop.
        destruct (Hthrew2 w' message Hloop) as (p' & n & Hp' & Hn).
        exists p', n. split; [by right|done].
Qed.

(** A non-dry run of a stored, acyclic stack, whether it returns or ends
    by an exception: the first effect is the write of the record with
    [isRunning = true]; only tasks of the (truncated) order are attempted;
    the order is returned with the results; and the only exception is one
    that [spawn] threw for a task of the order. *)
Lemma executeStack_trace fromPlanId w :
  stackFiles w !! stackName = Some stack →
  hasCycle (getExecutionOrder (stk_plans stack)) = false →
  let order := truncate_order fromPlanId
                 (sortedPlanIds (getExecutionOrder (stk_plans stack))) in
  ∃ first evs,
    trace (executeStack env stackName false fromPlanId claudeCommand w).1
    = trace w ++ WriteStatus first :: evs ∧
    isRunning first = true ∧
    (∀ q, Invoke q ∈ evs → q ∈ order) ∧
    match (executeStack env stackName false fromPlanId claudeCommand w).2 with
    | inr res => executionOrder res = order
    | inl message =>
        ∃ p n, p ∈ order ∧ worker env claudeCommand p n = SpawnThrew message
    end.
Proof.
  intros Hs Hc order.
  destruct (exec_loop_trace order (run_start env stackName stack w))
    as (evs & Htr & Hev & Hthrew).
  { unfold run_start, setStackRunning, saveStackStatus; simpl. by eexists. }
  destruct (run_start_trace env stackName stack w) as (first & Hfirst & Hrunning).
  unfold executeStack, loadStack. rewrite Hs, Hc. fold order.
  rewrite run_plans_start.
  destruct (exec_loop env stackName claudeCommand stack planIds order
              (run_start env stackName stack w)) as [[w' message]|st].
  - exists first, evs. cbn [loop_world fst snd] in *. split_and!; try done.
    + by rewrite Htr, Hfirst, <- app_assoc.
    + by apply (Hthrew w' message).
  - cbn [loop_world fst snd] in *.
    eexists first, (evs ++ [_]). split_and!; try done.
    + unfold setStackRunning, saveStackStatus; cbn [trace].
      rewrite Htr, Hfirst. by rewrite <- !app_assoc.
    + intros q [Hq|Hq]%elem_of_app; [by apply Hev|].
      by apply list_elem_of_singleton in Hq.
Qed.
End run_trace.

(** ** Cycle detection: a single task that depends on itself *)

Section self_cycle.
Context (graph : Graph) (k : string).
Context (Hother : ∀ x, x ≠ k → JsMap.get x graph = None).

(** Once the traversal stands on [k] with path [[k]], reading the
    dependencies of [k] ends at the first occurrence of [k] itself: ids
    read before it are not keys of the graph and return at once. *)
Lemma dfs_deps_self depth ds st :
  k ∈ visited st → k ∈ ds → cycleNodes_acc st = [] →
  ∃ st', dfs_deps (dfs graph (S depth)) [k] ds st = Some (true, st') ∧
         cycleNodes_acc st' = [k; k].
Proof.
  revert st. induction ds as [|d ds IH]; intros st Hv Hk Hacc.
  { by apply elem_of_nil in Hk. }
  cbn [dfs_deps]. destruct (decide (d ∈ visited st)) as [Hd|Hd].
  - unfold includes. destruct (decide (d = k)) as [->|Hne].
    + rewrite bool_decide_eq_true_2 by left.
      eexists. split; [done|]. unfold push_cycle. cbn [cycleNodes_acc].
      rewrite Hacc. cbn [indexOf]. rewrite decide_True by done. done.
    + rewrite bool_decide_eq_false_2
        by (by intros ->%list_elem_of_singleton).
      apply IH; [done| |done].
      apply elem_of_cons in Hk as [->|]; done.
  - assert (d ≠ k) as Hne by (by intros ->).
    cbn [dfs]. rewrite (Hother d Hne).
    apply IH.
    + unfold dfs_enter. cbn [visited]. set_solver.
    + apply elem_of_cons in Hk as [->|]; done.
    + done.
Qed.

Lemma detectCycle_self n :
  JsMap.keys graph = [k] → JsMap.get k graph = Some n →
  k ∈ dn_dependsOnPlanIds n →
  detectCycle graph = (true, [k; k]).
Proof.
  intros Hkeys Hget Hk.
  assert (∃ m, length (graph_ids graph) = S (S m)) as [m Hlen].
  { unfold graph_ids. rewrite Hkeys.
    destruct graph as [|[k' n'] [|? ?]]; [done| |done].
    simpl in Hkeys, Hget. simplify_eq. rewrite decide_True in Hget by done.
    simplify_eq. simpl. rewrite app_nil_r.
    destruct (dn_dependsOnPlanIds n) as [|d ds]; [by apply elem_of_nil in Hk|].
    simpl. by eexists. }
  unfold detectCycle, detectCycle_run, dfs_depth. rewrite Hkeys, Hlen.
  cbn [detect_roots]. rewrite decide_False by apply not_elem_of_empty.
  destruct (dfs_deps_self (S m) (dn_dependsOnPlanIds n) (dfs_enter k [k] dfs_init))
    as (st' & Heq & Hacc); [|done|done|].
  { unfold dfs_enter. cbn [visited]. set_solver. }
  change (dfs graph (S (S (S m))) k [k] dfs_init)
    with (match JsMap.get k graph with
          | None => Some (false, dfs_enter k [k] dfs_init)
          | Some node =>
              dfs_deps (dfs graph (S (S m))) [k] (dn_dependsOnPlanIds node)
                (dfs_enter k [k] dfs_init)
          end).
  rewrite Hget, Heq. by rewrite Hacc.
Qed.
End self_cycle.

(** The graph of a stack under ids that are listed once. *)
Lemma stack_graph_get_NoDup stackPlans k :
  NoDup (plan_ids stackPlans) →
  JsMap.get k (stack_graph stackPlans)
  = add_dependents (pushes stackPlans k) <$> JsMap.get k (map stack_node stackPlans).
Proof.
  intros Hnd. unfold stack_graph. by rewrite push_phase_get, stack_graph0.
Qed.

Lemma stack_graph_keys_NoDup stackPlans :
  NoDup (plan_ids stackPlans) →
  JsMap.keys (stack_graph stackPlans) = plan_ids stackPlans.
Proof.
  intros Hnd. unfold stack_graph. rewrite push_phase_keys, stack_graph0 by done.
  unfold JsMap.keys, plan_ids. simpl. by rewrite <- list_fmap_compose.
Qed.

(** A stack of one task that lists itself among its dependencies: the
    report is the cycle of length one. *)
Lemma getExecutionOrder_self sp :
  has_cycle (stack_graph [sp]) →
  sp_planId sp ∈ sp_dependsOnPlanIds sp ∧
  getExecutionOrder [sp]
  = {| sortedPlanIds := []; hasCycle := true;
       cycleNodes := Some [sp_planId sp; sp_planId sp] |}.
Proof.
  intros [x Hx].
  assert (NoDup (plan_ids [sp])) as Hnd by (apply NoDup_singleton).
  assert (∀ y, JsMap.get y (stack_graph [sp])
               = if decide (sp_planId sp = y)
                 then Some (add_dependents (pushes [sp] y) (stack_node sp).2)
                 else None) as Hget.
  { intros y. rewrite stack_graph_get_NoDup by done. simpl. by case_decide. }
  assert (∀ a b, edge (stack_graph [sp]) a b →
                 a = sp_planId sp ∧ b ∈ sp_dependsOnPlanIds sp) as Hedge.
  { intros a b. unfold edge, deps. rewrite Hget. case_decide; [done|].
    by intros ?%elem_of_nil. }
  assert (sp_planId sp ∈ sp_dependsOnPlanIds sp) as Hself.
  { assert (∀ a b, tc (edge (stack_graph [sp])) a b →
              a = sp_planId sp ∧ b ∈ sp_dependsOnPlanIds sp) as Htc.
    { intros a b Hab. induction Hab as [a b Hab|a b c Hab _ [_ IH]].
      - by apply Hedge.
      - split; [by apply Hedge in Hab as [? _]|done]. }
    by destruct (Htc x x Hx) as [-> ?]. }
  split; [done|]. unfold getExecutionOrder, topologicalSort.
  rewrite (detectCycle_self (stack_graph [sp]) (sp_planId sp))
    with (n := add_dependents (pushes [sp] (sp_planId sp)) (stack_node sp).2).
  - done.
  - intros y Hy. rewrite Hget. by rewrite decide_False by done.
  - by rewrite stack_graph_keys_NoDup.
  - rewrite Hget. by rewrite decide_True.
  - done.
Qed.

(** ** Decision procedures for the hypotheses on concrete data *)

Lemma wf_stackPlans_check_sound stackPlans :
  wf_stackPlans_check stackPlans = true → wf_stackPlans stackPlans.
Proof.
  unfold wf_stackPlans_check. intros [Hnd Hall]%andb_prop. split.
  - by apply bool_decide_eq_true in Hnd.
  - intros sp d Hsp Hd. rewrite forallb_forall in Hall.
    apply list_elem_of_In, Hall in Hsp. rewrite forallb_forall in Hsp.
    apply list_elem_of_In, Hsp in Hd. by apply bool_decide_eq_true in Hd.
Qed.

Lemma status_named_check_sound stackName w :
  status_named_check stackName w = true → status_named stackName w.
Proof.
  unfold status_named_check, status_named. intros H st Hst. rewrite Hst in H.
  by apply bool_decide_eq_true in H.
Qed.

Lemma stack_graph_keyed stackPlans :
  wf_stackPlans stackPlans → keyed (stack_graph stackPlans).
Proof. intros Hwf. by apply wf_graph_keyed, stack_graph_wf. Qed.

(** ** Checks on concrete stacks *)

Example diamond_order :
  getExecutionOrder diamond
  = {| sortedPlanIds := ["A"; "B"; "C"; "D"]; hasCycle := false; cycleNodes := None |}.
Proof. vm_compute. reflexivity. Qed.

Example three_cycle :
  getExecutionOrder [mkSP "R" ["A"]; mkSP "A" ["B"]; mkSP "B" ["C"]; mkSP "C" ["A"]]
  = {| sortedPlanIds := []; hasCycle := true; cycleNodes := Some ["A"; "B"; "C"; "A"] |}.
Proof. vm_compute. reflexivity. Qed.

(** ** C1: the tie-break of the sorter *)

(** C1, counterexample: with ["b"] stored before ["a"], both ready at
    seeding, the sorter emits ["b"] first; stored the other way round, the
    same two tasks come out the other way round. *)
Lemma topologicalSort_not_lexicographic :
  ¬ lexicographic_tie_break [mkSP "b" []; mkSP "a" []] ∧
  sortedPlanIds (getExecutionOrder [mkSP "b" []; mkSP "a" []]) = ["b"; "a"] ∧
  sortedPlanIds (getExecutionOrder [mkSP "a" []; mkSP "b" []]) = ["a"; "b"].
Proof.
  split; [|split; vm_compute; reflexivity].
  intros H. specialize (H "a" "b").
  assert (before ["b"; "a"] "a" "b") as (l1 & l2 & l3 & Heq).
  { apply H; [by_evaluation|by_evaluation|reflexivity]. }
  destruct l1 as [|? [|? [|? ?]]]; simplify_eq;
    destruct l2 as [|? [|? ?]]; simplify_eq.
Qed.

(** C1 (amended): ties are broken by queue order, not by id.  On a
    well-formed graph without cycle whose ids are not empty, the order
    lists every node once, and it is the order in which the nodes enter
    the queue: first the nodes without dependencies, in the insertion
    order of the graph; then every other node, which enters the queue
    when the last of its dependencies is emitted: a node whose last
    dependency is emitted earlier comes earlier, and nodes with the same
    last dependency [u] come in the order of the dependents of [u]. *)
Theorem topologicalSort_fifo graph :
  wf_graph graph → "" ∉ JsMap.keys graph → acyclic graph →
  let order := sortedPlanIds (topologicalSort graph) in
  NoDup order ∧
  (∀ x, x ∈ order ↔ x ∈ JsMap.keys graph) ∧
  (∃ rest, order = findRootPlans graph ++ rest ∧
           ∀ x, x ∈ rest → deps graph x ≠ []) ∧
  (∀ x y ux uy,
     last_dep graph order x ux → last_dep graph order y uy →
     before order ux uy → before order x y) ∧
  (∀ x y u,
     last_dep graph order x u → last_dep graph order y u →
     last_before (rdeps graph u) x y → before order x y).
Proof.
  intros Hwf Hne Hac order.
  destruct (topologicalSort_wf graph Hwf Hne Hac) as (Hc & _ & Hnd & Hiff & _).
  fold order in Hnd, Hiff.
  assert (fifo_inv graph [] order) as (H1 & H2 & H3).
  { subst order. unfold topologicalSort in *.
    destruct (detectCycle graph).1; [done|]. cbn [sortedPlanIds].
    destruct (kahn_run_total graph) as [res Hres]. rewrite Hres. cbn [default].
    apply (kahn_loop_fifo_inv graph Hwf Hne _ _ _ _ _
             (kahn_inv_init graph Hwf) (fifo_inv_init graph Hwf) Hres). }
  rewrite app_nil_r in H1, H2, H3.
  assert (∀ x ux, last_dep graph order x ux → x ∈ order) as Hin.
  { intros x ux [Hux _]. apply Hiff. by apply (edge_key graph x ux). }
  split_and!; [done|done|done| |].
  - intros x y ux uy Hlx Hly. apply H2; [by apply (Hin x ux)|by apply (Hin y uy)|done..].
  - intros x y u Hlx Hly. apply H3; [by apply (Hin x u)|by apply (Hin y u)|done..].
Qed.

Lemma topologicalSort_fifo_witness :
  (∃ rest, sortedPlanIds (topologicalSort (stack_graph diamond))
           = findRootPlans (stack_graph diamond) ++ rest ∧
           ∀ x, x ∈ rest → deps (stack_graph diamond) x ≠ []) ∧
  before (sortedPlanIds (topologicalSort (stack_graph diamond))) "B" "C".
Proof.
  destruct (topologicalSort_fifo (stack_graph diamond)) as (_ & _ & Hroots & _ & Hsame).
  - apply stack_graph_wf, wf_stackPlans_check_sound. vm_compute. reflexivity.
  - by_evaluation.
  - apply detectCycle_false_acyclic. vm_compute. reflexivity.
  - split; [exact Hroots|]. apply (Hsame "B" "C" "A").
    + split; [by_evaluation|].
      assert (deps (stack_graph diamond) "B" = ["A"]) as ->
        by (vm_compute; reflexivity).
      intros d ->%list_elem_of_singleton. by left.
    + split; [by_evaluation|].
      assert (deps (stack_graph diamond) "C" = ["A"]) as ->
        by (vm_compute; reflexivity).
      intros d ->%list_elem_of_singleton. by left.
    + exists [], [], []. split_and!; [vm_compute; reflexivity|by_evaluation..].
Defined.

(** The order of the diamond: ["B"] and ["C"] become ready together when
    ["A"] is emitted and come out as ["A"] lists them. *)
Example topologicalSort_fifo_diamond :
  sortedPlanIds (topologicalSort (stack_graph diamond)) = ["A"; "B"; "C"; "D"] ∧
  rdeps (stack_graph diamond) "A" = ["B"; "C"] ∧
  sortedPlanIds (topologicalSort
                   (stack_graph [mkSP "A" []; mkSP "C" ["A"]; mkSP "B" ["A"];
                                 mkSP "D" ["B"; "C"]]))
  = ["A"; "C"; "B"; "D"].
Proof. split_and!; vm_compute; reflexivity. Qed.

(** ** C4: the order is a linearization *)

(** C4, counterexample: a node whose id is the empty string is dropped by
    the falsy test on the dequeued id, so the order of this acyclic
    one-node graph does not contain it. *)
Lemma empty_id_not_emitted :
  wf_graph (stack_graph [mkSP "" []]) ∧
  acyclic (stack_graph [mkSP "" []]) ∧
  "" ∈ JsMap.keys (stack_graph [mkSP "" []]) ∧
  "" ∉ sortedPlanIds (topologicalSort (stack_graph [mkSP "" []])).
Proof.
  split_and!.
  - apply stack_graph_wf, wf_stackPlans_check_sound. vm_compute. reflexivity.
  - apply detectCycle_false_acyclic. vm_compute. reflexivity.
  - by_evaluation.
  - by_evaluation.
Qed.

(** C4 (amended): for every well-formed acyclic dependency graph whose ids
    are non-empty strings, the sorter reports no cycle, its order contains
    every node exactly once, and every dependency of a node occurs in the
    order strictly before the node. *)
Theorem topologicalSort_linearization graph :
  wf_graph graph → "" ∉ JsMap.keys graph → acyclic graph →
  hasCycle (topologicalSort graph) = false ∧
  NoDup (sortedPlanIds (topologicalSort graph)) ∧
  sortedPlanIds (topologicalSort graph) ≡ₚ JsMap.keys graph ∧
  (∀ t d, edge graph t d → before (sortedPlanIds (topologicalSort graph)) d t).
Proof.
  intros Hwf Hne Hac.
  destruct (topologicalSort_wf graph Hwf Hne Hac) as (Hc & _ & Hnd & Hmem & Hb).
  split_and!; try done.
  apply NoDup_Permutation; [done|apply Hwf|done].
Qed.

Lemma topologicalSort_linearization_witness :
  hasCycle (topologicalSort (stack_graph diamond)) = false ∧
  NoDup (sortedPlanIds (topologicalSort (stack_graph diamond))) ∧
  sortedPlanIds (topologicalSort (stack_graph diamond))
    ≡ₚ JsMap.keys (stack_graph diamond) ∧
  (∀ t d, edge (stack_graph diamond) t d →
          before (sortedPlanIds (topologicalSort (stack_graph diamond))) d t).
Proof.
  apply (topologicalSort_linearization (stack_graph diamond)).
  - apply stack_graph_wf, wf_stackPlans_check_sound. vm_compute. reflexivity.
  - by_evaluation.
  - apply detectCycle_false_acyclic. vm_compute. reflexivity.
Defined.

(** ** C5: cycles are reported *)

(** C5: on every graph that contains a cycle the sorter returns
    [hasCycle = true] with an empty order, and the reported sequence is a
    walk along edges of the graph that ends at the id it starts from.  When
    the graph is that of a single task, which then depends on itself, the
    reported sequence is that task twice: a cycle of length one. *)
Theorem topologicalSort_cycle graph :
  has_cycle graph →
  hasCycle (topologicalSort graph) = true ∧
  sortedPlanIds (topologicalSort graph) = [] ∧
  (∃ cyc, cycleNodes (topologicalSort graph) = Some cyc ∧ closed_walk graph cyc) ∧
  (∀ sp, graph = stack_graph [sp] →
         sp_planId sp ∈ sp_dependsOnPlanIds sp ∧
         cycleNodes (topologicalSort graph) = Some [sp_planId sp; sp_planId sp]).
Proof.
  intros Hcyc. pose proof Hcyc as Hdet. apply detectCycle_spec in Hdet.
  unfold topologicalSort. rewrite Hdet. simpl. split_and!; try done.
  - eexists. split; [done|]. by apply detectCycle_true_closed_walk.
  - intros sp ->. destruct (getExecutionOrder_self sp Hcyc) as [Hself Heq].
    split; [done|]. unfold getExecutionOrder, topologicalSort in Heq.
    rewrite Hdet in Heq. simpl in Heq. by injection Heq as ->.
Qed.

Lemma topologicalSort_cycle_witness :
  hasCycle (topologicalSort (stack_graph [mkSP "A" ["A"]])) = true ∧
  sortedPlanIds (topologicalSort (stack_graph [mkSP "A" ["A"]])) = [] ∧
  (∃ cyc, cycleNodes (topologicalSort (stack_graph [mkSP "A" ["A"]])) = Some cyc ∧
          closed_walk (stack_graph [mkSP "A" ["A"]]) cyc) ∧
  (∀ sp, stack_graph [mkSP "A" ["A"]] = stack_graph [sp] →
         sp_planId sp ∈ sp_dependsOnPlanIds sp ∧
         cycleNodes (topologicalSort (stack_graph [mkSP "A" ["A"]]))
         = Some [sp_planId sp; sp_planId sp]).
Proof.
  apply (topologicalSort_cycle (stack_graph [mkSP "A" ["A"]])).
  exists "A". apply tc_once. unfold edge. by_evaluation.
Defined.

Example self_cycle :
  getExecutionOrder [mkSP "A" ["A"]]
  = {| sortedPlanIds := []; hasCycle := true; cycleNodes := Some ["A"; "A"] |}.
Proof. vm_compute. reflexivity. Qed.

(** ** Whole runs: skip, run and resume rules *)

Lemma find_plan_Some planId stackPlans sp :
  find_plan planId stackPlans = Some sp → sp ∈ stackPlans ∧ sp_planId sp = planId.
Proof.
  induction stackPlans as [|sp' sps IH]; simpl; [done|].
  case_decide as Heq.
  - intros [= <-]. split; [left|done].
  - intros [Hin Hid]%IH. split; [by right|done].
Qed.

Lemma find_plan_elem planId stackPlans sp :
  find_plan planId stackPlans = Some sp → planId ∈ plan_ids stackPlans.
Proof.
  intros [Hin <-]%find_plan_Some. apply list_elem_of_fmap. by exists sp.
Qed.

Lemma truncate_order_NoDup fromPlanId stackPlans :
  NoDup (truncate_order fromPlanId (sortedPlanIds (getExecutionOrder stackPlans))).
Proof.
  destruct (truncate_order_drop fromPlanId (sortedPlanIds (getExecutionOrder stackPlans)))
    as [n ->].
  eapply sublist_NoDup; [apply topologicalSort_NoDup|apply sublist_drop].
Qed.

Section whole_run.
Context (env : Env) (stackName claudeCommand : string) (stack : Stack)
        (fromPlanId : option string) (w w' : World) (res : ExecuteStackResult).
Context (Hstack : stackFiles w !! stackName = Some stack)
        (Hnamed : status_named stackName w)
        (Hrun : executeStack env stackName false fromPlanId claudeCommand w
                = (w', inr res)).

#[local] Abbreviation planIds := (map sp_planId (stk_plans stack)).
#[local] Abbreviation read := (read_status stackName planIds).
#[local] Abbreviation sorted := (sortedPlanIds (getExecutionOrder (stk_plans stack))).
#[local] Abbreviation order := (truncate_order fromPlanId sorted).

Lemma run_facts :
  hasCycle (getExecutionOrder (stk_plans stack)) = false ∧
  executionOrder res = order ∧
  ∃ st evs,
    exec_loop env stackName claudeCommand stack planIds order
      (run_start env stackName stack w) = inr st ∧
    loop_post env stackName stack order (run_start env stackName stack w) st ∧
    (∀ x, read w' x = read (ls_world st) x) ∧
    trace (ls_world st) = trace (ls_world (run_start env stackName stack w)) ++ evs ∧
    (∀ p, invoked w w' p ↔ Invoke p ∈ evs).
Proof.
  destruct (executeStack_inv env stackName claudeCommand stack fromPlanId w w' res
              Hstack Hnamed Hrun) as (Hc & Ho & st & Hloop & Hpost & -> & _).
  split_and!; [done..|].
  destruct (lp_trace _ _ _ _ _ _ Hpost) as (evs & Htr & _).
  exists st, evs. split_and!; try done.
  - intros x. apply final_read. apply Hpost.
  - intros p. unfold invoked.
    destruct (run_start_trace env stackName stack w) as (first & Hfirst & _).
    rewrite (new_events_app w _ (WriteStatus first :: evs ++
               [WriteStatus {| ses_stackName :=
                   ses_stackName (loadStackStatus stackName planIds (ls_world st));
                 planStatuses :=
                   planStatuses (loadStackStatus stackName planIds (ls_world st));
                 lastRunAt :=
                   lastRunAt (loadStackStatus stackName planIds (ls_world st));
                 isRunning := false |}])).
    + rewrite elem_of_cons, elem_of_app, list_elem_of_singleton. naive_solver.
    + unfold setStackRunning, saveStackStatus; cbn [trace].
      rewrite Htr, Hfirst. by rewrite <- !app_assoc.
Qed.

Lemma seed_sound st :
  loop_post env stackName stack order (run_start env stackName stack w) st →
  ∀ x, x ∈ ls_completedPlanIds st →
       status_of (read (ls_world st) x) = Some completed.
Proof.
  intros Hpost. apply (lp_sound _ _ _ _ _ _ Hpost).
  intros x [_ Hx]%run_start_seed; [|done]. by rewrite run_start_read.
Qed.

Lemma seed_complete st x :
  loop_post env stackName stack order (run_start env stackName stack w) st →
  x ∈ planIds →
  status_of (read (ls_world st) x) = Some completed →
  x ∈ ls_completedPlanIds st.
Proof.
  intros Hpost Hx. apply (lp_complete _ _ _ _ _ _ Hpost).
  rewrite run_start_read by done. intros Hc. by apply run_start_seed.
Qed.

Lemma not_seeded x :
  status_of (read w x) ≠ Some completed →
  x ∉ ls_completedPlanIds (run_start env stackName stack w).
Proof. intros Hx [_ Hc]%run_start_seed; done. Qed.

(** Skip rule: a task of the run that was not completed before and has
    a dependency that does not end [completed] ends [skipped], with the
    fixed message, and is not handed to the worker. *)
Lemma skip_rule t sp d :
  t ∈ order → status_of (read w t) ≠ Some completed →
  find_plan t (stk_plans stack) = Some sp → d ∈ sp_dependsOnPlanIds sp →
  status_of (read w' d) ≠ Some completed →
  (∃ ps, read w' t = Some ps ∧ is_skip_record ps) ∧ ¬ invoked w w' t.
Proof.
  intros Ht Hnc Hf Hd Hdn.
  destruct run_facts as (_ & _ & st & evs & Hloop & Hpost & Hread & Htr & Hinv).
  destruct (exec_loop_skips env stackName claudeCommand stack order t sp d
              (run_start env stackName stack w) st) as [Hskip Hni]; try done.
  - by apply run_start_ok.
  - apply truncate_order_NoDup.
  - by apply not_seeded.
  - intros Hc. apply Hdn. rewrite Hread. by apply seed_sound.
  - split.
    + destruct Hskip as (ps & Hps & Hrec). exists ps. by rewrite Hread.
    + rewrite Hinv. intros Hin. apply Hni. unfold invoked.
      by rewrite (new_events_app _ _ evs).
Qed.

(** Resume rule, first half: a task whose persisted status is already
    [completed] is in the seeded set, keeps its record and is not handed
    to the worker. *)
Lemma completed_untouched p :
  p ∈ planIds → status_of (read w p) = Some completed →
  p ∈ ls_completedPlanIds (run_start env stackName stack w) ∧
  read w' p = read w p ∧ ¬ invoked w w' p.
Proof.
  intros Hp Hc.
  destruct run_facts as (_ & _ & st & evs & Hloop & Hpost & Hread & Htr & Hinv).
  assert (p ∈ ls_completedPlanIds (run_start env stackName stack w)) as Hseed
    by (by apply run_start_seed).
  split_and!; [done| |].
  - rewrite Hread, (lp_done _ _ _ _ _ _ Hpost) by done. by apply run_start_read.
  - rewrite Hinv. intros Hin.
    destruct (lp_trace _ _ _ _ _ _ Hpost) as (evs' & Htr' & Hev).
    rewrite Htr in Htr'. apply app_inv_head in Htr' as <-.
    by apply Hev in Hin as [_ ?].
Qed.

Context (Hwf : wf_stackPlans (stk_plans stack)).

(** Within the run, a declared dependency of a listed task comes before
    the task. *)
Lemma before_order_safe sp d :
  sp ∈ stk_plans stack → d ∈ sp_dependsOnPlanIds sp →
  sp_planId sp ∈ order → d ∈ order →
  before order d (sp_planId sp).
Proof.
  intros Hsp Hd Ht Hin.
  destruct (getExecutionOrder_safe (stk_plans stack) Hwf) as [_ Hb].
  destruct (truncate_order_drop fromPlanId sorted) as [n Hn].
  rewrite Hn in *. apply before_drop; [apply topologicalSort_NoDup| |done].
  apply Hb; [done|done|]. by eapply subseteq_drop.
Qed.

(** Resume rule, second half: a task of the run that was not completed
    before and all of whose dependencies end [completed] is handed to
    the worker. *)
Lemma run_rule t sp :
  t ∈ order → status_of (read w t) ≠ Some completed →
  find_plan t (stk_plans stack) = Some sp →
  (∀ d, d ∈ sp_dependsOnPlanIds sp → status_of (read w' d) = Some completed) →
  invoked w w' t.
Proof.
  intros Ht Hnc Hf Hdeps.
  destruct run_facts as (_ & _ & st & evs & Hloop & Hpost & Hread & Htr & Hinv).
  pose proof (find_plan_Some _ _ _ Hf) as [Hsp Hid].
  assert (invoked (ls_world (run_start env stackName stack w)) (ls_world st) t) as Hi.
  { eapply exec_loop_runs; try done.
    - by apply run_start_ok.
    - apply truncate_order_NoDup.
    - by apply not_seeded.
    - intros d Hd. split.
      + apply seed_complete; [done| |by rewrite <- Hread; apply Hdeps].
        by apply (wf_sp_deps _ Hwf sp).
      + intros Hin. rewrite <- Hid. apply before_order_safe; [done|done| |done].
        by rewrite Hid. }
  apply Hinv. unfold invoked in Hi. by rewrite (new_events_app _ _ evs) in Hi.
Qed.

Context (Hne : "" ∉ plan_ids (stk_plans stack)).

Lemma run_linear :
  (∀ k, k ∈ sorted ↔ k ∈ planIds) ∧
  ∀ sp d, sp ∈ stk_plans stack → d ∈ sp_dependsOnPlanIds sp →
          before sorted d (sp_planId sp).
Proof.
  destruct run_facts as (Hc & _).
  destruct (getExecutionOrder_wf (stk_plans stack) Hwf Hne) as (_ & _ & _ & Hmem & Hb).
  - apply detectCycle_false_acyclic. unfold getExecutionOrder, topologicalSort in Hc.
    by destruct (detectCycle (stack_graph (stk_plans stack))).1.
  - done.
Qed.

Lemma before_order sp d :
  sp ∈ stk_plans stack → d ∈ sp_dependsOnPlanIds sp → d ∈ order →
  before order d (sp_planId sp).
Proof.
  intros Hsp Hd Hin. destruct run_linear as [_ Hb].
  destruct (truncate_order_drop fromPlanId sorted) as [n Hn].
  rewrite Hn in *. apply before_drop; [apply topologicalSort_NoDup| |done].
  by apply Hb.
Qed.

(** A task that depends on a task handed to the worker in this run is
    itself part of the run. *)
Lemma dependent_in_order a b sp :
  find_plan b (stk_plans stack) = Some sp → a ∈ sp_dependsOnPlanIds sp →
  invoked w w' a → b ∈ order.
Proof.
  intros Hf Ha Hi.
  destruct run_facts as (_ & _ & st & evs & Hloop & Hpost & Hread & Htr & Hinv).
  pose proof (find_plan_Some _ _ _ Hf) as [Hsp Hid].
  assert (a ∈ order) as Hao.
  { apply Hinv in Hi. destruct (lp_trace _ _ _ _ _ _ Hpost) as (evs' & Htr' & Hev).
    rewrite Htr in Htr'. apply app_inv_head in Htr' as <-.
    by apply Hev in Hi as [? _]. }
  destruct (before_order sp a Hsp Ha Hao) as (l1 & l2 & l3 & ->).
  rewrite Hid. set_solver.
Qed.
End whole_run.

(** ** C2: the single-run guard *)

(** C2, counterexample: [executeStack] does not look at the flag.  With
    [isRunning = true] persisted, a non-dry run is not rejected: it
    returns normally, attempts ["A"] and rewrites the
    status record. *)
Lemma executeStack_no_guard :
  isRunning (loadStackStatus "s" ["A"] stuck_world) = true ∧
  ∃ w' r, executeStack env_all_pass "s" false None "claude" stuck_world = (w', inr r) ∧
          invoked stuck_world w' "A" ∧
          status_of (read_status "s" ["A"] stuck_world "A") = Some pending ∧
          status_of (read_status "s" ["A"] w' "A") = Some completed.
Proof.
  split; [reflexivity|]. eexists _, _. split_and!.
  - vm_compute. reflexivity.
  - apply invoked_check. vm_compute. reflexivity.
  - vm_compute. reflexivity.
  - vm_compute. reflexivity.
Qed.

(** C2 (amended): the guard lives in the [run] command, not in
    [executeStack].  When the persisted flag is true the command returns
    without any effect: no task is run and no status is written.
    Otherwise a non-dry run that passes the checks of the command writes
    the status record with [isRunning = true] as its first effect (after
    the optional reset), before any task is processed, and attempts only
    tasks of its execution order; this holds whether the run returns or
    ends by the exception [spawn] threw for a task, and it returns when
    [spawn] never throws. *)
Theorem runCommand_single_run_guard env stackName options w stack :
  loadStack stackName w = Some stack →
  let planIds := map sp_planId (stk_plans stack) in
  let order := getExecutionOrder (stk_plans stack) in
  (isRunning (loadStackStatus stackName planIds w) = true →
   runCommand env stackName options w = (w, AlreadyRunning)) ∧
  (isRunning (loadStackStatus stackName planIds w) = false →
   opt_dryRun options = false → hasCycle order = false →
   from_accepted (opt_from options) (sortedPlanIds order) →
   let w1 := if opt_reset options then resetStackStatus stackName planIds w else w in
   ∃ first rest,
     trace (runCommand env stackName options w).1
     = trace w1 ++ WriteStatus first :: rest ∧
     isRunning first = true ∧
     (∀ q, Invoke q ∈ rest →
           q ∈ truncate_order (opt_from options) (sortedPlanIds order)) ∧
     ((∃ r, (runCommand env stackName options w).2 = Executed r ∧
            executionOrder r
            = truncate_order (opt_from options) (sortedPlanIds order)) ∨
      (∃ message p n,
         (runCommand env stackName options w).2 = Crashed message ∧
         p ∈ truncate_order (opt_from options) (sortedPlanIds order) ∧
         worker env (default "claude" (opt_claude options)) p n
         = SpawnThrew message)) ∧
     (never_throws env →
      ∃ r, (runCommand env stackName options w).2 = Executed r)).
Proof.
  intros Hs planIds order. unfold runCommand, getStackExecutionStatus.
  rewrite Hs. fold planIds. split.
  - by intros ->.
  - intros -> Hdry Hc Hfrom. fold order. rewrite Hc, Hdry.
    set (w1 := if opt_reset options then resetStackStatus stackName planIds w else w).
    assert ((match opt_from options with
             | Some f => bool_decide (f ≠ "") && negb (includes f (sortedPlanIds order))
             | None => false
             end) = false) as ->.
    { unfold from_accepted in Hfrom. destruct (opt_from options) as [f|]; [|done].
      destruct Hfrom as [->|Hin].
      - by rewrite bool_decide_eq_false_2 by (by intros ?).
      - unfold includes. rewrite (bool_decide_eq_true_2 _ Hin). simpl.
        by rewrite andb_false_r. }
    assert (stackFiles w1 !! stackName = Some stack) as Hs1
      by (subst w1; by destruct (opt_reset options)).
    destruct (executeStack_trace env stackName
                (default "claude" (opt_claude options)) stack (opt_from options)
                w1 Hs1 Hc)
      as (first & rest & Htr & Hrunning & Hev & Hout).
    destruct (executeStack env stackName false (opt_from options)
                (default "claude" (opt_claude options)) w1) as [w' [message|r]];
      cbn [fst snd] in *.
    + exists first, rest. destruct Hout as (p & n & Hp & Hthrew).
      split_and!; try done.
      * right. by exists message, p, n.
      * intros Hnever. by apply Hnever in Hthrew.
    + exists first, rest. split_and!; try done.
      * left. by exists r.
      * intros _. by eexists.
Qed.

Lemma runCommand_single_run_guard_witness :
  runCommand env_all_pass "s"
    {| opt_dryRun := false; opt_from := None; opt_reset := false; opt_claude := None |}
    stuck_world
  = (stuck_world, AlreadyRunning) ∧
  ∃ first rest,
    trace (runCommand env_spawn_throws "s"
             {| opt_dryRun := false; opt_from := None; opt_reset := false;
                opt_claude := Some "" |}
             fresh_world).1
    = trace fresh_world ++ WriteStatus first :: rest ∧
    isRunning first = true ∧
    (∀ q, Invoke q ∈ rest → q ∈ ["A"; "C"; "B"]).
Proof.
  split.
  - apply (runCommand_single_run_guard env_all_pass "s"
             {| opt_dryRun := false; opt_from := None; opt_reset := false;
                opt_claude := None |}
             stuck_world (mkStack "s" [mkSP "A" []])).
    + reflexivity.
    + reflexivity.
  - destruct (runCommand_single_run_guard env_spawn_throws "s"
                {| opt_dryRun := false; opt_from := None; opt_reset := false;
                   opt_claude := Some "" |}
                fresh_world (mkStack "s" [mkSP "A" []; mkSP "B" ["A"]; mkSP "C" []]))
      as [_ Hrun].
    + reflexivity.
    + destruct Hrun as (first & rest & Htr & Hrunning & Hev & _).
      * reflexivity.
      * reflexivity.
      * vm_compute. reflexivity.
      * exact I.
      * exists first, rest. split_and!; [exact Htr|exact Hrunning|].
        intros q Hq. apply Hev in Hq. vm_compute in Hq. exact Hq.
Defined.

(** The exception is not caught: with an empty command [spawn] throws
    for the first task, the command ends by that exception, ["A"] is
    left [running] and the stack is left marked as running. *)
Example runCommand_crash :
  ∃ w' message,
    runCommand env_spawn_throws "s"
      {| opt_dryRun := false; opt_from := None; opt_reset := false;
         opt_claude := Some "" |} fresh_world
    = (w', Crashed message) ∧
    status_of (read_status "s" ["A"; "B"; "C"] w' "A") = Some running ∧
    isRunning (loadStackStatus "s" ["A"; "B"; "C"] w') = true.
Proof. eexists _, _. split_and!; vm_compute; reflexivity. Qed.

(** ** C3: the end of a run *)




(** With an empty command [spawn] throws for ["A"]: the run ends by that
    exception, ["A"] stays [running] and the flag stays set. *)
Example executeStack_abort :
  ∃ w' message,
    executeStack env_spawn_throws "s" false None "" fresh_world = (w', inl message) ∧
    status_of (read_status "s" ["A"; "B"; "C"] w' "A") = Some running ∧
    isRunning (loadStackStatus "s" ["A"; "B"; "C"] w') = true.
Proof. eexists _, _. split_and!; vm_compute; reflexivity. Qed.

(** ** C6: failure propagates as skip *)




(** ** C7: resuming over persisted statuses *)

(** C7, counterexample: ["A"] was failed before and has no dependency at
    all, yet a run started from ["B"] leaves it out of the order: ["A"]
    is not run again and stays [failed].  A dry run runs nothing
    either. *)
Lemma failed_task_outside_run_not_rerun :
  find_plan "A" (stk_plans (mkStack "s" [mkSP "A" []; mkSP "B" []]))
    = Some (mkSP "A" []) ∧
  status_of (read_status "s" ["A"; "B"] retry_world "A") = Some failed ∧
  (∃ w' r,
     executeStack env_all_pass "s" false (Some "B") "claude" retry_world = (w', inr r) ∧
     executionOrder r = ["B"] ∧
     ¬ invoked retry_world w' "A" ∧
     status_of (read_status "s" ["A"; "B"] w' "A") = Some failed) ∧
  executeStack env_all_pass "s" true None "claude" retry_world
  = (retry_world, inr {| results := []; executionOrder := ["A"; "B"] |}).
Proof.
  split_and!.
  - reflexivity.
  - vm_compute. reflexivity.
  - eexists _, _. split_and!.
    + vm_compute. reflexivity.
    + reflexivity.
    + apply not_invoked_check. vm_compute. reflexivity.
    + vm_compute. reflexivity.
  - vm_compute. reflexivity.
Qed.

(** C7 (amended): in every run that is not a dry run, a task of the stack
    whose persisted status is [completed] is seeded into the satisfied
    set, keeps its status record and is not run; and, on a well-formed
    stack, a task in the execution order of the run (the whole order, or
    its part from the starting task on) that was not completed before, in
    particular one that was failed or skipped, all of whose dependencies
    are satisfied in this run is run again. *)
Theorem executeStack_resume env stackName fromPlanId claudeCommand w w' res stack :
  loadStack stackName w = Some stack → status_named stackName w →
  executeStack env stackName false fromPlanId claudeCommand w = (w', inr res) →
  (∀ p, p ∈ map sp_planId (stk_plans stack) →
     status_of (read_status stackName (map sp_planId (stk_plans stack)) w p)
       = Some completed →
     p ∈ ls_completedPlanIds (run_start env stackName stack w) ∧
     read_status stackName (map sp_planId (stk_plans stack)) w' p
       = read_status stackName (map sp_planId (stk_plans stack)) w p ∧
     ¬ invoked w w' p) ∧
  (wf_stackPlans (stk_plans stack) →
   ∀ p sp, p ∈ executionOrder res →
     find_plan p (stk_plans stack) = Some sp →
     status_of (read_status stackName (map sp_planId (stk_plans stack)) w p)
       ≠ Some completed →
     (∀ d, d ∈ sp_dependsOnPlanIds sp →
           status_of (read_status stackName (map sp_planId (stk_plans stack)) w' d)
           = Some completed) →
     invoked w w' p).
Proof.
  intros Hs Hn Hrun. split.
  - intros p Hp Hc.
    by apply (completed_untouched env stackName claudeCommand stack fromPlanId
                w w' res Hs Hn Hrun).
  - intros Hwf p sp Hp Hf Hnc Hdeps.
    pose proof (run_facts env stackName claudeCommand stack fromPlanId w w' res
                  Hs Hn Hrun) as (_ & Ho & _).
    rewrite Ho in Hp.
    by apply (run_rule env stackName claudeCommand stack fromPlanId w w' res
                Hs Hn Hrun Hwf p sp).
Qed.

Lemma executeStack_resume_witness :
  (read_status "s" ["A"; "B"; "C"]
     (executeStack env_all_pass "s" false None "claude" partial_world).1 "A"
   = read_status "s" ["A"; "B"; "C"] partial_world "A" ∧
   ¬ invoked partial_world
       (executeStack env_all_pass "s" false None "claude" partial_world).1 "A") ∧
  invoked partial_world
    (executeStack env_all_pass "s" false None "claude" partial_world).1 "B".
Proof.
  destruct (executeStack_resume env_all_pass "s" None "claude" partial_world
              (executeStack env_all_pass "s" false None "claude" partial_world).1
              (returned (executeStack env_all_pass "s" false None "claude" partial_world))
              (mkStack "s" [mkSP "A" []; mkSP "B" ["A"]; mkSP "C" ["B"]]))
    as [Hkeep Hagain].
  - reflexivity.
  - apply status_named_check_sound. vm_compute. reflexivity.
  - vm_compute. reflexivity.
  - split.
    + apply (Hkeep "A"); [by_evaluation|vm_compute; reflexivity].
    + apply (Hagain) with (sp := mkSP "B" ["A"]).
      * apply wf_stackPlans_check_sound. vm_compute. reflexivity.
      * by_evaluation.
      * reflexivity.
      * by_evaluation.
      * intros d Hd. apply list_elem_of_singleton in Hd as ->.
        vm_compute. reflexivity.
Defined.

(** ** C8: reset *)

(** C8: whatever was persisted before, [resetStackStatus] leaves a record
    in which every task of [planIds] is [pending] with [lastExecutedAt],
    [executionDurationMs], [errorMessage] and [exitCode] all null (and no
    other task has an entry), [lastRunAt] is null and [isRunning] is
    false; this is also the record the engine reads back. *)
Theorem resetStackStatus_pending stackName planIds w :
  ∃ st,
    statusFiles (resetStackStatus stackName planIds w) !! stackName = Some st ∧
    loadStackStatus stackName planIds (resetStackStatus stackName planIds w) = st ∧
    lastRunAt st = None ∧ isRunning st = false ∧
    Forall (fun p => ∃ ps, planStatuses st !! p = Some ps ∧
                      pes_executionStatus ps = pending ∧
                      pes_lastExecutedAt ps = None ∧
                      pes_executionDurationMs ps = None ∧
                      pes_errorMessage ps = None ∧
                      pes_exitCode ps = None) planIds ∧
    dom (planStatuses st) = list_to_set planIds.
Proof.
  exists (createDefaultStatus stackName planIds). unfold resetStackStatus.
  split_and!; try done.
  - by apply file_save.
  - apply load_save; [done|]. intros y Hy. left.
    rewrite createDefaultStatus_lookup, decide_True by done. by eexists.
  - apply Forall_forall. intros p Hp. exists (pendingStatus p).
    rewrite createDefaultStatus_lookup, decide_True by done. done.
  - apply set_eq. intros x. rewrite elem_of_dom, elem_of_list_to_set.
    rewrite createDefaultStatus_lookup. case_decide; split; try done.
Qed.

(** ** C9: dangling references *)

(** C9: the graph builder never fails, and every node it builds lists only
    ids of the available set, so a reference to an absent id leaves no
    edge; the stack plans derived from the plans depend only on plans of
    the stack; and erasing the dangling references from the plans
    beforehand changes neither the stack that is created and saved nor,
    therefore, any run of it: the referencing task is executed exactly as
    if the dependency had never been declared. *)
Theorem dangling_reference_dropped env plans availablePlanIds :
  (∀ k n d, JsMap.get k (buildDependencyGraph plans availablePlanIds) = Some n →
            d ∈ dn_dependsOnPlanIds n → d ∈ availablePlanIds) ∧
  (∀ sp d, sp ∈ plansToStackPlans plans → d ∈ sp_dependsOnPlanIds sp →
           d ∈ map plan_planId plans) ∧
  (∀ stackName stackDescription originalPlanIds w dryRun fromPlanId claudeCommand,
     let cleaned := map (drop_dangling (list_to_set (map plan_planId plans))) plans in
     createStack_save env stackName stackDescription originalPlanIds cleaned w
     = createStack_save env stackName stackDescription originalPlanIds plans w ∧
     executeStack env stackName dryRun fromPlanId claudeCommand
       (createStack_save env stackName stackDescription originalPlanIds cleaned w).1
     = executeStack env stackName dryRun fromPlanId claudeCommand
         (createStack_save env stackName stackDescription originalPlanIds plans w).1).
Proof.
  split_and!.
  - apply buildDependencyGraph_available.
  - intros sp d Hsp Hd. unfold plansToStackPlans in Hsp.
    apply list_elem_of_fmap in Hsp as (plan & -> & Hplan). simpl in Hd.
    destruct (JsMap.get (plan_planId plan) _) as [n|] eqn:Hg;
      [|by apply elem_of_nil in Hd].
    apply (buildDependencyGraph_available _ _ _ _ _ Hg) in Hd.
    by apply elem_of_list_to_set in Hd.
  - intros stackName stackDescription originalPlanIds w dryRun fromPlanId claudeCommand.
    cbv zeta.
    assert (createStack_save env stackName stackDescription originalPlanIds
              (map (drop_dangling (list_to_set (map plan_planId plans))) plans) w
            = createStack_save env stackName stackDescription originalPlanIds plans w)
      as Heq.
    { unfold createStack_save.
      by rewrite plan_ids_drop_dangling, buildDependencyGraph_drop_dangling,
        plansToStackPlans_drop_dangling. }
    by rewrite Heq.
Qed.

Lemma dangling_reference_dropped_witness :
  plansToStackPlans ghost_plans = [mkSP "P" []] ∧
  invoked
    (createStack_save env_all_pass "s" None ["P"] ghost_plans (mkWorld (mkStack "t" []) None)).1
    (executeStack env_all_pass "s" false None "claude"
       (createStack_save env_all_pass "s" None ["P"] ghost_plans
          (mkWorld (mkStack "t" []) None)).1).1
    "P".
Proof.
  destruct (dangling_reference_dropped env_all_pass ghost_plans
              (list_to_set (map plan_planId ghost_plans))) as (_ & _ & Hsame).
  destruct (Hsame "s" None ["P"] (mkWorld (mkStack "t" []) None) false None "claude")
    as [Hcreate Hexec].
  split.
  - vm_compute. reflexivity.
  - rewrite <- Hexec, <- Hcreate. apply invoked_check. vm_compute. reflexivity.
Defined.

(** ** C10: starting from a task that is not in the order *)

(** C10, counterexample: the empty string is not in the order either, but
    it is falsy: the run keeps the whole order. *)
Lemma executeStack_from_empty :
  ("" ∉ sortedPlanIds (getExecutionOrder [mkSP "A" []; mkSP "B" ["A"]; mkSP "C" []])) ∧
  executeStack env_all_pass "s" true (Some "") "claude" fresh_world
  = (fresh_world, inr {| results := []; executionOrder := ["A"; "C"; "B"] |}).
Proof. split; [by_evaluation|vm_compute; reflexivity]. Qed.

(** C10 (amended): for every stored acyclic stack and every non-empty
    [fromPlanId] that does not occur in the sorted order, [executeStack]
    does not reject the request: the order is truncated to the last
    element of the sorted order (nothing when the order is empty), no
    other task is attempted, and the run returns that order unless
    [spawn] throws for that last task. *)
Theorem executeStack_from_missing env stackName dryRun f claudeCommand w stack :
  loadStack stackName w = Some stack →
  hasCycle (getExecutionOrder (stk_plans stack)) = false →
  f ≠ "" → f ∉ sortedPlanIds (getExecutionOrder (stk_plans stack)) →
  (∀ p, invoked w (executeStack env stackName dryRun (Some f) claudeCommand w).1 p →
        last (sortedPlanIds (getExecutionOrder (stk_plans stack))) = Some p) ∧
  match (executeStack env stackName dryRun (Some f) claudeCommand w).2 with
  | inr res =>
      executionOrder res
      = match last (sortedPlanIds (getExecutionOrder (stk_plans stack))) with
        | Some x => [x]
        | None => []
        end
  | inl message =>
      dryRun = false ∧
      ∃ p n, last (sortedPlanIds (getExecutionOrder (stk_plans stack))) = Some p ∧
             worker env claudeCommand p n = SpawnThrew message
  end.
Proof.
  intros Hs Hc Hne Hnin.
  pose proof (truncate_order_missing f _ Hne Hnin) as Htr.
  assert (∀ p, p ∈ match last (sortedPlanIds (getExecutionOrder (stk_plans stack))) with
                   | Some x => [x]
                   | None => []
                   end →
               last (sortedPlanIds (getExecutionOrder (stk_plans stack))) = Some p)
    as Hlast.
  { intros p Hp.
    destruct (last (sortedPlanIds (getExecutionOrder (stk_plans stack)))) as [x|].
    - by apply list_elem_of_singleton in Hp as ->.
    - by apply elem_of_nil in Hp. }
  destruct dryRun.
  - unfold executeStack. rewrite Hs, Hc, Htr. cbn [fst snd]. split; [|done].
    intros p. unfold invoked, new_events. rewrite drop_all.
    by intros ?%elem_of_nil.
  - destruct (executeStack_trace env stackName claudeCommand stack (Some f) w Hs Hc)
      as (first & evs & Htrace & _ & Hev & Hout).
    rewrite Htr in Hev, Hout. split.
    + intros p. unfold invoked. rewrite (new_events_app _ _ _ Htrace).
      rewrite elem_of_cons. intros [?|Hin]; [done|]. by apply Hlast, Hev.
    + destruct (executeStack env stackName false (Some f) claudeCommand w).2
        as [message|res]; [|done].
      split; [done|]. destruct Hout as (p & n & Hp & Hthrew).
      exists p, n. split; [by apply Hlast|done].
Qed.

Lemma executeStack_from_missing_witness :
  (∀ p, invoked fresh_world
          (executeStack env_all_pass "s" false (Some "zzz") "claude" fresh_world).1 p →
        Some "B" = Some p) ∧
  executionOrder
    (returned (executeStack env_all_pass "s" false (Some "zzz") "claude" fresh_world))
  = ["B"].
Proof.
  destruct (executeStack_from_missing env_all_pass "s" false "zzz" "claude" fresh_world
              (mkStack "s" [mkSP "A" []; mkSP "B" ["A"]; mkSP "C" []]))
    as [Honly Hout].
  - reflexivity.
  - vm_compute. reflexivity.
  - discriminate.
  - by_evaluation.
  - split; [exact Honly|]. unfold returned.
    destruct (executeStack env_all_pass "s" false (Some "zzz") "claude" fresh_world).2
      as [message|res] eqn:Hres; [by vm_compute in Hres|exact Hout].
Defined.

(** * Further properties of the program *)

(** ** The cycle detector and the sorter *)

(** X1: [detectCycle] decides whether the graph has a cycle: it answers
    [true] exactly when some id reaches itself along dependencies, and
    when it answers [false] it reports no cycle nodes. *)
Theorem detectCycle_decides graph :
  ((detectCycle graph).1 = true ↔ has_cycle graph) ∧
  ((detectCycle graph).1 = false ↔ acyclic graph) ∧
  ((detectCycle graph).1 = false → (detectCycle graph).2 = []).
Proof.
  split_and!.
  - apply detectCycle_spec.
  - split; [apply detectCycle_false_acyclic|].
    intros Hac. destruct (detectCycle graph).1 eqn:Hd; [|done].
    apply detectCycle_spec in Hd as [u Hu]. by destruct (Hac u).
  - unfold detectCycle. destruct (detectCycle_run graph) as [[[] st]|]; done.
Qed.

Lemma kahn_loop_nonempty_ids graph fuel inDegree queue sorted res :
  "" ∉ sorted →
  kahn_loop graph fuel inDegree queue sorted = Some res → "" ∉ res.
Proof.
  revert inDegree queue sorted.
  induction fuel as [|fuel IH]; intros inDegree queue sorted Hs;
    destruct queue as [|nodeId queue]; simpl; try done.
  - by intros [= <-].
  - by intros [= <-].
  - case_decide as Hn; [by apply IH|].
    assert ("" ∉ sorted ++ [nodeId]) as Hs'.
    { intros [?|Hin%list_elem_of_singleton]%elem_of_app; [done|].
      by apply Hn. }
    destruct (JsMap.get nodeId graph); by apply IH.
Qed.

(** X2: on every graph, well formed or not, the order the sorter returns
    lists no id twice and never lists the empty id; with a cycle it is
    empty and the cycle is reported, without one no cycle is reported. *)
Theorem topologicalSort_no_repeat graph :
  NoDup (sortedPlanIds (topologicalSort graph)) ∧
  ("" ∉ sortedPlanIds (topologicalSort graph)) ∧
  (hasCycle (topologicalSort graph) = true →
   sortedPlanIds (topologicalSort graph) = [] ∧
   cycleNodes (topologicalSort graph) = Some (detectCycle graph).2) ∧
  (hasCycle (topologicalSort graph) = false →
   cycleNodes (topologicalSort graph) = None).
Proof.
  split; [apply topologicalSort_NoDup|].
  unfold topologicalSort. destruct (detectCycle graph).1; simpl.
  - split_and!; [by intros ?%elem_of_nil|done|done].
  - split_and!; [|done|done].
    destruct (kahn_run graph) as [res|] eqn:Hres; simpl;
      [|by intros ?%elem_of_nil].
    unfold kahn_run in Hres.
    by eapply kahn_loop_nonempty_ids; [|exact Hres]; intros ?%elem_of_nil.
Qed.

Lemma findRootPlans_elem graph x :
  NoDup (JsMap.keys graph) →
  x ∈ findRootPlans graph ↔ x ∈ JsMap.keys graph ∧ deps graph x = [].
Proof.
  intros Hnd. unfold findRootPlans, deps. rewrite list_elem_of_fmap. split.
  - intros ([k n] & -> & [Hlen Hin]%list_elem_of_filter). simpl in *.
    split; [apply list_elem_of_fmap; by exists (k, n)|].
    rewrite (elem_get_Some _ _ _ Hnd Hin).
    by apply length_zero_iff_nil.
  - intros [Hk Hd]. apply get_Some_keys in Hk as [n Hn].
    rewrite Hn in Hd. exists (x, n). split; [done|].
    apply list_elem_of_filter. split; [by simpl; rewrite Hd|].
    by apply get_Some_elem.
Qed.

Lemma finished_order_sink graph F :
  finished_order graph F →
  (∀ u v, edge graph u v → v ∈ JsMap.keys graph) →
  (∃ k, k ∈ F ∧ k ∈ JsMap.keys graph) →
  ∃ k, k ∈ F ∧ k ∈ JsMap.keys graph ∧ deps graph k = [].
Proof.
  intros Hfin Hedge. induction F as [|x F IH]; intros (k & Hin & Hk).
  { by apply elem_of_nil in Hin. }
  destruct Hfin as [Hx Hfin].
  destruct (decide (Exists (fun k' => k' ∈ JsMap.keys graph) F)) as [Hex|Hno].
  - apply Exists_exists in Hex.
    destruct (IH Hfin Hex) as (k' & ? & ? & ?). exists k'. by split; [right|].
  - rewrite Exists_exists in Hno.
    apply elem_of_cons in Hin as [->|Hin]; [|destruct Hno; by exists k].
    exists x. split_and!; [left|done|].
    destruct (deps graph x) as [|d ds] eqn:Hd; [done|].
    destruct Hno. exists d. split.
    + apply Hx. left.
    + apply (Hedge x). unfold edge. rewrite Hd. left.
Qed.

(** X3: [findRootPlans] returns exactly the ids of the nodes without
    dependencies, each once; they are the ids the sorter seeds its queue
    with; and a well-formed graph that is not empty and has no cycle has at
    least one of them. *)
Theorem findRootPlans_roots graph :
  keyed graph →
  (∀ x, x ∈ findRootPlans graph ↔ x ∈ JsMap.keys graph ∧ deps graph x = []) ∧
  NoDup (findRootPlans graph) ∧
  seed_queue (init_inDegree graph) = findRootPlans graph ∧
  (wf_graph graph → graph ≠ [] → acyclic graph → findRootPlans graph ≠ []).
Proof.
  intros Hk. pose proof Hk as [Hnd _]. split_and!.
  - intros x. by apply findRootPlans_elem.
  - unfold findRootPlans. eapply sublist_NoDup; [exact Hnd|].
    unfold JsMap.keys. apply fmap_sublist, sublist_filter.
  - by apply seed_queue_keyed.
  - intros Hwf Hne Hac Hnil.
    assert ((detectCycle graph).1 = false) as Hd.
    { destruct (detectCycle graph).1 eqn:Hd; [|done].
      apply detectCycle_spec in Hd as [u Hu]. by destruct (Hac u). }
    destruct (detectCycle_total graph) as [[b st] Hrun].
    unfold detectCycle in Hd. rewrite Hrun in Hd. destruct b; [done|].
    destruct (detectCycle_run_finish graph st Hrun) as (F & Hfin & Hall).
    destruct graph as [|[k n] graph]; [done|].
    destruct (finished_order_sink _ F Hfin) as (r & _ & Hr & Hdeps).
    + intros u v. apply Hwf.
    + exists k. split; [apply Hall|]; left.
    + assert (r ∈ findRootPlans ((k, n) :: graph)) as Hin
        by (by apply findRootPlans_elem).
      rewrite Hnil in Hin. by apply elem_of_nil in Hin.
Qed.

Lemma findRootPlans_roots_witness :
  NoDup (findRootPlans (stack_graph diamond)) ∧
  findRootPlans (stack_graph diamond) ≠ [].
Proof.
  destruct (findRootPlans_roots (stack_graph diamond)) as (_ & Hnd & _ & Hroot).
  - apply stack_graph_keyed, wf_stackPlans_check_sound. vm_compute. reflexivity.
  - split; [exact Hnd|]. apply Hroot.
    + apply stack_graph_wf, wf_stackPlans_check_sound. vm_compute. reflexivity.
    + discriminate.
    + apply detectCycle_false_acyclic. vm_compute. reflexivity.
Defined.

Lemma depends_on_edge stackPlans a b :
  wf_stackPlans stackPlans →
  edge (stack_graph stackPlans) a b ↔ depends_on stackPlans a b.
Proof. intros Hwf. by apply stack_graph_deps_elem. Qed.

Lemma tc_iff {A} (R S : relation A) x y :
  (∀ a b, R a b ↔ S a b) → tc R x y ↔ tc S x y.
Proof.
  intros H. split; intros Ht; induction Ht as [a b Hab|a b c Hab _ IH].
  - apply tc_once. by apply H.
  - eapply tc_l; [by apply H|done].
  - apply tc_once. by apply H.
  - eapply tc_l; [by apply H|done].
Qed.

Lemma getExecutionOrder_cycle_iff stackPlans :
  wf_stackPlans stackPlans →
  hasCycle (getExecutionOrder stackPlans) = true ↔ ∃ t, tc (depends_on stackPlans) t t.
Proof.
  intros Hwf. unfold getExecutionOrder, topologicalSort.
  destruct (detectCycle (stack_graph stackPlans)).1 eqn:Hd; simpl.
  - split; [intros _|done]. apply detectCycle_spec in Hd as [u Hu].
    exists u. eapply tc_iff; [|exact Hu].
    intros a b. symmetry. by apply depends_on_edge.
  - split; [done|]. intros [t Ht].
    apply detectCycle_false_acyclic in Hd. destruct (Hd t).
    eapply tc_iff; [|exact Ht]. intros a b. by apply depends_on_edge.
Qed.

(** X4: for every stack with unique ids whose dependencies stay inside the
    stack, [getExecutionOrder] lists only tasks of the stack, none twice,
    and every listed task after all the dependencies it declares (whatever
    the ids are); and it reports a cycle exactly when some task reaches
    itself through declared dependencies. *)
Theorem getExecutionOrder_in_stack stackPlans :
  wf_stackPlans stackPlans →
  NoDup (sortedPlanIds (getExecutionOrder stackPlans)) ∧
  (∀ k, k ∈ sortedPlanIds (getExecutionOrder stackPlans) → k ∈ plan_ids stackPlans) ∧
  (∀ t d, t ∈ sortedPlanIds (getExecutionOrder stackPlans) →
          depends_on stackPlans t d →
          before (sortedPlanIds (getExecutionOrder stackPlans)) d t) ∧
  (hasCycle (getExecutionOrder stackPlans) = true ↔
   ∃ t, tc (depends_on stackPlans) t t).
Proof.
  intros Hwf. destruct (getExecutionOrder_safe stackPlans Hwf) as [Hin Hb].
  split_and!.
  - apply topologicalSort_NoDup.
  - done.
  - intros t d Ht (sp & Hsp & <- & Hd). by apply Hb.
  - by apply getExecutionOrder_cycle_iff.
Qed.

Lemma getExecutionOrder_in_stack_witness :
  NoDup (sortedPlanIds (getExecutionOrder diamond)) ∧
  (∀ k, k ∈ sortedPlanIds (getExecutionOrder diamond) → k ∈ plan_ids diamond) ∧
  (∀ t d, t ∈ sortedPlanIds (getExecutionOrder diamond) →
          depends_on diamond t d →
          before (sortedPlanIds (getExecutionOrder diamond)) d t) ∧
  (hasCycle (getExecutionOrder diamond) = true ↔
   ∃ t, tc (depends_on diamond) t t).
Proof.
  apply (getExecutionOrder_in_stack diamond).
  apply wf_stackPlans_check_sound. vm_compute. reflexivity.
Defined.

(** ** The status store *)

(** X5: the record [loadStackStatus] returns keeps every entry of the
    stored record unchanged, gives every requested id without an entry a
    pending one unless the id is a name inherited from [Object.prototype]
    (such an id stays without an entry), and adds nothing else; the
    run-level fields are those of the stored record.  Without a stored
    record it is the default record: all requested ids pending, inherited
    names included, not running, never run. *)
Theorem loadStackStatus_backfill stackName planIds w p :
  match statusFiles w !! stackName with
  | Some stored =>
      planStatuses (loadStackStatus stackName planIds w) !! p
      = match planStatuses stored !! p with
        | Some ps => Some ps
        | None => if decide (p ∈ planIds ∧ ¬ inherited p)
                  then Some (pendingStatus p) else None
        end ∧
      lastRunAt (loadStackStatus stackName planIds w) = lastRunAt stored ∧
      isRunning (loadStackStatus stackName planIds w) = isRunning stored
  | None =>
      planStatuses (loadStackStatus stackName planIds w) !! p
      = (if decide (p ∈ planIds) then Some (pendingStatus p) else None) ∧
      lastRunAt (loadStackStatus stackName planIds w) = None ∧
      isRunning (loadStackStatus stackName planIds w) = false
  end.
Proof.
  unfold loadStackStatus. destruct (statusFiles w !! stackName) as [stored|].
  - simpl. by rewrite backfill_lookup.
  - split_and!; [apply createDefaultStatus_lookup|done|done].
Qed.

(** A stored record without an entry for the task [constructor]: the
    record read back has none either. *)
Example loadStackStatus_inherited_name :
  let w := {| stackFiles := ∅;
              statusFiles := {[ "s" := {| ses_stackName := "s"; planStatuses := ∅;
                                          lastRunAt := None; isRunning := false |} ]};
              clockReads := 0; launches := 0; trace := [] |} in
  planStatuses (loadStackStatus "s" ["constructor"; "A"] w) !! "constructor" = None ∧
  planStatuses (loadStackStatus "s" ["constructor"; "A"] w) !! "A"
  = Some (pendingStatus "A").
Proof. vm_compute. done. Qed.



(** X8: when the status file of the stack holds a record of that stack,
    [setStackRunning] sets the flag and touches no plan status; it stamps
    [lastRunAt] with the clock when the flag is set and leaves it alone
    when the flag is cleared. *)
Theorem setStackRunning_flag_only env stackName planIds running w :
  status_named stackName w →
  let w' := setStackRunning env stackName planIds running w in
  isRunning (loadStackStatus stackName planIds w') = running ∧
  (∀ x, read_status stackName planIds w' x = read_status stackName planIds w x) ∧
  lastRunAt (loadStackStatus stackName planIds w')
  = (if running then Some (now env (clockReads w))
     else lastRunAt (loadStackStatus stackName planIds w)) ∧
  clockReads w' = (if running then S (clockReads w) else clockReads w) ∧
  stackFiles w' = stackFiles w.
Proof.
  intros Hn w'. subst w'. split_and!.
  - by rewrite setStackRunning_load.
  - intros x. unfold read_status. by rewrite setStackRunning_load.
  - by rewrite setStackRunning_load.
  - unfold setStackRunning. by destruct running.
  - unfold setStackRunning. by destruct running.
Qed.

Lemma setStackRunning_flag_only_witness :
  isRunning (loadStackStatus "s" ["A"]
               (setStackRunning env_all_pass "s" ["A"] false stuck_world)) = false.
Proof.
  apply (setStackRunning_flag_only env_all_pass "s" ["A"] false stuck_world).
  apply status_named_check_sound. vm_compute. reflexivity.
Defined.

(** ** The stack record *)

Lemma stack_graph_ext (l1 l2 : list StackPlan) :
  map (fun sp => (sp_planId sp, sp_dependsOnPlanIds sp)) l1
  = map (fun sp => (sp_planId sp, sp_dependsOnPlanIds sp)) l2 →
  stack_graph l1 = stack_graph l2.
Proof.
  intros Heq.
  assert (∀ l, stack_graph l
               = foldl (fun graph (x : string * list string) =>
                          foldl (push_dependent x.1) graph x.2)
                   (foldl (fun graph (x : string * list string) =>
                             JsMap.set x.1
                               {| dn_planId := x.1; dn_dependsOnPlanIds := x.2;
                                  dn_dependentPlanIds := [] |} graph)
                      [] (map (fun sp => (sp_planId sp, sp_dependsOnPlanIds sp)) l))
                   (map (fun sp => (sp_planId sp, sp_dependsOnPlanIds sp)) l)) as H.
  { intros l. unfold stack_graph. by rewrite !foldl_map. }
  by rewrite (H l1), (H l2), Heq.
Qed.

(** X9: [updateStackPlanStatus] throws, without writing, when the stack is
    not stored.  Otherwise it rewrites the stack record under its own name
    with the update applied to the plans of the given id and to no other
    plan; name, roots and creation time are kept and the status files are
    not touched.  When the update carries neither a [planId] nor a
    [dependsOnPlanIds], as every update of the executor, the ids and the
    dependencies are kept, so the execution order of the stack is the same
    afterwards. *)
Theorem updateStackPlanStatus_keeps_structure env stackName planId updates w :
  match loadStack stackName w with
  | None =>
      updateStackPlanStatus env stackName planId updates w
      = inl (not_found stackName)
  | Some stack =>
      ∃ w' stack',
        updateStackPlanStatus env stackName planId updates w = inr w' ∧
        loadStack (stk_stackName stack) w' = Some stack' ∧
        stk_plans stack'
        = map (fun sp => if decide (sp_planId sp = planId)
                         then apply_updates updates sp else sp) (stk_plans stack) ∧
        stk_stackName stack' = stk_stackName stack ∧
        stk_rootPlanIds stack' = stk_rootPlanIds stack ∧
        stk_createdAt stack' = stk_createdAt stack ∧
        stk_updatedAt stack' = now env (clockReads w) ∧
        statusFiles w' = statusFiles w ∧
        (upd_planId updates = None → upd_dependsOnPlanIds updates = None →
         map sp_planId (stk_plans stack') = map sp_planId (stk_plans stack) ∧
         map sp_dependsOnPlanIds (stk_plans stack')
         = map sp_dependsOnPlanIds (stk_plans stack) ∧
         getExecutionOrder (stk_plans stack') = getExecutionOrder (stk_plans stack))
  end.
Proof.
  unfold updateStackPlanStatus. destruct (loadStack stackName w) as [stack|]; [|done].
  eexists _, _. split; [done|]. split; [apply lookup_insert_eq|]. simpl.
  split_and!; try done.
  intros Hid Hdeps.
  assert (∀ sp, sp_planId (apply_updates updates sp) = sp_planId sp) as Hsp1.
  { intros sp. unfold apply_updates. cbn [sp_planId]. by rewrite Hid. }
  assert (∀ sp, sp_dependsOnPlanIds (apply_updates updates sp)
                = sp_dependsOnPlanIds sp) as Hsp2.
  { intros sp. unfold apply_updates. cbn [sp_dependsOnPlanIds]. by rewrite Hdeps. }
  assert (map (fun sp => (sp_planId sp, sp_dependsOnPlanIds sp))
            (map (fun sp => if decide (sp_planId sp = planId)
                            then apply_updates updates sp else sp) (stk_plans stack))
          = map (fun sp => (sp_planId sp, sp_dependsOnPlanIds sp)) (stk_plans stack))
    as Hsame.
  { rewrite map_map. apply map_ext. intros sp. case_decide; [|done].
    by rewrite Hsp1, Hsp2. }
  split_and!.
  - rewrite map_map. apply map_ext. intros sp. case_decide; [|done]. apply Hsp1.
  - rewrite map_map. apply map_ext. intros sp. case_decide; [|done]. apply Hsp2.
  - unfold getExecutionOrder. by rewrite (stack_graph_ext _ _ Hsame).
Qed.

(** An update that carries a [planId] renames the task: the spread
    [{ ...sp, ...updates }] overwrites every field the update has. *)
Example updateStackPlanStatus_renames :
  let w := {| stackFiles := {[ "s" := mkStack "s" [mkSP "A" []; mkSP "B" ["A"]] ]};
              statusFiles := ∅; clockReads := 0; launches := 0; trace := [] |} in
  let updates := {| upd_planId := Some "Z"; upd_dependsOnPlanIds := None;
                    upd_executionStatus := None; upd_lastExecutedAt := None;
                    upd_executionDurationMs := None |} in
  ∃ w' stack',
    updateStackPlanStatus env_all_pass "s" "A" updates w = inr w' ∧
    loadStack "s" w' = Some stack' ∧
    map sp_planId (stk_plans stack') = ["Z"; "B"].
Proof. eexists _, _. split_and!; [reflexivity|by vm_compute|by vm_compute]. Qed.

(** ** The executor *)

(** X10: [executePlan] writes no file.  It either resolves with a result
    or, exactly when [spawn] throws, is left by that exception.  A result
    carries the id of the plan; its status is [completed] or [failed],
    [completed] exactly when the exit code is [0] and exactly when there
    is no error message. *)
Theorem executePlan_outcome env planId claudeCommand w :
  statusFiles (executePlan env planId claudeCommand w).1 = statusFiles w ∧
  stackFiles (executePlan env planId claudeCommand w).1 = stackFiles w ∧
  match (executePlan env planId claudeCommand w).2 with
  | inr result =>
      (∀ message, worker env claudeCommand planId (launches w) ≠ SpawnThrew message) ∧
      res_planId result = planId ∧
      (res_executionStatus result = completed ∨
       res_executionStatus result = failed) ∧
      (res_executionStatus result = completed ↔ res_exitCode result = Some 0%Z) ∧
      (res_executionStatus result = completed ↔ res_errorMessage result = None)
  | inl message =>
      worker env claudeCommand planId (launches w) = SpawnThrew message
  end.
Proof.
  unfold executePlan. cbn [fst snd statusFiles stackFiles].
  split; [done|]. split; [done|].
  destruct (worker env claudeCommand planId (launches w)) as [|m|m d o|code d o];
    cbn [res_planId res_executionStatus res_exitCode res_errorMessage].
  - split_and!; try done; auto.
  - done.
  - split_and!; try done; auto.
  - case_decide; split_and!; try done; auto.
Qed.

(** ** The results of a run *)

Section run_results.
Context (env : Env) (stackName claudeCommand : string) (stack : Stack).

#[local] Abbreviation planIds := (map sp_planId (stk_plans stack)).
#[local] Abbreviation read := (read_status stackName planIds).
#[local] Abbreviation step := (exec_step env stackName claudeCommand stack planIds).
#[local] Abbreviation loop := (exec_loop env stackName claudeCommand stack planIds).

(** What one iteration appends to [results]. *)
Lemma exec_step_results st p st' :
  world_ok stackName (ls_world st) → step st p = inr st' →
  if decide (p ∈ ls_completedPlanIds st) then ls_results st' = ls_results st
  else ∃ r, ls_results st' = ls_results st ++ [r] ∧ res_planId r = p ∧
            (res_executionStatus r = completed ∨ res_executionStatus r = failed ∨
             res_executionStatus r = skipped) ∧
            status_of (read (ls_world st') p) = Some (res_executionStatus r).
Proof.
  intros Hok Hstep.
  pose proof (exec_step_post env stackName claudeCommand stack st p st' Hok Hstep)
    as Hpost.
  case_decide as Hin.
  { by rewrite (sp_done _ _ _ _ _ _ Hpost Hin). }
  unfold exec_step in Hstep. rewrite decide_False in Hstep by done.
  destruct (hasUnmetDependencies stack p (ls_completedPlanIds st)) eqn:Hunmet.
  - destruct (sp_skip _ _ _ _ _ _ Hpost Hin Hunmet) as (_ & ps & Hps & Hrec & _).
    destruct (updateStackPlanStatus _ _ _ _ _) as [|w2]; [done|].
    injection Hstep as <-. simpl. eexists. split; [done|]. simpl.
    split_and!; [done|auto|]. simpl in Hps. rewrite Hps. simpl. by rewrite Hrec.
  - destruct (sp_run _ _ _ _ _ _ Hpost Hin Hunmet) as (ps & Hps & Hcf & Hiff).
    destruct (updateStackPlanStatus _ _ _ _ _) as [|w2]; [done|].
    destruct (executePlan env p claudeCommand w2) as [w3 [msg|result]] eqn:Hex;
      [done|].
    destruct (updateStackPlanStatus _ _ _ _ _) as [|w5]; [done|].
    injection Hstep as <-. simpl in *. eexists. split; [done|].
    pose proof (executePlan_spec env p claudeCommand w2) as (_ & _ & _ & _ & Hout).
    rewrite Hex in Hout. simpl in Hout. destruct Hout as [Hid Hst].
    split_and!; [done|tauto|]. rewrite Hps. simpl. f_equal.
    destruct Hst as [Hc|Hf].
    + rewrite Hc. apply Hiff. rewrite Hc. rewrite decide_True by done. set_solver.
    + rewrite Hf. destruct Hcf as [Hc'|]; [|done].
      apply Hiff in Hc'. rewrite Hf in Hc'. by rewrite decide_False in Hc'.
Qed.

Lemma exec_loop_results order st st' :
  world_ok stackName (ls_world st) → NoDup order → loop order st = inr st' →
  ∃ rs, ls_results st' = ls_results st ++ rs ∧
        map res_planId rs = filter (fun p => p ∉ ls_completedPlanIds st) order ∧
        ∀ r, r ∈ rs →
             (res_executionStatus r = completed ∨ res_executionStatus r = failed ∨
              res_executionStatus r = skipped) ∧
             status_of (read (ls_world st') (res_planId r))
             = Some (res_executionStatus r).
Proof.
  revert st. induction order as [|p order IH]; intros st Hok Hnd Hloop.
  { injection Hloop as <-. exists []. rewrite app_nil_r. split_and!; [done..|].
    by intros r ?%elem_of_nil. }
  apply NoDup_cons in Hnd as [Hp Hnd]. cbn [exec_loop] in Hloop.
  destruct (step st p) as [[w1 message]|st1] eqn:Hstep; [done|].
  pose proof (exec_step_post env stackName claudeCommand stack st p st1 Hok Hstep)
    as Hpost.
  pose proof (exec_step_results st p st1 Hok Hstep) as Hres.
  pose proof (sp_ok _ _ _ _ _ _ Hpost) as Hok1.
  destruct (IH st1 Hok1 Hnd Hloop) as (rs & Hrs & Hids & Hall).
  pose proof (exec_loop_post env stackName claudeCommand stack order st1 st' Hok1 Hloop)
    as Hlp.
  assert (filter (fun q => q ∉ ls_completedPlanIds st1) order
          = filter (fun q => q ∉ ls_completedPlanIds st) order) as Hfilter.
  { apply filter_ext_in. intros q Hq. split.
    - intros Hn Hc. apply Hn. by apply (sp_mono _ _ _ _ _ _ Hpost).
    - intros Hn Hc. destruct (sp_new _ _ _ _ _ _ Hpost q Hc Hn) as [-> _]. done. }
  rewrite filter_cons. case_decide as Hin.
  - rewrite decide_False by (by intros Hn; apply Hn).
    exists rs. rewrite Hrs, Hres. by rewrite Hids, Hfilter.
  - rewrite decide_True by done.
    destruct Hres as (r & Hr & Hid & Hst & Hread).
    exists (r :: rs). rewrite Hrs, Hr, <- app_assoc. split_and!; [done| |].
    + simpl. by rewrite Hid, Hids, Hfilter.
    + intros r' [->|Hr']%elem_of_cons; [|by apply Hall].
      split; [done|]. rewrite Hid.
      by rewrite (lp_frame _ _ _ _ _ _ Hlp p Hp).
Qed.
End run_results.

Lemma count_status_total rs :
  (∀ r, r ∈ rs → res_executionStatus r = completed ∨
                 res_executionStatus r = failed ∨ res_executionStatus r = skipped) →
  count_status completed rs + count_status failed rs + count_status skipped rs
  = length rs.
Proof.
  unfold count_status. induction rs as [|r rs IH]; intros H; [done|].
  rewrite !filter_cons.
  assert (∀ r', r' ∈ rs → res_executionStatus r' = completed ∨
                 res_executionStatus r' = failed ∨ res_executionStatus r' = skipped)
    as H' by (intros r' Hr'; apply H; by right).
  specialize (IH H').
  destruct (H r) as [Hs|[Hs|Hs]]; [left|..]; rewrite Hs;
    repeat case_decide; try done; simpl; lia.
Qed.

Lemma run_results env stackName fromPlanId claudeCommand w w' res stack :
  loadStack stackName w = Some stack → status_named stackName w →
  wf_stackPlans (stk_plans stack) →
  executeStack env stackName false fromPlanId claudeCommand w = (w', inr res) →
  map res_planId (results res)
  = filter (fun p => status_of (read_status stackName (map sp_planId (stk_plans stack))
                                  w p) ≠ Some completed)
           (executionOrder res) ∧
  (∀ r, r ∈ results res →
     (res_executionStatus r = completed ∨ res_executionStatus r = failed ∨
      res_executionStatus r = skipped) ∧
     status_of (read_status stackName (map sp_planId (stk_plans stack)) w'
                  (res_planId r))
     = Some (res_executionStatus r)).
Proof.
  intros Hs Hn Hwf Hrun.
  destruct (executeStack_inv env stackName claudeCommand stack fromPlanId w w' res
              Hs Hn Hrun) as (Hc & Ho & st & Hloop & Hpost & -> & Hres).
  pose proof (run_start_ok env stackName stack w Hn Hs) as Hok.
  destruct (exec_loop_results env stackName claudeCommand stack _ _ _ Hok
              (truncate_order_NoDup fromPlanId (stk_plans stack)) Hloop)
    as (rs & Hrs & Hids & Hall).
  assert (ls_results (run_start env stackName stack w) = []) as Hnil by done.
  rewrite Hnil in Hrs. cbn [app] in Hrs.
  rewrite Hres, Hrs, Ho. split.
  - rewrite Hids. apply filter_ext_in. intros p Hp.
    rewrite run_start_seed by done. split.
    + intros Hnot Hcomp. apply Hnot. split; [|done].
      destruct (getExecutionOrder_safe (stk_plans stack) Hwf) as [Hin _].
      apply Hin. destruct (truncate_order_drop fromPlanId
        (sortedPlanIds (getExecutionOrder (stk_plans stack)))) as [n Hdrop].
      rewrite Hdrop in Hp. by eapply subseteq_drop.
    + intros Hnot [_ Hcomp]. done.
  - intros r Hr. destruct (Hall r Hr) as [H1 H2]. split; [done|].
    rewrite final_read; [done|]. apply Hpost.
Qed.





(** ** Starting a run *)

(** X13: for a stored stack without cycle and a non-empty [fromPlanId] that
    occurs in the sorted order, the execution order is the part of the
    sorted order from that task on: the tasks before it are left out, the
    task and everything after it are kept in order.  A dry run returns that
    order and changes nothing.  A real run attempts only tasks of that
    order; it returns it, unless [spawn] throws for one of its tasks. *)
Theorem executeStack_from_present env stackName f claudeCommand w stack :
  loadStack stackName w = Some stack →
  hasCycle (getExecutionOrder (stk_plans stack)) = false →
  f ≠ "" → f ∈ sortedPlanIds (getExecutionOrder (stk_plans stack)) →
  ∃ pre suf,
    sortedPlanIds (getExecutionOrder (stk_plans stack)) = pre ++ f :: suf ∧
    (f ∉ pre) ∧
    executeStack env stackName true (Some f) claudeCommand w
    = (w, inr {| results := []; executionOrder := f :: suf |}) ∧
    (∀ p, invoked w (executeStack env stackName false (Some f) claudeCommand w).1 p →
          p ∈ f :: suf) ∧
    match (executeStack env stackName false (Some f) claudeCommand w).2 with
    | inr res => executionOrder res = f :: suf
    | inl message =>
        ∃ p n, p ∈ f :: suf ∧ worker env claudeCommand p n = SpawnThrew message
    end.
Proof.
  intros Hs Hc Hne Hin.
  destruct (slice_from_indexOf f _ Hin) as (pre & suf & Hsplit & Hslice).
  assert (truncate_order (Some f) (sortedPlanIds (getExecutionOrder (stk_plans stack)))
          = f :: suf) as Htr.
  { unfold truncate_order. by rewrite decide_False by done. }
  exists pre, suf. split; [done|]. split; [|].
  - pose proof (topologicalSort_NoDup (stack_graph (stk_plans stack))) as Hnd.
    fold (getExecutionOrder (stk_plans stack)) in Hnd. rewrite Hsplit in Hnd.
    apply NoDup_app in Hnd as (_ & Hdisj & _). intros Hp.
    apply (Hdisj f Hp). left.
  - split.
    + unfold executeStack. by rewrite Hs, Hc, Htr.
    + destruct (executeStack_trace env stackName claudeCommand stack (Some f) w Hs Hc)
        as (first & evs & Htrace & _ & Hev & Hout).
      rewrite Htr in Hev, Hout. split; [|done].
      intros p. unfold invoked. rewrite (new_events_app _ _ _ Htrace).
      rewrite elem_of_cons. intros [?|Hp]; [done|]. by apply Hev.
Qed.

Lemma executeStack_from_present_witness :
  ∃ pre suf,
    sortedPlanIds (getExecutionOrder [mkSP "A" []; mkSP "B" ["A"]; mkSP "C" []])
    = pre ++ "C" :: suf ∧
    ("C" ∉ pre) ∧
    executeStack env_all_pass "s" true (Some "C") "claude" fresh_world
    = (fresh_world, inr {| results := []; executionOrder := "C" :: suf |}) ∧
    (∀ p, invoked fresh_world
            (executeStack env_all_pass "s" false (Some "C") "claude" fresh_world).1 p →
          p ∈ "C" :: suf) ∧
    match (executeStack env_all_pass "s" false (Some "C") "claude" fresh_world).2 with
    | inr res => executionOrder res = "C" :: suf
    | inl message =>
        ∃ p n, p ∈ "C" :: suf ∧ worker env_all_pass "claude" p n = SpawnThrew message
    end.
Proof.
  apply (executeStack_from_present env_all_pass "s" "C" "claude" fresh_world
           (mkStack "s" [mkSP "A" []; mkSP "B" ["A"]; mkSP "C" []])).
  - reflexivity.
  - vm_compute. reflexivity.
  - discriminate.
  - by_evaluation.
Defined.

(** X14: whenever the [run] command ends without executing the stack (the
    stack is missing or already running, it has a cycle, the starting task
    is unknown, or the run is a dry run), no task is attempted and no stack
    file is written.  The world is unchanged, except that a requested reset
    has already been applied when the command stops at the cycle check, at
    the check of the starting task or as a dry run. *)
Theorem runCommand_rejects env stackName options w w' outcome :
  runCommand env stackName options w = (w', outcome) →
  (∀ r, outcome ≠ Executed r) → (∀ msg, outcome ≠ Crashed msg) →
  (∀ p, ¬ invoked w w' p) ∧
  stackFiles w' = stackFiles w ∧
  ((outcome = StackNotFound ∨ outcome = AlreadyRunning ∨ opt_reset options = false) →
   w' = w) ∧
  (outcome ≠ StackNotFound → outcome ≠ AlreadyRunning → opt_reset options = true →
   ∃ stack, loadStack stackName w = Some stack ∧
            w' = resetStackStatus stackName (map sp_planId (stk_plans stack)) w).
Proof.
  intros Hrun Hex Hcr. unfold runCommand in Hrun.
  destruct (loadStack stackName w) as [stack|] eqn:Hs.
  2:{ injection Hrun as <- <-. split_and!; try done.
      intros p. unfold invoked, new_events. rewrite drop_all.
      by intros ?%elem_of_nil. }
  destruct (match getStackExecutionStatus stackName w with
            | Some currentStatus => isRunning currentStatus
            | None => false
            end).
  { injection Hrun as <- <-. split_and!; try done.
    intros p. unfold invoked, new_events. rewrite drop_all.
    by intros ?%elem_of_nil. }
  set (w1 := if opt_reset options
             then resetStackStatus stackName (map sp_planId (stk_plans stack)) w
             else w) in Hrun.
  assert (w' = w1) as ->.
  { destruct (hasCycle (getExecutionOrder (stk_plans stack))); [by injection Hrun|].
    destruct (match opt_from options with
              | Some f => bool_decide (f ≠ "") &&
                  negb (includes f (sortedPlanIds (getExecutionOrder (stk_plans stack))))
              | None => false
              end); [by injection Hrun|].
    destruct (opt_dryRun options); [by injection Hrun|].
    destruct (executeStack _ _ _ _ _ _) as [w2 [msg|r]]; injection Hrun as <- <-.
    - by destruct (Hcr msg).
    - by destruct (Hex r). }
  assert (outcome ≠ StackNotFound ∧ outcome ≠ AlreadyRunning) as [Hn1 Hn2].
  { destruct (hasCycle (getExecutionOrder (stk_plans stack)));
      [injection Hrun as <-; by split|].
    destruct (match opt_from options with
              | Some f => bool_decide (f ≠ "") &&
                  negb (includes f (sortedPlanIds (getExecutionOrder (stk_plans stack))))
              | None => false
              end); [injection Hrun as <-; by split|].
    destruct (opt_dryRun options); [injection Hrun as <-; by split|].
    destruct (executeStack _ _ _ _ _ _) as [w2 [msg|r]]; injection Hrun as _ <-;
      by split. }
  subst w1. split_and!.
  - intros p. unfold invoked, new_events.
    destruct (opt_reset options).
    + unfold resetStackStatus, saveStackStatus. simpl.
      rewrite drop_app_length. by intros [=]%list_elem_of_singleton.
    + rewrite drop_all. by intros ?%elem_of_nil.
  - by destruct (opt_reset options).
  - intros [? | [? | Hr]]; [done|done|]. by rewrite Hr.
  - intros _ _ ->. by exists stack.
Qed.

Lemma runCommand_rejects_witness :
  (∀ p, ¬ invoked cyclic_world
          (resetStackStatus "s" ["A"] cyclic_world) p) ∧
  stackFiles (resetStackStatus "s" ["A"] cyclic_world) = stackFiles cyclic_world.
Proof.
  destruct (runCommand_rejects env_all_pass "s"
              {| opt_dryRun := false; opt_from := None; opt_reset := true;
                 opt_claude := None |}
              cyclic_world (resetStackStatus "s" ["A"] cyclic_world)
              (CycleDetected (Some ["A"; "A"]))) as (Hno & Hfiles & _).
  - vm_compute. reflexivity.
  - discriminate.
  - discriminate.
  - split; [exact Hno|exact Hfiles].
Defined.

(** X15: a run over a stack all of whose tasks are already [completed]
    attempts nothing, returns no result and leaves every plan status as it
    was. *)
Theorem executeStack_nothing_to_do
    env stackName fromPlanId claudeCommand w w' res stack :
  loadStack stackName w = Some stack → status_named stackName w →
  wf_stackPlans (stk_plans stack) →
  (∀ p, p ∈ map sp_planId (stk_plans stack) →
        status_of (read_status stackName (map sp_planId (stk_plans stack)) w p)
        = Some completed) →
  executeStack env stackName false fromPlanId claudeCommand w = (w', inr res) →
  results res = [] ∧
  (∀ p, ¬ invoked w w' p) ∧
  (∀ p, read_status stackName (map sp_planId (stk_plans stack)) w' p
        = read_status stackName (map sp_planId (stk_plans stack)) w p).
Proof.
  intros Hs Hn Hwf Hall Hrun.
  destruct (run_results env stackName fromPlanId claudeCommand w w' res stack
              Hs Hn Hwf Hrun) as [Hids _].
  pose proof (run_facts env stackName claudeCommand stack fromPlanId w w' res
                Hs Hn Hrun) as (_ & Ho & st & evs & Hloop & Hpost & Hread & Htr & Hinv).
  assert (∀ p, p ∈ executionOrder res → p ∈ map sp_planId (stk_plans stack)) as Hsub.
  { intros p Hp. destruct (getExecutionOrder_safe (stk_plans stack) Hwf) as [Hin _].
    apply Hin. rewrite Ho in Hp.
    destruct (truncate_order_drop fromPlanId
      (sortedPlanIds (getExecutionOrder (stk_plans stack)))) as [n Hdrop].
    rewrite Hdrop in Hp. by eapply subseteq_drop. }
  split_and!.
  - destruct (results res) as [|r rs]; [done|]. exfalso.
    assert (res_planId r ∈ map res_planId (r :: rs)) as Hin by left.
    rewrite Hids in Hin. apply list_elem_of_filter in Hin as [Hnot Hp].
    apply Hnot, Hall. by apply Hsub.
  - intros p Hp.
    destruct (decide (p ∈ map sp_planId (stk_plans stack))) as [Hin|Hout].
    + by destruct (completed_untouched env stackName claudeCommand stack fromPlanId
                     w w' res Hs Hn Hrun p Hin (Hall p Hin)) as (_ & _ & Hno).
    + apply Hinv in Hp.
      destruct (lp_trace _ _ _ _ _ _ Hpost) as (evs' & Htr' & Hev).
      rewrite Htr in Htr'. apply app_inv_head in Htr' as <-.
      apply Hev in Hp as [Hp _]. rewrite <- Ho in Hp. by apply Hout, Hsub.
  - intros p.
    destruct (decide (p ∈ map sp_planId (stk_plans stack))) as [Hin|Hout].
    + by destruct (completed_untouched env stackName claudeCommand stack fromPlanId
                     w w' res Hs Hn Hrun p Hin (Hall p Hin)) as (_ & Hsame & _).
    + rewrite Hread, (lp_frame _ _ _ _ _ _ Hpost).
      * by apply run_start_read.
      * intros Hp. rewrite <- Ho in Hp. by apply Hout, Hsub.
Qed.

Lemma executeStack_nothing_to_do_witness :
  results (returned (executeStack env_all_pass "s" false None "claude"
                       (executeStack env_all_pass "s" false None "claude" fresh_world).1))
  = [].
Proof.
  apply (executeStack_nothing_to_do env_all_pass "s" None "claude"
           (executeStack env_all_pass "s" false None "claude" fresh_world).1
           (executeStack env_all_pass "s" false None "claude"
              (executeStack env_all_pass "s" false None "claude" fresh_world).1).1
           (returned
              (executeStack env_all_pass "s" false None "claude"
                 (executeStack env_all_pass "s" false None "claude" fresh_world).1))
           (default (mkStack "s" [])
              (loadStack "s"
                 (executeStack env_all_pass "s" false None "claude" fresh_world).1))).
  - vm_compute. reflexivity.
  - apply status_named_check_sound. vm_compute. reflexivity.
  - apply wf_stackPlans_check_sound. vm_compute. reflexivity.
  - intros p Hp. vm_compute in Hp.
    repeat (apply elem_of_cons in Hp as [->|Hp]; [vm_compute; reflexivity|]).
    by apply elem_of_nil in Hp.
  - vm_compute. reflexivity.
Defined.

(** ** The graph builder and the stack plans it yields *)

Lemma assoc_ext {V} (m1 m2 : list (string * V)) :
  JsMap.keys m1 = JsMap.keys m2 → NoDup (JsMap.keys m1) →
  (∀ k, JsMap.get k m1 = JsMap.get k m2) → m1 = m2.
Proof.
  revert m2. induction m1 as [|[k v] m1 IH]; intros [|[k' v'] m2] Hkeys Hnd Hget;
    try done.
  simpl in Hkeys. injection Hkeys as <- Hkeys.
  apply NoDup_cons in Hnd as [Hk Hnd].
  pose proof (Hget k) as Hk0. simpl in Hk0. rewrite !decide_True in Hk0 by done.
  injection Hk0 as <-. f_equal. apply IH; [done|done|].
  intros k0. specialize (Hget k0). simpl in Hget.
  destruct (decide (k = k0)) as [<-|Hne]; [|done].
  assert (JsMap.get k m1 = None) as -> by (by apply get_None_keys).
  symmetry. apply get_None_keys. unfold JsMap.keys in *. by rewrite <- Hkeys.
Qed.

Lemma add_dependents_with_dependsOn l ds n :
  add_dependents l (with_dependsOn ds n) = with_dependsOn ds (add_dependents l n).
Proof. done. Qed.

Lemma pushes_cons sp sps k :
  pushes (sp :: sps) k
  = replicate (occ k (sp_dependsOnPlanIds sp)) (sp_planId sp) ++ pushes sps k.
Proof. done. Qed.

Section build_pass.
Context (availablePlanIds : gset string).

#[local] Abbreviation valid plan :=
  (filter (fun refId => refId ∈ availablePlanIds) (plan_references plan)).
#[local] Abbreviation pass2 :=
  (foldl (fun graph plan =>
            match JsMap.get (plan_planId plan) graph with
            | None => graph
            | Some node =>
                foldl (push_dependent (plan_planId plan))
                  (JsMap.set (plan_planId plan) (with_dependsOn (valid plan) node) graph)
                  (valid plan)
            end)).

(** The second pass of the builder over [todo], from any graph that has a
    node for each of these plans. *)
Lemma build_pass2 todo graph :
  NoDup (map plan_planId todo) →
  (∀ p, p ∈ todo → plan_planId p ∈ JsMap.keys graph) →
  JsMap.keys (pass2 graph todo) = JsMap.keys graph ∧
  (∀ p, p ∈ todo →
     JsMap.get (plan_planId p) (pass2 graph todo)
     = (fun n => add_dependents
                   (pushes (map (resolved_plan availablePlanIds) todo) (plan_planId p))
                   (with_dependsOn (valid p) n))
       <$> JsMap.get (plan_planId p) graph) ∧
  (∀ k, k ∉ map plan_planId todo →
     JsMap.get k (pass2 graph todo)
     = add_dependents (pushes (map (resolved_plan availablePlanIds) todo) k)
       <$> JsMap.get k graph).
Proof.
  revert graph. induction todo as [|p todo IH]; intros graph Hnd Hkeys.
  { split_and!; [done| |].
    - by intros p ?%elem_of_nil.
    - intros k _. simpl. destruct (JsMap.get k graph); simpl; [|done].
      by rewrite add_dependents_nil. }
  apply NoDup_cons in Hnd as [Hp Hnd]. cbn [foldl].
  assert (plan_planId p ∈ JsMap.keys graph) as Hkp by (apply Hkeys; left).
  destruct (JsMap.get (plan_planId p) graph) as [node|] eqn:Hnode.
  2:{ apply get_None_keys in Hnode. done. }
  set (graph1 := foldl (push_dependent (plan_planId p))
                   (JsMap.set (plan_planId p) (with_dependsOn (valid p) node) graph)
                   (valid p)).
  assert (JsMap.keys graph1 = JsMap.keys graph) as Hk1.
  { subst graph1. rewrite push_all_keys. by apply keys_set_in. }
  assert (∀ k, JsMap.get k graph1
               = add_dependents (replicate (occ k (valid p)) (plan_planId p))
                 <$> (if decide (plan_planId p = k)
                      then Some (with_dependsOn (valid p) node)
                      else JsMap.get k graph)) as Hg1.
  { intros k. subst graph1. rewrite push_all_get. case_decide as Hk.
    - subst k. by rewrite get_set_eq.
    - by rewrite get_set_ne. }
  destruct (IH graph1 Hnd) as (IHk & IHin & IHout).
  { intros q Hq. rewrite Hk1. apply Hkeys. by right. }
  split_and!.
  - by rewrite IHk.
  - intros q [->|Hq]%elem_of_cons.
    + rewrite IHout by done. rewrite Hg1, decide_True by done. rewrite Hnode.
      simpl. f_equal. rewrite add_dependents_app.
      by rewrite add_dependents_with_dependsOn.
    + rewrite IHin by done. rewrite Hg1.
      assert (plan_planId p ≠ plan_planId q) as Hne.
      { intros Heq. apply Hp. rewrite Heq. apply list_elem_of_fmap. by exists q. }
      rewrite decide_False by done.
      destruct (JsMap.get (plan_planId q) graph) as [n|]; simpl; [|done].
      f_equal. rewrite <- add_dependents_with_dependsOn, add_dependents_app. done.
  - intros k Hk. apply not_elem_of_cons in Hk as [Hne Hk].
    rewrite IHout by done. rewrite Hg1, decide_False by done.
    destruct (JsMap.get k graph) as [n|]; simpl; [|done].
    f_equal. by rewrite add_dependents_app.
Qed.
End build_pass.

Lemma resolved_ids availablePlanIds plans :
  plan_ids (map (resolved_plan availablePlanIds) plans) = map plan_planId plans.
Proof. unfold plan_ids. rewrite map_map. by apply map_ext. Qed.

(** With distinct plan ids, the builder's graph is the graph of the
    resolved plans. *)
Lemma buildDependencyGraph_stack_graph plans availablePlanIds :
  NoDup (map plan_planId plans) →
  buildDependencyGraph plans availablePlanIds
  = stack_graph (map (resolved_plan availablePlanIds) plans).
Proof.
  intros Hnd.
  assert (NoDup (plan_ids (map (resolved_plan availablePlanIds) plans))) as Hnd'
    by (by rewrite resolved_ids).
  unfold buildDependencyGraph.
  set (graph0 := foldl _ [] plans).
  assert (graph0 = map (fun p => (plan_planId p,
                          {| dn_planId := plan_planId p; dn_dependsOnPlanIds := [];
                             dn_dependentPlanIds := [] |})) plans) as Hg0.
  { subst graph0.
    pose proof (stack_graph0 (map (fun p => mkSP (plan_planId p) []) plans) []) as H0.
    rewrite foldl_map in H0. simpl in H0. rewrite H0.
    - rewrite map_map. by apply map_ext.
    - unfold plan_ids. rewrite map_map. simpl. by rewrite (map_ext _ plan_planId). }
  assert (JsMap.keys graph0 = map plan_planId plans) as Hk0.
  { rewrite Hg0. unfold JsMap.keys. rewrite <- list_fmap_compose. done. }
  destruct (build_pass2 availablePlanIds plans graph0 Hnd) as (Hkeys & Hin & Hout).
  { intros p Hp. rewrite Hk0. apply list_elem_of_fmap. by exists p. }
  apply assoc_ext.
  - rewrite Hkeys, Hk0, stack_graph_keys_NoDup by done. by rewrite resolved_ids.
  - by rewrite Hkeys, Hk0.
  - intros k. rewrite stack_graph_get_NoDup by done.
    destruct (decide (k ∈ map plan_planId plans)) as [Hk|Hk].
    + apply list_elem_of_fmap in Hk as (p & -> & Hp). rewrite (Hin p Hp).
      assert (JsMap.get (plan_planId p) graph0
              = Some {| dn_planId := plan_planId p; dn_dependsOnPlanIds := [];
                        dn_dependentPlanIds := [] |}) as ->.
      { apply elem_get_Some; [by rewrite Hk0|]. rewrite Hg0.
        apply list_elem_of_fmap. by exists p. }
      assert (JsMap.get (plan_planId p)
                (map stack_node (map (resolved_plan availablePlanIds) plans))
              = Some (stack_node (resolved_plan availablePlanIds p)).2) as ->.
      { apply elem_get_Some.
        - unfold JsMap.keys. rewrite <- list_fmap_compose.
          change (NoDup (plan_ids (map (resolved_plan availablePlanIds) plans))).
          done.
        - apply list_elem_of_fmap. exists (resolved_plan availablePlanIds p).
          split; [done|]. apply list_elem_of_fmap. by exists p. }
      done.
    + rewrite (Hout k Hk).
      assert (JsMap.get k graph0 = None) as -> by (apply get_None_keys; by rewrite Hk0).
      assert (JsMap.get k (map stack_node (map (resolved_plan availablePlanIds) plans))
              = None) as ->; [|done].
      apply get_None_keys. unfold JsMap.keys. rewrite <- list_fmap_compose.
      change (k ∉ plan_ids (map (resolved_plan availablePlanIds) plans)).
      by rewrite resolved_ids.
Qed.

Lemma plansToStackPlans_resolved plans :
  NoDup (map plan_planId plans) →
  plansToStackPlans plans
  = map (resolved_plan (list_to_set (map plan_planId plans))) plans.
Proof.
  intros Hnd. unfold plansToStackPlans.
  rewrite buildDependencyGraph_stack_graph by done.
  apply map_ext_in. intros p Hp%list_elem_of_In.
  unfold resolved_plan at 2, mkSP. f_equal.
  rewrite stack_graph_get_NoDup by (by rewrite resolved_ids).
  assert (JsMap.get (plan_planId p)
            (map stack_node
               (map (resolved_plan (list_to_set (map plan_planId plans))) plans))
          = Some (stack_node
                    (resolved_plan (list_to_set (map plan_planId plans)) p)).2) as ->.
  { apply elem_get_Some.
    - unfold JsMap.keys. rewrite <- list_fmap_compose.
      change (NoDup (plan_ids
                (map (resolved_plan (list_to_set (map plan_planId plans))) plans))).
      by rewrite resolved_ids.
    - apply list_elem_of_fmap.
      exists (resolved_plan (list_to_set (map plan_planId plans)) p).
      split; [done|]. apply list_elem_of_fmap. by exists p. }
  done.
Qed.

Lemma plansToStackPlans_wf plans :
  NoDup (map plan_planId plans) → wf_stackPlans (plansToStackPlans plans).
Proof.
  intros Hnd. rewrite plansToStackPlans_resolved by done. split.
  - by rewrite resolved_ids.
  - intros sp d (p & -> & Hp)%list_elem_of_fmap Hd. rewrite resolved_ids.
    simpl in Hd. apply list_elem_of_filter in Hd as [Hd _].
    by apply elem_of_list_to_set in Hd.
Qed.

(** The tasks [plansToStackPlans] yields, field by field. *)
Lemma plansToStackPlans_eq plans :
  NoDup (map plan_planId plans) →
  plansToStackPlans plans
  = map (fun plan =>
           {| sp_planId := plan_planId plan;
              sp_dependsOnPlanIds :=
                filter (fun refId => refId ∈ map plan_planId plans)
                       (plan_references plan);
              sp_executionStatus := pending;
              sp_lastExecutedAt := None;
              sp_executionDurationMs := None |}) plans.
Proof.
  intros Hnd.
  rewrite plansToStackPlans_resolved by done. apply map_ext. intros p.
  unfold resolved_plan, mkSP. f_equal.
  apply filter_ext_in. intros x _. apply elem_of_list_to_set.
Qed.

(** X16: for plans with distinct ids, [plansToStackPlans] yields one task
    per plan, in the order of the plans, pending and never executed, whose
    dependencies are the references of the plan that are ids of these
    plans, in their declared order; the result satisfies the invariants of
    a stack (unique ids, dependencies inside the stack). *)
Theorem plansToStackPlans_tasks plans :
  NoDup (map plan_planId plans) →
  plansToStackPlans plans
  = map (fun plan =>
           {| sp_planId := plan_planId plan;
              sp_dependsOnPlanIds :=
                filter (fun refId => refId ∈ map plan_planId plans)
                       (plan_references plan);
              sp_executionStatus := pending;
              sp_lastExecutedAt := None;
              sp_executionDurationMs := None |}) plans ∧
  wf_stackPlans (plansToStackPlans plans).
Proof.
  intros Hnd. split.
  - by apply plansToStackPlans_eq.
  - by apply plansToStackPlans_wf.
Qed.

Lemma plansToStackPlans_tasks_witness :
  wf_stackPlans (plansToStackPlans ghost_plans).
Proof.
  apply (plansToStackPlans_tasks ghost_plans). by_evaluation.
Defined.

(** X17: for plans with distinct ids and an available set made of ids of
    these plans, the graph [buildDependencyGraph] returns has one node per
    plan, in the order of the plans, stored under its id; the dependencies
    of a node are the available references of its plan; and the dependents
    mirror the dependencies, occurrence for occurrence.  With the ids of
    the plans as available set it is the graph [getExecutionOrder] rebuilds
    from the tasks [plansToStackPlans] yields. *)
Theorem buildDependencyGraph_well_formed plans availablePlanIds :
  NoDup (map plan_planId plans) →
  (∀ x, x ∈ availablePlanIds → x ∈ map plan_planId plans) →
  wf_graph (buildDependencyGraph plans availablePlanIds) ∧
  JsMap.keys (buildDependencyGraph plans availablePlanIds) = map plan_planId plans ∧
  (∀ p, p ∈ plans →
     deps (buildDependencyGraph plans availablePlanIds) (plan_planId p)
     = filter (fun refId => refId ∈ availablePlanIds) (plan_references p)) ∧
  stack_graph (plansToStackPlans plans)
  = buildDependencyGraph plans (list_to_set (map plan_planId plans)).
Proof.
  intros Hnd Hsub.
  assert (wf_stackPlans (map (resolved_plan availablePlanIds) plans)) as Hwf.
  { split.
    - by rewrite resolved_ids.
    - intros sp d (p & -> & Hp)%list_elem_of_fmap Hd. rewrite resolved_ids.
      simpl in Hd. apply list_elem_of_filter in Hd as [Hd _]. by apply Hsub. }
  rewrite buildDependencyGraph_stack_graph by done. split_and!.
  - by apply stack_graph_wf.
  - rewrite stack_graph_keys by done. apply resolved_ids.
  - intros p Hp.
    change (plan_planId p) with (sp_planId (resolved_plan availablePlanIds p)).
    rewrite (stack_graph_deps _ Hwf (resolved_plan availablePlanIds p)); [done|].
    apply list_elem_of_fmap. by exists p.
  - rewrite plansToStackPlans_resolved by done.
    by rewrite buildDependencyGraph_stack_graph.
Qed.

Lemma buildDependencyGraph_well_formed_witness :
  wf_graph (buildDependencyGraph ghost_plans (list_to_set (map plan_planId ghost_plans))).
Proof.
  apply (buildDependencyGraph_well_formed ghost_plans
           (list_to_set (map plan_planId ghost_plans))).
  - by_evaluation.
  - intros x Hx. by apply elem_of_list_to_set in Hx.
Defined.

(** ** Resolving references against the plans directory *)

Lemma sum_list_with_submseteq {A} (f : A → nat) (l1 l2 : list A) :
  l1 ⊆+ l2 → sum_list_with f l1 ≤ sum_list_with f l2.
Proof.
  induction 1 as [|x l1 l2 _ IH|x y l|x l1 l2 _ IH|l1 l2 l3 _ IH1 _ IH2]; simpl; lia.
Qed.

Lemma unread_refs_le dir allPlanIds :
  unread_refs dir allPlanIds
  ≤ sum_list_with (fun e => length (file_references e.2))
      (map_to_list (dir_files dir)).
Proof.
  unfold unread_refs. apply sum_list_with_submseteq, map_to_list_submseteq.
  apply map_filter_subseteq.
Qed.

Lemma unread_refs_step (dir : PlanDir) allPlanIds k file :
  dir_files dir !! k = Some file → k ∉ allPlanIds →
  unread_refs dir allPlanIds
  = length (file_references file) + unread_refs dir ({[k]} ∪ allPlanIds).
Proof.
  intros Hk Hn. unfold unread_refs.
  assert (filter (fun e : string * PlanFile => e.1 ∉ {[k]} ∪ allPlanIds) (dir_files dir)
          = delete k (filter (fun e : string * PlanFile => e.1 ∉ allPlanIds)
                        (dir_files dir))) as ->.
  { apply map_eq. intros i. destruct (decide (i = k)) as [->|Hne].
    - rewrite lookup_delete_eq. apply map_lookup_filter_None. right.
      intros x _. simpl. set_solver.
    - rewrite lookup_delete_ne by done.
      destruct (dir_files dir !! i) as [x|] eqn:Hi.
      + destruct (decide (i ∈ allPlanIds)).
        * rewrite !(proj2 (map_lookup_filter_None _ _ _)); [done|right|right];
            intros y _; simpl; set_solver.
        * rewrite !(map_lookup_filter_Some_2 _ _ _ x); [done|done|simpl|done|simpl];
            set_solver.
      + rewrite !(proj2 (map_lookup_filter_None _ _ _)); [done|by left|by left]. }
  rewrite <- (map_to_list_delete
               (filter (fun e : string * PlanFile => e.1 ∉ allPlanIds) (dir_files dir))
               k file).
  - done.
  - by apply map_lookup_filter_Some_2.
Qed.

(** A plan loaded by a plain id is the file of that name, and carries the
    id. *)
Lemma loadPlanById_plain dir planId plan :
  plain planId → loadPlanById dir planId = Some plan →
  ∃ file, dir_files dir !! planId = Some file ∧ plan = parsed planId file.
Proof.
  intros Hplain. unfold loadPlanById. rewrite decide_True by done.
  destruct (dir_files dir !! planId) as [file|]; [|done].
  intros [= <-]. by exists file.
Qed.

Lemma loadPlanById_id dir planId plan :
  plain planId → loadPlanById dir planId = Some plan → plan_planId plan = planId.
Proof.
  intros Hplain Hload.
  by destruct (loadPlanById_plain dir planId plan Hplain Hload) as (file & _ & ->).
Qed.

Lemma loadPlanById_references dir planId plan r :
  plain_references dir → plain planId → loadPlanById dir planId = Some plan →
  r ∈ plan_references plan → r = "" ∨ plain r.
Proof.
  intros Hrefs Hplain Hload Hr.
  destruct (loadPlanById_plain dir planId plan Hplain Hload) as (file & Hfile & ->).
  by apply (Hrefs planId file r).
Qed.

Lemma resolve_loop_total dir fuel allPlanIds allPlans toResolve :
  plain_references dir →
  (∀ r, r ∈ toResolve → r = "" ∨ plain r) →
  length toResolve + unread_refs dir allPlanIds ≤ fuel →
  is_Some (resolve_loop dir fuel allPlanIds allPlans toResolve).
Proof.
  intros Hrefs. revert allPlanIds allPlans toResolve.
  induction fuel as [|fuel IH]; intros ids allPlans [|refId rest] Hplain Hfuel;
    cbn [resolve_loop length] in *; try done; [lia|].
  assert (∀ r, r ∈ rest → r = "" ∨ plain r) as Hrest
    by (intros r Hr; apply Hplain; by right).
  case_decide as Hskip; [apply IH; [done|lia]|].
  destruct (loadPlanById dir refId) as [refPlan|] eqn:Hload; [|apply IH; [done|lia]].
  assert (plain refId) as Hp.
  { destruct (Hplain refId) as [->|?]; [left| |done]. destruct Hskip. by left. }
  destruct (loadPlanById_plain dir refId refPlan Hp Hload) as (file & Hfile & ->).
  cbn [parsed plan_planId plan_references]. apply IH.
  - intros r [Hr|Hr]%elem_of_app; [|by apply Hrest].
    rewrite elem_of_reverse in Hr. by apply (Hrefs refId file r).
  - rewrite (unread_refs_step dir ids refId file) in Hfuel by tauto.
    rewrite length_app, length_reverse. lia.
Qed.

Lemma resolve_loop_spec dir fuel allPlanIds allPlans toResolve result :
  plain_references dir →
  resolve_loop dir fuel allPlanIds allPlans toResolve = Some result →
  (∀ r, r ∈ toResolve → r = "" ∨ plain r) →
  (∀ x, x ∈ allPlanIds ↔ x ∈ map plan_planId allPlans) →
  NoDup (map plan_planId allPlans) →
  (∀ r, r ∈ toResolve → ∃ p, p ∈ allPlans ∧ r ∈ plan_references p) →
  (∀ p r, p ∈ allPlans → r ∈ plan_references p →
          r ∈ toResolve ∨ r = "" ∨ r ∈ allPlanIds ∨ loadPlanById dir r = None) →
  ∃ added,
    result = allPlans ++ added ∧
    NoDup (map plan_planId result) ∧
    (∀ q, q ∈ added →
          plain (plan_planId q) ∧
          loadPlanById dir (plan_planId q) = Some q ∧
          ∃ p, p ∈ result ∧ plan_planId q ∈ plan_references p) ∧
    (∀ p r, p ∈ result → r ∈ plan_references p →
            r = "" ∨ r ∈ map plan_planId result ∨ loadPlanById dir r = None).
Proof.
  intros Hrefs. revert allPlanIds allPlans toResolve.
  induction fuel as [|fuel IH];
    intros ids allPlans [|refId rest] Hres Hplain Hids Hnd Hwhy Hpend;
    cbn [resolve_loop] in Hres; try done.
  - injection Hres as <-. exists []. rewrite app_nil_r. split_and!; [done|done| |].
    + by intros q ?%elem_of_nil.
    + intros p r Hp Hr. destruct (Hpend p r Hp Hr) as [?%elem_of_nil|[?|[?|?]]];
        [done|by left|right; left; by apply Hids|by right; right].
  - injection Hres as <-. exists []. rewrite app_nil_r. split_and!; [done|done| |].
    + by intros q ?%elem_of_nil.
    + intros p r Hp Hr. destruct (Hpend p r Hp Hr) as [?%elem_of_nil|[?|[?|?]]];
        [done|by left|right; left; by apply Hids|by right; right].
  - assert (∀ r, r ∈ rest → r = "" ∨ plain r) as Hrest
      by (intros r Hr; apply Hplain; by right).
    case_decide as Hskip.
    { apply (IH ids allPlans rest Hres Hrest Hids Hnd).
      - intros r Hr. apply Hwhy. by right.
      - intros p r Hp Hr.
        destruct (Hpend p r Hp Hr) as [[->|?]%elem_of_cons|?]; [|by left|by right].
        right. destruct Hskip; [by left|by right; left]. }
    destruct (loadPlanById dir refId) as [refPlan|] eqn:Hload.
    2:{ apply (IH ids allPlans rest Hres Hrest Hids Hnd).
        - intros r Hr. apply Hwhy. by right.
        - intros p r Hp Hr.
          destruct (Hpend p r Hp Hr) as [[->|?]%elem_of_cons|?]; [|by left|by right].
          by right; right; right. }
    assert (plain refId) as Hp.
    { destruct (Hplain refId) as [->|?]; [left| |done]. destruct Hskip. by left. }
    pose proof (loadPlanById_id dir refId refPlan Hp Hload) as Hid.
    destruct (IH _ _ _ Hres) as (added & -> & Hnd' & Hadded & Hclosed).
    + intros r [Hr|Hr]%elem_of_app; [|by apply Hrest].
      rewrite elem_of_reverse in Hr.
      by apply (loadPlanById_references dir refId refPlan).
    + intros x. rewrite map_app, elem_of_app, elem_of_union, Hids. simpl.
      rewrite list_elem_of_singleton, elem_of_singleton. tauto.
    + rewrite map_app. simpl. apply NoDup_app. split_and!; [done| |apply NoDup_singleton].
      intros x Hx ->%list_elem_of_singleton. apply Hskip. right.
      apply Hids. by rewrite Hid in Hx.
    + intros r [Hr|Hr]%elem_of_app.
      * exists refPlan. split; [set_solver|].
        by rewrite elem_of_reverse in Hr.
      * destruct (Hwhy r) as (p & Hp' & Hrp); [by right|].
        exists p. split; [set_solver|done].
    + intros p r [Hp'|Hp']%elem_of_app Hr;
        [|apply list_elem_of_singleton in Hp'; subst p].
      * destruct (Hpend p r Hp' Hr) as [[->|?]%elem_of_cons|[?|[?|?]]].
        -- right; right; left. rewrite Hid. set_solver.
        -- left. apply elem_of_app. by right.
        -- by right; left.
        -- right; right; left. set_solver.
        -- by right; right; right.
      * left. rewrite elem_of_app, elem_of_reverse. by left.
    + exists (refPlan :: added). rewrite <- app_assoc in *. simpl in *.
      split_and!; [done|done| |done].
      intros q [->|Hq]%elem_of_cons; [|by apply Hadded].
      split; [by rewrite Hid|]. split; [by rewrite Hid|].
      destruct (Hwhy refId) as (p & Hp' & Hrp); [left|].
      exists p. split; [set_solver|by rewrite Hid].
Qed.

(** The loop of [resolveAllDependencies] runs to its end within its bound,
    and what it returns. *)
Lemma resolveAllDependencies_spec dir plans :
  plain_references dir →
  (∀ p r, p ∈ plans → r ∈ plan_references p → r = "" ∨ plain r) →
  NoDup (map plan_planId plans) →
  ∃ added,
    resolveAllDependencies dir plans = Some (plans ++ added) ∧
    NoDup (map plan_planId (plans ++ added)) ∧
    (∀ q, q ∈ added →
          plain (plan_planId q) ∧
          loadPlanById dir (plan_planId q) = Some q ∧
          ∃ p, p ∈ plans ++ added ∧ plan_planId q ∈ plan_references p) ∧
    (∀ p r, p ∈ plans ++ added → r ∈ plan_references p →
            r = "" ∨ r ∈ map plan_planId (plans ++ added) ∨
            loadPlanById dir r = None).
Proof.
  intros Hrefs Hplans Hnd. unfold resolveAllDependencies.
  assert (∀ r, r ∈ reverse (concat (map plan_references plans)) →
               ∃ p, p ∈ plans ∧ r ∈ plan_references p) as Hwhy.
  { intros r Hr. rewrite elem_of_reverse in Hr.
    apply list_elem_of_In, in_concat in Hr as (l & Hl & Hr).
    apply in_map_iff in Hl as (p & <- & Hp).
    exists p. split; by apply list_elem_of_In. }
  assert (∀ r, r ∈ reverse (concat (map plan_references plans)) →
               r = "" ∨ plain r) as Hplain.
  { intros r Hr. destruct (Hwhy r Hr) as (p & Hp & Hrp). by apply (Hplans p). }
  destruct (resolve_loop_total dir (resolve_fuel dir plans)
              (list_to_set (map plan_planId plans)) plans
              (reverse (concat (map plan_references plans))) Hrefs Hplain)
    as [result Hres].
  { unfold resolve_fuel. rewrite length_reverse.
    pose proof (unread_refs_le dir (list_to_set (map plan_planId plans))). lia. }
  destruct (resolve_loop_spec _ _ _ _ _ _ Hrefs Hres Hplain)
    as (added & -> & H1 & H2 & H3).
  - intros x. apply elem_of_list_to_set.
  - done.
  - done.
  - intros p r Hp Hr. left. rewrite elem_of_reverse. apply list_elem_of_In, in_concat.
    exists (plan_references p). split; [|by apply list_elem_of_In].
    apply in_map, list_elem_of_In, Hp.
  - exists added. by rewrite Hres.
Qed.

(** X18: when no plan file references a plan through a path (every
    reference of a file of the directory and of the given plans is empty
    or a plain name), [resolveAllDependencies] terminates on plans with
    distinct ids.  It returns the given plans followed by plans it loaded
    by their ids, all with distinct ids; every plan it adds is referenced
    by a plan of the result; and the result is closed: a non-empty
    reference of a plan of the result names a plan of the result, unless
    no plan of that name can be loaded. *)
Theorem resolveAllDependencies_closure dir plans :
  plain_references dir →
  (∀ p r, p ∈ plans → r ∈ plan_references p → r = "" ∨ plain r) →
  NoDup (map plan_planId plans) →
  ∃ added,
    resolveAllDependencies dir plans = Some (plans ++ added) ∧
    NoDup (map plan_planId (plans ++ added)) ∧
    (∀ q, q ∈ added →
          loadPlanById dir (plan_planId q) = Some q ∧
          ∃ p, p ∈ plans ++ added ∧ plan_planId q ∈ plan_references p) ∧
    (∀ p r, p ∈ plans ++ added → r ∈ plan_references p →
            r = "" ∨ r ∈ map plan_planId (plans ++ added) ∨
            loadPlanById dir r = None).
Proof.
  intros Hrefs Hplans Hnd.
  destruct (resolveAllDependencies_spec dir plans Hrefs Hplans Hnd)
    as (added & Hres & Hnd' & Hadded & Hclosed).
  exists added. split; [exact Hres|]. split; [exact Hnd'|].
  split; [|exact Hclosed].
  intros q Hq. by destruct (Hadded q Hq) as (_ & Hload & Hwhy).
Qed.

Lemma plain_references_check_sound dir :
  plain_references_check dir = true → plain_references dir.
Proof.
  intros H%bool_decide_eq_true name file r Hfile Hr.
  rewrite Forall_forall in H.
  pose proof (H (name, file) (proj2 (elem_of_map_to_list _ _ _) Hfile)) as Hall.
  rewrite Forall_forall in Hall. by apply Hall.
Qed.

Lemma resolveAllDependencies_closure_witness :
  ∃ added,
    resolveAllDependencies sample_dir [mkPlan "P" ["Q"; "ghost"]]
    = Some ([mkPlan "P" ["Q"; "ghost"]] ++ added) ∧
    NoDup (map plan_planId ([mkPlan "P" ["Q"; "ghost"]] ++ added)) ∧
    (∀ q, q ∈ added →
          loadPlanById sample_dir (plan_planId q) = Some q ∧
          ∃ p, p ∈ [mkPlan "P" ["Q"; "ghost"]] ++ added ∧
               plan_planId q ∈ plan_references p) ∧
    (∀ p r, p ∈ [mkPlan "P" ["Q"; "ghost"]] ++ added → r ∈ plan_references p →
            r = "" ∨ r ∈ map plan_planId ([mkPlan "P" ["Q"; "ghost"]] ++ added) ∨
            loadPlanById sample_dir r = None).
Proof.
  apply (resolveAllDependencies_closure sample_dir [mkPlan "P" ["Q"; "ghost"]]).
  - apply plain_references_check_sound. vm_compute. reflexivity.
  - intros p r ->%list_elem_of_singleton Hr. right.
    cbn [mkPlan plan_references] in Hr.
    apply elem_of_cons in Hr as [->|Hr]; [by_evaluation|].
    apply list_elem_of_singleton in Hr as ->. by_evaluation.
  - by_evaluation.
Defined.

Example resolveAllDependencies_sample :
  resolveAllDependencies sample_dir [mkPlan "P" ["Q"; "ghost"]]
  = Some [mkPlan "P" ["Q"; "ghost"]; mkPlan "Q" ["P"; "R"]; mkPlan "R" []].
Proof. vm_compute. reflexivity. Qed.

(** A plan file that references itself through a path: the plan loaded by
    [./P] carries the id [P], so the reference is never in the set of the
    ids seen, and the loop of [resolveAllDependencies] loads the plan
    again and again; no bound is enough. *)
Example resolve_loop_path_reference :
  let dir := {| dir_files := {[ "P" := mkFile "P" ["./P"] ]};
                dir_by_path := fun path =>
                  if decide (path = "./P") then Some (mkPlan "P" ["./P"])
                  else None |} in
  ∀ fuel allPlans, resolve_loop dir fuel {[ "P" ]} allPlans ["./P"] = None.
Proof.
  intros dir fuel. induction fuel as [|fuel IH]; intros allPlans; [done|].
  cbn [resolve_loop]. rewrite decide_False.
  2:{ intros [?|Hin]; [done|]. by apply elem_of_singleton in Hin. }
  assert (loadPlanById dir "./P" = Some (mkPlan "P" ["./P"])) as ->
    by (by vm_compute).
  cbn [mkPlan plan_planId plan_references reverse rev_append app].
  replace ({[ "P" ]} ∪ {[ "P" ]} : gset string) with ({[ "P" ]} : gset string)
    by set_solver.
  apply IH.
Qed.

(** ** Creating a stack *)

Lemma omap_loadPlanById dir planIds :
  (∀ id, id ∈ planIds → plain id) →
  map plan_planId (omap (loadPlanById dir) planIds)
  = filter (fun id => is_Some (loadPlanById dir id)) planIds ∧
  (∀ p, p ∈ omap (loadPlanById dir) planIds →
        plain (plan_planId p) ∧ loadPlanById dir (plan_planId p) = Some p).
Proof.
  intros Hplain. split.
  - induction planIds as [|id l IH]; [done|].
    change (omap (loadPlanById dir) (id :: l))
      with (match loadPlanById dir id with
            | Some y => y :: omap (loadPlanById dir) l
            | None => omap (loadPlanById dir) l
            end).
    assert (∀ id', id' ∈ l → plain id') as Hl by (intros ? ?; apply Hplain; by right).
    rewrite filter_cons. destruct (loadPlanById dir id) as [p|] eqn:Hp.
    + rewrite decide_True by done. cbn [map]. rewrite (IH Hl).
      rewrite (loadPlanById_id dir id p); [done| |done]. apply Hplain. left.
    + rewrite decide_False by (by intros [? ?]). by apply IH.
  - intros p (id & Hid & Hp)%list_elem_of_omap.
    rewrite (loadPlanById_id dir id p (Hplain id Hid) Hp). by split; [apply Hplain|].
Qed.

Lemma createStack_spec env dir stackName stackDescription planIds auto w :
  plain_references dir → (∀ id, id ∈ planIds → plain id) → NoDup planIds →
  (∃ id, id ∈ planIds ∧ is_Some (loadPlanById dir id)) →
  ∃ finalPlans rest,
    createStack env dir stackName stackDescription planIds auto w
    = Some (inr (createStack_save env stackName stackDescription
                   (filter (fun id => is_Some (loadPlanById dir id)) planIds)
                   finalPlans w)) ∧
    map plan_planId finalPlans
    = filter (fun id => is_Some (loadPlanById dir id)) planIds ++ rest ∧
    NoDup (map plan_planId finalPlans) ∧
    (∀ p, p ∈ finalPlans → loadPlanById dir (plan_planId p) = Some p) ∧
    (if auto
     then ∀ p r, p ∈ finalPlans → r ∈ plan_references p →
                 r = "" ∨ r ∈ map plan_planId finalPlans ∨ loadPlanById dir r = None
     else rest = []).
Proof.
  intros Hrefs Hplain Hnd (id & Hid & Hres). unfold createStack.
  destruct (omap_loadPlanById dir planIds Hplain) as [Hids Hfrom].
  assert (id ∈ filter (fun id => is_Some (loadPlanById dir id)) planIds) as Hin
    by (by apply list_elem_of_filter).
  rewrite decide_False.
  2:{ intros Hlen. rewrite <- Hids in Hin. apply length_zero_iff_nil in Hlen.
      rewrite Hlen in Hin. by apply elem_of_nil in Hin. }
  rewrite Hids.
  assert (NoDup (map plan_planId (omap (loadPlanById dir) planIds))) as Hnd'.
  { rewrite Hids. by apply NoDup_filter. }
  destruct auto.
  - assert (∀ p r, p ∈ omap (loadPlanById dir) planIds → r ∈ plan_references p →
                   r = "" ∨ plain r) as Hgiven.
    { intros p r Hp Hr. destruct (Hfrom p Hp) as [Hpl Hload].
      by apply (loadPlanById_references dir (plan_planId p) p). }
    destruct (resolveAllDependencies_spec dir _ Hrefs Hgiven Hnd')
      as (added & -> & Hnd2 & Hadded & Hclosed).
    exists (omap (loadPlanById dir) planIds ++ added), (map plan_planId added).
    split_and!; [done| |done| |done].
    + by rewrite map_app, Hids.
    + intros p [Hp|Hp]%elem_of_app; [by apply Hfrom|by apply Hadded].
  - exists (omap (loadPlanById dir) planIds), []. rewrite app_nil_r.
    split_and!; [done..| |done]. intros p Hp. by apply Hfrom.
Qed.

(** X19: [createStack] throws, writing nothing, when none of the requested
    ids names a plan that can be loaded.  Otherwise, when the ids are
    requested once and are plain names, and no plan file references a plan
    through a path, it saves and returns a stack of that name whose tasks
    have distinct ids, are all pending and start with the requested plans
    that exist, and whose dependencies stay inside the stack; the
    dependencies of a task are the references of its plan that are tasks
    of the stack.  With [autoResolveDependencies] every non-empty
    reference to an existing plan is such a dependency; without it the
    tasks are just the requested plans. *)
Theorem createStack_creates env dir stackName stackDescription planIds auto w :
  plain_references dir → (∀ id, id ∈ planIds → plain id) → NoDup planIds →
  ((∀ id, id ∈ planIds → loadPlanById dir id = None) →
   createStack env dir stackName stackDescription planIds auto w
   = Some (inl "No valid plans found for the specified plan IDs.")) ∧
  ((∃ id, id ∈ planIds ∧ is_Some (loadPlanById dir id)) →
   ∃ w' stack rest,
     createStack env dir stackName stackDescription planIds auto w
     = Some (inr (w', stack)) ∧
     loadStack stackName w' = Some stack ∧
     statusFiles w' = statusFiles w ∧
     stk_stackName stack = stackName ∧
     stk_stackDescription stack = stackDescription ∧
     wf_stackPlans (stk_plans stack) ∧
     plan_ids (stk_plans stack)
     = filter (fun id => is_Some (loadPlanById dir id)) planIds ++ rest ∧
     (∀ sp, sp ∈ stk_plans stack →
        sp_executionStatus sp = pending ∧ sp_lastExecutedAt sp = None ∧
        ∃ plan, loadPlanById dir (sp_planId sp) = Some plan ∧
                sp_dependsOnPlanIds sp
                = filter (fun r => r ∈ plan_ids (stk_plans stack))
                         (plan_references plan) ∧
                (auto = true →
                 ∀ r, r ∈ plan_references plan → r ≠ "" →
                      is_Some (loadPlanById dir r) →
                      r ∈ sp_dependsOnPlanIds sp)) ∧
     (auto = false → rest = [])).
Proof.
  intros Hrefs Hplain Hnd. split.
  - intros Hnone. unfold createStack.
    assert (omap (loadPlanById dir) planIds = []) as ->; [|done].
    apply elem_of_nil_inv. intros p (id & Hid & Hp)%list_elem_of_omap.
    by rewrite (Hnone id Hid) in Hp.
  - intros Hsome.
    destruct (createStack_spec env dir stackName stackDescription planIds auto w
                Hrefs Hplain Hnd Hsome)
      as (finalPlans & rest & -> & Hids & Hnd' & Hfrom & Hauto).
    pose proof (plansToStackPlans_eq finalPlans Hnd') as Htasks.
    pose proof (plansToStackPlans_wf finalPlans Hnd') as Hwf.
    assert (plan_ids (plansToStackPlans finalPlans) = map plan_planId finalPlans) as Hpid.
    { rewrite Htasks. unfold plan_ids. rewrite map_map. by apply map_ext. }
    eexists _, _, rest. split; [done|]. unfold createStack_save. cbn [fst snd].
    split; [apply lookup_insert_eq|]. cbn [stk_plans stk_stackName stk_stackDescription].
    split_and!; try done.
    + by rewrite Hpid.
    + intros sp Hsp. rewrite Htasks in Hsp.
      apply list_elem_of_fmap in Hsp as (p & -> & Hp). cbn.
      split_and!; [done|done|]. exists p. split; [by apply Hfrom|].
      rewrite Hpid. split; [done|].
      intros -> r Hr Hne Hex. apply list_elem_of_filter. split; [|done].
      destruct (Hauto p r Hp Hr) as [?|[?|Hn]]; [done|done|].
      rewrite Hn in Hex. by destruct Hex.
    + intros ->. done.
Qed.

Lemma createStack_creates_witness :
  ∃ w' stack rest,
    createStack env_all_pass sample_dir "s" None ["P"; "nope"] true fresh_world
    = Some (inr (w', stack)) ∧
    loadStack "s" w' = Some stack ∧
    wf_stackPlans (stk_plans stack) ∧
    plan_ids (stk_plans stack)
    = filter (fun id => is_Some (loadPlanById sample_dir id)) ["P"; "nope"] ++ rest.
Proof.
  destruct (createStack_creates env_all_pass sample_dir "s" None ["P"; "nope"] true
              fresh_world) as [_ Hok].
  - apply plain_references_check_sound. vm_compute. reflexivity.
  - intros id Hid. apply elem_of_cons in Hid as [->|Hid]; [by_evaluation|].
    apply list_elem_of_singleton in Hid as ->. by_evaluation.
  - by_evaluation.
  - destruct Hok as (w' & stack & rest & H1 & H2 & _ & _ & _ & H3 & H4 & _).
    + exists "P". split; [left|]. vm_compute. by eexists.
    + exists w', stack, rest. by split_and!.
Defined.

Example createStack_sample :
  (λ r, match r with
        | Some (inr (_, stack)) => Some (stk_plans stack, stk_rootPlanIds stack)
        | _ => None
        end)
    (createStack env_all_pass sample_dir "s" None ["P"; "nope"] true fresh_world)
  = Some ([mkSP "P" ["Q"]; mkSP "Q" ["P"; "R"]; mkSP "R" []], ["R"]).
Proof. vm_compute. reflexivity. Qed.

(** X20: [createStackFromPlan] throws, writing nothing, when the plan
    cannot be loaded.  Otherwise, when the id is a plain name and no plan
    file references a plan through a path, it creates a stack named after
    the plan, unless a name is given, with a description that names the
    plan, unless one is given; the plan is the first task of the stack,
    and the tasks have distinct ids and dependencies inside the stack. *)
Theorem createStackFromPlan_creates env dir planId stackName stackDescription w :
  plain_references dir → plain planId →
  match loadPlanById dir planId with
  | None =>
      createStackFromPlan env dir planId stackName stackDescription w
      = Some (inl ("Plan '" +:+ planId +:+ "' not found."))
  | Some plan =>
      ∃ w' stack rest,
        createStackFromPlan env dir planId stackName stackDescription w
        = Some (inr (w', stack)) ∧
        loadStack (default planId stackName) w' = Some stack ∧
        stk_stackName stack = default planId stackName ∧
        stk_stackDescription stack
        = Some (default ("Stack created from " +:+ planId) stackDescription) ∧
        plan_ids (stk_plans stack) = planId :: rest ∧
        stk_rootPlanIds stack ≠ [] ∧
        wf_stackPlans (stk_plans stack)
  end.
Proof.
  intros Hrefs Hplain. unfold createStackFromPlan.
  destruct (loadPlanById dir planId) as [plan|] eqn:Hplan; [|done].
  destruct (createStack_spec env dir (default planId stackName)
              (Some (default ("Stack created from " +:+ planId) stackDescription))
              [planId] true w Hrefs)
    as (finalPlans & rest & -> & Hids & Hnd & Hfrom & _).
  { by intros id ->%list_elem_of_singleton. }
  { apply NoDup_singleton. }
  { exists planId. split; [left|by rewrite Hplan]. }
  rewrite filter_cons, decide_True, filter_nil in * by (by rewrite Hplan).
  pose proof (plansToStackPlans_eq finalPlans Hnd) as Htasks.
  pose proof (plansToStackPlans_wf finalPlans Hnd) as Hwf.
  eexists _, _, rest. split; [done|]. unfold createStack_save. cbn [fst snd].
  split; [apply lookup_insert_eq|].
  cbn [stk_plans stk_stackName stk_stackDescription stk_rootPlanIds].
  split_and!; try done.
  - rewrite Htasks. unfold plan_ids. rewrite map_map.
    by rewrite (map_ext _ plan_planId).
  - case_decide as Hlen; [|done].
    intros Hnil. rewrite Hnil in Hlen. simpl in Hlen. lia.
Qed.

Lemma createStackFromPlan_creates_witness :
  ∃ w' stack rest,
    createStackFromPlan env_all_pass sample_dir "Q" None None fresh_world
    = Some (inr (w', stack)) ∧
    loadStack "Q" w' = Some stack ∧
    plan_ids (stk_plans stack) = "Q" :: rest.
Proof.
  pose proof (createStackFromPlan_creates env_all_pass sample_dir "Q" None None
                fresh_world) as H.
  assert (loadPlanById sample_dir "Q" = Some (mkPlan "Q" ["P"; "R"])) as Hq
    by (vm_compute; reflexivity).
  rewrite Hq in H.
  destruct H as (w' & stack & rest & H1 & H2 & _ & _ & H3 & _).
  - apply plain_references_check_sound. vm_compute. reflexivity.
  - by_evaluation.
  - exists w', stack, rest. by split_and!.
Defined.

(** ** Removing plans from a stack *)

Lemma tc_mono {A} (R S : relation A) x y :
  (∀ a b, R a b → S a b) → tc R x y → tc S x y.
Proof.
  intros H Ht. induction Ht as [a b Hab|a b c Hab _ IH].
  - apply tc_once. by apply H.
  - eapply tc_l; [by apply H|done].
Qed.

(** X21: [removePlansFromStack] throws, writing nothing, when the stack is
    not stored or when no task would remain.  Otherwise it rewrites the
    stack record: the removed ids are no longer tasks nor dependencies of
    any task; the remaining tasks keep their order, their execution fields
    and their other dependencies; a stack with distinct ids and
    dependencies inside the stack stays so; and a stack without cycle
    stays without cycle. *)
Theorem removePlansFromStack_removes env dir stackName planIds w :
  match loadStack stackName w with
  | None => removePlansFromStack env dir stackName planIds w = inl (not_found stackName)
  | Some stack =>
      ((∀ sp, sp ∈ stk_plans stack → sp_planId sp ∈ planIds) →
       removePlansFromStack env dir stackName planIds w
       = inl "Cannot remove all plans from a stack.") ∧
      ((∃ sp, sp ∈ stk_plans stack ∧ sp_planId sp ∉ planIds) →
       ∃ w' stack',
         removePlansFromStack env dir stackName planIds w = inr (w', stack') ∧
         loadStack (stk_stackName stack) w' = Some stack' ∧
         statusFiles w' = statusFiles w ∧
         stk_stackName stack' = stk_stackName stack ∧
         plan_ids (stk_plans stack')
         = filter (fun id => id ∉ planIds) (plan_ids (stk_plans stack)) ∧
         (∀ sp', sp' ∈ stk_plans stack' →
            ∃ sp, sp ∈ stk_plans stack ∧ sp_planId sp' = sp_planId sp ∧
                  sp_executionStatus sp' = sp_executionStatus sp ∧
                  sp_lastExecutedAt sp' = sp_lastExecutedAt sp ∧
                  sp_executionDurationMs sp' = sp_executionDurationMs sp ∧
                  sp_dependsOnPlanIds sp'
                  = filter (fun d => d ∉ planIds) (sp_dependsOnPlanIds sp)) ∧
         (∀ x, x ∈ planIds →
            (x ∉ plan_ids (stk_plans stack')) ∧
            ∀ sp', sp' ∈ stk_plans stack' → x ∉ sp_dependsOnPlanIds sp') ∧
         (wf_stackPlans (stk_plans stack) → wf_stackPlans (stk_plans stack')) ∧
         (wf_stackPlans (stk_plans stack) →
          hasCycle (getExecutionOrder (stk_plans stack)) = false →
          hasCycle (getExecutionOrder (stk_plans stack')) = false))
  end.
Proof.
  unfold removePlansFromStack.
  destruct (loadStack stackName w) as [stack|]; [|done].
  set (remaining := filter (fun p => sp_planId p ∉ (list_to_set planIds : gset string))
                      (stk_plans stack)).
  assert (plan_ids (map (drop_removed (list_to_set planIds)) remaining)
          = filter (fun id => id ∉ planIds) (plan_ids (stk_plans stack))) as Hids.
  { unfold plan_ids. rewrite map_map. simpl. unfold remaining.
    induction (stk_plans stack) as [|sp l IH]; [done|].
    cbn [map]. rewrite !filter_cons.
    destruct (decide (sp_planId sp ∉ (list_to_set planIds : gset string))) as [H1|H1],
      (decide (sp_planId sp ∉ planIds)) as [H2|H2]; cbn [map]; rewrite ?IH; try done;
      exfalso.
    - apply H2. intros Hin. by apply H1, elem_of_list_to_set.
    - apply H1. by intros Hin%elem_of_list_to_set. }
  assert (∀ sp, sp ∈ remaining ↔ sp ∈ stk_plans stack ∧ sp_planId sp ∉ planIds) as Hrem.
  { intros sp. unfold remaining.
    rewrite list_elem_of_filter, elem_of_list_to_set. tauto. }
  assert (∀ sp', sp' ∈ map (drop_removed (list_to_set planIds)) remaining →
            ∃ sp, sp ∈ stk_plans stack ∧ (sp_planId sp ∉ planIds) ∧
                  sp' = drop_removed (list_to_set planIds) sp) as Hinv.
  { intros sp' (sp & -> & Hsp)%list_elem_of_fmap. exists sp.
    apply Hrem in Hsp as [? ?]. done. }
  assert (∀ sp (d : string),
            d ∈ sp_dependsOnPlanIds (drop_removed (list_to_set planIds) sp) ↔
            d ∈ sp_dependsOnPlanIds sp ∧ d ∉ planIds) as Hdeps.
  { intros sp d. simpl. rewrite list_elem_of_filter, elem_of_list_to_set. tauto. }
  split.
  - intros Hall. rewrite decide_True; [done|].
    apply length_zero_iff_nil, elem_of_nil_inv. intros sp [Hsp Hn]%Hrem.
    by apply Hn, Hall.
  - intros (sp0 & Hsp0 & Hn0). rewrite decide_False.
    2:{ intros Hlen%length_zero_iff_nil.
        assert (sp0 ∈ remaining) as Hin by (by apply Hrem).
        rewrite Hlen in Hin. by apply elem_of_nil in Hin. }
    eexists _, _. split; [done|]. split; [apply lookup_insert_eq|].
    cbn [stk_plans stk_stackName].
    assert (wf_stackPlans (stk_plans stack) →
            wf_stackPlans (map (drop_removed (list_to_set planIds)) remaining)) as Hwf.
    { intros [Hw1 Hw2]. split.
      - rewrite Hids. by apply NoDup_filter.
      - intros sp' d Hsp' Hd. apply Hinv in Hsp' as (sp & Hsp & Hn & ->).
        apply Hdeps in Hd as [Hd Hdn]. rewrite Hids.
        apply list_elem_of_filter. split; [done|]. by apply (Hw2 sp). }
    split_and!; try done.
    + intros sp' Hsp'. apply Hinv in Hsp' as (sp & Hsp & Hn & ->).
      exists sp. split_and!; try done. simpl.
      apply filter_ext_in. intros d _. by rewrite elem_of_list_to_set.
    + intros x Hx. split.
      * rewrite Hids. by intros [? _]%list_elem_of_filter.
      * intros sp' Hsp' Hd. apply Hinv in Hsp' as (sp & Hsp & Hn & ->).
        by apply Hdeps in Hd as [_ ?].
    + intros Hw Hc. pose proof (Hwf Hw) as Hw'.
      destruct (hasCycle (getExecutionOrder
                  (map (drop_removed (list_to_set planIds)) remaining))) eqn:Hc'; [|done].
      apply (getExecutionOrder_cycle_iff _ Hw') in Hc' as [t Ht].
      assert (hasCycle (getExecutionOrder (stk_plans stack)) = true) as Hc''.
      { apply (getExecutionOrder_cycle_iff _ Hw). exists t.
        eapply tc_mono; [|exact Ht].
        intros a b (sp' & Hsp' & <- & Hd).
        apply Hinv in Hsp' as (sp & Hsp & Hn & ->). apply Hdeps in Hd as [Hd _].
        by exists sp. }
      by rewrite Hc in Hc''.
Qed.

(** ** Adding plans to a stack *)

Lemma keep_execution_structure existingPlans sp :
  sp_planId (keep_execution existingPlans sp) = sp_planId sp ∧
  sp_dependsOnPlanIds (keep_execution existingPlans sp) = sp_dependsOnPlanIds sp.
Proof. unfold keep_execution. by destruct (find_plan _ _). Qed.

Lemma find_plan_None planId stackPlans :
  find_plan planId stackPlans = None ↔ planId ∉ plan_ids stackPlans.
Proof.
  induction stackPlans as [|sp l IH]; simpl.
  - split; [intros _ ?%elem_of_nil|]; done.
  - case_decide as Hid.
    + split; [done|]. intros Hn. destruct Hn. rewrite Hid. left.
    + rewrite IH. rewrite not_elem_of_cons. naive_solver.
Qed.

(** X22: [addPlansToStack] throws, writing nothing, when the stack is not
    stored, and returns the stack unchanged, writing nothing, when every
    requested id is already a task or names no plan that can be loaded.
    Otherwise, when no plan file references a plan through a path, the
    requested ids are plain names requested once and the tasks of the
    stack have distinct plain names as ids, it rewrites the stack record,
    keeping its name and creation time: the tasks are the old tasks whose
    plan still exists, then the new plans, then (with
    [autoResolveDependencies]) the plans they reference; a task that was
    in the stack keeps its execution fields, a new one is pending;
    dependencies are recomputed from the references of the plans and stay
    inside the stack. *)
Theorem addPlansToStack_adds env dir stackName planIds auto w :
  match loadStack stackName w with
  | None =>
      addPlansToStack env dir stackName planIds auto w
      = Some (inl (not_found stackName))
  | Some stack =>
      ((∀ id, id ∈ planIds →
          id ∈ plan_ids (stk_plans stack) ∨ loadPlanById dir id = None) →
       addPlansToStack env dir stackName planIds auto w = Some (inr (w, stack))) ∧
      (plain_references dir →
       (∀ id, id ∈ planIds → plain id) → NoDup planIds →
       (∀ id, id ∈ plan_ids (stk_plans stack) → plain id) →
       NoDup (plan_ids (stk_plans stack)) →
       (∃ id, id ∈ planIds ∧ (id ∉ plan_ids (stk_plans stack)) ∧
              is_Some (loadPlanById dir id)) →
       ∃ w' stack' rest,
         addPlansToStack env dir stackName planIds auto w = Some (inr (w', stack')) ∧
         loadStack (stk_stackName stack) w' = Some stack' ∧
         statusFiles w' = statusFiles w ∧
         stk_stackName stack' = stk_stackName stack ∧
         stk_createdAt stack' = stk_createdAt stack ∧
         wf_stackPlans (stk_plans stack') ∧
         plan_ids (stk_plans stack')
         = filter (fun id => is_Some (loadPlanById dir id)) (plan_ids (stk_plans stack))
           ++ filter (fun id => is_Some (loadPlanById dir id))
                (filter (fun id => id ∉ plan_ids (stk_plans stack)) planIds)
           ++ rest ∧
         (auto = false → rest = []) ∧
         (∀ sp', sp' ∈ stk_plans stack' →
            (∃ plan, loadPlanById dir (sp_planId sp') = Some plan ∧
                     sp_dependsOnPlanIds sp'
                     = filter (fun r => r ∈ plan_ids (stk_plans stack'))
                              (plan_references plan)) ∧
            match find_plan (sp_planId sp') (stk_plans stack) with
            | Some old =>
                sp_executionStatus sp' = sp_executionStatus old ∧
                sp_lastExecutedAt sp' = sp_lastExecutedAt old ∧
                sp_executionDurationMs sp' = sp_executionDurationMs old
            | None =>
                sp_executionStatus sp' = pending ∧ sp_lastExecutedAt sp' = None ∧
                sp_executionDurationMs sp' = None
            end))
  end.
Proof.
  unfold addPlansToStack.
  destruct (loadStack stackName w) as [stack|]; [|done].
  set (existing := list_to_set (map sp_planId (stk_plans stack)) : gset string).
  assert (filter (fun id => id ∉ existing) planIds
          = filter (fun id => id ∉ plan_ids (stk_plans stack)) planIds) as Hnew.
  { apply filter_ext_in. intros id _. subst existing.
    by rewrite elem_of_list_to_set. }
  rewrite Hnew. split.
  - intros Hall.
    destruct (decide (length (filter (fun id => id ∉ plan_ids (stk_plans stack))
                                planIds) = 0)) as [|_]; [done|].
    rewrite decide_True; [done|].
    apply length_zero_iff_nil, elem_of_nil_inv.
    intros p (id & [Hn Hid]%list_elem_of_filter & Hp)%list_elem_of_omap.
    destruct (Hall id Hid) as [?|Hnone]; [done|].
    by rewrite Hnone in Hp.
  - intros Hrefs Hplain Hnd Hplains Hnds (id & Hid & Hfresh & Hres).
    destruct (omap_loadPlanById dir
                (filter (fun id => id ∉ plan_ids (stk_plans stack)) planIds))
      as [Hnids Hnfrom].
    { intros id' [_ Hid']%list_elem_of_filter. by apply Hplain. }
    assert (id ∈ filter (fun id => is_Some (loadPlanById dir id))
                   (filter (fun id => id ∉ plan_ids (stk_plans stack)) planIds)) as Hin.
    { apply list_elem_of_filter. split; [done|]. by apply list_elem_of_filter. }
    rewrite decide_False.
    2:{ intros Hlen%length_zero_iff_nil.
        assert (id ∈ filter (fun id => id ∉ plan_ids (stk_plans stack)) planIds) as Hi
          by (by apply list_elem_of_filter).
        rewrite Hlen in Hi. by apply elem_of_nil in Hi. }
    rewrite decide_False.
    2:{ intros Hlen%length_zero_iff_nil. rewrite <- Hnids, Hlen in Hin.
        by apply elem_of_nil in Hin. }
    set (existingPlans := omap (fun sp => loadPlanById dir (sp_planId sp))
                            (stk_plans stack)).
    assert (existingPlans = omap (loadPlanById dir) (plan_ids (stk_plans stack))) as He.
    { subst existingPlans. unfold plan_ids. clear.
      induction (stk_plans stack) as [|sp l IH]; [done|].
      change (omap (fun sp => loadPlanById dir (sp_planId sp)) (sp :: l))
        with (match loadPlanById dir (sp_planId sp) with
              | Some y => y :: omap (fun sp => loadPlanById dir (sp_planId sp)) l
              | None => omap (fun sp => loadPlanById dir (sp_planId sp)) l
              end).
      change (omap (loadPlanById dir) (map sp_planId (sp :: l)))
        with (match loadPlanById dir (sp_planId sp) with
              | Some y => y :: omap (loadPlanById dir) (map sp_planId l)
              | None => omap (loadPlanById dir) (map sp_planId l)
              end).
      by rewrite IH. }
    destruct (omap_loadPlanById dir (plan_ids (stk_plans stack)) Hplains)
      as [Heids Hefrom].
    rewrite <- He in Heids, Hefrom.
    set (validNew := omap (loadPlanById dir)
                       (filter (fun id => id ∉ plan_ids (stk_plans stack)) planIds))
      in *.
    assert (NoDup (map plan_planId (existingPlans ++ validNew))) as Hnd0.
    { rewrite map_app, Heids, Hnids. apply NoDup_app. split_and!.
      - by apply NoDup_filter.
      - intros x [_ Hx]%list_elem_of_filter
               [_ [Hn _]%list_elem_of_filter]%list_elem_of_filter. done.
      - by do 2 apply NoDup_filter. }
    assert (∃ finalPlans rest,
              (if auto then resolveAllDependencies dir (existingPlans ++ validNew)
               else Some (existingPlans ++ validNew)) = Some finalPlans ∧
              map plan_planId finalPlans
              = map plan_planId (existingPlans ++ validNew) ++ rest ∧
              NoDup (map plan_planId finalPlans) ∧
              (∀ p, p ∈ finalPlans → loadPlanById dir (plan_planId p) = Some p) ∧
              (auto = false → rest = []))
      as (finalPlans & rest & -> & Hfids & Hfnd & Hffrom & Hrest).
    { destruct auto.
      - assert (∀ p r, p ∈ existingPlans ++ validNew → r ∈ plan_references p →
                       r = "" ∨ plain r) as Hgiven.
        { intros p r Hp Hr.
          assert (plain (plan_planId p) ∧ loadPlanById dir (plan_planId p) = Some p)
            as [Hpl Hload].
          { apply elem_of_app in Hp as [Hp|Hp]; [by apply Hefrom|by apply Hnfrom]. }
          by apply (loadPlanById_references dir (plan_planId p) p). }
        destruct (resolveAllDependencies_spec dir _ Hrefs Hgiven Hnd0)
          as (added & -> & Hnd2 & Hadded & _).
        exists (existingPlans ++ validNew ++ added), (map plan_planId added).
        rewrite <- !app_assoc. split_and!; [done| |by rewrite app_assoc| |done].
        + by rewrite !map_app, <- app_assoc.
        + intros p [Hp|[Hp|Hp]%elem_of_app]%elem_of_app;
            [by apply Hefrom|by apply Hnfrom|by apply Hadded].
      - exists (existingPlans ++ validNew), []. rewrite app_nil_r.
        split_and!; try done.
        intros p [Hp|Hp]%elem_of_app; [by apply Hefrom|by apply Hnfrom]. }
    pose proof (plansToStackPlans_eq finalPlans Hfnd) as Htasks.
    pose proof (plansToStackPlans_wf finalPlans Hfnd) as Hwf.
    assert (plan_ids (plansToStackPlans finalPlans) = map plan_planId finalPlans) as Hpid.
    { rewrite Htasks. unfold plan_ids. rewrite map_map. by apply map_ext. }
    assert (plan_ids (map (keep_execution (stk_plans stack))
                        (plansToStackPlans finalPlans))
            = map plan_planId finalPlans) as Hkid.
    { rewrite <- Hpid. unfold plan_ids. rewrite map_map. apply map_ext.
      intros sp. apply keep_execution_structure. }
    eexists _, _, rest. split; [done|]. split; [apply lookup_insert_eq|].
    cbn [stk_plans stk_stackName stk_createdAt]. split_and!; try done.
    + split.
      * by rewrite Hkid.
      * intros sp' d (sp & -> & Hsp)%list_elem_of_fmap Hd. rewrite Hkid, <- Hpid.
        destruct (keep_execution_structure (stk_plans stack) sp) as [_ Hdeps].
        rewrite Hdeps in Hd. by apply (wf_sp_deps _ Hwf sp).
    + rewrite Hkid, Hfids, map_app, Heids, Hnids. by rewrite <- app_assoc.
    + intros sp' (sp & -> & Hsp)%list_elem_of_fmap.
      destruct (keep_execution_structure (stk_plans stack) sp) as [Hid' Hdeps].
      rewrite Hid', Hdeps, Hkid. rewrite Htasks in Hsp.
      apply list_elem_of_fmap in Hsp as (p & -> & Hp). cbn [sp_planId sp_dependsOnPlanIds].
      split; [exists p; split; [by apply Hffrom|done]|].
      unfold keep_execution. cbn [sp_planId].
      by destruct (find_plan (plan_planId p) (stk_plans stack)).
Qed.

(** ** Wiki links *)

Lemma span_link_append name rest :
  ¬ occurs close_bracket name →
  span_link (name +:+ String close_bracket rest) = (name, String close_bracket rest).
Proof.
  induction name as [|c name IH]; intros Hno.
  - change (EmptyString +:+ String close_bracket rest) with (String close_bracket rest).
    cbn [span_link]. by destruct (decide (close_bracket = close_bracket)).
  - change (String c name +:+ String close_bracket rest)
      with (String c (name +:+ String close_bracket rest)).
    cbn [span_link].
    destruct (decide (c = close_bracket)) as [->|_]; [exfalso; apply Hno; by left|].
    rewrite IH by (intros ?; apply Hno; by right). done.
Qed.

Lemma span_link_clean s : ¬ occurs close_bracket (span_link s).1.
Proof.
  induction s as [|c s IH]; [intros []|].
  cbn [span_link]. destruct (decide (c = close_bracket)) as [Hc|Hc]; [intros []|].
  cbn [fst occurs]. intros [?|?]; [done|by apply IH].
Qed.

Lemma span_link_rest s :
  ¬ occurs close_bracket s → (span_link s).2 = EmptyString.
Proof.
  induction s as [|c s IH]; [done|]. intros Hno.
  cbn [span_link].
  destruct (decide (c = close_bracket)) as [->|_]; [exfalso; apply Hno; by left|].
  cbn [snd]. apply IH. intros ?. apply Hno. by right.
Qed.

Lemma link_here_clean s name : link_here s = Some name → ¬ occurs close_bracket name.
Proof.
  unfold link_here. destruct s as [|c1 [|c2 rest]]; try done.
  case_decide; [|done].
  destruct (span_link rest).1 eqn:H1; [done|].
  destruct (span_link rest).2 as [|d1 [|d2 ?]]; try done.
  case_decide; [|done]. intros [= <-]. rewrite <- H1. apply span_link_clean.
Qed.

Lemma match_link_clean s name : match_link s = Some name → ¬ occurs close_bracket name.
Proof.
  induction s as [|c s IH]; [done|].
  cbn [match_link]. destruct (link_here (String c s)) as [n|] eqn:Hl.
  - intros [= <-]. by eapply link_here_clean.
  - apply IH.
Qed.

Lemma match_link_none s : ¬ occurs close_bracket s → match_link s = None.
Proof.
  induction s as [|c s IH]; intros Hno; [done|].
  assert (link_here (String c s) = None) as Hl.
  { unfold link_here. destruct s as [|c2 rest]; [done|].
    case_decide; [|done].
    assert ((span_link rest).2 = EmptyString) as ->; [|by destruct (span_link rest).1].
    apply span_link_rest. intros ?. apply Hno. right. by right. }
  cbn [match_link]. rewrite Hl. apply IH. intros ?. apply Hno. by right.
Qed.

Lemma match_link_skip pre s :
  ¬ occurs open_bracket pre → match_link (pre +:+ s) = match_link s.
Proof.
  induction pre as [|c pre IH]; intros Hno; [done|].
  change (String c pre +:+ s) with (String c (pre +:+ s)).
  assert (link_here (String c (pre +:+ s)) = None) as Hl.
  { unfold link_here. destruct (pre +:+ s) as [|c2 rest]; [done|].
    rewrite decide_False; [done|]. intros [-> _]. apply Hno. by left. }
  cbn [match_link]. rewrite Hl. apply IH. intros ?. apply Hno. by right.
Qed.

(** X23: [extractWikiLink] returns the name between the first pair of
    double brackets: for every non-empty name without a closing bracket,
    whatever follows the link and whatever precedes it without an opening
    bracket.  A string without a closing bracket is returned as it is; and
    the result of a match never contains a closing bracket, so extracting
    twice is extracting once. *)
Theorem extractWikiLink_name :
  (∀ pre name suf,
     name ≠ EmptyString → ¬ occurs close_bracket name → ¬ occurs open_bracket pre →
     extractWikiLink (pre +:+ "[[" +:+ name +:+ "]]" +:+ suf) = name) ∧
  (∀ s, ¬ occurs close_bracket s → extractWikiLink s = s) ∧
  (∀ s, extractWikiLink (extractWikiLink s) = extractWikiLink s) ∧
  parseWikiLinks None = [] ∧
  (∀ links, length (parseWikiLinks (Some links)) = length links).
Proof.
  split_and!.
  - intros pre name suf Hne Hclean Hpre. unfold extractWikiLink.
    rewrite match_link_skip by done.
    change ("[[" +:+ name +:+ "]]" +:+ suf)
      with (String open_bracket (String open_bracket
              (name +:+ String close_bracket (String close_bracket suf)))).
    cbn [match_link]. unfold link_here.
    rewrite decide_True by done. rewrite span_link_append by done. cbn [fst snd].
    destruct name as [|c name]; [done|].
    by destruct (decide (close_bracket = close_bracket ∧ close_bracket = close_bracket))
      as [_|[]].
  - intros s Hs. unfold extractWikiLink. rewrite match_link_none by done. reflexivity.
  - intros s. unfold extractWikiLink at 2 3.
    destruct (match_link s) as [name|] eqn:Hm; cbn [default].
    + unfold extractWikiLink. rewrite match_link_none; [done|].
      by eapply match_link_clean.
    + unfold extractWikiLink. by rewrite Hm.
  - done.
  - intros links. simpl. by rewrite length_map.
Qed.

Lemma extractWikiLink_name_witness :
  extractWikiLink ("see " +:+ "[[" +:+ "fix-login" +:+ "]]" +:+ " first") = "fix-login".
Proof.
  destruct extractWikiLink_name as [Hname _]. apply Hname.
  - discriminate.
  - vm_compute. intuition discriminate.
  - vm_compute. intuition discriminate.
Defined.

Example extractWikiLink_sample :
  parseWikiLinks (Some ["[[fix-login]]"; "see [[a]] and [[b]]"; "plain"; "[[]]"])
  = ["fix-login"; "a"; "plain"; "[[]]"].
Proof. vm_compute. reflexivity. Qed.

(** ** The stack record during a run *)

Lemma result_for_snoc_eq rs r p :
  res_planId r = p → result_for (rs ++ [r]) p = Some r.
Proof.
  intros Hp. unfold result_for. rewrite filter_app, filter_cons, decide_True by done.
  rewrite filter_nil. apply last_snoc.
Qed.

Lemma result_for_snoc_ne rs r p :
  res_planId r ≠ p → result_for (rs ++ [r]) p = result_for rs p.
Proof.
  intros Hp. unfold result_for. rewrite filter_app, filter_cons, decide_False by done.
  by rewrite filter_nil, app_nil_r.
Qed.

Lemma result_for_unique rs r :
  NoDup (map res_planId rs) → r ∈ rs → result_for rs (res_planId r) = Some r.
Proof.
  induction rs as [|r' rs IH] using rev_ind; intros Hnd Hr; [by apply elem_of_nil in Hr|].
  rewrite map_app in Hnd. apply NoDup_app in Hnd as (Hnd & Hdis & _).
  apply elem_of_app in Hr as [Hr|Hr].
  - rewrite result_for_snoc_ne; [by apply IH|].
    intros Heq. apply (Hdis (res_planId r)).
    + apply list_elem_of_fmap. by exists r.
    + apply list_elem_of_fmap. exists r'. split; [by symmetry|left].
  - apply list_elem_of_singleton in Hr as ->. by apply result_for_snoc_eq.
Qed.

Lemma result_for_None rs p :
  (∀ r, r ∈ rs → res_planId r ≠ p) → result_for rs p = None.
Proof.
  intros Hno. unfold result_for.
  assert (filter (fun r => res_planId r = p) rs = []) as ->; [|done].
  induction rs as [|r rs IH]; [done|]. rewrite filter_cons.
  rewrite decide_False by (apply Hno; left). apply IH. intros r' Hr'. apply Hno. by right.
Qed.

Section stack_record.
Context (env : Env) (stackName claudeCommand : string) (stack : Stack).

#[local] Abbreviation planIds := (map sp_planId (stk_plans stack)).
#[local] Abbreviation step := (exec_step env stackName claudeCommand stack planIds).
#[local] Abbreviation loop := (exec_loop env stackName claudeCommand stack planIds).
#[local] Abbreviation record_inv := (record_inv stackName stack).

(** [updateStackPlanStatus] on a world that satisfies the invariant. *)
Lemma updateStackPlanStatus_record rs planId updates w :
  record_inv rs w →
  ∃ w' stored stored',
    updateStackPlanStatus env stackName planId updates w = inr w' ∧
    stackFiles w !! stackName = Some stored ∧
    stackFiles w' !! stackName = Some stored' ∧
    stk_stackName stored' = stackName ∧
    stk_rootPlanIds stored' = stk_rootPlanIds stack ∧
    stk_createdAt stored' = stk_createdAt stack ∧
    Forall2 (tracks rs) (stk_plans stack) (stk_plans stored) ∧
    stk_plans stored'
    = map (fun sp => if decide (sp_planId sp = planId)
                     then apply_updates updates sp else sp) (stk_plans stored).
Proof.
  intros (stored & Hs & Hname & Hroots & Hcreated & Htracks).
  unfold updateStackPlanStatus, loadStack. rewrite Hs.
  eexists _, stored, _. split; [done|]. split; [done|]. cbn.
  rewrite Hname, lookup_insert_eq. split; [done|]. cbn. done.
Qed.

Lemma record_inv_ext rs w w' :
  stackFiles w' = stackFiles w → record_inv rs w → record_inv rs w'.
Proof. intros Heq (stored & Hs & H). exists stored. by rewrite Heq. Qed.

(** One iteration keeps the invariant and appends at most one result, for
    the task it processed. *)
Lemma exec_step_record st p st' :
  record_inv (ls_results st) (ls_world st) → step st p = inr st' →
  record_inv (ls_results st') (ls_world st') ∧
  (ls_results st' = ls_results st ∨
   ∃ r, ls_results st' = ls_results st ++ [r] ∧ res_planId r = p).
Proof.
  intros Hinv Hstep. unfold exec_step in Hstep.
  case_decide as Hin; [injection Hstep as <-; by split; [|left]|].
  destruct (hasUnmetDependencies stack p (ls_completedPlanIds st)).
  - set (w1 := updatePlanStatus env stackName planIds p skipped (Some skip_message)
                 None None (ls_world st)) in *.
    assert (record_inv (ls_results st) w1) as Hinv1.
    { eapply record_inv_ext; [|exact Hinv]. done. }
    destruct (updateStackPlanStatus_record _ p (status_only skipped) w1 Hinv1)
      as (w2 & stored & stored' & Hupd & Hs & Hs' & Hname & Hroots & Hcreated
          & Htracks & Hplans).
    rewrite Hupd in Hstep. injection Hstep as <-. cbn [ls_world ls_results].
    split; [|right; by eexists].
    exists stored'. split_and!; try done. rewrite Hplans.
    apply Forall2_fmap_r. eapply Forall2_impl; [exact Htracks|].
    intros sp sp' (Hid & Hdeps & Hres). unfold tracks, compose. cbn beta.
    destruct (decide (sp_planId sp' = p)) as [Hp|Hp].
    + split; [exact Hid|]. split; [exact Hdeps|].
      rewrite result_for_snoc_eq by (cbn; congruence).
      cbn. split; [done|]. by intros [].
    + split; [exact Hid|]. split; [exact Hdeps|].
      rewrite result_for_snoc_ne by (cbn; congruence). done.
  - set (w1 := updatePlanStatus env stackName planIds p running None None None
                 (ls_world st)) in *.
    assert (record_inv (ls_results st) w1) as Hinv1.
    { eapply record_inv_ext; [|exact Hinv]. done. }
    destruct (updateStackPlanStatus_record _ p (status_only running) w1 Hinv1)
      as (w2 & stored & stored' & Hupd & Hs & Hs' & Hname & Hroots & Hcreated
          & Htracks & Hplans).
    rewrite Hupd in Hstep.
    pose proof (executePlan_spec env p claudeCommand w2)
      as (_ & Hfiles & _ & _ & Hout).
    destruct (executePlan env p claudeCommand w2) as [w3 [message|result]];
      [done|].
    cbn [fst snd] in *. destruct Hout as [Hrid Hrst].
    set (w4 := updatePlanStatus env stackName planIds p (res_executionStatus result)
                 (res_errorMessage result) (res_exitCode result)
                 (Some (res_executionDurationMs result)) w3) in *.
    set (upd := {| upd_planId := None; upd_dependsOnPlanIds := None;
                   upd_executionStatus := Some (res_executionStatus result);
                   upd_lastExecutedAt := Some (Some (isoNow env w4));
                   upd_executionDurationMs :=
                     Some (Some (res_executionDurationMs result)) |}) in *.
    destruct (updateStackPlanStatus env stackName p upd (tick w4)) as [msg|w5] eqn:Hupd2;
      [done|].
    injection Hstep as <-. cbn [ls_world ls_results].
    split; [|right; by eexists].
    unfold updateStackPlanStatus, loadStack in Hupd2.
    assert (stackFiles (tick w4) !! stackName = Some stored') as Hs4.
    { change (stackFiles (tick w4)) with (stackFiles w3). by rewrite Hfiles. }
    rewrite Hs4 in Hupd2. injection Hupd2 as <-.
    eexists. cbn. rewrite Hname, lookup_insert_eq. split; [done|]. cbn.
    split_and!; try done. rewrite Hplans.
    apply Forall2_fmap_r, Forall2_fmap_r. eapply Forall2_impl; [exact Htracks|].
    intros sp sp' (Hid & Hdeps & Hres). unfold tracks, compose. cbn beta.
    destruct (decide (sp_planId sp' = p)) as [Hp|Hp].
    + cbn. rewrite decide_True by done. cbn.
      split; [exact Hid|]. split; [exact Hdeps|].
      rewrite result_for_snoc_eq by congruence.
      split; [done|]. intros _. split; [done|by eexists].
    + rewrite decide_False by done.
      split; [exact Hid|]. split; [exact Hdeps|].
      rewrite result_for_snoc_ne by congruence. done.
Qed.

Lemma exec_loop_record order st st' :
  record_inv (ls_results st) (ls_world st) → loop order st = inr st' →
  record_inv (ls_results st') (ls_world st') ∧
  ∃ rs, ls_results st' = ls_results st ++ rs ∧ sublist (map res_planId rs) order.
Proof.
  revert st. induction order as [|p order IH]; intros st Hinv Hloop.
  { injection Hloop as <-. split; [done|]. exists []. by rewrite app_nil_r. }
  cbn [exec_loop] in Hloop.
  destruct (step st p) as [|st1] eqn:Hstep; [done|].
  destruct (exec_step_record st p st1 Hinv Hstep) as [Hinv1 Hres].
  destruct (IH st1 Hinv1 Hloop) as (Hinv' & rs & Hrs & Hsub).
  split; [done|]. destruct Hres as [Heq|(r & Heq & Hid)].
  - exists rs. rewrite Hrs, Heq. split; [done|]. by apply sublist_cons.
  - exists (r :: rs). rewrite Hrs, Heq, <- app_assoc. split; [done|].
    cbn. rewrite Hid. by apply sublist_skip.
Qed.
End stack_record.

(** X24: when the stored stack record carries the name it is stored under,
    a run that is not a dry run keeps the record in step with its results:
    at the end the record has the same tasks with the same dependencies,
    in the same order; the task of every result carries the status of the
    result, and its duration and a time of execution when it was attempted;
    and every task without a result is exactly as it was.  No task has two
    results. *)
Theorem executeStack_stack_record
    env stackName fromPlanId claudeCommand w w' res stack :
  loadStack stackName w = Some stack → stk_stackName stack = stackName →
  executeStack env stackName false fromPlanId claudeCommand w = (w', inr res) →
  NoDup (map res_planId (results res)) ∧
  ∃ stack',
    loadStack stackName w' = Some stack' ∧
    stk_stackName stack' = stackName ∧
    stk_rootPlanIds stack' = stk_rootPlanIds stack ∧
    stk_createdAt stack' = stk_createdAt stack ∧
    Forall2 (fun sp sp' =>
               sp_planId sp' = sp_planId sp ∧
               sp_dependsOnPlanIds sp' = sp_dependsOnPlanIds sp ∧
               (∀ r, r ∈ results res → res_planId r = sp_planId sp →
                  sp_executionStatus sp' = res_executionStatus r ∧
                  (res_executionStatus r ≠ skipped →
                   sp_executionDurationMs sp' = Some (res_executionDurationMs r) ∧
                   is_Some (sp_lastExecutedAt sp'))) ∧
               ((∀ r, r ∈ results res → res_planId r ≠ sp_planId sp) → sp' = sp))
            (stk_plans stack) (stk_plans stack').
Proof.
  intros Hs Hname Hrun. unfold executeStack in Hrun. rewrite Hs in Hrun.
  destruct (hasCycle (getExecutionOrder (stk_plans stack))); [done|].
  destruct (run_plans _ _ _ _ _ _) as [[? ?]|st] eqn:Hloop; [done|].
  injection Hrun as <- <-. cbn [results].
  unfold run_plans in Hloop.
  apply exec_loop_record in Hloop as (Hinv & rs & Hrs & Hsub).
  - cbn [ls_results app] in Hrs.
    assert (NoDup (map res_planId (ls_results st))) as Hnd.
    { rewrite Hrs. eapply sublist_NoDup; [|exact Hsub]. apply truncate_order_NoDup. }
    split; [done|].
    destruct Hinv as (stored & Hst & Hn & Hroots & Hcreated & Htracks).
    exists stored. split; [exact Hst|]. split_and!; try done.
    eapply Forall2_impl; [exact Htracks|].
    intros sp sp' (Hid & Hdeps & Hres). split_and!; [done..| |].
    + intros r Hr Hrid. rewrite <- Hrid, (result_for_unique _ r Hnd Hr) in Hres. done.
    + intros Hno. by rewrite (result_for_None _ _ Hno) in Hres.
  - cbn [ls_results ls_world]. exists stack. split_and!; try done.
    apply Forall_Forall2_diag, Forall_forall. intros sp _. by split_and!.
Qed.

Lemma executeStack_stack_record_witness :
  NoDup (map res_planId
           (results (returned (executeStack env_A_fails "s" false None "claude"
                                 chain_world)))) ∧
  ∃ stack',
    loadStack "s" (executeStack env_A_fails "s" false None "claude" chain_world).1
    = Some stack' ∧
    stk_stackName stack' = "s".
Proof.
  destruct (executeStack_stack_record env_A_fails "s" None "claude" chain_world
              (executeStack env_A_fails "s" false None "claude" chain_world).1
              (returned (executeStack env_A_fails "s" false None "claude" chain_world))
              (mkStack "s" [mkSP "A" []; mkSP "B" ["A"]; mkSP "C" ["B"]; mkSP "D" []]))
    as (Hnd & stack' & Hs & Hn & _).
  - reflexivity.
  - reflexivity.
  - vm_compute. reflexivity.
  - split; [exact Hnd|]. exists stack'. by split.
Defined.

Example executeStack_stack_record_sample :
  (map sp_executionStatus ∘ stk_plans) <$>
    loadStack "s" (executeStack env_A_fails "s" false None "claude" chain_world).1
  = Some [failed; skipped; skipped; completed].
Proof. vm_compute. reflexivity. Qed.

(** ** The tree of the [ls] command *)

Lemma all_nodes_Forall P l : all_nodes P l ↔ Forall P l.
Proof.
  induction l as [|n l IH]; cbn [all_nodes]; [by split; [constructor|]|].
  rewrite Forall_cons. by rewrite IH.
Qed.

Lemma elem_of_concat {A} (x : A) (ls : list (list A)) :
  x ∈ concat ls ↔ ∃ l, x ∈ l ∧ l ∈ ls.
Proof.
  induction ls as [|l ls IH]; cbn [concat].
  - split; [by intros ?%elem_of_nil|by intros (l & _ & ?%elem_of_nil)].
  - rewrite elem_of_app, IH. split.
    + intros [Hx|(l' & Hx & Hl')]; [exists l; split; [done|left]|].
      exists l'. split; [done|by right].
    + intros (l' & Hx & [->|Hl']%elem_of_cons); [by left|]. right. by exists l'.
Qed.

Lemma planMap_keys stackPlans planId :
  is_Some (JsMap.get planId (planMap stackPlans)) ↔ planId ∈ plan_ids stackPlans.
Proof.
  rewrite get_Some_keys. unfold planMap, plan_ids.
  assert (∀ m : list (string * StackPlan),
            planId ∈ JsMap.keys (foldl (fun m p => JsMap.set (sp_planId p) p m) m stackPlans)
            ↔ planId ∈ JsMap.keys m ∨ planId ∈ map sp_planId stackPlans) as H.
  { induction stackPlans as [|p ps IH]; intros m; cbn [foldl map].
    - rewrite elem_of_nil. tauto.
    - rewrite IH, elem_of_keys_set, elem_of_cons. tauto. }
  rewrite H. cbn. rewrite elem_of_nil. tauto.
Qed.

(** Every entry of the reverse mapping is a declared dependency. *)
Lemma dependentMap_sound stackPlans k l x :
  JsMap.get k (dependentMap stackPlans) = Some l → x ∈ l →
  depends_on stackPlans x k.
Proof.
  unfold dependentMap.
  set (Inv := fun m : list (string * list string) =>
                ∀ k l x, JsMap.get k m = Some l → x ∈ l → depends_on stackPlans x k).
  assert (∀ ps m, (∀ p, p ∈ ps → p ∈ stackPlans) → Inv m →
            Inv (foldl (fun m plan =>
                          foldl (fun m depId =>
                                   JsMap.set depId
                                     (default [] (JsMap.get depId m) ++ [sp_planId plan]) m)
                                m (sp_dependsOnPlanIds plan)) m ps)) as Houter.
  { induction ps as [|plan ps IH]; intros m Hps Hm; [done|]. cbn [foldl].
    apply IH; [intros p Hp; apply Hps; by right|].
    assert (plan ∈ stackPlans) as Hplan by (apply Hps; left).
    assert (∀ ds m, (∀ d, d ∈ ds → d ∈ sp_dependsOnPlanIds plan) → Inv m →
              Inv (foldl (fun m depId =>
                            JsMap.set depId
                              (default [] (JsMap.get depId m) ++ [sp_planId plan]) m)
                         m ds)) as Hinner.
    { clear IH Hm m. induction ds as [|d ds IHd]; intros m Hds Hm; [done|].
      cbn [foldl]. apply IHd; [intros d' Hd'; apply Hds; by right|].
      intros k' l' x' Hget Hx'.
      destruct (decide (k' = d)) as [->|Hne].
      - rewrite get_set_eq in Hget. injection Hget as <-.
        apply elem_of_app in Hx' as [Hx'|Hx'].
        + destruct (JsMap.get d m) as [old|] eqn:Hold; [|by apply elem_of_nil in Hx'].
          by eapply Hm.
        + apply list_elem_of_singleton in Hx' as ->.
          exists plan. split_and!; [done..|]. apply Hds. left.
      - rewrite get_set_ne in Hget by done. by eapply Hm. }
    by apply Hinner. }
  intros Hget Hx. eapply (Houter stackPlans []); [done| |exact Hget|exact Hx].
  intros ? ? ? [=].
Qed.

Section map_nodes.
Context (rec : string → gset string → option (option TreeNode * gset string)).

Lemma map_nodes_total ids shown :
  (∀ id shown, is_Some (rec id shown)) → is_Some (map_nodes rec ids shown).
Proof.
  intros Hrec. revert shown. induction ids as [|id ids IH]; intros shown; [by eexists|].
  cbn [map_nodes]. destruct (Hrec id shown) as [[node shown1] ->].
  destruct (IH shown1) as [[nodes shown2] ->]. by eexists.
Qed.

(** The nodes returned are those the calls returned, in order; the shared
    set grows by the ids they show. *)
Lemma map_nodes_spec (Q : string → TreeNode → Prop) ids shown nodes shown' :
  (∀ id shown r shown', id ∈ ids → rec id shown = Some (r, shown') →
     match r with
     | Some n => Q id n ∧ shown' ≡ shown ∪ list_to_set (tree_ids n)
     | None => shown' = shown
     end) →
  map_nodes rec ids shown = Some (nodes, shown') →
  Forall (fun n => ∃ id, id ∈ ids ∧ Q id n) nodes ∧
  shown' ≡ shown ∪ list_to_set (concat (map tree_ids nodes)).
Proof.
  revert shown nodes shown'.
  induction ids as [|id ids IH]; intros shown nodes shown' Hrec Hmap.
  { injection Hmap as <- <-. split; [constructor|]. cbn. set_solver. }
  cbn [map_nodes] in Hmap.
  destruct (rec id shown) as [[node shown1]|] eqn:Hid; [|done].
  destruct (map_nodes rec ids shown1) as [[nodes' shown2]|] eqn:Hrest; [|done].
  injection Hmap as <- <-.
  pose proof (Hrec id shown node shown1 ltac:(left) Hid) as Hnode.
  destruct (IH shown1 nodes' shown2) as [Hall Hshown]; [|done|].
  { intros id' s r s' Hin. apply Hrec. by right. }
  assert (Forall (fun n => ∃ id0, id0 ∈ id :: ids ∧ Q id0 n) nodes') as Hall'.
  { eapply Forall_impl; [exact Hall|]. intros n (id' & Hin & HQ).
    exists id'. split; [by right|done]. }
  destruct node as [n|].
  - destruct Hnode as [HQ Hs1]. split.
    + constructor; [|done]. exists id. split; [left|done].
    + cbn [map concat]. rewrite list_to_set_app. rewrite Hshown, Hs1. set_solver.
  - subst shown1. by split.
Qed.
End map_nodes.

Section build_tree.
Context (stackPlans : list StackPlan) (planTitles : gmap string string)
        (statuses : gmap string ExecutionStatus).

#[local] Abbreviation build := (buildNode stackPlans planTitles statuses).
#[local] Abbreviation roots_loop := (build_roots stackPlans planTitles statuses).
#[local] Abbreviation ok := (node_ok stackPlans planTitles statuses).

Lemma buildNode_total fuel planId visited depth shown :
  0 < fuel → tree_fuel ≤ fuel + depth →
  is_Some (build fuel planId visited depth shown).
Proof.
  revert planId visited depth shown.
  induction fuel as [|fuel IH]; intros planId visited depth shown Hpos Hfuel; [lia|].
  cbn [buildNode].
  destruct (decide (planId ∈ visited)); [by eexists|].
  destruct (decide (MAX_TREE_DEPTH < depth)) as [|Hdepth]; [by eexists|].
  destruct (JsMap.get planId (planMap stackPlans)); [|by eexists].
  unfold tree_fuel in Hfuel.
  edestruct (map_nodes_total
               (fun depId shown0 =>
                  build fuel depId ({[planId]} ∪ visited) (S depth) shown0))
    as [[children shown'] ->]; [|by eexists].
  intros id shown0. apply IH; unfold tree_fuel; lia.
Qed.

Lemma buildNode_spec fuel planId visited depth shown r shown' ancestors :
  (∀ a, a ∈ ancestors → a ∈ visited) →
  build fuel planId visited depth shown = Some (r, shown') →
  match r with
  | Some n => (tn_planId n = planId ∧ ok ancestors depth n) ∧
              shown' ≡ shown ∪ list_to_set (tree_ids n)
  | None => shown' = shown
  end.
Proof.
  revert planId visited depth shown r shown' ancestors.
  induction fuel as [|fuel IH];
    intros planId visited depth shown r shown' ancestors Hanc Hbuild; [done|].
  cbn [buildNode] in Hbuild.
  destruct (decide (planId ∈ visited)) as [|Hvisited]; [by injection Hbuild as <- <-|].
  destruct (decide (MAX_TREE_DEPTH < depth)) as [|Hdepth];
    [by injection Hbuild as <- <-|].
  destruct (JsMap.get planId (planMap stackPlans)) as [plan|] eqn:Hplan;
    [|by injection Hbuild as <- <-].
  destruct (map_nodes _ _ _) as [[children shown1]|] eqn:Hmap; [|done].
  injection Hbuild as <- <-.
  apply (map_nodes_spec _
           (fun id n => tn_planId n = id ∧ ok (planId :: ancestors) (S depth) n))
    in Hmap as [Hall Hshown].
  - split; [|cbn [tree_ids]; rewrite Hshown; set_solver].
    split; [done|]. cbn [node_ok]. split_and!; try done.
    + lia.
    + apply planMap_keys. by eexists.
    + intros Ha. by apply Hvisited, Hanc.
    + apply all_nodes_Forall. eapply Forall_impl; [exact Hall|].
      intros n (id & [_ Hid]%list_elem_of_filter & Hn & Hok). split; [|done].
      rewrite Hn.
      destruct (JsMap.get planId (dependentMap stackPlans)) as [l|] eqn:Hdep;
        [|by apply elem_of_nil in Hid].
      by eapply dependentMap_sound.
  - intros id shown0 r0 shown0' _ Hrec.
    apply (IH _ _ _ _ _ _ (planId :: ancestors)) in Hrec; [done|].
    intros a [->|Ha]%elem_of_cons; set_solver.
Qed.

(** The ids of the trees built so far are exactly the ids shown. *)
Lemma build_roots_spec fuel rootPlanIds shown trees res (R : list string) :
  Forall (ok [] 0) trees → NoDup (map tn_planId trees) →
  shown ≡ list_to_set (concat (map tree_ids trees)) →
  (∀ t, t ∈ trees → tn_planId t ∈ R) → (∀ x, x ∈ rootPlanIds → x ∈ R) →
  roots_loop fuel rootPlanIds shown trees = Some res →
  Forall (ok [] 0) res ∧ NoDup (map tn_planId res) ∧
  (∀ t, t ∈ res → tn_planId t ∈ R) ∧
  (∀ x, x ∈ concat (map tree_ids trees) → x ∈ concat (map tree_ids res)) ∧
  (∀ x, x ∈ rootPlanIds → x ∈ plan_ids stackPlans → 0 < fuel →
        x ∈ concat (map tree_ids res)).
Proof.
  revert shown trees.
  induction rootPlanIds as [|rootId rest IH];
    intros shown trees Hok Hnd Hshown Hsub Hroots Hloop.
  { injection Hloop as <-. split_and!; try done. by intros x ?%elem_of_nil. }
  cbn [build_roots] in Hloop.
  assert (∀ x, x ∈ rest → x ∈ R) as Hrest by (intros x Hx; apply Hroots; by right).
  destruct (decide (rootId ∈ shown)) as [Hin|Hin].
  { destruct (IH shown trees Hok Hnd Hshown Hsub Hrest Hloop)
      as (H1 & H2 & H3 & H4 & H5).
    split_and!; try done.
    intros x [->|Hx]%elem_of_cons Htask Hfuel; [|by apply H5].
    apply H4. rewrite Hshown in Hin. by apply elem_of_list_to_set in Hin. }
  destruct (build fuel rootId ∅ 0 shown) as [[node shown1]|] eqn:Hbuild; [|done].
  pose proof (buildNode_spec _ _ _ _ _ _ _ [] ltac:(by intros a ?%elem_of_nil) Hbuild)
    as Hnode.
  destruct node as [n|].
  - destruct Hnode as [[Hid Hn] Hshown1].
    destruct (IH shown1 (trees ++ [n])) as (H1 & H2 & H3 & H4 & H5); try done.
    + apply Forall_app. split; [done|]. by constructor.
    + rewrite map_app. apply NoDup_app. split_and!; [done| |apply NoDup_singleton].
      intros x Hx ->%list_elem_of_singleton. apply Hin. rewrite Hshown.
      apply elem_of_list_to_set. apply list_elem_of_fmap in Hx as (t & Ht & Hin').
      apply elem_of_concat. exists (tree_ids t). split.
      * rewrite <- Hid, Ht. destruct t. cbn. left.
      * apply list_elem_of_fmap. by exists t.
    + rewrite map_app, concat_app, list_to_set_app, <- Hshown, Hshown1. cbn.
      rewrite app_nil_r. done.
    + intros t [Ht| ->%list_elem_of_singleton]%elem_of_app; [by apply Hsub|].
      rewrite Hid. apply Hroots. left.
    + assert (∀ x, x ∈ concat (map tree_ids (trees ++ [n])) ↔
                   x ∈ concat (map tree_ids trees) ∨ x ∈ tree_ids n) as Happ.
      { intros x. rewrite map_app, concat_app, elem_of_app. cbn. by rewrite app_nil_r. }
      split_and!; try done.
      * intros x Hx. apply H4, Happ. by left.
      * intros x [->|Hx]%elem_of_cons Htask Hfuel; [|by apply H5].
        apply H4, Happ. right. rewrite <- Hid. destruct n. cbn. left.
  - subst shown1.
    destruct (IH shown trees Hok Hnd Hshown Hsub Hrest Hloop)
      as (H1 & H2 & H3 & H4 & H5).
    split_and!; try done.
    intros x [->|Hx]%elem_of_cons Htask Hfuel; [|by apply H5].
    exfalso. destruct fuel as [|fuel]; [lia|]. cbn [buildNode] in Hbuild.
    rewrite decide_False in Hbuild by set_solver.
    rewrite decide_False in Hbuild by (unfold MAX_TREE_DEPTH; lia).
    apply planMap_keys in Htask as [plan Hplan]. rewrite Hplan in Hbuild.
    by destruct (map_nodes _ _ _) as [[? ?]|].
Qed.

Lemma build_roots_total fuel rootPlanIds shown trees :
  tree_fuel ≤ fuel → is_Some (roots_loop fuel rootPlanIds shown trees).
Proof.
  intros Hfuel. revert shown trees.
  induction rootPlanIds as [|rootId rest IH]; intros shown trees; [by eexists|].
  cbn [build_roots]. case_decide; [apply IH|].
  destruct (buildNode_total fuel rootId ∅ 0 shown) as [[node shown1] ->];
    [unfold tree_fuel in Hfuel; lia|lia|].
  apply IH.
Qed.
End build_tree.


Example buildTree_diamond :
  (map tree_ids <$> buildTree diamond ["A"] ∅ ∅)
  = Some [["A"; "B"; "D"; "C"; "D"]].
Proof. vm_compute. reflexivity. Qed.

Example buildTree_cycle :
  (map tree_ids <$> buildTree [mkSP "A" ["B"]; mkSP "B" ["A"]] ["A"; "B"] ∅ ∅)
  = Some [["A"; "B"]].
Proof. vm_compute. reflexivity. Qed.

(** ** The summaries of the [status] and [ls] commands *)

Lemma length_filter_all {A} (P : A → Prop) `{!∀ x, Decision (P x)} (l : list A) :
  length (filter P l) = length l ↔ Forall P l.
Proof.
  induction l as [|x l IH]; [by split; [constructor|]|].
  rewrite filter_cons, Forall_cons. pose proof (length_filter P l) as Hle.
  destruct (decide (P x)) as [HP|HP]; cbn [length].
  - rewrite <- IH. split; [intros [= ?]; by split|intros [_ ->]; done].
  - split; [lia|tauto].
Qed.

Lemma count_by_status (l : list PlanExecutionStatus) :
  length (filter (fun ps => pes_executionStatus ps = pending) l)
  + length (filter (fun ps => pes_executionStatus ps = running) l)
  + length (filter (fun ps => pes_executionStatus ps = completed) l)
  + length (filter (fun ps => pes_executionStatus ps = failed) l)
  + length (filter (fun ps => pes_executionStatus ps = skipped) l)
  = length l.
Proof.
  induction l as [|ps l IH]; [done|]. rewrite !filter_cons.
  destruct (pes_executionStatus ps); repeat case_decide; try done; cbn [length]; lia.
Qed.

Lemma no_stale_status_check_sound stack w :
  no_stale_status_check stack w = true → no_stale_status stack w.
Proof.
  unfold no_stale_status_check, no_stale_status. intros Hcheck st p Hst Hp.
  rewrite Hst in Hcheck. apply bool_decide_eq_true in Hcheck.
  apply elem_of_dom in Hp. apply Hcheck in Hp. by apply elem_of_list_to_set in Hp.
Qed.

(** Without stale entries, and without a task named as an inherited
    property, the record that is loaded has one entry per task. *)
Lemma loadStackStatus_entries stack w p :
  (∀ x, x ∈ plan_ids (stk_plans stack) → ¬ inherited x) →
  no_stale_status stack w →
  is_Some (planStatuses (loadStackStatus (stk_stackName stack)
                           (plan_ids (stk_plans stack)) w) !! p)
  ↔ p ∈ plan_ids (stk_plans stack).
Proof.
  intros Hinh Hstale. unfold loadStackStatus.
  destruct (statusFiles w !! stk_stackName stack) as [st|] eqn:Hst.
  - cbn [planStatuses]. rewrite backfill_lookup. specialize (Hstale st p Hst).
    destruct (planStatuses st !! p) as [ps|].
    + split; [intros _; apply Hstale; by eexists|by eexists].
    + case_decide as Hin; split; intros H.
      * by destruct Hin.
      * by eexists.
      * by destruct H.
      * destruct Hin. split; [done|by apply Hinh].
  - rewrite createDefaultStatus_lookup.
    case_decide as Hin; split; intros H; first [done|by eexists|by destruct H].
Qed.

(** X26: when the ids of the stack are distinct, none of them is a name
    inherited from [Object.prototype], and the status file has entries for
    tasks of the stack only, the five counts the [status] command prints
    add up to the number of tasks, and the list of [ls] reports a stack
    that is not running as completed exactly when every task is
    [completed]. *)
Theorem status_counts_total stack w :
  NoDup (plan_ids (stk_plans stack)) →
  (∀ p, p ∈ plan_ids (stk_plans stack) → ¬ inherited p) →
  no_stale_status stack w →
  count_entries pending
    (loadStackStatus (stk_stackName stack) (plan_ids (stk_plans stack)) w)
  + count_entries running
      (loadStackStatus (stk_stackName stack) (plan_ids (stk_plans stack)) w)
  + count_entries completed
      (loadStackStatus (stk_stackName stack) (plan_ids (stk_plans stack)) w)
  + count_entries failed
      (loadStackStatus (stk_stackName stack) (plan_ids (stk_plans stack)) w)
  + count_entries skipped
      (loadStackStatus (stk_stackName stack) (plan_ids (stk_plans stack)) w)
  = length (stk_plans stack) ∧
  (list_status_text stack w = TextCompleted ↔
   isRunning (loadStackStatus (stk_stackName stack) (plan_ids (stk_plans stack)) w)
   = false ∧
   ∀ p, p ∈ plan_ids (stk_plans stack) →
        status_of (read_status (stk_stackName stack) (plan_ids (stk_plans stack)) w p)
        = Some completed).
Proof.
  intros Hnd Hinh Hstale.
  pose proof (fun p => loadStackStatus_entries stack w p Hinh Hstale) as Hdom.
  unfold list_status_text, read_status, count_entries.
  change (map sp_planId (stk_plans stack)) with (plan_ids (stk_plans stack)).
  set (status := loadStackStatus (stk_stackName stack) (plan_ids (stk_plans stack)) w)
    in *.
  assert (length (map snd (map_to_list (planStatuses status)))
          = length (stk_plans stack)) as Hlen.
  { rewrite length_map, length_map_to_list, <- (size_dom (D := gset string)).
    assert (dom (planStatuses status) = list_to_set (plan_ids (stk_plans stack)))
      as ->.
    { apply set_eq. intros p. rewrite elem_of_dom, elem_of_list_to_set. apply Hdom. }
    rewrite size_list_to_set by done. unfold plan_ids. by rewrite length_map. }
  split; [by rewrite count_by_status|].
  assert (Forall (fun ps => pes_executionStatus ps = completed)
            (map snd (map_to_list (planStatuses status)))
          ↔ ∀ p, p ∈ plan_ids (stk_plans stack) →
                 status_of (planStatuses status !! p) = Some completed) as Hall.
  { rewrite Forall_forall. split.
    - intros Hf p Hp. apply Hdom in Hp as [ps Hps]. rewrite Hps. cbn. f_equal.
      apply Hf. apply list_elem_of_fmap. exists (p, ps). split; [done|].
      by apply elem_of_map_to_list.
    - intros Hf ps Hps. apply list_elem_of_fmap in Hps as ([p ps'] & -> & Hin).
      apply elem_of_map_to_list in Hin. cbn.
      assert (p ∈ plan_ids (stk_plans stack)) as Hp by (apply Hdom; by eexists).
      specialize (Hf p Hp). rewrite Hin in Hf. by injection Hf. }
  rewrite <- Hall, <- length_filter_all, Hlen.
  destruct (isRunning status); [split; [done|by intros [? _]]|].
  case_decide; split; try done; [by intros [_ ?]].
Qed.

Lemma status_counts_total_witness :
  count_entries pending (loadStackStatus "s" ["A"; "B"] retry_world)
  + count_entries running (loadStackStatus "s" ["A"; "B"] retry_world)
  + count_entries completed (loadStackStatus "s" ["A"; "B"] retry_world)
  + count_entries failed (loadStackStatus "s" ["A"; "B"] retry_world)
  + count_entries skipped (loadStackStatus "s" ["A"; "B"] retry_world)
  = 2.
Proof.
  destruct (status_counts_total (mkStack "s" [mkSP "A" []; mkSP "B" []]) retry_world)
    as [Hsum _].
  - by_evaluation.
  - apply Forall_forall. by_evaluation.
  - apply no_stale_status_check_sound. vm_compute. reflexivity.
  - exact Hsum.
Defined.

(** A task named [constructor] never gets an entry in a stored record
    that lacks one, so it is in none of the five counts. *)
Example inherited_name_not_counted :
  let stack := mkStack "s" [mkSP "constructor" []; mkSP "A" []] in
  let w := {| stackFiles := {[ "s" := stack ]};
              statusFiles := {[ "s" := {| ses_stackName := "s"; planStatuses := ∅;
                                          lastRunAt := None; isRunning := false |} ]};
              clockReads := 0; launches := 0; trace := [] |} in
  count_entries pending (loadStackStatus "s" (plan_ids (stk_plans stack)) w) = 1 ∧
  length (stk_plans stack) = 2.
Proof. split; vm_compute; reflexivity. Qed.

(** The status of a removed task stays on file and is counted: with ["A"]
    completed, ["B"] pending and the stale entry of ["Z"], the stack is
    reported as completed. *)
Example stale_entry_counted :
  list_status_text (mkStack "s" [mkSP "A" []; mkSP "B" []]) stale_world = TextCompleted ∧
  status_of (read_status "s" ["A"; "B"] stale_world "B") = Some pending.
Proof. split; vm_compute; reflexivity. Qed.

(** ** Concrete instances of the stack operations *)

Lemma removePlansFromStack_removes_witness :
  ∃ w' stack',
    removePlansFromStack env_all_pass sample_dir "s" ["A"] fresh_world
    = inr (w', stack') ∧
    plan_ids (stk_plans stack') = ["B"; "C"].
Proof.
  pose proof (removePlansFromStack_removes env_all_pass sample_dir "s" ["A"]
                fresh_world) as H.
  assert (loadStack "s" fresh_world
          = Some (mkStack "s" [mkSP "A" []; mkSP "B" ["A"]; mkSP "C" []])) as Hs
    by (vm_compute; reflexivity).
  rewrite Hs in H. destruct H as [_ H].
  destruct H as (w' & stack' & Heq & _ & _ & _ & Hids & _).
  - exists (mkSP "B" ["A"]). split; [|by_evaluation].
    apply elem_of_cons. right. apply elem_of_cons. by left.
  - exists w', stack'. split; [exact Heq|]. rewrite Hids. vm_compute. reflexivity.
Defined.

Lemma addPlansToStack_adds_witness :
  ∃ w' stack',
    addPlansToStack env_all_pass sample_dir "s" ["S"; "R"; "ghost"] false
      (mkWorld (mkStack "s" [mkSP "R" []]) None)
    = Some (inr (w', stack')) ∧
    plan_ids (stk_plans stack') = ["R"; "S"].
Proof.
  pose proof (addPlansToStack_adds env_all_pass sample_dir "s" ["S"; "R"; "ghost"]
                false (mkWorld (mkStack "s" [mkSP "R" []]) None)) as H.
  assert (loadStack "s" (mkWorld (mkStack "s" [mkSP "R" []]) None)
          = Some (mkStack "s" [mkSP "R" []])) as Hs
    by (vm_compute; reflexivity).
  rewrite Hs in H. destruct H as [_ H].
  destruct H as (w' & stack' & rest & Heq & _ & _ & _ & _ & _ & Hids & Hrest & _).
  - apply plain_references_check_sound. vm_compute. reflexivity.
  - apply Forall_forall. by_evaluation.
  - by_evaluation.
  - apply Forall_forall. by_evaluation.
  - by_evaluation.
  - exists "S". split_and!; [by_evaluation|by_evaluation|]. vm_compute. by eexists.
  - exists w', stack'. split; [exact Heq|]. rewrite Hids, (Hrest eq_refl).
    vm_compute. reflexivity.
Defined.
